(** * cbgt: planner, consistency waiter, alias resolution, rebalancer

    A shallow embedding of the cluster-coordination core of cbgt
    (planner split and naming, plan-frozen and unknown-type handling,
    the vlite consistency-wait queue, alias resolution, the rebalancer's
    assignment step, and the pindex path helpers), with the properties
    of its specification stated and settled over that embedding, and
    further properties of the same code (the nodes layout, the vlite
    store calls, queries and counts, the string and version helpers).

    Conventions.
    - Go [string] is Rocq [string] (a sequence of bytes); [uint64]
      sequence numbers are [N] (they are only compared and copied, never
      added, so no wrap-around arises), while the [uint64] counters that
      the code adds to wrap around through [uint64]; Go [int] is [Z]
      where its sign matters and [nat] for slice lengths and indices.
    - Go maps are [gmap]s; where the code ranges over a map, the order of
      the range is an explicit list, quantified over in the theorems.
    - Pointers to shared mutable objects (partitions, channels) are
      indices into a store held by the state.
    - A run-time panic (a slice expression out of range, a nil map
      entry dereferenced) is the [None] of an [option] result.
    - Collaborators whose code lives outside the repository (the data
      source helper, the placement library, the configuration store,
      JSON decoding) are fields of an environment class. *)

From Stdlib Require Import String Ascii NArith ZArith List Lia Bool ZifyNat.
From Stdlib Require Import HexadecimalString Hexadecimal.
From stdpp Require Import gmap strings list fin_maps sorting.

Local Open Scope Z_scope.
Local Open Scope nat_scope.

(* ================================================================== *)
(** * Part I: the embedding                                             *)
(* ================================================================== *)

(** ** Go string helpers (package strings) *)

(** [s[from:]] for [from <= len(s)]. *)
Definition str_from (from : nat) (s : string) : string :=
  substring from (String.length s - from) s.

(** [strings.HasPrefix(s, prefix)]:
    [len(s) >= len(prefix) && s[0:len(prefix)] == prefix]. *)
Definition HasPrefix (s pre : string) : bool :=
  (String.length pre <=? String.length s) &&
  String.eqb (substring 0 (String.length pre) s) pre.

(** [strings.HasSuffix(s, suffix)]:
    [len(s) >= len(suffix) && s[len(s)-len(suffix):] == suffix]. *)
Definition HasSuffix (s suf : string) : bool :=
  (String.length suf <=? String.length s) &&
  String.eqb (str_from (String.length s - String.length suf) s) suf.

(** [strings.Join(elems, sep)]. *)
Definition Join (elems : list string) (sep : string) : string :=
  String.concat sep elems.

(** ** pindex.go: partition directory paths *)

Class GoOS := { PathSeparator : ascii }.

Definition pindexPathSuffix : string := ".pindex".

Section PIndexPaths.
Context `{GoOS}.

(** [string(os.PathSeparator)] *)
Definition sepString : string := String PathSeparator EmptyString.

Definition PIndexPath (dataDir pindexName : string) : string :=
  dataDir +:+ sepString +:+ pindexName +:+ pindexPathSuffix.

(** The result is [Some (name, ok)]; [None] stands for the run-time panic
    of a slice expression whose bounds are out of range. *)
Definition ParsePIndexPath (dataDir pindexPath : string)
  : option (string * bool) :=
  if negb (HasSuffix pindexPath pindexPathSuffix) then Some (EmptyString, false)
  else
    let pre := dataDir +:+ sepString in
    if negb (HasPrefix pindexPath pre) then Some (EmptyString, false)
    else
      let pindexName := str_from (String.length pre) pindexPath in
      if String.length pindexName <? String.length pindexPathSuffix
      then None
      else Some (substring 0 (String.length pindexName
                               - String.length pindexPathSuffix) pindexName,
                 true).

End PIndexPaths.

Definition unixOS : GoOS := {| PathSeparator := "/" |}.

(** ** Results of fallible calls *)

(** A Go [(value, error)] return: [Ok v] for a nil error, [Err msg]
    otherwise. *)
Inductive result (A : Type) : Type :=
| Ok (a : A)
| Err (msg : string).
Arguments Ok {A} a.
Arguments Err {A} msg.

(** ** hash/crc32 (IEEE) and the ["%x"] verb *)

Definition crc32_IEEE_poly : N := 0xedb88320%N.

Definition crc32_shift (c : N) : N :=
  if N.testbit c 0 then N.lxor (N.shiftr c 1) crc32_IEEE_poly
  else N.shiftr c 1.

Definition crc32_byte (crc : N) (b : ascii) : N :=
  Nat.iter 8 crc32_shift (N.lxor crc (N_of_ascii b)).

Definition crc32_update (crc : N) (s : string) : N :=
  fold_left crc32_byte (list_ascii_of_string s) crc.

(** [h := crc32.NewIEEE(); io.WriteString(h, s); h.Sum32()] *)
Definition crc32_IEEE (s : string) : N :=
  N.lxor (crc32_update 0xffffffff%N s) 0xffffffff%N.

(** [fmt.Sprintf("%x", n)]: lower-case hexadecimal, no leading zeros. *)
Definition sprintf_x (n : N) : string :=
  NilZero.string_of_uint (N.to_hex_uint n).

(** ** misc.go: NewUUID *)

(** The pseudo-random source: [rand_Int63 k] is the value of the [k]-th
    call to [rand.Int63()]. *)
Class GoRand := { rand_Int63 : nat -> N }.

Section UUIDs.
Context `{GoRand}.

(** [NewUUID] draws twice from the source; [rng] counts the draws made
    so far.  [None] stands for the run-time panic of the slice
    expression [uuid[0:16]], which is out of range when the two
    hexadecimal texts have fewer than 16 bytes together. *)
Definition NewUUID (rng : nat) : option (string * nat) :=
  let val1 := rand_Int63 rng in
  let val2 := rand_Int63 (S rng) in
  let uuid := sprintf_x val1 +:+ sprintf_x val2 in
  if String.length uuid <? 16 then None
  else Some (substring 0 16 uuid, S (S rng)).

(** A source none of whose draws makes [NewUUID] panic. *)
Definition uuidsFit : Prop := forall rng, is_Some (NewUUID rng).

End UUIDs.

(** ** The planner's data model *)

Record PlanPIndexNode := mkPlanPIndexNode {
  CanRead : bool;
  CanWrite : bool;
  Priority : Z
}.

Record PlanPIndex := mkPlanPIndex {
  pp_Name : string;
  pp_UUID : string;
  pp_IndexType : string;
  pp_IndexName : string;
  pp_IndexUUID : string;
  pp_IndexParams : string;
  pp_SourceType : string;
  pp_SourceName : string;
  pp_SourceUUID : string;
  pp_SourceParams : string;
  pp_SourcePartitions : string;
  pp_Nodes : gmap string PlanPIndexNode
}.

Definition set_pp_Nodes (nodes : gmap string PlanPIndexNode) (p : PlanPIndex)
  : PlanPIndex :=
  mkPlanPIndex (pp_Name p) (pp_UUID p) (pp_IndexType p) (pp_IndexName p)
    (pp_IndexUUID p) (pp_IndexParams p) (pp_SourceType p) (pp_SourceName p)
    (pp_SourceUUID p) (pp_SourceParams p) (pp_SourcePartitions p) nodes.

Definition set_pp_UUID (uuid : string) (p : PlanPIndex) : PlanPIndex :=
  mkPlanPIndex (pp_Name p) uuid (pp_IndexType p) (pp_IndexName p)
    (pp_IndexUUID p) (pp_IndexParams p) (pp_SourceType p) (pp_SourceName p)
    (pp_SourceUUID p) (pp_SourceParams p) (pp_SourcePartitions p) (pp_Nodes p).

Record PlanPIndexes := mkPlanPIndexes {
  pps_UUID : string;
  pps_PlanPIndexes : gmap string PlanPIndex;
  pps_ImplVersion : string;
  pps_Warnings : gmap string (list string)
}.

Definition set_pps_PlanPIndexes (m : gmap string PlanPIndex) (p : PlanPIndexes)
  : PlanPIndexes :=
  mkPlanPIndexes (pps_UUID p) m (pps_ImplVersion p) (pps_Warnings p).

Definition set_pps_Warnings (w : gmap string (list string)) (p : PlanPIndexes)
  : PlanPIndexes :=
  mkPlanPIndexes (pps_UUID p) (pps_PlanPIndexes p) (pps_ImplVersion p) w.

Definition set_pps_UUID (uuid : string) (p : PlanPIndexes) : PlanPIndexes :=
  mkPlanPIndexes uuid (pps_PlanPIndexes p) (pps_ImplVersion p) (pps_Warnings p).

(** Values that the core only hands on to a collaborator (hierarchy
    rules, per-node plan overrides) are kept as their JSON text. *)
Definition Opaque := string.

Record PlanParams := mkPlanParams {
  MaxPartitionsPerPIndex : Z;
  NumReplicas : Z;
  HierarchyRules : Opaque;
  NodePlanParams : Opaque;
  PlanFrozen : bool
}.

Record IndexDef := mkIndexDef {
  id_Type : string;
  id_Name : string;
  id_UUID : string;
  id_Params : string;
  id_SourceType : string;
  id_SourceName : string;
  id_SourceUUID : string;
  id_SourceParams : string;
  id_PlanParams : PlanParams
}.

Record NodeDef := mkNodeDef {
  nd_UUID : string;
  nd_Tags : option (list string);
  nd_Container : string;
  nd_Weight : Z
}.

(** An entry of the implementation-type registry; of the registered
    callbacks the planner only asks whether [New] and [Open] are set. *)
Record PIndexImplType := mkPIndexImplType {
  pit_New : bool;
  pit_Open : bool;
  pit_Description : string
}.

(** ** blance: the placement library's interface *)

Record Partition := mkPartition {
  bp_Name : string;
  bp_NodesByState : gmap string (list string)
}.

Record PartitionModelState := mkPartitionModelState {
  pms_Priority : Z;
  pms_Constraints : Z
}.

Record NodesLayout := mkNodesLayout {
  nodeUUIDsAll : list string;
  nodeUUIDsToAdd : list string;
  nodeUUIDsToRemove : list string;
  nodeWeights : gmap string Z;
  nodeHierarchy : gmap string string
}.

(** The collaborators of the planner. *)
Class PlannerEnv := {
  (** the registry [PIndexImplTypes]; a registered pointer may be nil *)
  PIndexImplTypes : gmap string (option PIndexImplType);
  (** the data-source helper: the ordered source partitions of an index *)
  DataSourcePartitions :
    string -> string -> string -> string -> string -> result (list string);
  (** [blance.PlanNextMap(prevMap, nodesAll, nodesToRemove, nodesToAdd,
      model, modelConstraints, partitionWeights, stateStickiness,
      nodeWeights, nodeHierarchy, hierarchyRules)] *)
  PlanNextMap :
    gmap string Partition -> list string -> list string -> list string ->
    gmap string PartitionModelState -> gmap string Z -> gmap string Z ->
    gmap string Z -> gmap string Z -> gmap string string -> Opaque ->
    gmap string Partition * list string;
  (** [GetNodePlanParam(nodePlanParams, nodeUUID, indexName, planPIndexName)]:
      the override's [(CanRead, CanWrite)], if any *)
  GetNodePlanParam : Opaque -> string -> string -> string -> option (bool * bool);
  (** the node references of a previous plan entry after
      [sort.Sort(planPIndexNodeRefs)]: the nodes by ascending priority, in
      the order the range over the map and the (unstable) sort left them *)
  sortedNodeRefs : gmap string PlanPIndexNode -> list (string * PlanPIndexNode);
  (** [CalcNodesLayout]: the node lists, weights and hierarchy handed to
      the placement library, computed from the node definitions and the
      previous plan (the function does not read its [indexDefs]
      argument); its results only flow into [PlanNextMap] *)
  CalcNodesLayout : list NodeDef -> option PlanPIndexes -> NodesLayout
}.

(** ** planner.go *)

Section Planner.
Context `{GoRand} `{PlannerEnv}.

(** Modelled from the spec: [NewPlanPIndexes] is declared outside the
    given sources; per the configuration-store schema
    ([planPIndexes -> {uuid, implVersion, planPIndexes, warnings}]) it
    returns an empty collection with a fresh UUID and the given version. *)
Definition NewPlanPIndexes (version : string) (rng : nat)
  : option (PlanPIndexes * nat) :=
  match NewUUID rng with
  | Some (uuid, rng) => Some (mkPlanPIndexes uuid ∅ version ∅, rng)
  | None => None
  end.

Definition PlanPIndexName (indexDef : IndexDef) (sourcePartitions : string)
  : string :=
  id_Name indexDef +:+ "_" +:+ id_UUID indexDef +:+ "_" +:+
  sprintf_x (crc32_IEEE sourcePartitions).

(** The state threaded through [SplitIndexDefIntoPlanPIndexes]: the map
    being returned, the plan being added to, and the random source. *)
Record SplitState := mkSplitState {
  planPIndexesForIndex : gmap string PlanPIndex;
  planPIndexesOut : PlanPIndexes;
  split_rng : nat
}.

(** The closure [addPlanPIndex].  The same object is stored in both
    maps.  [None]: the panic of [NewUUID]. *)
Definition addPlanPIndex (indexDef : IndexDef)
    (sourcePartitionsCurr : list string) (st : SplitState)
  : option SplitState :=
  let sourcePartitions := Join sourcePartitionsCurr "," in
  match NewUUID (split_rng st) with
  | None => None
  | Some (uuid, rng) =>
      let planPIndex :=
        mkPlanPIndex (PlanPIndexName indexDef sourcePartitions) uuid
          (id_Type indexDef) (id_Name indexDef) (id_UUID indexDef)
          (id_Params indexDef) (id_SourceType indexDef)
          (id_SourceName indexDef) (id_SourceUUID indexDef)
          (id_SourceParams indexDef) sourcePartitions ∅ in
      Some (mkSplitState
              (<[pp_Name planPIndex := planPIndex]> (planPIndexesForIndex st))
              (set_pps_PlanPIndexes
                 (<[pp_Name planPIndex := planPIndex]>
                    (pps_PlanPIndexes (planPIndexesOut st)))
                 (planPIndexesOut st))
              rng)
  end.

(** The loop over [sourcePartitionsArr]; [add] is the closure called on
    each full group. *)
Fixpoint splitLoop {S : Type} (add : list string -> S -> S)
    (maxPartitionsPerPIndex : Z) (sourcePartitionsArr : list string)
    (sourcePartitionsCurr : list string) (st : S) : list string * S :=
  match sourcePartitionsArr with
  | [] => (sourcePartitionsCurr, st)
  | sourcePartition :: rest =>
      let curr := sourcePartitionsCurr ++ [sourcePartition] in
      if (0 <? maxPartitionsPerPIndex)%Z &&
         (maxPartitionsPerPIndex <=? Z.of_nat (length curr))%Z
      then splitLoop add maxPartitionsPerPIndex rest [] (add curr st)
      else splitLoop add maxPartitionsPerPIndex rest curr st
  end.

(** [SplitIndexDefIntoPlanPIndexes].  The state of the loop is [None]
    once a call of [addPlanPIndex] has panicked; the outer [option] of
    the result is [None] for that panic. *)
Definition SplitIndexDefIntoPlanPIndexes (indexDef : IndexDef)
    (server : string) (planPIndexesOut : PlanPIndexes) (rng : nat)
  : option (result SplitState) :=
  let maxPartitionsPerPIndex :=
    MaxPartitionsPerPIndex (id_PlanParams indexDef) in
  match DataSourcePartitions (id_SourceType indexDef) (id_SourceName indexDef)
          (id_SourceUUID indexDef) (id_SourceParams indexDef) server with
  | Err err => Some (Err ("planner: could not get partitions: " +:+ err))
  | Ok sourcePartitionsArr =>
      let '(sourcePartitionsCurr, st) :=
        splitLoop (fun curr st => st ≫= addPlanPIndex indexDef curr)
          maxPartitionsPerPIndex sourcePartitionsArr []
          (Some (mkSplitState ∅ planPIndexesOut rng)) in
      match st with
      | None => None
      | Some st =>
          if (0 <? length sourcePartitionsCurr) ||
             (size (planPIndexesForIndex st) <=? 0)
          then Ok <$> addPlanPIndex indexDef sourcePartitionsCurr st
          else Some (Ok st)
      end
  end.

(** The groups handed to [addPlanPIndex], in call order: the same loop
    and the same final test, run with a closure that records its
    argument. *)
Definition splitGroups (maxPartitionsPerPIndex : Z)
    (sourcePartitionsArr : list string) : list (list string) :=
  let '(sourcePartitionsCurr, groups) :=
    splitLoop (fun g gs => gs ++ [g]) maxPartitionsPerPIndex
      sourcePartitionsArr [] [] in
  if (0 <? length sourcePartitionsCurr) || (length groups <=? 0)
  then groups ++ [sourcePartitionsCurr]
  else groups.

Definition BlancePartitionModel (indexDef : IndexDef)
  : gmap string PartitionModelState * gmap string Z :=
  (<["primary" := mkPartitionModelState 0 1]>
     (<["replica" := mkPartitionModelState 1
                       (NumReplicas (id_PlanParams indexDef))]> ∅),
   ∅).

(** The previous placement of one plan entry: its nodes, by ascending
    priority, appended to the ["primary"] (priority <= 0) or ["replica"]
    list. *)
Definition prevNodesByState (refs : list (string * PlanPIndexNode))
  : gmap string (list string) :=
  foldl (fun m ref =>
           let state := if (Priority ref.2 <=? 0)%Z then "primary"
                        else "replica" in
           <[state := default [] (m !! state) ++ [ref.1]]> m)
        ∅ refs.

Definition blancePrevMap (planPIndexesForIndex : gmap string PlanPIndex)
    (planPIndexesPrev : option PlanPIndexes) : gmap string Partition :=
  map_imap (fun name (planPIndex : PlanPIndex) =>
    Some (mkPartition (pp_Name planPIndex)
            match planPIndexesPrev with
            | Some prev =>
                match pps_PlanPIndexes prev !! pp_Name planPIndex with
                | Some planPIndexPrev =>
                    prevNodesByState (sortedNodeRefs (pp_Nodes planPIndexPrev))
                | None => ∅
                end
            | None => ∅
            end))
    planPIndexesForIndex.

Definition nodeEntry (indexDef : IndexDef) (planPIndexName nodeUUID : string)
    (priority : Z) : PlanPIndexNode :=
  match GetNodePlanParam (NodePlanParams (id_PlanParams indexDef))
          nodeUUID (id_Name indexDef) planPIndexName with
  | Some (canRead, canWrite) => mkPlanPIndexNode canRead canWrite priority
  | None => mkPlanPIndexNode true true priority
  end.

(** The node map written for one partition of the next placement: the
    ["primary"] nodes at priority 0, then the [i]-th ["replica"] node at
    priority [i+1]. *)
Definition nextNodes (indexDef : IndexDef) (planPIndexName : string)
    (blancePartition : Partition) : gmap string PlanPIndexNode :=
  let primaries := default [] (bp_NodesByState blancePartition !! "primary") in
  let replicas := default [] (bp_NodesByState blancePartition !! "replica") in
  let m :=
    foldl (fun m nodeUUID =>
             <[nodeUUID := nodeEntry indexDef planPIndexName nodeUUID 0]> m)
          ∅ primaries in
  foldl (fun m ir =>
           <[ir.2 := nodeEntry indexDef planPIndexName ir.2
                       (Z.of_nat ir.1 + 1)]> m)
        m (imap (fun i nodeUUID => (i, nodeUUID)) replicas).

(** [BlancePlanPIndexes] overwrites the [Nodes] of the plan entries in
    place.  [None] is the nil-pointer panic of the final loop when the
    placement library returns a partition that is not among
    [planPIndexesForIndex]. *)
Definition BlancePlanPIndexes (indexDef : IndexDef)
    (planPIndexesForIndex : gmap string PlanPIndex)
    (planPIndexesPrev : option PlanPIndexes) (layout : NodesLayout)
  : option (gmap string PlanPIndex * list string) :=
  let '(model, modelConstraints) := BlancePartitionModel indexDef in
  let '(blanceNextMap, warnings) :=
    PlanNextMap (blancePrevMap planPIndexesForIndex planPIndexesPrev)
      (nodeUUIDsAll layout) (nodeUUIDsToRemove layout) (nodeUUIDsToAdd layout)
      model modelConstraints ∅ ∅ (nodeWeights layout) (nodeHierarchy layout)
      (HierarchyRules (id_PlanParams indexDef)) in
  if bool_decide (dom blanceNextMap ⊆ dom planPIndexesForIndex)
  then Some (map_imap (fun name planPIndex =>
                Some match blanceNextMap !! name with
                     | Some blancePartition =>
                         set_pp_Nodes
                           (nextNodes indexDef name blancePartition) planPIndex
                     | None => planPIndex
                     end) planPIndexesForIndex,
             warnings)
  else None.

(** Whether an index type can be instantiated. *)
Definition instantiatable (indexType : string) : bool :=
  match PIndexImplTypes !! indexType with
  | Some (Some pindexImplType) => pit_New pindexImplType && pit_Open pindexImplType
  | _ => false
  end.

Definition sameIndex (indexDef : IndexDef) (kp : string * PlanPIndex) : Prop :=
  pp_IndexName kp.2 = id_Name indexDef /\ pp_IndexUUID kp.2 = id_UUID indexDef.

Global Instance sameIndex_dec indexDef kp : Decision (sameIndex indexDef kp).
Proof. unfold sameIndex. apply _. Defined.

(** One iteration of the loop of [CalcPlan] over the index definitions.
    The state is the plan under construction and the random source;
    [None] is a panic. *)
Definition CalcPlan_step (planPIndexesPrev : option PlanPIndexes)
    (server : string) (layout : NodesLayout)
    (acc : option (PlanPIndexes * nat)) (indexDef : IndexDef)
  : option (PlanPIndexes * nat) :=
  match acc with
  | None => None
  | Some (planPIndexes, rng) =>
      if PlanFrozen (id_PlanParams indexDef) then
        match planPIndexesPrev with
        | Some prev =>
            Some (set_pps_PlanPIndexes
                    (filter (sameIndex indexDef) (pps_PlanPIndexes prev)
                       ∪ pps_PlanPIndexes planPIndexes) planPIndexes,
                  rng)
        | None => Some (planPIndexes, rng)
        end
      else if negb (instantiatable (id_Type indexDef)) then
        Some (planPIndexes, rng)
      else
        match SplitIndexDefIntoPlanPIndexes indexDef server planPIndexes rng with
        | None => None
        | Some (Err _) => Some (planPIndexes, rng)
        | Some (Ok st) =>
            match BlancePlanPIndexes indexDef (planPIndexesForIndex st)
                    planPIndexesPrev layout with
            | None => None
            | Some (forIndex, warnings) =>
                let out := planPIndexesOut st in
                Some (set_pps_Warnings
                        (<[id_Name indexDef := warnings]> (pps_Warnings out))
                        (set_pps_PlanPIndexes
                           (forIndex ∪ pps_PlanPIndexes out) out),
                      split_rng st)
            end
        end
  end.

(** [CalcPlan].  [indexDefs] lists the values of [indexDefs.IndexDefs] in
    the order the range visits them ([None] for a nil pointer).  The
    outer [option] of the result is [None] for a panic; the inner one is
    the returned pointer. *)
Definition CalcPlan (indexDefs : option (list IndexDef))
    (nodeDefs : option (list NodeDef)) (planPIndexesPrev : option PlanPIndexes)
    (version server : string) (rng : nat)
  : option (option PlanPIndexes * nat) :=
  match indexDefs, nodeDefs with
  | Some defs, Some nodes =>
      let layout := CalcNodesLayout nodes planPIndexesPrev in
      match foldl (CalcPlan_step planPIndexesPrev server layout)
              (NewPlanPIndexes version rng) defs with
      | Some (planPIndexes, rng) => Some (Some planPIndexes, rng)
      | None => None
      end
  | _, _ => Some (None, rng)
  end.

End Planner.

(** ** Planner: specification predicates and sample inputs *)

Section PlannerSpec.
Context `{GoRand} `{PlannerEnv}.

(** The source partitions of an index definition, as the data-source
    helper reports them. *)
Definition sourcePartitionsOf (indexDef : IndexDef) (server : string)
  : result (list string) :=
  DataSourcePartitions (id_SourceType indexDef) (id_SourceName indexDef)
    (id_SourceUUID indexDef) (id_SourceParams indexDef) server.

(** [k |-> q] is a plan entry that the split step builds for [indexDef]
    from the group [g] of source partitions. *)
Definition splitEntry (indexDef : IndexDef) (g : list string)
    (k : string) (q : PlanPIndex) : Prop :=
  k = pp_Name q
  /\ pp_SourcePartitions q = Join g ","
  /\ pp_Name q = id_Name indexDef +:+ "_" +:+ id_UUID indexDef +:+ "_" +:+
                 sprintf_x (crc32_IEEE (pp_SourcePartitions q))
  /\ pp_IndexName q = id_Name indexDef
  /\ pp_IndexUUID q = id_UUID indexDef.

(** The placement library answers with partitions it was given. *)
Definition PlanNextMap_keeps_partitions : Prop :=
  forall prevMap nodesAll nodesToRemove nodesToAdd model modelConstraints
         partitionWeights stateStickiness weights hierarchy rules,
    dom (PlanNextMap prevMap nodesAll nodesToRemove nodesToAdd model
           modelConstraints partitionWeights stateStickiness weights
           hierarchy rules).1 ⊆ dom prevMap.

(** A plan entry copied forward from the previous plan for a frozen
    definition among [defs]. *)
Definition fromPreviousPlan (planPIndexesPrev : option PlanPIndexes)
    (defs : list IndexDef) (k : string) (q : PlanPIndex) : Prop :=
  exists indexDef prev,
    indexDef ∈ defs
    /\ PlanFrozen (id_PlanParams indexDef) = true
    /\ planPIndexesPrev = Some prev
    /\ pps_PlanPIndexes prev !! k = Some q
    /\ sameIndex indexDef (k, q).

(** A plan entry built by the split step for a definition among [defs]
    that is neither frozen nor of an uninstantiatable type. *)
Definition fromSplit (server : string) (defs : list IndexDef)
    (k : string) (q : PlanPIndex) : Prop :=
  exists indexDef arr g,
    indexDef ∈ defs
    /\ PlanFrozen (id_PlanParams indexDef) = false
    /\ instantiatable (id_Type indexDef) = true
    /\ sourcePartitionsOf indexDef server = Ok arr
    /\ g ∈ splitGroups (MaxPartitionsPerPIndex (id_PlanParams indexDef)) arr
    /\ splitEntry indexDef g k q.

(** No definition of [defs] that is planned afresh generates the name
    under which the previous plan [pv] holds an entry of [d]. *)
Definition noNameClash (pv : PlanPIndexes) (server : string)
    (defs : list IndexDef) (d : IndexDef) : Prop :=
  forall d' arr g q,
    d' ∈ defs ->
    PlanFrozen (id_PlanParams d') = false ->
    sourcePartitionsOf d' server = Ok arr ->
    g ∈ splitGroups (MaxPartitionsPerPIndex (id_PlanParams d')) arr ->
    pps_PlanPIndexes pv !! PlanPIndexName d' (Join g ",") = Some q ->
    ~ sameIndex d (PlanPIndexName d' (Join g ","), q).

End PlannerSpec.

(** A sample source: every draw has 16 hexadecimal digits, so that no
    call of [NewUUID] panics on it. *)
Definition sampleRand : GoRand :=
  {| rand_Int63 :=
       fun k => (0x4000000000000000 + N.of_nat (Nat.modulo k 256))%N |}.

(** A source with short draws, 0, 1, 2, ...: its first call of [NewUUID]
    gets the text ["01"] and panics. *)
Definition shortRand : GoRand := {| rand_Int63 := fun k => N.of_nat k |}.

Definition tenPartitions : list string :=
  ["0"; "1"; "2"; "3"; "4"; "5"; "6"; "7"; "8"; "9"].

(** A registry with one engine type and the alias type, a data source
    ["ten"] with partitions 0..9 and an empty one ["none"], and a
    placement that makes the first node the primary of every
    partition. *)
Definition sampleEnv : PlannerEnv := {|
  PIndexImplTypes :=
    <["engine" := Some (mkPIndexImplType true true "general/engine")]>
      (<["alias" := Some (mkPIndexImplType false false "advanced/alias")]> ∅);
  DataSourcePartitions := fun _ sourceName _ _ _ =>
    if String.eqb sourceName "ten" then Ok tenPartitions
    else if String.eqb sourceName "none" then Ok []
    else Err "unknown source";
  PlanNextMap := fun prevMap nodesAll _ _ _ _ _ _ _ _ _ =>
    ((fun p => mkPartition (bp_Name p) (<["primary" := take 1 nodesAll]> ∅))
       <$> prevMap, []);
  GetNodePlanParam := fun _ _ _ _ => None;
  sortedNodeRefs := map_to_list;
  CalcNodesLayout := fun nodes _ =>
    mkNodesLayout (nd_UUID <$> nodes) [] [] ∅ ∅
|}.

Definition sampleIndexDef (indexType : string) (frozen : bool) (max : Z)
  : IndexDef :=
  mkIndexDef indexType "i" "U" "" "couchbase" "ten" "" ""
    (mkPlanParams max 0 "" "" frozen).

Definition sampleNodes : list NodeDef := [mkNodeDef "N1" None "" 0].

(** A previous plan holding one entry of index ["i"] (UUID ["U"]) that
    covers all ten partitions and lives on node ["N1"]. *)
Definition samplePrevEntry : PlanPIndex :=
  mkPlanPIndex "i_U_8dd93ce8" "5b3c" "engine" "i" "U" "" "couchbase" "ten" "" ""
    "0,1,2,3,4,5,6,7,8,9" (<["N1" := mkPlanPIndexNode true true 0]> ∅).

Definition samplePrevPlan : PlanPIndexes :=
  mkPlanPIndexes "77aa" (<["i_U_8dd93ce8" := samplePrevEntry]> ∅) "1.0" ∅.

(** A second index, ["j"], over the same source. *)
Definition sampleIndexDefJ (max : Z) : IndexDef :=
  mkIndexDef "engine" "j" "V" "" "couchbase" "ten" "" ""
    (mkPlanParams max 0 "" "" false).

(** ** alias.go: resolving a user-defined index alias *)

Definition maxAliasTargets : Z := 50000.

Record AliasParamsTarget := mkAliasParamsTarget {
  IndexUUID : string
}.

(** The collaborators of alias resolution. *)
Class AliasEnv := {
  (** [json.Unmarshal([]byte(aliasDef.Params), &params)]: the decoded
      [params.Targets], in the order the range over the map visits them,
      or [None] when decoding fails *)
  unmarshalAliasParams : string -> option (list (string * AliasParamsTarget));
  (** [bleveIndexAlias(mgr, targetName, targetUUID, ...)]: the handle of
      a concrete index, or an error *)
  bleveIndexAlias : string -> string -> result string
}.

(** How a call of [fillAlias] ends.  [AliasUnfinished] is the answer of
    the model when [fuel] nested calls were not enough to reach a
    return. *)
Inductive AliasOutcome : Type :=
| AliasFilled (num : Z) (alias : list string)
| AliasError (msg : string)
| AliasUnfinished.

Section Alias.
Context `{AliasEnv}.

(** The closure [fillAlias]; [num] and [alias] are the captured counter
    and the alias being filled ([alias.Add] appends).  [fuel] bounds the
    depth of nested calls. *)
Fixpoint fillAlias (fuel : nat) (indexDefs : gmap string IndexDef)
    (aliasName aliasUUID : string) (num : Z) (alias : list string)
  : AliasOutcome :=
  match fuel with
  | O => AliasUnfinished
  | S fuel =>
    match indexDefs !! aliasName with
    | None => AliasError "alias: could not get aliasDef"
    | Some aliasDef =>
      if negb (String.eqb (id_Type aliasDef) "alias")
      then AliasError "alias: not alias type"
      else if negb (String.eqb aliasUUID "") &&
              negb (String.eqb aliasUUID (id_UUID aliasDef))
      then AliasError "alias: mismatched aliasUUID"
      else
        match unmarshalAliasParams (id_Params aliasDef) with
        | None => AliasError "alias: could not parse aliasDef.Params"
        | Some targets =>
          (fix range (targets : list (string * AliasParamsTarget))
               (num : Z) (alias : list string) : AliasOutcome :=
             match targets with
             | [] => AliasFilled num alias
             | (targetName, targetSpec) :: rest =>
               if (maxAliasTargets <? num)%Z
               then AliasError
                      "alias: too many alias targets, perhaps there's a cycle"
               else
                 match indexDefs !! targetName with
                 | None => AliasError "alias: the alias depends upon a target index that does not exist"
                 | Some targetDef =>
                   if negb (String.eqb (IndexUUID targetSpec) "") &&
                      negb (String.eqb (IndexUUID targetSpec) (id_UUID targetDef))
                   then AliasError "alias: mismatched targetSpec.UUID"
                   else if String.eqb (id_Type targetDef) "alias" then
                     match fillAlias fuel indexDefs targetName
                             (IndexUUID targetSpec) num alias with
                     | AliasFilled num alias => range rest num alias
                     | other => other
                     end
                   else if HasPrefix (id_Type targetDef) "bleve" then
                     match bleveIndexAlias targetName (IndexUUID targetSpec) with
                     | Err err => AliasError err
                     | Ok subAlias => range rest (num + 1)%Z (alias ++ [subAlias])
                     end
                   else AliasError "alias: unsupported target type"
                 end
             end) targets num alias
        end
    end
  end.

(** [bleveIndexAliasForUserIndexAlias]; [cfgIndexDefs] is what
    [CfgGetIndexDefs(mgr.cfg)] returns. *)
Definition bleveIndexAliasForUserIndexAlias (fuel : nat)
    (cfgIndexDefs : result (gmap string IndexDef))
    (indexName indexUUID : string) : AliasOutcome :=
  match cfgIndexDefs with
  | Err err => AliasError ("alias: could not get indexDefs: " +:+ err)
  | Ok indexDefs => fillAlias fuel indexDefs indexName indexUUID 0 []
  end.

End Alias.

(** Sample input: two aliases that point at each other. *)

Definition dquote : string := String (ascii_of_nat 34) EmptyString.

(** The JSON text [{"targets":{"<target>":{}}}]. *)
Definition aliasParamsJSON (target : string) : string :=
  "{" +:+ dquote +:+ "targets" +:+ dquote +:+ ":{" +:+
  dquote +:+ target +:+ dquote +:+ ":{}}}".

Definition aliasDef (name uuid target : string) : IndexDef :=
  mkIndexDef "alias" name uuid (aliasParamsJSON target) "" "" "" ""
    (mkPlanParams 0 0 "" "" false).

Definition cycleIndexDefs : gmap string IndexDef :=
  <["A" := aliasDef "A" "a1" "B"]> (<["B" := aliasDef "B" "b1" "A"]> ∅).

Definition cycleAliasEnv : AliasEnv := {|
  unmarshalAliasParams := fun params =>
    if String.eqb params (aliasParamsJSON "A")
    then Some [("A", mkAliasParamsTarget "")]
    else if String.eqb params (aliasParamsJSON "B")
    then Some [("B", mkAliasParamsTarget "")]
    else None;
  bleveIndexAlias := fun name _ => Ok name
|}.

(** ** misc.go: VersionGTE *)

(** [strings.Split(s, sep)] for a one-byte separator; [cur] is the piece
    being read. *)
Fixpoint splitOn (sep : ascii) (s : string) (cur : string) : list string :=
  match s with
  | EmptyString => [cur]
  | String c s' =>
      if Ascii.eqb c sep then cur :: splitOn sep s' EmptyString
      else splitOn sep s' (cur +:+ String c EmptyString)
  end.

Definition digitValue (c : ascii) : option Z :=
  let n := nat_of_ascii c in
  if (48 <=? n) && (n <=? 57) then Some (Z.of_nat (n - 48)) else None.

Fixpoint parseDigits (s : string) (acc : Z) : option Z :=
  match s with
  | EmptyString => Some acc
  | String c s' =>
      match digitValue c with
      | Some d => parseDigits s' (10 * acc + d)%Z
      | None => None
      end
  end.

(** [strconv.Atoi]: an optional sign and at least one decimal digit; a
    value outside the 64-bit [int] range is an error. *)
Definition Atoi (s : string) : option Z :=
  let unsigned (digits : string) : option Z :=
    match digits with
    | EmptyString => None
    | _ => parseDigits digits 0
    end in
  let v :=
    match s with
    | String "+" rest => unsigned rest
    | String "-" rest => Z.opp <$> unsigned rest
    | _ => unsigned s
    end in
  match v with
  | Some n => if (- 2 ^ 63 <=? n)%Z && (n <? 2 ^ 63)%Z then Some n else None
  | None => None
  end.

(** The loop of [VersionGTE] over the parts of [x], with the parts of
    [y] still to compare. *)
Fixpoint versionGTE_parts (xa ya : list string) : bool :=
  match xa with
  | [] => match ya with [] => true | _ => false end
  | x :: xa' =>
      match ya with
      | [] => true
      | y :: ya' =>
          match Atoi x with
          | None => false
          | Some xv =>
              match Atoi y with
              | None => false
              | Some yv =>
                  if (yv <? xv)%Z then true
                  else if (xv <? yv)%Z then false
                  else versionGTE_parts xa' ya'
              end
          end
      end
  end.

Definition VersionGTE (x y : string) : bool :=
  versionGTE_parts (splitOn "." x EmptyString) (splitOn "." y EmptyString).

(** ** The configuration store *)

Record IndexDefs := mkIndexDefs {
  ids_UUID : string;
  ids_IndexDefs : gmap string IndexDef;
  ids_ImplVersion : string
}.

(** Modelled from the spec: the configuration store is an interface
    whose implementations are outside the given sources.  Following
    section 4.1 ([Get(key) -> (bytes, cas)];
    [Set(key, bytes, cas) -> newCas | CASMismatch]) the model holds the
    values under the keys [indexDefs] and [planPIndexes] and the CAS of
    the latter; a [Set] succeeds exactly when it carries the current
    CAS, and then advances it. *)
Record Cfg := mkCfg {
  cfg_indexDefs : option IndexDefs;
  cfg_planPIndexes : option PlanPIndexes;
  cfg_planCas : N
}.

Definition CfgGetIndexDefs (cfg : Cfg) : result (option IndexDefs) :=
  Ok (cfg_indexDefs cfg).

Definition CfgGetPlanPIndexes (cfg : Cfg) : result (option PlanPIndexes * N) :=
  Ok (cfg_planPIndexes cfg, cfg_planCas cfg).

Definition CfgSetPlanPIndexes (cfg : Cfg) (planPIndexes : PlanPIndexes)
    (cas : N) : result N * Cfg :=
  if (cas =? cfg_planCas cfg)%N
  then (Ok (cfg_planCas cfg + 1)%N,
        mkCfg (cfg_indexDefs cfg) (Some planPIndexes) (cfg_planCas cfg + 1)%N)
  else (Err "CAS mismatch", cfg).

(** ** planner.go: reading the configuration *)

Definition PlannerGetIndexDefs (cfg : Cfg) (version : string)
  : result IndexDefs :=
  match CfgGetIndexDefs cfg with
  | Err err => Err ("planner: CfgGetIndexDefs err: " +:+ err)
  | Ok None => Err "planner: ended since no IndexDefs"
  | Ok (Some indexDefs) =>
      if negb (VersionGTE version (ids_ImplVersion indexDefs))
      then Err "planner: indexDefs.ImplVersion > version"
      else Ok indexDefs
  end.

Section PlannerGetPlan.
Context `{GoRand}.

(** [PlannerGetPlanPIndexes]; [None] is the panic of [NewUUID] in
    [NewPlanPIndexes]. *)
Definition PlannerGetPlanPIndexes (cfg : Cfg) (version : string) (rng : nat)
  : option (result (PlanPIndexes * N) * nat) :=
  match CfgGetPlanPIndexes cfg with
  | Err err => Some (Err ("planner: CfgGetPlanPIndexes err: " +:+ err), rng)
  | Ok (planPIndexesPrev, cas) =>
      match
        match planPIndexesPrev with
        | Some prev => Some (prev, rng)
        | None => NewPlanPIndexes version rng
        end
      with
      | None => None
      | Some (planPIndexesPrev, rng) =>
          if negb (VersionGTE version (pps_ImplVersion planPIndexesPrev))
          then Some (Err "planner: planPIndexesPrev.ImplVersion > version",
                     rng)
          else Some (Ok (planPIndexesPrev, cas), rng)
      end
  end.

End PlannerGetPlan.

(** ** cmd/mcp/mcp.go: the rebalancer's assignment step *)

Record stateOp := mkStateOp {
  so_state : string;
  so_op : string
}.

Record rebalancer := mkRebalancer {
  r_version : string;
  r_endPlanPIndexes : PlanPIndexes;
  (** index -> partition -> node -> stateOp *)
  r_currStates : gmap string (gmap string (gmap string stateOp))
}.

Definition set_r_currStates
    (cs : gmap string (gmap string (gmap string stateOp))) (r : rebalancer)
  : rebalancer :=
  mkRebalancer (r_version r) (r_endPlanPIndexes r) cs.

(** [currStates[index][partition][node]], if present. *)
Definition currState (r : rebalancer) (index partition node : string)
  : option stateOp :=
  match r_currStates r !! index with
  | Some partitions =>
      match partitions !! partition with
      | Some nodes => nodes !! node
      | None => None
      end
  | None => None
  end.

(** [assignPartitionCurrStates]: the missing inner maps are created
    first, then an ["add"] on an occupied slot is refused, then the slot
    is overwritten. *)
Definition assignPartitionCurrStates (r : rebalancer)
    (index partition node state op : string) : rebalancer * option string :=
  let partitions := default ∅ (r_currStates r !! index) in
  let nodes := default ∅ (partitions !! partition) in
  let created :=
    <[index := <[partition := nodes]> partitions]> (r_currStates r) in
  let occupied :=
    match nodes !! node with
    | Some stateOp => negb (String.eqb (so_state stateOp) "")
    | None => false
    end in
  if String.eqb op "add" && occupied
  then (set_r_currStates created r,
        Some "assignPartitionCurrStates: op was add when exists")
  else (set_r_currStates
          (<[index := <[partition := <[node := mkStateOp state op]> nodes]>
                        partitions]> (r_currStates r)) r,
        None).

Section Rebalancer.
Context `{GoRand} `{PlannerEnv}.

(** The node entry a step writes: read and write permissions from the
    per-node override if there is one, and priority 0, or the current
    size of the node map for a ["replica"]. *)
Definition stepNode (indexDef : IndexDef) (partition node state : string)
    (nodes : gmap string PlanPIndexNode) : PlanPIndexNode :=
  let priority := if String.eqb state "replica" then Z.of_nat (size nodes)
                  else 0%Z in
  match GetNodePlanParam (NodePlanParams (id_PlanParams indexDef)) node
          (id_Name indexDef) partition with
  | Some (canRead, canWrite) => mkPlanPIndexNode canRead canWrite priority
  | None => mkPlanPIndexNode true true priority
  end.

(** The plan entry a step works on: the entry of the plan just read, or
    else a copy of the rebalancer's end-plan entry with its node map
    cleared (which the code stores into the plan just read). *)
Definition findPlanPIndex (r : rebalancer) (planPIndexes : PlanPIndexes)
    (partition : string) : option PlanPIndex :=
  match pps_PlanPIndexes planPIndexes !! partition with
  | Some planPIndex => Some planPIndex
  | None =>
      match pps_PlanPIndexes (r_endPlanPIndexes r) !! partition with
      | Some endPlanPIndex => Some (set_pp_Nodes ∅ endPlanPIndex)
      | None => None
      end
  end.

(** [updatePlanPIndexes] mutates [planPIndexes] in place; the plan it
    leaves behind is returned next to the error, as the caller holds the
    same object.  [None] is the panic of one of its two calls of
    [NewUUID]. *)
Definition updatePlanPIndexes (r : rebalancer) (planPIndexes : PlanPIndexes)
    (indexDef : IndexDef) (partition node state op : string) (rng : nat)
  : option (PlanPIndexes * option string * nat) :=
  match findPlanPIndex r planPIndexes partition with
  | None => Some (planPIndexes, Some "assignPartition: no planPIndex", rng)
  | Some planPIndex =>
      match NewUUID rng with
      | None => None
      | Some (uuid, rng) =>
          let planPIndex := set_pp_UUID uuid planPIndex in
          let entry :=
            stepNode indexDef partition node state (pp_Nodes planPIndex) in
          let store (p : PlanPIndex) :=
            set_pps_PlanPIndexes
              (<[partition := p]> (pps_PlanPIndexes planPIndexes))
              planPIndexes in
          if String.eqb op "add" then
            match pp_Nodes planPIndex !! node with
            | Some _ =>
                Some (store planPIndex,
                      Some "assignPartition: planPIndex already exists", rng)
            | None =>
                match NewUUID rng with
                | None => None
                | Some (uuid2, rng) =>
                    Some (set_pps_UUID uuid2
                            (store (set_pp_Nodes
                                      (<[node := entry]> (pp_Nodes planPIndex))
                                      planPIndex)),
                          None, rng)
                end
            end
          else
            match pp_Nodes planPIndex !! node with
            | None =>
                Some (store planPIndex,
                      Some "assignPartition: planPIndex missing", rng)
            | Some _ =>
                let nodes :=
                  if String.eqb op "del"
                  then delete node (pp_Nodes planPIndex)
                  else <[node := entry]> (pp_Nodes planPIndex) in
                match NewUUID rng with
                | None => None
                | Some (uuid2, rng) =>
                    Some (set_pps_UUID uuid2
                            (store (set_pp_Nodes nodes planPIndex)),
                          None, rng)
                end
            end
      end
  end.

(** The node map a step dictates: ["add"] and the promotions and
    demotions write the node's entry, ["del"] removes it. *)
Definition stepNodes (indexDef : IndexDef) (partition node state op : string)
    (nodes : gmap string PlanPIndexNode) : gmap string PlanPIndexNode :=
  if String.eqb op "del" then delete node nodes
  else <[node := stepNode indexDef partition node state nodes]> nodes.

(** [assignPartition].  [others] is what concurrent writers do to the
    configuration store between this step's read of the plan and its
    write.  [None] is a panic of [NewUUID]. *)
Definition assignPartition (r : rebalancer) (cfg : Cfg) (others : Cfg -> Cfg)
    (index partition node state op : string) (rng : nat)
  : option (rebalancer * Cfg * nat * option string) :=
  match assignPartitionCurrStates r index partition node state op with
  | (r, Some err) => Some (r, cfg, rng, Some err)
  | (r, None) =>
      match PlannerGetIndexDefs cfg (r_version r) with
      | Err err => Some (r, cfg, rng, Some err)
      | Ok indexDefs =>
          match ids_IndexDefs indexDefs !! index with
          | None => Some (r, cfg, rng, Some "assignPartition: no indexDef")
          | Some indexDef =>
              match PlannerGetPlanPIndexes cfg (r_version r) rng with
              | None => None
              | Some (Err err, rng) => Some (r, cfg, rng, Some err)
              | Some (Ok (planPIndexes, cas), rng) =>
                  match updatePlanPIndexes r planPIndexes indexDef
                          partition node state op rng with
                  | None => None
                  | Some (_, Some err, rng) => Some (r, cfg, rng, Some err)
                  | Some (planPIndexes, None, rng) =>
                      match CfgSetPlanPIndexes (others cfg) planPIndexes cas
                      with
                      | (Err err, cfg) =>
                          Some (r, cfg, rng,
                                Some ("assignPartition: update plan, perhaps a concurrent planner won: " +:+ err))
                      | (Ok _, cfg) => Some (r, cfg, rng, None)
                      end
                  end
              end
          end
      end
  end.

End Rebalancer.

(** Sample input for the rebalancer: the previous plan is stored with
    CAS 5, the index ["i"] is defined, and nothing is in flight. *)
Definition sampleCfg : Cfg :=
  mkCfg (Some (mkIndexDefs "d0"
                 (<["i" := sampleIndexDef "engine" false 0]> ∅) "1.0"))
        (Some samplePrevPlan) 5.

Definition sampleRebalancer : rebalancer :=
  mkRebalancer "1.0" (mkPlanPIndexes "e0" ∅ "1.0" ∅) ∅.

(** The same rebalancer after it has added ["N1"] as primary of the
    partition. *)
Definition busyRebalancer : rebalancer :=
  mkRebalancer "1.0" (mkPlanPIndexes "e0" ∅ "1.0" ∅)
    (<["i" := <["i_U_8dd93ce8" := <["N1" := mkStateOp "primary" "add"]> ∅]> ∅]> ∅).

(** A concurrent planner that rewrites the plan it found. *)
Definition concurrentPlanner (cfg : Cfg) : Cfg :=
  mkCfg (cfg_indexDefs cfg) (cfg_planPIndexes cfg) (cfg_planCas cfg + 1)%N.

(** ** pindex_consistency.go: wait requests and their queue *)

(** Go [error] values of the consistency-wait path. *)
Inductive error : Type :=
| errorString (msg : string)
| ErrorConsistencyWait (Err : string) (Status : string)
    (StartEndSeqs : gmap string (list N)).

(** A buffered [chan error]: the values sent and not yet received, and
    whether the channel was closed. *)
Record Chan := mkChan {
  ch_buf : list error;
  ch_closed : bool
}.

(** A [ConsistencyWaitReq]; [DoneCh] names a channel of the channel
    store.  (The request also carries the caller's [CancelCh], which no
    code reads from the request.) *)
Record ConsistencyWaitReq := mkConsistencyWaitReq {
  PartitionUUID : string;
  ConsistencyLevel : string;
  ConsistencySeq : N;
  DoneCh : nat
}.

(** [CwrQueue] is [list ConsistencyWaitReq], with the methods of
    [heap.Interface].  An index out of range makes [Less] and [Swap]
    panic in Go; [container/heap] calls them within range only, and the
    model answers [false], respectively leaves the queue alone. *)
Definition Len (pq : list ConsistencyWaitReq) : nat := length pq.

Definition Less (pq : list ConsistencyWaitReq) (i j : nat) : bool :=
  match pq !! i, pq !! j with
  | Some a, Some b => (ConsistencySeq a <? ConsistencySeq b)%N
  | _, _ => false
  end.

Definition Swap (pq : list ConsistencyWaitReq) (i j : nat)
  : list ConsistencyWaitReq :=
  match pq !! i, pq !! j with
  | Some a, Some b => <[i := b]> (<[j := a]> pq)
  | _, _ => pq
  end.

Definition Push (pq : list ConsistencyWaitReq) (x : ConsistencyWaitReq)
  : list ConsistencyWaitReq :=
  pq ++ [x].

(** [Pop] returns the last item and the queue without it. *)
Definition Pop (pq : list ConsistencyWaitReq)
  : option ConsistencyWaitReq * list ConsistencyWaitReq :=
  (last pq, take (length pq - 1) pq).

(** ** container/heap *)

(** [up(h, j)]: [for { i := (j - 1) / 2; if i == j || !h.Less(j, i)
    { break }; h.Swap(i, j); j = i }].  Each turn lowers [j], so [j]
    turns of [fuel] are enough. *)
Fixpoint heap_up (fuel : nat) (h : list ConsistencyWaitReq) (j : nat)
  : list ConsistencyWaitReq :=
  match fuel with
  | O => h
  | S fuel =>
      let i := (j - 1) / 2 in
      if (i =? j) || negb (Less h j i) then h
      else heap_up fuel (Swap h i j) i
  end.

(** [down(h, i0, n)]: sift the item at [i] down within the first [n]
    items.  Each turn raises [i], so [n] turns of [fuel] are enough. *)
Fixpoint heap_down (fuel : nat) (h : list ConsistencyWaitReq) (i n : nat)
  : list ConsistencyWaitReq :=
  match fuel with
  | O => h
  | S fuel =>
      let j1 := 2 * i + 1 in
      if n <=? j1 then h
      else
        let j2 := j1 + 1 in
        let j := if (j2 <? n) && Less h j2 j1 then j2 else j1 in
        if negb (Less h j i) then h
        else heap_down fuel (Swap h i j) j n
  end.

(** [heap.Push(h, x)]: [h.Push(x); up(h, h.Len()-1)]. *)
Definition heap_Push (h : list ConsistencyWaitReq) (x : ConsistencyWaitReq)
  : list ConsistencyWaitReq :=
  let h := Push h x in
  heap_up (Len h) h (Len h - 1).

(** [heap.Pop(h)]: [n := h.Len() - 1; h.Swap(0, n); down(h, 0, n);
    return h.Pop()]. *)
Definition heap_Pop (h : list ConsistencyWaitReq)
  : option ConsistencyWaitReq * list ConsistencyWaitReq :=
  let n := Len h - 1 in
  let h := Swap h 0 n in
  let h := heap_down n h 0 n in
  Pop h.

(** ** pindex_impl_vlite.go: partitions and their sequence numbers *)

Record VLitePartition := mkVLitePartition {
  partition : string;
  seqMax : N;
  seqMaxBatch : N;
  seqSnapEnd : N;
  lastUUID : string;
  cwrQueue : list ConsistencyWaitReq
}.

(** What stops a run: a Go panic (closing a closed channel, sending on
    one), or a goroutine blocked for good while holding the mutex. *)
Inductive Fault : Type := Panic | Deadlock.

(** A [VLite] with the objects its pointers lead to: [partitions] maps a
    partition name to the index of its [VLitePartition] in [objs]
    (partition objects stay reachable through the handles given out by
    [Dest] after [closeUnlocked] has replaced the map), and [chans] holds
    the done-channels by the number a request carries. *)
Record VLite := mkVLite {
  store_open : bool;       (* t.store != nil *)
  file_backed : bool;      (* t.file != nil *)
  partitions : gmap string nat;
  objs : list VLitePartition;
  chans : list Chan;
  restarts : nat;          (* calls of t.restart() *)
  fault : option Fault
}.

Definition set_partitions (m : gmap string nat) (t : VLite) : VLite :=
  mkVLite (store_open t) (file_backed t) m (objs t) (chans t) (restarts t)
    (fault t).

Definition set_objs (o : list VLitePartition) (t : VLite) : VLite :=
  mkVLite (store_open t) (file_backed t) (partitions t) o (chans t)
    (restarts t) (fault t).

Definition set_chans (c : list Chan) (t : VLite) : VLite :=
  mkVLite (store_open t) (file_backed t) (partitions t) (objs t) c
    (restarts t) (fault t).

Definition set_fault (f : Fault) (t : VLite) : VLite :=
  mkVLite (store_open t) (file_backed t) (partitions t) (objs t) (chans t)
    (restarts t) (Some f).

Definition set_seqMax (n : N) (p : VLitePartition) : VLitePartition :=
  mkVLitePartition (partition p) n (seqMaxBatch p) (seqSnapEnd p) (lastUUID p)
    (cwrQueue p).

Definition set_seqMaxBatch (n : N) (p : VLitePartition) : VLitePartition :=
  mkVLitePartition (partition p) (seqMax p) n (seqSnapEnd p) (lastUUID p)
    (cwrQueue p).

Definition set_seqSnapEnd (n : N) (p : VLitePartition) : VLitePartition :=
  mkVLitePartition (partition p) (seqMax p) (seqMaxBatch p) n (lastUUID p)
    (cwrQueue p).

Definition set_lastUUID (u : string) (p : VLitePartition) : VLitePartition :=
  mkVLitePartition (partition p) (seqMax p) (seqMaxBatch p) (seqSnapEnd p) u
    (cwrQueue p).

Definition set_cwrQueue (q : list ConsistencyWaitReq) (p : VLitePartition)
  : VLitePartition :=
  mkVLitePartition (partition p) (seqMax p) (seqMaxBatch p) (seqSnapEnd p)
    (lastUUID p) q.

(** Writing through a [*VLitePartition]. *)
Definition update_obj (bdp : nat) (f : VLitePartition -> VLitePartition)
    (t : VLite) : VLite :=
  match objs t !! bdp with
  | Some p => set_objs (<[bdp := f p]> (objs t)) t
  | None => t
  end.

(** *** Channel operations *)

(** [close(ch)]: panics when the channel is already closed (or nil). *)
Definition chan_close (ch : nat) (t : VLite) : VLite :=
  match chans t !! ch with
  | Some c =>
      if ch_closed c then set_fault Panic t
      else set_chans (<[ch := mkChan (ch_buf c) true]> (chans t)) t
  | None => set_fault Panic t
  end.

(** [ch <- e] on a channel of capacity 1, with no receiver waiting:
    panics on a closed channel, blocks for good on a full one. *)
Definition chan_send (ch : nat) (e : error) (t : VLite) : VLite :=
  match chans t !! ch with
  | Some c =>
      if ch_closed c then set_fault Panic t
      else if 1 <=? length (ch_buf c) then set_fault Deadlock t
      else set_chans (<[ch := mkChan (ch_buf c ++ [e]) false]> (chans t)) t
  | None => set_fault Deadlock t
  end.

(** Whether [<-ch] can proceed. *)
Definition chan_ready (ch : nat) (t : VLite) : bool :=
  match chans t !! ch with
  | Some c => (0 <? length (ch_buf c)) || ch_closed c
  | None => false
  end.

(** [<-ch] on a ready channel: the oldest buffered value, or the zero
    value ([nil]) of a closed and drained channel. *)
Definition chan_recv (ch : nat) (t : VLite) : VLite * option error :=
  match chans t !! ch with
  | Some c =>
      match ch_buf c with
      | e :: rest =>
          (set_chans (<[ch := mkChan rest (ch_closed c)]> (chans t)) t, Some e)
      | [] => (t, None)
      end
  | None => (t, None)
  end.

(** *** The VLite *)

(** [NewVLite] with a store that opened; [fileBacked] is [file != nil]. *)
Definition NewVLite (fileBacked : bool) : VLite :=
  mkVLite true fileBacked ∅ [] [] 0 None.

Definition getPartitionUnlocked (t : VLite) (name : string)
  : VLite * result nat :=
  if negb (store_open t) then (t, Err "vlite: already closed")
  else
    match partitions t !! name with
    | Some bdp => (t, Ok bdp)
    | None =>
        let bdp := length (objs t) in
        (set_partitions (<[name := bdp]> (partitions t))
           (set_objs (objs t ++ [mkVLitePartition name 0 0 0 EmptyString []]) t),
         Ok bdp)
    end.

(** [Dest(partition)] *)
Definition Dest (t : VLite) (name : string) : VLite * result nat :=
  getPartitionUnlocked t name.

(** [closeUnlocked] up to the start of its goroutine: the partitions map
    it captured is returned for [closeDrain]. *)
Definition closeUnlocked (t : VLite) : VLite * option (gmap string nat) :=
  if negb (store_open t) then (t, None)
  else
    (mkVLite false (file_backed t) ∅ (objs t) (chans t) (restarts t) (fault t),
     Some (partitions t)).

(** The goroutine of [closeUnlocked], for the captured partitions in the
    order [bdps] of its range: every request queued in a partition gets
    the error sent on its done-channel, which is then closed. *)
Definition closeError : error := errorString "vlite: closeUnlocked".

Definition drainQueue (q : list ConsistencyWaitReq) (t : VLite) : VLite :=
  foldl (fun t cwr => chan_close (DoneCh cwr) (chan_send (DoneCh cwr) closeError t))
        t q.

Definition closeDrain (bdps : list nat) (t : VLite) : VLite :=
  foldl (fun t bdp =>
           match objs t !! bdp with
           | Some p => drainQueue (cwrQueue p) t
           | None => t
           end) t bdps.

(** [Rollback]: close, erase the files, ask the manager to restart. *)
Definition Rollback (t : VLite) : VLite * option (gmap string nat) :=
  let '(t, captured) := closeUnlocked t in
  (mkVLite (store_open t) (file_backed t) (partitions t) (objs t) (chans t)
     (S (restarts t)) (fault t), captured).

(** The loop of [applyBatchUnlocked]: pop and release the requests at
    the root while their seq is at most [seqMaxBatch].  Each turn pops
    one request, so [Len] turns of [fuel] are enough. *)
Fixpoint releaseLoop (fuel : nat) (seqMaxBatch : N)
    (q : list ConsistencyWaitReq) (t : VLite)
  : list ConsistencyWaitReq * VLite :=
  match fuel with
  | O => (q, t)
  | S fuel =>
      match q !! 0 with
      | Some root =>
          if (ConsistencySeq root <=? seqMaxBatch)%N then
            match heap_Pop q with
            | (Some cwr, q) => releaseLoop fuel seqMaxBatch q (chan_close (DoneCh cwr) t)
            | (None, q) => releaseLoop fuel seqMaxBatch q t
            end
          else (q, t)
      | None => (q, t)
      end
  end.

(** [applyBatchUnlocked]; [flush] is the outcome of [store.Flush()],
    consulted when the VLite is not memory-only. *)
Definition applyBatchUnlocked (t : VLite) (bdp : nat) (flush : option error)
  : VLite * option error :=
  match (if file_backed t then flush else None) with
  | Some err => (t, Some err)
  | None =>
      match objs t !! bdp with
      | Some p =>
          let p := set_seqMaxBatch (seqMax p) p in
          let '(q, t) :=
            releaseLoop (Len (cwrQueue p)) (seqMaxBatch p) (cwrQueue p) t in
          (set_objs (<[bdp := set_cwrQueue q p]> (objs t)) t, None)
      | None => (t, None)
      end
  end.

Definition updateSeqUnlocked (t : VLite) (bdp : nat) (seq : N)
    (flush : option error) : VLite * option error :=
  match objs t !! bdp with
  | Some p =>
      let t := if (seqMax p <? seq)%N then update_obj bdp (set_seqMax seq) t
               else t in
      if (seq <? seqSnapEnd p)%N then (t, None)
      else applyBatchUnlocked t bdp flush
  | None => (t, None)
  end.

(** [DataUpdate]; [early] is [Some r] when the call returns [r] before it
    reaches [updateSeqUnlocked] (no value at the indexed path, or an
    error of the store). *)
Definition DataUpdate (t : VLite) (bdp : nat) (seq : N)
    (early : option (option error)) (flush : option error)
  : VLite * option error :=
  match early with
  | Some r => (t, r)
  | None => updateSeqUnlocked t bdp seq flush
  end.

Definition DataDelete (t : VLite) (bdp : nat) (seq : N) (flush : option error)
  : VLite * option error :=
  updateSeqUnlocked t bdp seq flush.

Definition SnapshotStart (t : VLite) (bdp : nat) (snapStart snapEnd : N)
    (flush : option error) : VLite * option error :=
  match applyBatchUnlocked t bdp flush with
  | (t, Some err) => (t, Some err)
  | (t, None) => (update_obj bdp (set_seqSnapEnd snapEnd) t, None)
  end.

(** [binary.BigEndian.Uint64] *)
Definition BigEndian_Uint64 (bytes : list N) : N :=
  fold_left (fun acc b => (acc * 256 + b)%N) bytes 0%N.

(** [OpaqueGet]; [opaque] is what [opaqueColl.Get] returns, already
    parsed to the partition UUID, and [seqBuf] what [seqColl.Get]
    returns. *)
Definition OpaqueGet (t : VLite) (bdp : nat) (opaque : result string)
    (seqBuf : result (list N)) : VLite * result N :=
  match opaque with
  | Err err => (t, Err err)
  | Ok uuid =>
      let t := update_obj bdp (set_lastUUID uuid) t in
      match objs t !! bdp with
      | Some p =>
          if (seqMax p <=? 0)%N then
            match seqBuf with
            | Err err => (t, Err err)
            | Ok buf =>
                if length buf <=? 0 then (t, Ok 0%N)
                else if negb (length buf =? 8)
                then (t, Err "vlite: unexpected size for seqMax bytes")
                else
                  (update_obj bdp (set_seqMax (BigEndian_Uint64 buf)) t,
                   Ok (BigEndian_Uint64 buf))
            end
          else (t, Ok (seqMax p))
      | None => (t, Ok 0%N)
      end
  end.

(** [OpaqueSet]; [uuid] is the partition UUID parsed from the value. *)
Definition OpaqueSet (t : VLite) (bdp : nat) (uuid : string) : VLite :=
  update_obj bdp (set_lastUUID uuid) t.

(** *** ConsistencyWait *)

(** How the part of [ConsistencyWait] before [ConsistencyWaitDone] ends:
    with a return, or with the partition and done-channel to wait on. *)
Inductive WaitStart : Type :=
| WaitReturn (err : option error)
| WaitOn (bdp : nat) (doneCh : nat).

Definition ConsistencyWait_enter (t : VLite)
    (name partitionUUID consistencyLevel : string) (consistencySeq : N)
  : VLite * WaitStart :=
  if String.eqb consistencyLevel "" then (t, WaitReturn None)
  else if negb (String.eqb consistencyLevel "at_plus")
  then (t, WaitReturn (Some (errorString "vlite: unsupported consistencyLevel")))
  else
    let doneCh := length (chans t) in
    let t := set_chans (chans t ++ [mkChan [] false]) t in
    let cwr := mkConsistencyWaitReq partitionUUID consistencyLevel
                 consistencySeq doneCh in
    match getPartitionUnlocked t name with
    | (t, Err err) => (t, WaitReturn (Some (errorString err)))
    | (t, Ok bdp) =>
        match objs t !! bdp with
        | Some p =>
            if negb (String.eqb partitionUUID "") &&
               negb (String.eqb partitionUUID (lastUUID p))
            then
              (chan_close doneCh
                 (chan_send doneCh
                    (errorString "vlite: pindex_consistency mismatched partition")
                    t),
               WaitOn bdp doneCh)
            else if (seqMaxBatch p <? consistencySeq)%N then
              (update_obj bdp (set_cwrQueue (heap_Push (cwrQueue p) cwr)) t,
               WaitOn bdp doneCh)
            else (chan_close doneCh t, WaitOn bdp doneCh)
        | None => (t, WaitOn bdp doneCh)
        end
    end.

(** The closure [currSeq]: the partition's [seqMaxBatch] now. *)
Definition currSeq (t : VLite) (bdp : nat) : N :=
  match objs t !! bdp with
  | Some p => seqMaxBatch p
  | None => 0%N
  end.

(** A call of [ConsistencyWaitDone] that has read [seqStart] and stands
    at its [select]. *)
Record Waiter := mkWaiter {
  w_partition : string;
  w_bdp : nat;
  w_doneCh : nat;
  w_seqStart : N
}.

Definition ConsistencyWaitDone_start (t : VLite) (name : string)
    (bdp doneCh : nat) : Waiter :=
  mkWaiter name bdp doneCh (currSeq t bdp).

Definition cancelledError (w : Waiter) (seqEnd : N) : error :=
  ErrorConsistencyWait "pindex_consistency: ConsistencyWaitDone cancelled"
    "cancelled" (<[w_partition w := [w_seqStart w; seqEnd]]> ∅).

(** The [select] of [ConsistencyWaitDone] in state [t].  [cancelReady]
    says whether a receive from [cancelCh] can proceed (it was closed, or
    holds a value); when both cases can proceed the runtime picks one,
    the cancel case iff [pickCancel].  [None]: the select blocks. *)
Definition ConsistencyWaitDone_select (pickCancel cancelReady : bool)
    (t : VLite) (w : Waiter) : option (VLite * option error) :=
  let doneReady := chan_ready (w_doneCh w) t in
  if cancelReady && (negb doneReady || pickCancel)
  then Some (t, Some (cancelledError w (currSeq t (w_bdp w))))
  else if doneReady then Some (chan_recv (w_doneCh w) t)
  else None.

(** *** Runs of a live VLite *)

(** The operations on a VLite other than closing it. *)
Inductive Op : Type :=
| OpDest (name : string)
| OpDataUpdate (bdp : nat) (seq : N) (early : option (option error))
    (flush : option error)
| OpDataDelete (bdp : nat) (seq : N) (flush : option error)
| OpSnapshotStart (bdp : nat) (snapStart snapEnd : N) (flush : option error)
| OpOpaqueGet (bdp : nat) (opaque : result string) (seqBuf : result (list N))
| OpOpaqueSet (bdp : nat) (uuid : string)
| OpConsistencyWait (name partitionUUID consistencyLevel : string)
    (consistencySeq : N)
| OpSelect (pickCancel cancelReady : bool) (w : Waiter).

Definition step (t : VLite) (op : Op) : VLite :=
  match op with
  | OpDest name => (Dest t name).1
  | OpDataUpdate bdp seq early flush => (DataUpdate t bdp seq early flush).1
  | OpDataDelete bdp seq flush => (DataDelete t bdp seq flush).1
  | OpSnapshotStart bdp snapStart snapEnd flush =>
      (SnapshotStart t bdp snapStart snapEnd flush).1
  | OpOpaqueGet bdp opaque seqBuf => (OpaqueGet t bdp opaque seqBuf).1
  | OpOpaqueSet bdp uuid => OpaqueSet t bdp uuid
  | OpConsistencyWait name partitionUUID consistencyLevel consistencySeq =>
      (ConsistencyWait_enter t name partitionUUID consistencyLevel
         consistencySeq).1
  | OpSelect pickCancel cancelReady w =>
      match ConsistencyWaitDone_select pickCancel cancelReady t w with
      | Some (t, _) => t
      | None => t
      end
  end.

Definition run (t : VLite) (ops : list Op) : VLite := foldl step t ops.


(** *** Specification predicates *)

(** The queue is a min-heap on [ConsistencySeq]: no item is below its
    parent. *)
Definition heapOrdered (h : list ConsistencyWaitReq) : Prop :=
  forall c a b,
    0 < c -> h !! c = Some a -> h !! ((c - 1) / 2) = Some b ->
    (ConsistencySeq b <= ConsistencySeq a)%N.

(** The invariant of [up]: the queue is heap-ordered but for the item at
    [j], whose children are not below its parent. *)
Definition upInv (h : list ConsistencyWaitReq) (j : nat) : Prop :=
  (forall c a b, 0 < c -> c <> j -> h !! c = Some a ->
     h !! ((c - 1) / 2) = Some b -> (ConsistencySeq b <= ConsistencySeq a)%N)
  /\ (forall c a g, 0 < j -> 0 < c -> (c - 1) / 2 = j -> h !! c = Some a ->
        h !! ((j - 1) / 2) = Some g -> (ConsistencySeq g <= ConsistencySeq a)%N).

(** The invariant of [down]: the first [n] items are heap-ordered but
    for the children of [i], which are not below the parent of [i]. *)
Definition downInv (h : list ConsistencyWaitReq) (n i : nat) : Prop :=
  (forall c a b, 0 < c -> c < n -> (c - 1) / 2 <> i -> h !! c = Some a ->
     h !! ((c - 1) / 2) = Some b -> (ConsistencySeq b <= ConsistencySeq a)%N)
  /\ (forall c a g, 0 < i -> 0 < c -> c < n -> (c - 1) / 2 = i ->
        h !! c = Some a -> h !! ((i - 1) / 2) = Some g ->
        (ConsistencySeq g <= ConsistencySeq a)%N).

(** The first [n] items are heap-ordered. *)
Definition heapOrderedUpTo (h : list ConsistencyWaitReq) (n : nat) : Prop :=
  forall c a b, 0 < c -> c < n -> h !! c = Some a ->
    h !! ((c - 1) / 2) = Some b -> (ConsistencySeq b <= ConsistencySeq a)%N.

(** A done-channel nobody has sent on or closed. *)
Definition pendingChan : Chan := mkChan [] false.

(** The state of the consistency waiter is sound: no fault has occurred;
    no partition has committed beyond what it has seen; every queue is a
    min-heap whose requests are still owed (their seq is above
    [seqMaxBatch]) and whose done-channels are untouched; and no two
    queued requests share a done-channel. *)
Record sound (t : VLite) : Prop := mkSound {
  sound_fault : fault t = None;
  sound_seq : forall bdp p, objs t !! bdp = Some p ->
                (seqMaxBatch p <= seqMax p)%N;
  sound_heap : forall bdp p, objs t !! bdp = Some p ->
                 heapOrdered (cwrQueue p);
  sound_owed : forall bdp p cwr, objs t !! bdp = Some p -> cwr ∈ cwrQueue p ->
                 (seqMaxBatch p < ConsistencySeq cwr)%N
                 /\ chans t !! DoneCh cwr = Some pendingChan;
  sound_chans : NoDup (DoneCh <$> (objs t ≫= cwrQueue));
  sound_partitions : forall name bdp, partitions t !! name = Some bdp ->
                       bdp < length (objs t);
  sound_inj : forall name1 name2 bdp,
                partitions t !! name1 = Some bdp ->
                partitions t !! name2 = Some bdp -> name1 = name2
}.

(** Closing the done-channels of [released], in order. *)
Definition releaseAll (released : list ConsistencyWaitReq) (t : VLite) : VLite :=
  foldl (fun t cwr => chan_close (DoneCh cwr) t) t released.

(** [t'] differs from [t] in its channels at most. *)
Definition sameButChans (t t' : VLite) : Prop :=
  store_open t' = store_open t /\ file_backed t' = file_backed t
  /\ partitions t' = partitions t /\ objs t' = objs t
  /\ restarts t' = restarts t.


(** What one operation may do to the partitions of [t]: every name keeps
    its partition object; [seqMax] is only raised; and [seqMaxBatch] is
    left as it is or set to [seqMax], never lowered. *)
Definition evolves (t t' : VLite) : Prop :=
  (forall name bdp, partitions t !! name = Some bdp ->
                    partitions t' !! name = Some bdp)
  /\ (forall bdp p, objs t !! bdp = Some p ->
        exists p', objs t' !! bdp = Some p'
          /\ (seqMax p <= seqMax p')%N
          /\ (seqMaxBatch p <= seqMaxBatch p')%N
          /\ (seqMaxBatch p' = seqMaxBatch p \/ seqMaxBatch p' = seqMax p')).

(** What a run of operations may do: the same, over many steps. *)
Definition advances (t t' : VLite) : Prop :=
  (forall name bdp, partitions t !! name = Some bdp ->
                    partitions t' !! name = Some bdp)
  /\ (forall bdp p, objs t !! bdp = Some p ->
        exists p', objs t' !! bdp = Some p'
          /\ (seqMax p <= seqMax p')%N
          /\ (seqMaxBatch p <= seqMaxBatch p')%N).

(** The operation is a [select] that may receive from the done-channel
    [ch]. *)
Definition selectsOn (ch : nat) (op : Op) : bool :=
  match op with
  | OpSelect _ _ w => w_doneCh w =? ch
  | _ => false
  end.

(** Where a wait for [cwr] on the partition object [bdp] stands while its
    waiter has not received from the done-channel: when the partition
    UUID [mismatched], the channel holds the error and is closed;
    otherwise either the channel was closed, empty, and the partition has
    committed the seq, or the request is in the queue. *)
Definition waitInv (mismatched : bool) (t : VLite) (bdp : nat)
    (cwr : ConsistencyWaitReq) : Prop :=
  exists p,
    objs t !! bdp = Some p
    /\ if mismatched
       then exists e, chans t !! DoneCh cwr = Some (mkChan [e] true)
       else (chans t !! DoneCh cwr = Some (mkChan [] true)
             /\ (ConsistencySeq cwr <= seqMaxBatch p)%N)
            \/ cwr ∈ cwrQueue p.

(** The partition object [getPartitionUnlocked] hands out for [name], as
    it is at the call. *)
Definition partitionAt (t : VLite) (name : string) : option VLitePartition :=
  match getPartitionUnlocked t name with
  | (t, Ok bdp) => objs t !! bdp
  | (_, Err _) => None
  end.

(** *** Sample runs *)

(** A memory-only VLite with one partition: a snapshot up to seq 20 is
    announced, an update at seq 9 arrives (inside the snapshot, so no
    batch is committed yet), and a reader asks to wait for seq 7. *)
Definition sampleOps : list Op :=
  [OpDest "0";
   OpSnapshotStart 0 0%N 20%N None;
   OpDataUpdate 0 9%N None None;
   OpConsistencyWait "0" "" "at_plus" 7%N].

Definition sampleVLite : VLite := run (NewVLite false) sampleOps.

(** The request queued by [sampleOps]. *)
Definition sampleCwr : ConsistencyWaitReq :=
  mkConsistencyWaitReq "" "at_plus" 7%N 0.

(** The partition of [sampleVLite]. *)
Definition samplePartition : VLitePartition :=
  mkVLitePartition "0" 9%N 0%N 20%N EmptyString [sampleCwr].

(** More of the same run: the snapshot ends with an update at seq 20,
    and a late update at seq 3 follows. *)
Definition sampleOpsMore : list Op :=
  [OpDataUpdate 0 20%N None None;
   OpDataDelete 0 3%N None].

(** After [sampleOps], a second reader asks to wait for seq 50. *)
Definition sampleWaiting : VLite :=
  (ConsistencyWait_enter sampleVLite "0" "" "at_plus" 50%N).1.

(** *** More sample inputs for the planner *)

(** An index over a data source that cannot be reached. *)
Definition sampleIndexDefLost : IndexDef :=
  mkIndexDef "engine" "k" "W" "" "couchbase" "gone" "" ""
    (mkPlanParams 4 0 "" "" false).

(** The index ["j"], plan-frozen; the sample previous plan has no entry
    of it. *)
Definition sampleFrozenJ : IndexDef :=
  mkIndexDef "engine" "j" "V" "" "couchbase" "ten" "" ""
    (mkPlanParams 4 0 "" "" true).

(** A placement of one partition: a primary and two replicas. *)
Definition samplePlacement : Partition :=
  mkPartition "i_U_8dd93ce8"
    (<["primary" := ["N1"]]> (<["replica" := ["N2"; "N3"]]> ∅)).

(** ** misc.go: string sets *)

(** [StringsToMap]: the strings as the keys of a map to [true]; a nil
    slice gives a nil map. *)
Definition StringsToMap (strsArr : option (list string))
  : option (gmap string bool) :=
  match strsArr with
  | None => None
  | Some strsArr =>
      Some (foldl (fun strs str => <[str := true]> strs) ∅ strsArr)
  end.

(** [m[s]] on a [map[string]bool]: [false] for an absent key, and for
    every key of a nil map. *)
Definition mapIndexBool (m : option (gmap string bool)) (s : string) : bool :=
  match m with
  | Some m => default false (m !! s)
  | None => false
  end.

(** [StringsRemoveStrings]; a range over a nil slice visits nothing. *)
Definition StringsRemoveStrings (stringArr removeArr : option (list string))
  : list string :=
  let removeMap := StringsToMap removeArr in
  foldl (fun rv s => if negb (mapIndexBool removeMap s) then rv ++ [s] else rv)
        [] (default [] stringArr).

(** [StringsIntersectStrings]; the state of the loop is [rMap] and
    [rv]. *)
Definition StringsIntersectStrings (a b : option (list string))
  : list string :=
  let bMap := StringsToMap b in
  (foldl (fun (st : gmap string bool * list string) s =>
            if mapIndexBool bMap s && negb (mapIndexBool (Some st.1) s)
            then (<[s := true]> st.1, st.2 ++ [s])
            else st)
         (∅, []) (default [] a)).2.

(** A version string all of whose dot-separated parts [strconv.Atoi]
    accepts. *)
Definition numericVersion (x : string) : Prop :=
  Forall (fun part => is_Some (Atoi part)) (splitOn "." x EmptyString).

(** ** planner.go: CalcNodesLayout *)

(** The order of [sort.Strings]: byte by byte, a prefix first. *)
Definition strLe : relation string := fun a b => String.leb a b = true.

#[global] Instance strLe_dec : RelDecision strLe :=
  fun a b => decide (String.leb a b = true).

(** [sort.Strings]: the strings in increasing order.  (The order is
    total and antisymmetric, so the sorted list is the same for every
    sorting algorithm.) *)
Definition sort_Strings (l : list string) : list string := merge_sort strLe l.

(** A node definition that can support pindexes: [tags == nil ||
    tags["pindex"]]. *)
Definition canHostPIndexes (nodeDef : NodeDef) : Prop :=
  match nd_Tags nodeDef with
  | None => True
  | Some tags => "pindex" ∈ tags
  end.

#[global] Instance canHostPIndexes_dec (nodeDef : NodeDef)
  : Decision (canHostPIndexes nodeDef) :=
  match nd_Tags nodeDef as tags
        return Decision (match tags with
                         | None => True
                         | Some tags => "pindex" ∈ tags
                         end) with
  | None => left I
  | Some tags => decide ("pindex" ∈ tags)
  end.

Module Layout.
Section CalcNodesLayout.

(** [rangeOf m]: the entries of [m] in the order in which a [range]
    over the map visits them. *)
Variable rangeOf : forall V : Type, gmap string V -> list (string * V).

(** The walk up a node's container path; the state is the hierarchy
    and [child]. *)
Definition ancestorStep (st : gmap string string * string) (ancestor : string)
  : gmap string string * string :=
  let '(nodeHierarchy, child) := st in
  (if negb (String.eqb child EmptyString)
      && negb (String.eqb ancestor EmptyString)
   then <[child := ancestor]> nodeHierarchy else nodeHierarchy,
   ancestor).

(** The body of the loop over [nodeDefs.NodeDefs]; the state is
    [nodeUUIDs], [nodeWeights] and [nodeHierarchy]. *)
Definition nodeDefStep
    (st : list string * gmap string Z * gmap string string)
    (nodeDef : NodeDef) : list string * gmap string Z * gmap string string :=
  let '(nodeUUIDs, nodeWeights, nodeHierarchy) := st in
  let tags := StringsToMap (nd_Tags nodeDef) in
  if match tags with None => true | Some _ => false end
     || mapIndexBool tags "pindex"
  then
    (nodeUUIDs ++ [nd_UUID nodeDef],
     if (0 <? nd_Weight nodeDef)%Z
     then <[nd_UUID nodeDef := nd_Weight nodeDef]> nodeWeights
     else nodeWeights,
     (foldl ancestorStep (nodeHierarchy, nd_UUID nodeDef)
            (splitOn "/" (nd_Container nodeDef) EmptyString)).1)
  else st.

(** The node UUIDs of the previous plan, as the two nested ranges
    collect them. *)
Definition prevNodeUUIDs (planPIndexesPrev : option PlanPIndexes)
  : list string :=
  match planPIndexesPrev with
  | None => []
  | Some prev =>
      rangeOf _ (pps_PlanPIndexes prev) ≫=
        (fun planPIndexPrev => (rangeOf _ (pp_Nodes planPIndexPrev.2)).*1)
  end.

(** [CalcNodesLayout]; [nodeDefs] lists the node definitions in the
    order of the range over [nodeDefs.NodeDefs].  (The function does
    not read its [indexDefs] argument.) *)
Definition CalcNodesLayout (nodeDefs : list NodeDef)
    (planPIndexesPrev : option PlanPIndexes) : NodesLayout :=
  let '(nodeUUIDs, nodeWeights, nodeHierarchy) :=
    foldl nodeDefStep ([], ∅, ∅) nodeDefs in
  let nodeUUIDsPrev := prevNodeUUIDs planPIndexesPrev in
  let nodeUUIDsPrev :=
    StringsIntersectStrings (Some nodeUUIDsPrev) (Some nodeUUIDsPrev) in
  let nodeUUIDsAll := nodeUUIDs ++ nodeUUIDsPrev in
  let nodeUUIDsAll :=
    StringsIntersectStrings (Some nodeUUIDsAll) (Some nodeUUIDsAll) in
  let nodeUUIDsToAdd :=
    StringsRemoveStrings (Some nodeUUIDsAll) (Some nodeUUIDsPrev) in
  let nodeUUIDsToRemove :=
    StringsRemoveStrings (Some nodeUUIDsAll) (Some nodeUUIDs) in
  mkNodesLayout (sort_Strings nodeUUIDsAll) (sort_Strings nodeUUIDsToAdd)
    (sort_Strings nodeUUIDsToRemove) nodeWeights nodeHierarchy.

End CalcNodesLayout.
End Layout.

(** The node UUIDs that a plan names. *)
Definition inPlan (planPIndexesPrev : option PlanPIndexes) (nodeUUID : string)
  : Prop :=
  exists prev name planPIndex,
    planPIndexesPrev = Some prev
    /\ pps_PlanPIndexes prev !! name = Some planPIndex
    /\ is_Some (pp_Nodes planPIndex !! nodeUUID).

(** The node UUIDs of the node definitions that can support pindexes. *)
Definition hosting (nodeDefs : list NodeDef) (nodeUUID : string) : Prop :=
  exists nodeDef, nodeDef ∈ nodeDefs /\ canHostPIndexes nodeDef
                  /\ nd_UUID nodeDef = nodeUUID.

(** Three nodes, one of them without the ["pindex"] tag, and a previous
    plan that names a node that has left. *)
Definition sampleLayoutNodes : list NodeDef :=
  [ mkNodeDef "n2" None "dc1/rack2" 3;
    mkNodeDef "n1" (Some ["feed"; "pindex"]) EmptyString 0;
    mkNodeDef "n3" (Some []) EmptyString 1 ].

Definition sampleLayoutPrev : option PlanPIndexes :=
  Some (mkPlanPIndexes "u"
          {[ "p0" := mkPlanPIndex "p0" EmptyString EmptyString EmptyString EmptyString EmptyString EmptyString EmptyString EmptyString EmptyString EmptyString
                       {[ "n0" := mkPlanPIndexNode true true 0;
                          "n1" := mkPlanPIndexNode true true 1 ]} ]}
          "1.0" ∅).

(** ** pindex_impl_vlite.go: the main collection and its queries *)

(** A [gkvlite.Item], of which the code reads the key and the value. *)
Record Item := mkItem {
  item_Key : string;
  item_Val : string
}.

(** [VLiteQueryParams]; [Timeout] and [Consistency] are not read by
    [QueryMainColl]. *)
Record VLiteQueryParams := mkVLiteQueryParams {
  qp_Limit : N;
  qp_Skip : N;
  qp_Q : string;
  qp_StartInclusive : string;
  qp_EndExclusive : string
}.

(** The value of a [uint64] expression. *)
Definition uint64 (n : N) : N := (n mod 2 ^ 64)%N.

(** The byte [0xff]. *)
Definition xff : string :=
  String (Ascii true true true true true true true true) EmptyString.

(** The bounds that [QueryMainColl] scans between; [path] is
    [t.params.Path]. *)
Definition queryRange (path : string) (p : VLiteQueryParams)
  : string * string :=
  if negb (String.eqb (qp_Q p) EmptyString) then
    if negb (String.eqb path EmptyString)
    then (qp_Q p +:+ xff, qp_Q p +:+ xff +:+ xff)
    else (qp_Q p, qp_Q p +:+ xff)
  else (qp_StartInclusive p, qp_EndExclusive p).

(** [Collection.VisitItemsAscend] of gkvlite hands the items whose key
    is at least the target to the visitor, in ascending key order,
    until the visitor returns false; [items] are the items of the
    collection in ascending key order.  (The I/O error of the store,
    which [QueryMainColl] hands on, is left out.) *)
Fixpoint visitItems {S : Type} (visitor : S -> Item -> S * bool) (st : S)
    (items : list Item) : S :=
  match items with
  | [] => st
  | item :: items =>
      let '(st, continue) := visitor st item in
      if continue then visitItems visitor st items else st
  end.

Definition VisitItemsAscend {S : Type} (items : list Item) (target : string)
    (visitor : S -> Item -> S * bool) (st : S) : S :=
  visitItems visitor st (filter (fun item => strLe target (item_Key item)) items).

Section QueryMainColl.
Context {C : Type}.

(** The callback, with the state [C] of its closure. *)
Variable cb : C -> Item -> C * bool.

(** The visitor of [QueryMainColl]; its state is [totVisits] and the
    state of the callback. *)
Definition queryVisitor (p : VLiteQueryParams) (endExclusive : string)
    (st : N * C) (item : Item) : (N * C) * bool :=
  let '(totVisits, c) := st in
  let ok := (String.length endExclusive <=? 0)
            || String.ltb (item_Key item) endExclusive in
  if negb ok then (st, false)
  else
    let totVisits := uint64 (totVisits + 1) in
    if (qp_Skip p <? totVisits)%N then
      let '(c, continue) := cb c item in
      if negb continue then ((totVisits, c), false)
      else ((totVisits, c),
            (qp_Limit p <=? 0)%N
            || (totVisits <? uint64 (qp_Skip p + qp_Limit p))%N)
    else ((totVisits, c),
          (qp_Limit p <=? 0)%N
          || (totVisits <? uint64 (qp_Skip p + qp_Limit p))%N).

(** [QueryMainColl]; [items] are the items of the snapshot's main
    collection in ascending key order, and the result is the state in
    which the calls of [cb] leave its closure. *)
Definition QueryMainColl (path : string) (p : VLiteQueryParams)
    (items : list Item) (c : C) : C :=
  let '(startInclusive, endExclusive) := queryRange path p in
  (VisitItemsAscend items startInclusive (queryVisitor p endExclusive)
     (0%N, c)).2.

End QueryMainColl.

(** A key within the bounds of a scan. *)
Definition inRange (bounds : string * string) (key : string) : Prop :=
  strLe bounds.1 key
  /\ (bounds.2 = EmptyString \/ String.ltb key bounds.2 = true).

#[global] Instance inRange_dec bounds key : Decision (inRange bounds key) :=
  and_dec (decide (String.leb bounds.1 key = true))
          (or_dec (decide (bounds.2 = EmptyString))
                  (decide (String.ltb key bounds.2 = true))).

(** The part of a result list that [Skip] and [Limit] select; a
    [Limit] of 0 is no limit. *)
Definition window (p : VLiteQueryParams) (l : list Item) : list Item :=
  let l := drop (N.to_nat (qp_Skip p)) l in
  if (qp_Limit p =? 0)%N then l else take (N.to_nat (qp_Limit p)) l.

(** *** The store calls of DataUpdate and DataDelete *)

(** A call to a collection of the store. *)
Inductive StoreCall : Type :=
| BackGet (key : string)
| BackSet (key val : string)
| BackDelete (key : string)
| MainSet (key val : string)
| MainDelete (key : string).

(** What the store answers to the calls of one operation: the value and
    the error of [backColl.Get], and the errors of the other calls. *)
Record StoreReplies := mkStoreReplies {
  backGet : string * option error;
  mainDelete : option error;
  backSet : option error;
  mainSet : option error
}.

(** The key under which [DataUpdate] stores a document of a VLite with
    a path: the secondary value, the byte [0xff] and the document key. *)
Definition storeKeyOf (secVal key : string) : string :=
  secVal +:+ xff +:+ key.

(** The part of [DataUpdate] before [updateSeqUnlocked]: the calls it
    makes to the store, and [Some r] when it returns [r] there.
    [secVal] is the secondary value that [jsonpointer.Find] and the
    unquoting leave, [None] when the call returns nil for the lack of
    one. *)
Definition DataUpdate_store (path key val : string) (secVal : option string)
    (r : StoreReplies) : list StoreCall * option (option error) :=
  if negb (String.eqb path EmptyString) then
    match secVal with
    | None => ([], Some None)
    | Some secVal =>
        let storeKey := storeKeyOf secVal key in
        let storeVal := EmptyString in
        let '(backKey, err) := backGet r in
        let calls := [BackGet key] in
        let deleted :=
          if bool_decide (err <> None) && (0 <? String.length backKey)
          then Some (calls ++ [MainDelete backKey], mainDelete r)
          else None in
        match deleted with
        | Some (calls, Some err) => (calls, Some (Some err))
        | _ =>
            let calls := match deleted with
                         | Some (calls, _) => calls
                         | None => calls
                         end ++ [BackSet key storeKey] in
            match backSet r with
            | Some err => (calls, Some (Some err))
            | None =>
                let calls := calls ++ [MainSet storeKey storeVal] in
                match mainSet r with
                | Some err => (calls, Some (Some err))
                | None => (calls, None)
                end
            end
        end
    end
  else
    let calls := [MainSet key val] in
    match mainSet r with
    | Some err => (calls, Some (Some err))
    | None => (calls, None)
    end.

(** The part of [DataDelete] before [updateSeqUnlocked]; the errors of
    its deletes are dropped. *)
Definition DataDelete_store (path key : string) (r : StoreReplies)
  : list StoreCall :=
  if negb (String.eqb path EmptyString) then
    let '(backKey, err) := backGet r in
    if bool_decide (err <> None) && (0 <? String.length backKey)
    then [BackGet key; MainDelete backKey; BackDelete key]
    else [BackGet key]
  else [MainDelete key].

(** *** The gatherer's count *)

(** [VLiteGatherer.Count]; [counts] are the results of
    [CountMainColl] and of the remote [Count]s in the order in which
    their goroutines take the mutex.  The state is [total] and
    [totalErr]. *)
Definition gathererCountStep (st : N * option error) (r : result N)
  : N * option error :=
  match r with
  | Ok t => (uint64 (st.1 + t), st.2)
  | Err err => (st.1, Some (errorString err))
  end.

Definition VLiteGatherer_Count (counts : list (result N)) : N * option error :=
  foldl gathererCountStep (0%N, None) counts.

(** ** pindex_consistency.go: waiting on the partitions of a vector *)

Section ConsistencyWaitPartitions.
Context {S : Type}.

(** [t.ConsistencyWait(partition, partitionUUID, consistencyLevel,
    consistencySeq, cancelCh)] of the [ConsistencyWaiter], with the
    state [S] that the calls act on. *)
Variable ConsistencyWait : S -> string -> string -> string -> N -> S * option error.

(** The body of the loop over the consistency vector, entered while no
    call has failed. *)
Definition waitPartitionStep (partitions : gmap string bool)
    (consistencyLevel : string) (st : S) (entry : string * N)
  : S * option error :=
  let '(k, consistencySeq) := entry in
  if (0 <? consistencySeq)%N then
    let arr := splitOn "/" k EmptyString in
    let partition := nth 0 arr EmptyString in
    match partitions !! partition with
    | Some _ =>
        let partitionUUID :=
          if 1 <? length arr then nth 1 arr EmptyString else EmptyString in
        ConsistencyWait st partition partitionUUID consistencyLevel
          consistencySeq
    | None => (st, None)
    end
  else (st, None).

(** [ConsistencyWaitPartitions]; [consistencyVector] lists the entries
    of the vector in the order of the range over the map. *)
Fixpoint ConsistencyWaitPartitions (st : S) (partitions : gmap string bool)
    (consistencyLevel : string) (consistencyVector : list (string * N))
  : S * option error :=
  match consistencyVector with
  | [] => (st, None)
  | entry :: consistencyVector =>
      match waitPartitionStep partitions consistencyLevel st entry with
      | (st, Some err) => (st, Some err)
      | (st, None) =>
          ConsistencyWaitPartitions st partitions consistencyLevel
            consistencyVector
      end
  end.

End ConsistencyWaitPartitions.

(** The call that an entry of a consistency vector asks for: none for
    a seq of 0 or a partition that is not among [partitions]. *)
Definition waitCallOf (partitions : gmap string bool) (entry : string * N)
  : option (string * string * N) :=
  let arr := splitOn "/" entry.1 EmptyString in
  if (0 <? entry.2)%N && bool_decide (is_Some (partitions !! nth 0 arr EmptyString))
  then Some (nth 0 arr EmptyString, nth 1 arr EmptyString, entry.2)
  else None.

(** Sample items of a main collection. *)
Definition sampleItems : list Item :=
  [ mkItem "a" "1"; mkItem "b" "2"; mkItem "ba" "3"; mkItem "bb" "4";
    mkItem "c" "5" ].

(** A string without the byte [0xff] (every valid UTF-8 text is one). *)
Definition freeOfFF (s : string) : Prop :=
  ~ In (Ascii true true true true true true true true) (list_ascii_of_string s).

(** [binary.BigEndian.PutUint64(b, v)]: the eight bytes of [v], the most
    significant first.  [updateSeqUnlocked] stores these bytes of
    [seqMax] in the seq collection under the partition's key. *)
Definition BigEndian_PutUint64 (v : N) : list N :=
  [ (v / 2 ^ 56) mod 256; (v / 2 ^ 48) mod 256; (v / 2 ^ 40) mod 256;
    (v / 2 ^ 32) mod 256; (v / 2 ^ 24) mod 256; (v / 2 ^ 16) mod 256;
    (v / 2 ^ 8) mod 256; v mod 256 ]%N.

(** Sample input: an alias over one bleve index. *)
Definition sampleAliasDefs : gmap string IndexDef :=
  <["top" := aliasDef "top" "t1" "A"]>
    (<["A" := mkIndexDef "bleve" "A" "a1" EmptyString EmptyString EmptyString
                EmptyString EmptyString
                (mkPlanParams 0 0 EmptyString EmptyString false)]> ∅).

(** *** Query *)

Definition entryKeyPrefix : string :=
  "{" +:+ dquote +:+ "key" +:+ dquote +:+ ":".

Definition entryKeyPrefixSep : string :=
  String (ascii_of_nat 10) "," +:+ entryKeyPrefix.

Definition entryValPrefix : string :=
  ", " +:+ dquote +:+ "val" +:+ dquote +:+ ":".

Section Query.

(** [json.Marshal] of a string (its error is dropped by the code), and
    the constant [jsonCloseBrace], which is declared outside the given
    sources. *)
Variable marshal : string -> string.
Variable jsonCloseBrace : string.

(** The callback of [Query]; its state is the flag [first] and what was
    written to [w]. *)
Definition Query_cb (st : bool * string) (i : Item) : (bool * string) * bool :=
  let '(first, w) := st in
  let w := if first then w +:+ entryKeyPrefix else w +:+ entryKeyPrefixSep in
  let w := w +:+ marshal (item_Key i) in
  let w := w +:+ entryValPrefix in
  let w := w +:+ marshal (item_Val i) in
  let w := w +:+ jsonCloseBrace in
  ((false, w), true).

(** [VLite.Query]; [req] is what [json.Unmarshal] makes of the request,
    [wait] what [ConsistencyWaitPIndex] returns, [items] the items of
    the main collection in ascending key order and [w] what the writer
    holds. *)
Definition Query (path : string) (req : result VLiteQueryParams)
    (wait : option error) (items : list Item) (w : string)
  : string * option error :=
  match req with
  | Err err =>
      (w, Some (errorString ("vlite: parsing vliteQueryParams, err: " +:+ err)))
  | Ok vliteQueryParams =>
      match wait with
      | Some err => (w, Some err)
      | None =>
          let w := w +:+ "{" +:+ dquote +:+ "results" +:+ dquote +:+ ":[" in
          let '(first, w) :=
            QueryMainColl Query_cb path vliteQueryParams items (true, w) in
          (w +:+ "]}", None)
      end
  end.

(** The text that [Query] writes for one item. *)
Definition queryEntry (i : Item) : string :=
  entryKeyPrefix +:+ marshal (item_Key i) +:+ entryValPrefix +:+
  marshal (item_Val i) +:+ jsonCloseBrace.

End Query.

(* ================================================================== *)
(** * Part II: properties                                               *)
(* ================================================================== *)

(** ** Strings *)

Lemma append_nil_l (b : string) : EmptyString +:+ b = b.
Proof. reflexivity. Qed.

Lemma append_cons (c : ascii) (a b : string) :
  String c a +:+ b = String c (a +:+ b).
Proof. reflexivity. Qed.

Lemma length_append (a b : string) :
  String.length (a +:+ b) = String.length a + String.length b.
Proof.
  induction a as [|c a IH]; [reflexivity|].
  rewrite append_cons. simpl. now rewrite IH.
Qed.

Lemma substring_all (a : string) : substring 0 (String.length a) a = a.
Proof. induction a as [|c a IH]; simpl; [reflexivity | now rewrite IH]. Qed.

Lemma substring_append_l (a b : string) :
  substring 0 (String.length a) (a +:+ b) = a.
Proof.
  induction a as [|c a IH].
  - rewrite append_nil_l. destruct b; reflexivity.
  - rewrite append_cons. simpl. now rewrite IH.
Qed.

Lemma substring_append_r (a b : string) (m : nat) :
  substring (String.length a) m (a +:+ b) = substring 0 m b.
Proof.
  induction a as [|c a IH]; [reflexivity|].
  rewrite append_cons. simpl. exact IH.
Qed.

Lemma str_from_append (a b : string) :
  str_from (String.length a) (a +:+ b) = b.
Proof.
  unfold str_from. rewrite length_append, substring_append_r.
  replace (String.length a + String.length b - String.length a)
    with (String.length b) by lia.
  apply substring_all.
Qed.

Lemma append_assoc (a b c : string) : (a +:+ b) +:+ c = a +:+ (b +:+ c).
Proof.
  induction a as [|x a IH]; [reflexivity|].
  rewrite !append_cons. now rewrite IH.
Qed.

Lemma append_inj_l (a x y : string) : a +:+ x = a +:+ y -> x = y.
Proof.
  induction a as [|c a IH]; intros E; [exact E|].
  rewrite !append_cons in E. injection E as E. auto.
Qed.

Lemma HasPrefix_append (a b : string) : HasPrefix (a +:+ b) a = true.
Proof.
  unfold HasPrefix. rewrite length_append, substring_append_l, String.eqb_refl.
  rewrite andb_true_r. apply Nat.leb_le. lia.
Qed.

Lemma HasSuffix_append (a b : string) : HasSuffix (a +:+ b) b = true.
Proof.
  unfold HasSuffix. rewrite length_append.
  replace (String.length a + String.length b - String.length b)
    with (String.length a) by lia.
  rewrite str_from_append, String.eqb_refl, andb_true_r.
  apply Nat.leb_le. lia.
Qed.

(** ** C10: pindex paths *)

Section PIndexPathProofs.
Context `{GoOS}.

(** C10. Path construction and parsing round-trip: for every data
    directory and partition name, parsing the constructed path gives the
    name back with [ok = true]; and a path that lacks the [".pindex"]
    suffix, or that does not start with the data directory followed by
    the path separator, is answered with [ok = false]. *)
Theorem C10_pindex_path_roundtrip :
  (forall dataDir pindexName,
      ParsePIndexPath dataDir (PIndexPath dataDir pindexName)
      = Some (pindexName, true))
  /\ (forall dataDir path,
        HasSuffix path pindexPathSuffix = false
        \/ HasPrefix path (dataDir +:+ sepString) = false ->
        ParsePIndexPath dataDir path = Some (EmptyString, false)).
Proof.
  split.
  - intros dataDir pindexName. unfold ParsePIndexPath, PIndexPath.
    rewrite <- !append_assoc. rewrite HasSuffix_append. simpl negb.
    rewrite !append_assoc.
    rewrite <- (append_assoc dataDir sepString).
    rewrite HasPrefix_append. simpl negb. cbv iota.
    rewrite str_from_append.
    rewrite length_append.
    destruct (Nat.ltb_spec (String.length pindexName
                            + String.length pindexPathSuffix)
                (String.length pindexPathSuffix)) as [Hlt|_]; [lia|].
    replace (String.length pindexName + String.length pindexPathSuffix
             - String.length pindexPathSuffix)
      with (String.length pindexName) by lia.
    now rewrite substring_append_l.
  - intros dataDir path [Hs|Hp]; unfold ParsePIndexPath.
    + rewrite Hs. reflexivity.
    + destruct (HasSuffix path pindexPathSuffix); simpl; [|reflexivity].
      rewrite Hp. reflexivity.
Qed.

End PIndexPathProofs.

Lemma C10_pindex_path_witness :
  @ParsePIndexPath unixOS "/data" "/data/i_U_8dd93ce8.pindex"
  = Some ("i_U_8dd93ce8", true)
  /\ @ParsePIndexPath unixOS "/data" "/other/i_U_8dd93ce8.pindex"
     = Some (EmptyString, false).
Proof.
  split.
  - exact (proj1 (@C10_pindex_path_roundtrip unixOS) "/data" "i_U_8dd93ce8").
  - apply (proj2 (@C10_pindex_path_roundtrip unixOS)). right. reflexivity.
Defined.

(** ** NewUUID and the panic of its slice expression *)

Section UUIDProofs.
Context `{HR : GoRand}.

Lemma NewUUID_rng rng uuid rng' :
  NewUUID rng = Some (uuid, rng') -> rng' = S (S rng).
Proof.
  unfold NewUUID. cbv zeta. destruct (_ <? 16); [discriminate|].
  intros E. injection E as _ <-. reflexivity.
Qed.

Lemma NewUUID_fit rng :
  uuidsFit -> exists uuid, NewUUID rng = Some (uuid, S (S rng)).
Proof.
  intros Hfit. destruct (Hfit rng) as [[uuid rng'] E].
  exists uuid. rewrite E. now rewrite (NewUUID_rng _ _ _ E).
Qed.

End UUIDProofs.

(** ** The split step *)

Section PlannerProofs.
Context `{HR : GoRand} `{HE : PlannerEnv}.

Lemma splitLoop_record {S : Type} (add : list string -> S -> S) max arr :
  forall curr (st : S) gs,
  exists new,
    splitLoop (fun g gs => gs ++ [g]) max arr curr gs
    = ((splitLoop add max arr curr st).1, gs ++ new)
    /\ (splitLoop add max arr curr st).2 = foldl (fun s g => add g s) st new.
Proof.
  induction arr as [|sp rest IH]; intros curr st gs; simpl.
  - exists []. rewrite app_nil_r. split; reflexivity.
  - destruct ((0 <? max)%Z && (max <=? Z.of_nat (length (curr ++ [sp])))%Z).
    + destruct (IH [] (add (curr ++ [sp]) st) (gs ++ [curr ++ [sp]]))
        as (new & E1 & E2).
      exists ((curr ++ [sp]) :: new). rewrite E1, E2.
      rewrite <- app_assoc. split; reflexivity.
    + apply IH.
Qed.

(** What a call of [addPlanPIndex] that returns has done. *)
Lemma addPlanPIndex_spec d g st st' :
  addPlanPIndex d g st = Some st' ->
  exists q,
    splitEntry d g (PlanPIndexName d (Join g ",")) q
    /\ pp_Nodes q = ∅
    /\ planPIndexesForIndex st'
       = <[PlanPIndexName d (Join g ",") := q]> (planPIndexesForIndex st)
    /\ planPIndexesOut st'
       = set_pps_PlanPIndexes
           (<[PlanPIndexName d (Join g ",") := q]>
              (pps_PlanPIndexes (planPIndexesOut st)))
           (planPIndexesOut st)
    /\ NewUUID (split_rng st) = Some (pp_UUID q, split_rng st').
Proof.
  unfold addPlanPIndex. cbv zeta.
  destruct (NewUUID (split_rng st)) as [[u r]|]; [|discriminate].
  intros E. injection E as <-.
  eexists (mkPlanPIndex _ _ _ _ _ _ _ _ _ _ _ _).
  split; [|split; [|split; [|split]]]; [|reflexivity..].
  unfold splitEntry. simpl. repeat split; reflexivity.
Qed.

Lemma addPlanPIndex_fit d g st :
  uuidsFit -> is_Some (addPlanPIndex d g st).
Proof.
  intros Hfit. unfold addPlanPIndex. cbv zeta.
  destruct (Hfit (split_rng st)) as [[u r] ->]. eauto.
Qed.

(** The calls of [addPlanPIndex] for the groups [gs], in order; [None]
    once a call has panicked. *)
Local Abbreviation addAll d := (foldl (fun s g => s ≫= addPlanPIndex d g)).

Lemma addAll_None d gs : addAll d None gs = None.
Proof. induction gs as [|g gs IH]; [reflexivity|exact IH]. Qed.

Lemma addAll_snoc d gs g so :
  addAll d so (gs ++ [g]) = addAll d so gs ≫= addPlanPIndex d g.
Proof. now rewrite foldl_app. Qed.

Lemma addAll_fit d gs st : uuidsFit -> is_Some (addAll d (Some st) gs).
Proof.
  intros Hfit. induction gs as [|g gs IH] using rev_ind; [simpl; eauto|].
  rewrite addAll_snoc. destruct IH as [st1 ->]. simpl.
  now apply addPlanPIndex_fit.
Qed.

Lemma addAll_size d gs st st' :
  planPIndexesForIndex st = ∅ ->
  addAll d (Some st) gs = Some st' ->
  (size (planPIndexesForIndex st') <=? 0) = (length gs <=? 0).
Proof.
  intros Hst. destruct gs as [|g gs _] using rev_ind.
  - simpl. intros E. injection E as <-.
    rewrite Hst, map_size_empty. reflexivity.
  - rewrite addAll_snoc, length_app.
    destruct (addAll d (Some st) gs) as [st1|]; [|discriminate]. simpl.
    intros E. destruct (addPlanPIndex_spec d g st1 st' E) as (q & _ & _ & Hf & _).
    assert (Hne : planPIndexesForIndex st' <> ∅)
      by (rewrite Hf; apply insert_non_empty).
    apply map_size_non_empty_iff in Hne.
    transitivity false; [apply Nat.leb_gt; lia|].
    symmetry. apply Nat.leb_gt. lia.
Qed.

(** The split step is the run of [addPlanPIndex] over the groups. *)
Lemma Split_groups d server out rng arr :
  DataSourcePartitions (id_SourceType d) (id_SourceName d) (id_SourceUUID d)
    (id_SourceParams d) server = Ok arr ->
  SplitIndexDefIntoPlanPIndexes d server out rng
  = Ok <$> addAll d (Some (mkSplitState ∅ out rng))
             (splitGroups (MaxPartitionsPerPIndex (id_PlanParams d)) arr).
Proof.
  intros Hds. unfold SplitIndexDefIntoPlanPIndexes, splitGroups. rewrite Hds.
  cbv zeta.
  destruct (splitLoop_record (fun curr st => st ≫= addPlanPIndex d curr)
              (MaxPartitionsPerPIndex (id_PlanParams d)) arr []
              (Some (mkSplitState ∅ out rng)) []) as (new & E1 & E2).
  rewrite E1. simpl app.
  destruct (splitLoop (fun curr st => st ≫= addPlanPIndex d curr) _ arr [] _)
    as [curr so].
  cbn [fst snd] in *. subst so.
  destruct (addAll d (Some (mkSplitState ∅ out rng)) new) as [st|] eqn:Est.
  - rewrite (addAll_size d new (mkSplitState ∅ out rng) st eq_refl Est).
    destruct ((0 <? length curr) || (length new <=? 0)).
    + now rewrite addAll_snoc, Est.
    + now rewrite Est.
  - destruct ((0 <? length curr) || (length new <=? 0)).
    + now rewrite addAll_snoc, Est.
    + now rewrite Est.
Qed.

Lemma splitLoop_positive (m : nat) arr :
  0 < m ->
  forall curr gs,
    length curr < m ->
    Forall (fun g => length g = m) gs ->
    let r := splitLoop (fun g gs => gs ++ [g]) (Z.of_nat m) arr curr gs in
    concat r.2 ++ r.1 = concat gs ++ curr ++ arr
    /\ length r.1 < m
    /\ Forall (fun g => length g = m) r.2.
Proof.
  intros Hm. induction arr as [|sp rest IH]; intros curr gs Hc Hgs; simpl.
  - rewrite app_nil_r. auto.
  - destruct (Z.ltb_spec 0 (Z.of_nat m)) as [_|]; [|lia].
    rewrite andb_true_l, length_app. simpl length.
    destruct (Z.leb_spec (Z.of_nat m) (Z.of_nat (length curr + 1))) as [Hfull|Hnot].
    + assert (Hlen : length (curr ++ [sp]) = m) by (rewrite length_app; simpl; lia).
      destruct (IH [] (gs ++ [curr ++ [sp]])) as (E & L & F).
      * simpl. lia.
      * apply Forall_app. split; [assumption|]. constructor; [assumption|constructor].
      * split; [|split]; try assumption.
        rewrite E, concat_app. simpl. rewrite !app_nil_r, <- !app_assoc.
        reflexivity.
    + destruct (IH (curr ++ [sp]) gs) as (E & L & F).
      * rewrite length_app. simpl. lia.
      * assumption.
      * split; [|split]; try assumption.
        rewrite E, <- !app_assoc. reflexivity.
Qed.

Lemma splitLoop_unbounded (max : Z) arr :
  (max <= 0)%Z ->
  forall curr gs,
    splitLoop (fun g gs => gs ++ [g]) max arr curr gs = (curr ++ arr, gs).
Proof.
  intros Hmax. induction arr as [|sp rest IH]; intros curr gs; simpl.
  - now rewrite app_nil_r.
  - destruct (Z.ltb_spec 0 max) as [|_]; [lia|]. simpl.
    rewrite IH, <- app_assoc. reflexivity.
Qed.

Lemma splitGroups_unbounded (max : Z) arr :
  (max <= 0)%Z -> splitGroups max arr = [arr].
Proof.
  intros Hmax. unfold splitGroups. rewrite splitLoop_unbounded by assumption.
  simpl. rewrite orb_true_r. reflexivity.
Qed.

Lemma splitGroups_positive (max : Z) arr :
  (0 < max)%Z ->
  exists init last,
    splitGroups max arr = init ++ [last]
    /\ Forall (fun g => Z.of_nat (length g) = max) init
    /\ (Z.of_nat (length last) <= max)%Z
    /\ (arr <> [] -> 0 < length last)
    /\ concat (init ++ [last]) = arr.
Proof.
  intros Hmax. unfold splitGroups.
  pose proof (splitLoop_positive (Z.to_nat max) arr ltac:(lia) [] []
                ltac:(simpl; lia) ltac:(constructor)) as Hinv.
  rewrite Z2Nat.id in Hinv by lia. simpl in Hinv.
  destruct (splitLoop _ max arr [] []) as [curr gs]. simpl in Hinv.
  destruct Hinv as (E & L & F).
  destruct curr as [|c curr].
  - rewrite app_nil_r in E. simpl.
    destruct gs as [|g gs _] using rev_ind.
    + simpl. exists [], []. simpl in E. subst arr. simpl.
      repeat split; try constructor; try lia. congruence.
    + rewrite length_app. simpl.
      replace (length gs + 1 <=? 0) with false by (symmetry; apply Nat.leb_gt; lia).
      apply Forall_app in F as [F1 F2]. inversion F2 as [|? ? Hg _]; subst.
      exists gs, g. repeat split.
      * eapply Forall_impl; [exact F1|]. simpl. intros; lia.
      * lia.
      * intros _. lia.
  - simpl orb. cbv iota. exists gs, (c :: curr). repeat split.
    + eapply Forall_impl; [exact F|]. simpl. intros; lia.
    + lia.
    + intros _. simpl. lia.
    + rewrite concat_app. simpl. rewrite app_nil_r. exact E.
Qed.

Lemma addAll_entries d gs st st' k q :
  addAll d (Some st) gs = Some st' ->
  planPIndexesForIndex st' !! k = Some q ->
  planPIndexesForIndex st !! k = Some q
  \/ exists g, g ∈ gs /\ splitEntry d g k q /\ pp_Nodes q = ∅.
Proof.
  revert st' k q. induction gs as [|g gs IH] using rev_ind; intros st' k q Hall Hk.
  - left. simpl in Hall. injection Hall as <-. exact Hk.
  - rewrite addAll_snoc in Hall.
    destruct (addAll d (Some st) gs) as [st1|]; [|discriminate].
    simpl in Hall.
    destruct (addPlanPIndex_spec d g st1 st' Hall) as (q' & Hq' & Hn & Hf & _).
    rewrite Hf in Hk.
    destruct (decide (PlanPIndexName d (Join g ",") = k)) as [E|Hne].
    + subst k. rewrite lookup_insert_eq in Hk. injection Hk as <-.
      right. exists g. split; [|split]; try assumption.
      apply elem_of_app. right. constructor.
    + rewrite lookup_insert_ne in Hk by assumption.
      destruct (IH _ _ _ eq_refl Hk) as [?|(g' & Hin & Hs)]; [left; assumption|].
      right. exists g'. split; [|assumption].
      apply elem_of_app. left. assumption.
Qed.

Lemma addAll_names d gs st st' g :
  addAll d (Some st) gs = Some st' ->
  g ∈ gs ->
  is_Some (planPIndexesForIndex st' !! PlanPIndexName d (Join g ",")).
Proof.
  revert st'. induction gs as [|g' gs IH] using rev_ind; intros st' Hall Hin.
  - inversion Hin.
  - rewrite addAll_snoc in Hall.
    destruct (addAll d (Some st) gs) as [st1|]; [|discriminate].
    simpl in Hall.
    destruct (addPlanPIndex_spec d g' st1 st' Hall) as (q' & _ & _ & Hf & _).
    rewrite Hf.
    destruct (decide (PlanPIndexName d (Join g' ",") = PlanPIndexName d (Join g ",")))
      as [E|Hne].
    + rewrite E, lookup_insert_eq. eauto.
    + rewrite lookup_insert_ne by assumption.
      apply elem_of_app in Hin as [Hin|Hin]; [now apply IH|].
      apply list_elem_of_singleton in Hin. subst. contradiction.
Qed.

Lemma addAll_out_union d gs st st' :
  addAll d (Some st) gs = Some st' ->
  pps_PlanPIndexes (planPIndexesOut st)
  = planPIndexesForIndex st ∪ pps_PlanPIndexes (planPIndexesOut st) ->
  pps_PlanPIndexes (planPIndexesOut st')
  = planPIndexesForIndex st' ∪ pps_PlanPIndexes (planPIndexesOut st)
  /\ pps_UUID (planPIndexesOut st') = pps_UUID (planPIndexesOut st)
  /\ pps_ImplVersion (planPIndexesOut st') = pps_ImplVersion (planPIndexesOut st)
  /\ pps_Warnings (planPIndexesOut st') = pps_Warnings (planPIndexesOut st).
Proof.
  intros Hall Hst. revert st' Hall.
  induction gs as [|g gs IH] using rev_ind; intros st' Hall.
  - simpl in Hall. injection Hall as <-. auto.
  - rewrite addAll_snoc in Hall.
    destruct (addAll d (Some st) gs) as [st1|]; [|discriminate].
    simpl in Hall.
    destruct (addPlanPIndex_spec d g st1 st' Hall) as (q' & _ & _ & Hf & Ho & _).
    destruct (IH st1 eq_refl) as (I1 & I2 & I3 & I4).
    rewrite Hf, Ho. simpl. rewrite I1.
    rewrite insert_union_l. auto.
Qed.

Lemma PlanPIndexName_inj d s1 s2 :
  PlanPIndexName d s1 = PlanPIndexName d s2 ->
  sprintf_x (crc32_IEEE s1) = sprintf_x (crc32_IEEE s2).
Proof.
  unfold PlanPIndexName. intros E.
  do 4 apply append_inj_l in E. exact E.
Qed.

(** The split step of a definition whose data source lists its
    partitions: it returns unless a draw panics, and what it returns. *)
Lemma Split_state d server out rng arr :
  sourcePartitionsOf d server = Ok arr ->
  let groups := splitGroups (MaxPartitionsPerPIndex (id_PlanParams d)) arr in
  (uuidsFit ->
   exists st, SplitIndexDefIntoPlanPIndexes d server out rng = Some (Ok st))
  /\ forall res,
       SplitIndexDefIntoPlanPIndexes d server out rng = Some res ->
       exists st,
         res = Ok st
         /\ addAll d (Some (mkSplitState ∅ out rng)) groups = Some st
         /\ (forall k q, planPIndexesForIndex st !! k = Some q ->
               exists g, g ∈ groups /\ splitEntry d g k q /\ pp_Nodes q = ∅)
         /\ (forall g, g ∈ groups ->
               is_Some (planPIndexesForIndex st !! PlanPIndexName d (Join g ",")))
         /\ pps_PlanPIndexes (planPIndexesOut st)
            = planPIndexesForIndex st ∪ pps_PlanPIndexes out
         /\ pps_UUID (planPIndexesOut st) = pps_UUID out
         /\ pps_ImplVersion (planPIndexesOut st) = pps_ImplVersion out
         /\ pps_Warnings (planPIndexesOut st) = pps_Warnings out.
Proof.
  intros Hds groups. rewrite (Split_groups d server out rng arr Hds).
  fold groups. split.
  { intros Hfit.
    destruct (addAll_fit d groups (mkSplitState ∅ out rng) Hfit) as [st ->].
    exists st. reflexivity. }
  intros res Hres.
  destruct (addAll d (Some (mkSplitState ∅ out rng)) groups) as [st|] eqn:Hall;
    [|discriminate].
  simpl in Hres. injection Hres as <-.
  exists st. split; [reflexivity|]. split; [reflexivity|].
  split; [|split].
  - intros k q Hk.
    destruct (addAll_entries d groups _ st k q Hall Hk) as [Hk0|Hk0];
      [|exact Hk0].
    simpl in Hk0. rewrite lookup_empty in Hk0. discriminate.
  - intros g Hg. now apply (addAll_names d groups _ st g Hall).
  - apply (addAll_out_union d groups (mkSplitState ∅ out rng) st Hall).
    simpl. now rewrite (left_id_L ∅ (∪)).
Qed.

(** C2 (amended). The split step hands the source partitions to
    [addPlanPIndex] in groups that, concatenated in order, give back the
    list reported by the data source.  When [maxPartitionsPerPIndex] is
    positive every group but the last has exactly that many partitions
    and the last has between one and that many (none only when the list
    is empty); when it is zero or negative all partitions form a single
    group.  The step returns on every source whose draws fit [NewUUID];
    whenever it returns, it returns no error, the plan entries it built
    are those of the groups, an empty list has given exactly one plan
    entry, with an empty source-partition string, and the ten partitions
    0..9 with a maximum of 4 have given exactly three entries, for 0..3,
    4..7 and 8..9. *)
Theorem C2_split_groups d server out rng arr :
  sourcePartitionsOf d server = Ok arr ->
  let max := MaxPartitionsPerPIndex (id_PlanParams d) in
  let groups := splitGroups max arr in
  (uuidsFit ->
   exists st, SplitIndexDefIntoPlanPIndexes d server out rng = Some (Ok st))
  /\ (forall res,
        SplitIndexDefIntoPlanPIndexes d server out rng = Some res ->
        exists st,
          res = Ok st
          /\ (forall k q, planPIndexesForIndex st !! k = Some q ->
                exists g, g ∈ groups /\ splitEntry d g k q)
          /\ (forall g, g ∈ groups ->
                is_Some (planPIndexesForIndex st !! PlanPIndexName d (Join g ",")))
          /\ (arr = [] ->
              size (planPIndexesForIndex st) = 1
              /\ pp_SourcePartitions
                   <$> planPIndexesForIndex st !! PlanPIndexName d "" = Some "")
          /\ (max = 4%Z -> arr = tenPartitions ->
              size (planPIndexesForIndex st) = 3
              /\ pp_SourcePartitions
                   <$> planPIndexesForIndex st !! PlanPIndexName d "0,1,2,3"
                 = Some "0,1,2,3"
              /\ pp_SourcePartitions
                   <$> planPIndexesForIndex st !! PlanPIndexName d "4,5,6,7"
                 = Some "4,5,6,7"
              /\ pp_SourcePartitions
                   <$> planPIndexesForIndex st !! PlanPIndexName d "8,9"
                 = Some "8,9"))
  /\ concat groups = arr
  /\ ((0 < max)%Z ->
      exists init last,
        groups = init ++ [last]
        /\ Forall (fun g => Z.of_nat (length g) = max) init
        /\ (Z.of_nat (length last) <= max)%Z
        /\ (arr <> [] -> 0 < length last))
  /\ ((max <= 0)%Z -> groups = [arr]).
Proof.
  intros Hds max groups.
  destruct (Split_state d server out rng arr Hds) as [Hret Hres].
  fold max in Hres. fold groups in Hres.
  split; [exact Hret|].
  split.
  { intros res Hsplit.
    destruct (Hres res Hsplit) as (st & -> & Hst & Hent & Hnames & _).
    exists st. split; [reflexivity|].
    split; [intros k q Hk; destruct (Hent k q Hk) as (g & ? & ? & _); eauto|].
    split; [exact Hnames|].
    split.
    - intros ->. assert (Hg : groups = [[]]).
      { unfold groups, splitGroups. simpl. reflexivity. }
      rewrite Hg in Hst. simpl in Hst.
      destruct (addPlanPIndex_spec d [] _ st Hst)
        as (q & (_ & Hsp & _) & _ & Hf & _).
      simpl in Hf. rewrite Hf. split.
      + rewrite map_size_insert_None by apply lookup_empty. reflexivity.
      + change (Join [] ",") with EmptyString.
        rewrite lookup_insert_eq. simpl. now rewrite Hsp.
    - intros Hmax ->. assert (Hg : groups =
        [["0"; "1"; "2"; "3"]; ["4"; "5"; "6"; "7"]; ["8"; "9"]]).
      { unfold groups. rewrite Hmax. vm_compute. reflexivity. }
      rewrite Hg in Hst. cbn [foldl] in Hst.
      set (s0 := mkSplitState ∅ out rng) in Hst.
      cbn [mbind option_bind] in Hst.
      destruct (addPlanPIndex d ["0"; "1"; "2"; "3"] s0) as [s1|] eqn:E1;
        cbn [mbind option_bind] in Hst; [|discriminate].
      destruct (addPlanPIndex d ["4"; "5"; "6"; "7"] s1) as [s2|] eqn:E2;
        cbn [mbind option_bind] in Hst; [|discriminate].
      destruct (addPlanPIndex_spec d _ s0 s1 E1)
        as (q1 & (_ & Hs1 & _) & _ & Hf1 & _).
      destruct (addPlanPIndex_spec d _ s1 s2 E2)
        as (q2 & (_ & Hs2 & _) & _ & Hf2 & _).
      destruct (addPlanPIndex_spec d _ s2 st Hst)
        as (q3 & (_ & Hs3 & _) & _ & Hf3 & _).
      rewrite Hf3, Hf2, Hf1. subst s0.
      cbn [planPIndexesForIndex].
      change (Join ["0"; "1"; "2"; "3"] ",") with "0,1,2,3" in *.
      change (Join ["4"; "5"; "6"; "7"] ",") with "4,5,6,7" in *.
      change (Join ["8"; "9"] ",") with "8,9" in *.
      assert (N12 : PlanPIndexName d "0,1,2,3" <> PlanPIndexName d "4,5,6,7").
      { intros E. apply PlanPIndexName_inj in E. vm_compute in E. discriminate. }
      assert (N13 : PlanPIndexName d "0,1,2,3" <> PlanPIndexName d "8,9").
      { intros E. apply PlanPIndexName_inj in E. vm_compute in E. discriminate. }
      assert (N23 : PlanPIndexName d "4,5,6,7" <> PlanPIndexName d "8,9").
      { intros E. apply PlanPIndexName_inj in E. vm_compute in E. discriminate. }
      split; [|split; [|split]].
      + rewrite !map_size_insert_None; [reflexivity|..];
          rewrite ?lookup_insert_ne by congruence; apply lookup_empty.
      + rewrite !lookup_insert_ne by congruence. rewrite lookup_insert_eq.
        cbn [fmap option_fmap option_map]. now rewrite Hs1.
      + rewrite lookup_insert_ne by congruence. rewrite lookup_insert_eq.
        cbn [fmap option_fmap option_map]. now rewrite Hs2.
      + rewrite lookup_insert_eq. cbn [fmap option_fmap option_map].
        now rewrite Hs3. }
  assert (Hcat : concat groups = arr).
  { destruct (Z.ltb_spec 0 max) as [Hpos|Hneg].
    - destruct (splitGroups_positive max arr Hpos) as (i & l & E & _ & _ & _ & C).
      unfold groups. rewrite E. exact C.
    - unfold groups. rewrite splitGroups_unbounded by lia. simpl.
      apply app_nil_r. }
  split; [exact Hcat|].
  split.
  { intros Hpos.
    destruct (splitGroups_positive max arr Hpos) as (i & l & E & F & L & P & _).
    exists i, l. auto. }
  intros Hneg; apply splitGroups_unbounded; exact Hneg.
Qed.

End PlannerProofs.

(** ** CalcPlan *)

Section CalcPlanProofs.
Context `{HR : GoRand} `{HE : PlannerEnv}.

Local Arguments CalcPlan_step : simpl never.
Local Arguments BlancePlanPIndexes : simpl never.
Local Arguments SplitIndexDefIntoPlanPIndexes : simpl never.

Lemma splitEntry_set_Nodes d g k q nodes :
  splitEntry d g k q -> splitEntry d g k (set_pp_Nodes nodes q).
Proof. unfold splitEntry. destruct q; simpl. tauto. Qed.

Lemma fromPreviousPlan_mono prev defs defs' k q :
  defs ⊆ defs' -> fromPreviousPlan prev defs k q -> fromPreviousPlan prev defs' k q.
Proof.
  intros Hsub (d & pv & Hd & Hrest). exists d, pv. split; [auto|exact Hrest].
Qed.

Lemma fromSplit_mono server defs defs' k q :
  defs ⊆ defs' -> fromSplit server defs k q -> fromSplit server defs' k q.
Proof.
  intros Hsub (d & arr & g & Hd & Hrest). exists d, arr, g.
  split; [auto|exact Hrest].
Qed.

(** What [BlancePlanPIndexes] returns, when it returns: the same entries
    with new node maps. *)
Lemma BlancePlanPIndexes_entries d forIndex prev layout forIndex' warnings :
  BlancePlanPIndexes d forIndex prev layout = Some (forIndex', warnings) ->
  forall k,
    forIndex' !! k
    = (fun q => match (PlanNextMap (blancePrevMap forIndex prev)
                         (nodeUUIDsAll layout) (nodeUUIDsToRemove layout)
                         (nodeUUIDsToAdd layout) (BlancePartitionModel d).1
                         (BlancePartitionModel d).2 ∅ ∅ (nodeWeights layout)
                         (nodeHierarchy layout)
                         (HierarchyRules (id_PlanParams d))).1 !! k with
                | Some bp => set_pp_Nodes (nextNodes d k bp) q
                | None => q
                end) <$> forIndex !! k.
Proof.
  unfold BlancePlanPIndexes. simpl.
  destruct (PlanNextMap _ _ _ _ _ _ _ _ _ _ _) as [next w]. simpl.
  case_bool_decide; [|discriminate].
  intros E k. injection E as <- <-.
  rewrite map_lookup_imap. destruct (forIndex !! k); reflexivity.
Qed.

Lemma BlancePlanPIndexes_total d forIndex prev layout :
  PlanNextMap_keeps_partitions ->
  is_Some (BlancePlanPIndexes d forIndex prev layout).
Proof.
  intros Hk. unfold BlancePlanPIndexes. simpl.
  pose proof (Hk (blancePrevMap forIndex prev)
    (nodeUUIDsAll layout) (nodeUUIDsToRemove layout)
    (nodeUUIDsToAdd layout) (BlancePartitionModel d).1
    (BlancePartitionModel d).2 ∅ ∅ (nodeWeights layout)
    (nodeHierarchy layout) (HierarchyRules (id_PlanParams d))) as Hdom.
  simpl in Hdom.
  destruct (PlanNextMap _ _ _ _ _ _ _ _ _ _ _) as [next w]. simpl in *.
  assert (Hd : dom (blancePrevMap forIndex prev) = dom forIndex).
  { unfold blancePrevMap. apply set_eq. intros k.
    rewrite !elem_of_dom, map_lookup_imap.
    destruct (forIndex !! k); simpl; split; intros [? ?]; eauto; discriminate. }
  rewrite Hd in Hdom. rewrite bool_decide_eq_true_2 by assumption. eauto.
Qed.

(** The ways an iteration of [CalcPlan] can go: the definition is
    frozen, it is skipped, or it is planned, where the split step
    returns plan entries or panics. *)
Lemma CalcPlan_step_cases prev server layout pl rng d :
  let r := CalcPlan_step prev server layout (Some (pl, rng)) d in
  (PlanFrozen (id_PlanParams d) = true
   /\ r = Some (set_pps_PlanPIndexes
                  (match prev with
                   | Some pv => filter (sameIndex d) (pps_PlanPIndexes pv)
                                  ∪ pps_PlanPIndexes pl
                   | None => pps_PlanPIndexes pl
                   end) pl, rng))
  \/ (PlanFrozen (id_PlanParams d) = false
      /\ (instantiatable (id_Type d) = false
          \/ exists err, sourcePartitionsOf d server = Err err)
      /\ r = Some (pl, rng))
  \/ (PlanFrozen (id_PlanParams d) = false
      /\ instantiatable (id_Type d) = true
      /\ exists arr,
           sourcePartitionsOf d server = Ok arr
           /\ ((SplitIndexDefIntoPlanPIndexes d server pl rng = None
                /\ r = None)
               \/ exists st,
                    SplitIndexDefIntoPlanPIndexes d server pl rng
                    = Some (Ok st)
                    /\ r = match BlancePlanPIndexes d (planPIndexesForIndex st)
                                   prev layout with
                           | None => None
                           | Some (forIndex, warnings) =>
                               Some (set_pps_Warnings
                                       (<[id_Name d := warnings]>
                                          (pps_Warnings (planPIndexesOut st)))
                                       (set_pps_PlanPIndexes
                                          (forIndex
                                             ∪ pps_PlanPIndexes
                                                 (planPIndexesOut st))
                                          (planPIndexesOut st)),
                                     split_rng st)
                           end)).
Proof.
  unfold CalcPlan_step.
  destruct (PlanFrozen (id_PlanParams d)) eqn:Hf.
  - left. split; [reflexivity|]. destruct prev; [reflexivity|].
    destruct pl; reflexivity.
  - right. destruct (instantiatable (id_Type d)) eqn:Hi; simpl.
    + destruct (sourcePartitionsOf d server) as [arr|err] eqn:Hds.
      * right. split; [reflexivity|]. split; [reflexivity|].
        exists arr. split; [reflexivity|].
        destruct (SplitIndexDefIntoPlanPIndexes d server pl rng)
          as [res|] eqn:Hs; [|left; auto].
        destruct (proj2 (Split_state d server pl rng arr Hds) res Hs)
          as (st & -> & _).
        right. exists st. auto.
      * left. split; [reflexivity|]. split; [right; eauto|].
        unfold SplitIndexDefIntoPlanPIndexes.
        unfold sourcePartitionsOf in Hds. rewrite Hds. reflexivity.
    + left. auto.
Qed.

Lemma CalcPlan_step_None prev server layout defs :
  foldl (CalcPlan_step prev server layout) None defs = None.
Proof. induction defs as [|d defs IH]; [reflexivity|exact IH]. Qed.

Lemma CalcPlan_fold_inv (P : list IndexDef -> PlanPIndexes -> Prop)
    prev server layout :
  (forall defs0 pl rng d pl' rng',
      P defs0 pl ->
      CalcPlan_step prev server layout (Some (pl, rng)) d = Some (pl', rng') ->
      P (defs0 ++ [d]) pl') ->
  forall defs defs0 pl rng pl' rng',
    P defs0 pl ->
    foldl (CalcPlan_step prev server layout) (Some (pl, rng)) defs
    = Some (pl', rng') ->
    P (defs0 ++ defs) pl'.
Proof.
  intros Hstep. induction defs as [|d defs IH]; intros defs0 pl rng pl' rng' HP Hf.
  - simpl in Hf. injection Hf as <- <-. now rewrite app_nil_r.
  - simpl in Hf.
    destruct (CalcPlan_step prev server layout (Some (pl, rng)) d)
      as [[pl1 rng1]|] eqn:E.
    + rewrite (cons_middle d defs0 defs), app_assoc.
      eapply IH; [|exact Hf]. eapply Hstep; eassumption.
    + rewrite CalcPlan_step_None in Hf. discriminate.
Qed.

(** With a placement library that answers with partitions it was given
    and a source whose draws fit, no iteration panics. *)
Lemma CalcPlan_fold_total prev server layout :
  PlanNextMap_keeps_partitions -> uuidsFit ->
  forall defs pl rng,
    is_Some (foldl (CalcPlan_step prev server layout) (Some (pl, rng)) defs).
Proof.
  intros Hk Hfit. induction defs as [|d defs IH]; intros pl rng; [simpl; eauto|].
  simpl.
  destruct (CalcPlan_step_cases prev server layout pl rng d)
    as [(_ & ->)|[(_ & _ & ->)|(_ & _ & arr & Hds & Hsplit)]]; try apply IH.
  destruct (proj1 (Split_state d server pl rng arr Hds) Hfit) as [st0 Hst0].
  destruct Hsplit as [[Hnone _]|(st & _ & ->)]; [congruence|].
  destruct (BlancePlanPIndexes_total d (planPIndexesForIndex st) prev layout Hk)
    as [[fi w] ->]. apply IH.
Qed.

Lemma CalcPlan_step_origin prev server layout defs0 pl rng d pl' rng' :
  (forall k q, pps_PlanPIndexes pl !! k = Some q ->
     fromPreviousPlan prev defs0 k q \/ fromSplit server defs0 k q) ->
  CalcPlan_step prev server layout (Some (pl, rng)) d = Some (pl', rng') ->
  forall k q, pps_PlanPIndexes pl' !! k = Some q ->
    fromPreviousPlan prev (defs0 ++ [d]) k q
    \/ fromSplit server (defs0 ++ [d]) k q.
Proof.
  intros Hinv Hstep k q Hk.
  assert (Hsub : defs0 ⊆ defs0 ++ [d]) by (intros x Hx; apply elem_of_app; auto).
  assert (Hd : d ∈ defs0 ++ [d]) by (apply elem_of_app; right; constructor).
  assert (Hold : forall k q, pps_PlanPIndexes pl !! k = Some q ->
     fromPreviousPlan prev (defs0 ++ [d]) k q
     \/ fromSplit server (defs0 ++ [d]) k q).
  { intros k0 q0 Hk0. destruct (Hinv k0 q0 Hk0) as [?|?];
      [left; eapply fromPreviousPlan_mono|right; eapply fromSplit_mono];
      eassumption. }
  destruct (CalcPlan_step_cases prev server layout pl rng d)
    as [(Hfr & E)|[(_ & _ & E)
                  |(Hfr & Hinst & arr & Hds & [[_ E]|(st & Hsp & E)])]];
    rewrite E in Hstep.
  - injection Hstep as <- <-. destruct prev as [pv|]; simpl in Hk.
    + apply lookup_union_Some_raw in Hk as [Hk|[_ Hk]]; [|auto].
      apply map_lookup_filter_Some in Hk as [Hk Hsame].
      left. exists d, pv. auto.
    + auto.
  - injection Hstep as <- <-. auto.
  - discriminate.
  - destruct (BlancePlanPIndexes d (planPIndexesForIndex st) prev layout)
      as [[fi w]|] eqn:Hb; [|discriminate].
    injection Hstep as <- <-. simpl in Hk.
    destruct (proj2 (Split_state d server pl rng arr Hds) _ Hsp)
      as (st' & Est & _ & Hent & _ & Hout & _).
    injection Est as <-.
    pose proof (BlancePlanPIndexes_entries _ _ _ _ _ _ Hb k) as Hfi.
    apply lookup_union_Some_raw in Hk as [Hk|[Hnone Hk]].
    + rewrite Hfi in Hk.
      destruct (planPIndexesForIndex st !! k) as [q0|] eqn:Hq0; [|discriminate].
      simpl in Hk. injection Hk as <-.
      destruct (Hent k q0 Hq0) as (g & Hg & Hse & _).
      right. exists d, arr, g. do 5 (split; [assumption|]).
      match goal with
      | |- context [match ?x with _ => _ end] => destruct x
      end; [apply splitEntry_set_Nodes|]; exact Hse.
    + rewrite Hout in Hk.
      apply lookup_union_Some_raw in Hk as [Hk|[_ Hk]]; [|auto].
      rewrite Hfi, Hk in Hnone. discriminate.
Qed.
End CalcPlanProofs.

Section CalcPlanClaims.
Context `{HR : GoRand} `{HE : PlannerEnv}.

Local Arguments CalcPlan_step : simpl never.

Lemma Split_Ok_inv d server out rng st :
  SplitIndexDefIntoPlanPIndexes d server out rng = Some (Ok st) ->
  exists arr, sourcePartitionsOf d server = Ok arr.
Proof.
  unfold SplitIndexDefIntoPlanPIndexes, sourcePartitionsOf.
  destruct (DataSourcePartitions _ _ _ _ _) as [arr|err]; [eauto|discriminate].
Qed.

Lemma splitEntry_key d g k q :
  splitEntry d g k q -> k = PlanPIndexName d (Join g ",").
Proof. intros (-> & Hs & Hn & _). rewrite Hn, Hs. reflexivity. Qed.

Lemma NoDup_fmap_inj {A B} (f : A -> B) (l : list A) x y :
  NoDup (f <$> l) -> x ∈ l -> y ∈ l -> f x = f y -> x = y.
Proof.
  induction l as [|a l IH]; intros Hnd Hx Hy E; [inversion Hx|].
  rewrite fmap_cons in Hnd. apply NoDup_cons in Hnd as [Hna Hnd].
  apply elem_of_cons in Hx as [->|Hx]; apply elem_of_cons in Hy as [->|Hy].
  - reflexivity.
  - exfalso. apply Hna. rewrite E. apply list_elem_of_fmap. eauto.
  - exfalso. apply Hna. rewrite <- E. apply list_elem_of_fmap. eauto.
  - auto.
Qed.

(** A call of [CalcPlan] with definitions and nodes that returns has
    drawn the UUID of the new collection and run its loop to the end. *)
Lemma CalcPlan_inv defs nodes prev version server rng res :
  CalcPlan (Some defs) (Some nodes) prev version server rng = Some res ->
  exists uuid plan rng',
    res = (Some plan, rng')
    /\ NewUUID rng = Some (uuid, S (S rng))
    /\ foldl (CalcPlan_step prev server (CalcNodesLayout nodes prev))
         (Some (mkPlanPIndexes uuid ∅ version ∅, S (S rng))) defs
       = Some (plan, rng').
Proof.
  unfold CalcPlan, NewPlanPIndexes. cbv zeta.
  destruct (NewUUID rng) as [[uuid rng0]|] eqn:Hu.
  - rewrite (NewUUID_rng _ _ _ Hu) in *.
    destruct (foldl _ _ defs) as [[plan rng']|] eqn:Ef; [|discriminate].
    intros E. injection E as <-. exists uuid, plan, rng'. auto.
  - rewrite CalcPlan_step_None. discriminate.
Qed.

Lemma CalcPlan_returns defs nodes prev version server rng :
  PlanNextMap_keeps_partitions -> uuidsFit ->
  exists plan rng',
    CalcPlan (Some defs) (Some nodes) prev version server rng
    = Some (Some plan, rng').
Proof.
  intros Hk Hfit. unfold CalcPlan, NewPlanPIndexes. cbv zeta.
  destruct (Hfit rng) as [[uuid rng0] ->].
  destruct (CalcPlan_fold_total prev server (CalcNodesLayout nodes prev) Hk
              Hfit defs (mkPlanPIndexes uuid ∅ version ∅) rng0)
    as [[plan rng'] E].
  exists plan, rng'. rewrite E. reflexivity.
Qed.

Lemma CalcPlan_origin defs nodes prev version server rng plan rng' :
  CalcPlan (Some defs) (Some nodes) prev version server rng
  = Some (Some plan, rng') ->
  forall k q, pps_PlanPIndexes plan !! k = Some q ->
    fromPreviousPlan prev defs k q \/ fromSplit server defs k q.
Proof.
  intros E.
  destruct (CalcPlan_inv _ _ _ _ _ _ _ E) as (uuid & pl & r & Eres & _ & Ef).
  injection Eres as <- <-.
  change defs with ([] ++ defs).
  refine (CalcPlan_fold_inv
            (fun ds pl => forall k q, pps_PlanPIndexes pl !! k = Some q ->
               fromPreviousPlan prev ds k q \/ fromSplit server ds k q)
            prev server _ _ defs [] _ _ plan rng' _ Ef).
  - intros. eapply CalcPlan_step_origin; eassumption.
  - simpl. intros k q Hk. rewrite lookup_empty in Hk. discriminate.
Qed.

(** Once a previous entry of the frozen definition [d] is in the plan
    under construction, later iterations leave it there. *)
Lemma CalcPlan_step_keeps pv server layout defs d pl rng d2 pl' rng' :
  noNameClash pv server defs d ->
  d2 ∈ defs ->
  CalcPlan_step (Some pv) server layout (Some (pl, rng)) d2 = Some (pl', rng') ->
  forall k q,
    pps_PlanPIndexes pv !! k = Some q -> sameIndex d (k, q) ->
    pps_PlanPIndexes pl !! k = Some q \/ (d2 = d /\ PlanFrozen (id_PlanParams d) = true) ->
    pps_PlanPIndexes pl' !! k = Some q.
Proof.
  intros Hclash Hd2 Hstep k q Hpv Hsame Hin.
  destruct (CalcPlan_step_cases (Some pv) server layout pl rng d2)
    as [(Hfr & E)|[(Hfr & _ & E)
                  |(Hfr & Hinst & arr & Hds & [[_ E]|(st & Hsp & E)])]];
    rewrite E in Hstep.
  - injection Hstep as <- <-. simpl.
    destruct (filter (sameIndex d2) (pps_PlanPIndexes pv) !! k) as [q'|] eqn:Hf.
    + apply lookup_union_Some_raw. left.
      pose proof Hf as Hf'.
      apply map_lookup_filter_Some in Hf' as [Hf' _]. congruence.
    + apply lookup_union_Some_raw. right. split; [exact Hf|].
      destruct Hin as [Hin|[-> _]]; [exact Hin|].
      exfalso. apply map_lookup_filter_None in Hf as [Hf|Hf]; [congruence|].
      exact (Hf q Hpv Hsame).
  - injection Hstep as <- <-.
    destruct Hin as [Hin|[-> Hfd]]; [exact Hin|congruence].
  - discriminate.
  - destruct (BlancePlanPIndexes d2 (planPIndexesForIndex st) (Some pv) layout)
      as [[fi w]|] eqn:Hb; [|discriminate].
    injection Hstep as <- <-. simpl.
    destruct Hin as [Hin|[-> Hfd]]; [|congruence].
    destruct (proj2 (Split_state d2 server pl rng arr Hds) _ Hsp)
      as (st' & Est & _ & Hent & _ & Hout & _).
    injection Est as <-.
    pose proof (BlancePlanPIndexes_entries _ _ _ _ _ _ Hb k) as Hfi.
    destruct (planPIndexesForIndex st !! k) as [q0|] eqn:Hq0.
    + exfalso. destruct (Hent k q0 Hq0) as (g & Hg & Hse & _).
      pose proof (splitEntry_key _ _ _ _ Hse) as ->.
      exact (Hclash d2 arr g q Hd2 Hfr Hds Hg Hpv Hsame).
    + apply lookup_union_Some_raw. right. split; [rewrite Hfi; reflexivity|].
      rewrite Hout. apply lookup_union_Some_raw. right. auto.
Qed.

(** C6. For a plan-frozen index definition [d] the planner copies the
    previous plan forward: the new plan's entries for [d]'s (name, UUID)
    are exactly the previous plan's entries for it, under the same keys
    and unchanged, whatever [d]'s plan parameters are.  [CalcPlan]
    returns such a plan whenever it returns, and it returns on every
    source whose draws fit [NewUUID].  (Index names are distinct, as
    keys of the definitions map; the placement library answers with
    partitions it was given; and no definition planned afresh generates
    the name of one of [d]'s previous entries.) *)
Theorem C6_plan_frozen_copies_forward defs nodes pv version server rng d :
  d ∈ defs ->
  PlanFrozen (id_PlanParams d) = true ->
  PlanNextMap_keeps_partitions ->
  NoDup (id_Name <$> defs) ->
  noNameClash pv server defs d ->
  (uuidsFit ->
   exists plan rng',
     CalcPlan (Some defs) (Some nodes) (Some pv) version server rng
     = Some (Some plan, rng'))
  /\ (forall res,
        CalcPlan (Some defs) (Some nodes) (Some pv) version server rng
        = Some res ->
        exists plan rng',
          res = (Some plan, rng')
          /\ forall k q,
               (pps_PlanPIndexes plan !! k = Some q /\ sameIndex d (k, q))
               <-> (pps_PlanPIndexes pv !! k = Some q /\ sameIndex d (k, q))).
Proof.
  intros Hd Hfr Hkeeps Hnd Hclash.
  split; [now apply CalcPlan_returns|].
  intros res Hres.
  destruct (CalcPlan_inv _ _ _ _ _ _ _ Hres)
    as (uuid & plan & rng' & -> & _ & Hfold).
  exists plan, rng'. split; [reflexivity|].
  intros k q. split.
  - intros [Hk Hsame]. split; [|exact Hsame].
    destruct (CalcPlan_origin _ _ _ _ _ _ _ _ Hres k q Hk)
      as [(d' & pv' & _ & _ & Epv & Hq & _)|(d' & arr & g & Hd' & Hfr' & _ & _ & _ & Hse)].
    + injection Epv as <-. exact Hq.
    + exfalso. destruct Hse as (_ & _ & _ & Hn & _).
      destruct Hsame as [Hn' _]. simpl in Hn'.
      assert (d' = d) as ->.
      { eapply (NoDup_fmap_inj id_Name); try eassumption. congruence. }
      congruence.
  - intros [Hk Hsame]. split; [|exact Hsame].
    pose (P := fun (ds : list IndexDef) (pl : PlanPIndexes) =>
                 ds ⊆ defs ->
                 d ∈ ds -> pps_PlanPIndexes pl !! k = Some q).
    assert (HP : P ([] ++ defs) plan).
    { refine (CalcPlan_fold_inv P (Some pv) server _ _ defs [] _ _
                plan rng' _ Hfold).
      - intros ds pl r d2 pl' r' HPds Hstep Hsub Hin.
        assert (Hd2 : d2 ∈ defs).
        { apply Hsub, elem_of_app. right. constructor. }
        eapply CalcPlan_step_keeps; try eassumption.
        apply elem_of_app in Hin as [Hin|Hin].
        + left. apply HPds; [|exact Hin].
          intros x Hx. apply Hsub, elem_of_app. auto.
        + right. apply list_elem_of_singleton in Hin. subst d2. auto.
      - intros _ Hin. inversion Hin. }
    apply HP; [intros x Hx; exact Hx|exact Hd].
Qed.

(** A definition whose iteration changes nothing can be left out. *)
Lemma CalcPlan_skip defs1 d defs2 nodes prev version server rng :
  (forall layout acc, CalcPlan_step prev server layout acc d = acc) ->
  CalcPlan (Some (defs1 ++ d :: defs2)) nodes prev version server rng
  = CalcPlan (Some (defs1 ++ defs2)) nodes prev version server rng.
Proof.
  intros Hstep. unfold CalcPlan. destruct nodes as [nodes|]; [|reflexivity].
  cbv zeta. rewrite !foldl_app. cbn [foldl]. rewrite Hstep. reflexivity.
Qed.

(** C8 (amended). An index definition that is not plan-frozen and whose
    type has no instantiatable implementation registered (no entry, a nil
    entry, or an entry without [New] or without [Open]) is skipped: the
    iteration for it leaves the plan under construction as it was, so
    [CalcPlan] gives the very result it gives without that definition, and
    the other definitions are planned as before. *)
Theorem C8_unknown_type_skipped defs1 d defs2 nodes prev version server rng :
  PlanFrozen (id_PlanParams d) = false ->
  (PIndexImplTypes !! id_Type d = None
   \/ PIndexImplTypes !! id_Type d = Some None
   \/ exists t, PIndexImplTypes !! id_Type d = Some (Some t)
                /\ (pit_New t = false \/ pit_Open t = false)) ->
  (forall layout acc, CalcPlan_step prev server layout acc d = acc)
  /\ CalcPlan (Some (defs1 ++ d :: defs2)) nodes prev version server rng
     = CalcPlan (Some (defs1 ++ defs2)) nodes prev version server rng.
Proof.
  intros Hfr Hty.
  assert (Hinst : instantiatable (id_Type d) = false).
  { unfold instantiatable.
    destruct Hty as [->|[->|(t & -> & [Hn|Ho])]]; try reflexivity.
    - now rewrite Hn.
    - rewrite Ho. apply andb_false_r. }
  assert (Hstep : forall layout acc, CalcPlan_step prev server layout acc d = acc).
  { intros layout [[pl r]|]; [|reflexivity].
    unfold CalcPlan_step. rewrite Hfr, Hinst. reflexivity. }
  split; [exact Hstep|]. now apply CalcPlan_skip.
Qed.
End CalcPlanClaims.

(** C3. Every plan entry [q] built by the split step is stored under its
    [Name], and that name is
    [indexName + "_" + indexUUID + "_" + lowercase-hex(crc32-IEEE(q.SourcePartitions))],
    where [q.SourcePartitions] is the comma-joined group of source
    partitions, in the order the data source reported them.  The names
    are a function of the index definition and the source partitions
    alone: they depend neither on the random UUIDs nor on the plan being
    extended.  Every entry of a plan returned by [CalcPlan] is either such
    an entry or one copied from the previous plan for a frozen
    definition. *)
Theorem C3_plan_pindex_name `{HE : PlannerEnv} :
  (forall (HR : GoRand) d server out rng st k q,
      SplitIndexDefIntoPlanPIndexes d server out rng = Some (Ok st) ->
      planPIndexesForIndex st !! k = Some q ->
      k = pp_Name q
      /\ pp_Name q = id_Name d +:+ "_" +:+ id_UUID d +:+ "_" +:+
                     sprintf_x (crc32_IEEE (pp_SourcePartitions q))
      /\ (exists arr g,
             sourcePartitionsOf d server = Ok arr
             /\ g ∈ splitGroups (MaxPartitionsPerPIndex (id_PlanParams d)) arr
             /\ pp_SourcePartitions q = Join g ",")
      /\ pps_PlanPIndexes (planPIndexesOut st) !! k = Some q)
  /\ (forall (HR HR' : GoRand) d server out out' rng rng' st st',
        @SplitIndexDefIntoPlanPIndexes HR HE d server out rng = Some (Ok st) ->
        @SplitIndexDefIntoPlanPIndexes HR' HE d server out' rng' = Some (Ok st') ->
        dom (planPIndexesForIndex st) = dom (planPIndexesForIndex st'))
  /\ (forall (HR : GoRand) defs nodes prev version server rng plan rng',
        CalcPlan (Some defs) (Some nodes) prev version server rng
        = Some (Some plan, rng') ->
        forall k q, pps_PlanPIndexes plan !! k = Some q ->
          fromPreviousPlan prev defs k q \/ fromSplit server defs k q).
Proof.
  split; [|split].
  - intros HR d server out rng st k q Hsp Hk.
    destruct (Split_Ok_inv _ _ _ _ _ Hsp) as [arr Hds].
    destruct (proj2 (Split_state d server out rng arr Hds) _ Hsp)
      as (st' & Est & _ & Hent & _ & Hout & _).
    injection Est as <-.
    destruct (Hent k q Hk) as (g & Hg & (Hkey & Hs & Hn & _) & _).
    split; [exact Hkey|]. split; [exact Hn|]. split; [eauto|].
    rewrite Hout. apply lookup_union_Some_raw. auto.
  - intros HR HR' d server out out' rng rng' st st' Hsp Hsp'.
    destruct (Split_Ok_inv _ _ _ _ _ Hsp) as [arr Hds].
    destruct (proj2 (@Split_state HR HE d server out rng arr Hds) _ Hsp)
      as (s1 & E1 & _ & Hent1 & Hnames1 & _).
    destruct (proj2 (@Split_state HR' HE d server out' rng' arr Hds) _ Hsp')
      as (s2 & E2 & _ & Hent2 & Hnames2 & _).
    injection E1 as <-. injection E2 as <-.
    apply set_eq. intros k. rewrite !elem_of_dom. split; intros [q Hq].
    + destruct (Hent1 k q Hq) as (g & Hg & Hse & _).
      rewrite (splitEntry_key _ _ _ _ Hse). apply Hnames2, Hg.
    + destruct (Hent2 k q Hq) as (g & Hg & Hse & _).
      rewrite (splitEntry_key _ _ _ _ Hse). apply Hnames1, Hg.
  - intros HR defs nodes prev version server rng plan rng' Hcalc.
    eapply CalcPlan_origin. exact Hcalc.
Qed.

(** ** Planner claims at the sample inputs *)

(** Every draw of the sample source prints to 16 hexadecimal digits. *)
Lemma sampleRand_digits (m : nat) :
  m < 256 ->
  String.length (sprintf_x (0x4000000000000000 + N.of_nat m)) = 16.
Proof.
  intros Hm.
  assert (Hall : forallb
            (fun m => String.length
                        (sprintf_x (0x4000000000000000 + N.of_nat m)) =? 16)
            (seq 0 256) = true) by (vm_compute; reflexivity).
  rewrite forallb_forall in Hall.
  apply Nat.eqb_eq, Hall, in_seq. lia.
Defined.

(** No call of [NewUUID] panics on the sample source. *)
Lemma sampleRand_fits : @uuidsFit sampleRand.
Proof.
  intros rng. unfold NewUUID. cbv zeta. cbn [rand_Int63 sampleRand].
  rewrite length_append.
  rewrite !sampleRand_digits by (apply Nat.mod_upper_bound; discriminate).
  cbn [Nat.add Nat.ltb Nat.leb]. eauto.
Defined.

(** On the short source the first call of [NewUUID] panics, and with it
    every call of [CalcPlan] that has definitions and nodes. *)
Lemma shortRand_panics :
  @NewUUID shortRand 0 = None
  /\ forall defs nodes prev version server,
       @CalcPlan shortRand sampleEnv (Some defs) (Some nodes) prev version
         server 0 = None.
Proof.
  split; [reflexivity|]. intros defs nodes prev version server.
  unfold CalcPlan, NewPlanPIndexes. cbv zeta.
  change (@NewUUID shortRand 0) with (@None (string * nat)).
  cbv iota. now rewrite CalcPlan_step_None.
Qed.

Lemma sampleEnv_keeps_partitions : @PlanNextMap_keeps_partitions sampleEnv.
Proof.
  intros prevMap nodesAll ? ? ? ? ? ? ? ? ?. simpl.
  rewrite dom_fmap_L. reflexivity.
Defined.

Lemma C2_split_groups_witness :
  exists st,
    @SplitIndexDefIntoPlanPIndexes sampleRand sampleEnv
      (sampleIndexDef "engine" false 4) "srv" samplePrevPlan 0 = Some (Ok st)
    /\ size (planPIndexesForIndex st) = 3.
Proof.
  destruct (@C2_split_groups sampleRand sampleEnv
              (sampleIndexDef "engine" false 4) "srv" samplePrevPlan 0
              tenPartitions eq_refl)
    as (Hret & Hres & _).
  destruct (Hret sampleRand_fits) as [st Hst].
  exists st. split; [exact Hst|].
  destruct (Hres _ Hst) as (st' & E & _ & _ & _ & Hex).
  injection E as <-. apply Hex; reflexivity.
Defined.

Lemma C2_unbounded_counterexample :
  @sourcePartitionsOf sampleEnv (sampleIndexDef "engine" false 0) "srv"
  = Ok tenPartitions
  /\ splitGroups
       (MaxPartitionsPerPIndex (id_PlanParams (sampleIndexDef "engine" false 0)))
       tenPartitions = [tenPartitions]
  /\ (exists st,
        @SplitIndexDefIntoPlanPIndexes sampleRand sampleEnv
          (sampleIndexDef "engine" false 0) "srv" samplePrevPlan 0
        = Some (Ok st)
        /\ size (planPIndexesForIndex st) = 1
        /\ pp_SourcePartitions <$> planPIndexesForIndex st !! "i_U_8dd93ce8"
           = Some "0,1,2,3,4,5,6,7,8,9")
  /\ (MaxPartitionsPerPIndex (id_PlanParams (sampleIndexDef "engine" false 0))
      < Z.of_nat (length tenPartitions))%Z.
Proof.
  split; [reflexivity|]. split; [vm_compute; reflexivity|]. split.
  - eexists. split; [vm_compute; reflexivity|]. split; vm_compute; reflexivity.
  - vm_compute. reflexivity.
Qed.

Lemma C3_plan_pindex_name_witness :
  exists st q,
    @SplitIndexDefIntoPlanPIndexes sampleRand sampleEnv
      (sampleIndexDef "engine" false 0) "srv" samplePrevPlan 0 = Some (Ok st)
    /\ planPIndexesForIndex st !! "i_U_8dd93ce8" = Some q
    /\ pp_Name q = "i" +:+ "_" +:+ "U" +:+ "_" +:+
                   sprintf_x (crc32_IEEE (pp_SourcePartitions q)).
Proof.
  eexists. eexists. split; [vm_compute; reflexivity|].
  split; [vm_compute; reflexivity|].
  refine (proj1 (proj2 (proj1 (@C3_plan_pindex_name sampleEnv) sampleRand
            (sampleIndexDef "engine" false 0) "srv" samplePrevPlan 0 _
            "i_U_8dd93ce8" _ _ _))).
  - vm_compute. reflexivity.
  - vm_compute. reflexivity.
Defined.

Lemma sample_noNameClash :
  @noNameClash sampleEnv samplePrevPlan "srv"
    [sampleIndexDef "engine" true 2; sampleIndexDefJ 4]
    (sampleIndexDef "engine" true 2).
Proof.
  intros d' arr g q Hd' Hfr Hds Hg Hq.
  apply elem_of_cons in Hd' as [->|Hd']; [discriminate Hfr|].
  apply list_elem_of_singleton in Hd'. subst d'.
  injection Hds as <-.
  assert (Hgs : splitGroups (MaxPartitionsPerPIndex (id_PlanParams (sampleIndexDefJ 4)))
                  tenPartitions
                = [["0"; "1"; "2"; "3"]; ["4"; "5"; "6"; "7"]; ["8"; "9"]])
    by (vm_compute; reflexivity).
  rewrite Hgs in Hg.
  repeat (apply elem_of_cons in Hg as [->|Hg]; [vm_compute in Hq; discriminate Hq|]).
  inversion Hg.
Defined.

Lemma C6_plan_frozen_witness :
  exists plan rng',
    @CalcPlan sampleRand sampleEnv
      (Some [sampleIndexDef "engine" true 2; sampleIndexDefJ 4])
      (Some sampleNodes) (Some samplePrevPlan) "1.0" "srv" 0
    = Some (Some plan, rng')
    /\ forall k q,
         (pps_PlanPIndexes plan !! k = Some q
          /\ sameIndex (sampleIndexDef "engine" true 2) (k, q))
         <-> (pps_PlanPIndexes samplePrevPlan !! k = Some q
              /\ sameIndex (sampleIndexDef "engine" true 2) (k, q)).
Proof.
  destruct (@C6_plan_frozen_copies_forward sampleRand sampleEnv
              [sampleIndexDef "engine" true 2; sampleIndexDefJ 4]
              sampleNodes samplePrevPlan "1.0" "srv" 0
              (sampleIndexDef "engine" true 2)) as [Hret Hres].
  - vm_compute. constructor.
  - reflexivity.
  - exact sampleEnv_keeps_partitions.
  - apply (bool_decide_unpack _). vm_compute. exact I.
  - exact sample_noNameClash.
  - destruct (Hret sampleRand_fits) as (plan & rng' & E).
    exists plan, rng'. split; [exact E|].
    destruct (Hres _ E) as (plan2 & rng2 & E2 & Hiff).
    injection E2 as <- <-. exact Hiff.
Defined.

Lemma C8_unknown_type_witness :
  @CalcPlan sampleRand sampleEnv
    (Some ([sampleIndexDefJ 4] ++ sampleIndexDef "alias" false 4 :: []))
    (Some sampleNodes) (Some samplePrevPlan) "1.0" "srv" 0
  = @CalcPlan sampleRand sampleEnv (Some ([sampleIndexDefJ 4] ++ []))
      (Some sampleNodes) (Some samplePrevPlan) "1.0" "srv" 0.
Proof.
  apply (@C8_unknown_type_skipped sampleRand sampleEnv).
  - reflexivity.
  - right. right. exists (mkPIndexImplType false false "advanced/alias").
    split; [vm_compute; reflexivity|]. left. reflexivity.
Defined.

Lemma C8_frozen_counterexample :
  @instantiatable sampleEnv (id_Type (sampleIndexDef "alias" true 4)) = false
  /\ exists plan rng',
       @CalcPlan sampleRand sampleEnv (Some [sampleIndexDef "alias" true 4])
         (Some sampleNodes) (Some samplePrevPlan) "1.0" "srv" 0
       = Some (Some plan, rng')
       /\ pps_PlanPIndexes plan !! "i_U_8dd93ce8" = Some samplePrevEntry.
Proof.
  split; [vm_compute; reflexivity|].
  eexists. eexists. split; [vm_compute; reflexivity|]. vm_compute. reflexivity.
Qed.

(** ** C5: alias cycles *)

Lemma cycle_step (fuel : nat) (name other : string) uuid :
  (name = "A" /\ other = "B" /\ uuid = "a1")
  \/ (name = "B" /\ other = "A" /\ uuid = "b1") ->
  @fillAlias cycleAliasEnv (S fuel) cycleIndexDefs name "" 0 []
  = match @fillAlias cycleAliasEnv fuel cycleIndexDefs other "" 0 [] with
    | AliasFilled num alias => AliasFilled num alias
    | other => other
    end.
Proof.
  intros [(-> & -> & ->)|(-> & -> & ->)].
  - change (@fillAlias cycleAliasEnv (S fuel) cycleIndexDefs "A" "" 0 [])
      with (match @fillAlias cycleAliasEnv fuel cycleIndexDefs "B" "" 0 [] with
            | AliasFilled num alias => AliasFilled num alias
            | other => other
            end). reflexivity.
  - change (@fillAlias cycleAliasEnv (S fuel) cycleIndexDefs "B" "" 0 [])
      with (match @fillAlias cycleAliasEnv fuel cycleIndexDefs "A" "" 0 [] with
            | AliasFilled num alias => AliasFilled num alias
            | other => other
            end). reflexivity.
Qed.

Lemma cycle_unfinished (fuel : nat) :
  @fillAlias cycleAliasEnv fuel cycleIndexDefs "A" "" 0 [] = AliasUnfinished
  /\ @fillAlias cycleAliasEnv fuel cycleIndexDefs "B" "" 0 [] = AliasUnfinished.
Proof.
  induction fuel as [|fuel [IHA IHB]]; [split; reflexivity|].
  split.
  - rewrite (cycle_step fuel "A" "B" "a1") by auto. now rewrite IHB.
  - rewrite (cycle_step fuel "B" "A" "b1") by auto. now rewrite IHA.
Qed.

(** C5 (the code at the failing input).  On the alias graph [A -> B],
    [B -> A] the counter [num] stays at 0, the test
    [num > maxAliasTargets] never fires, and resolving [A] does not
    return, whatever depth of nested calls is allowed: it neither fails
    with the too-many-targets error nor produces an alias. *)
Theorem C5_alias_cycle_never_returns :
  forall fuel,
    @bleveIndexAliasForUserIndexAlias cycleAliasEnv fuel (Ok cycleIndexDefs)
      "A" "" = AliasUnfinished.
Proof.
  intros fuel. unfold bleveIndexAliasForUserIndexAlias.
  apply (cycle_unfinished fuel).
Qed.

(** ** C9: the rebalancer's assignment step *)

Section RebalancerProofs.
Context `{HR : GoRand} `{HE : PlannerEnv}.

Lemma assignPartitionCurrStates_occupied r index partition node state so :
  currState r index partition node = Some so ->
  so_state so <> EmptyString ->
  exists err,
    assignPartitionCurrStates r index partition node state "add"
    = (r, Some err).
Proof.
  intros Hslot Hne. unfold assignPartitionCurrStates, currState in *.
  destruct (r_currStates r !! index) as [partitions|] eqn:Hi; [|discriminate].
  destruct (partitions !! partition) as [nodes|] eqn:Hp; [|discriminate].
  simpl. rewrite Hp. simpl. rewrite Hslot.
  destruct (String.eqb_spec (so_state so) EmptyString) as [E|_]; [contradiction|].
  simpl. eexists. f_equal.
  rewrite (insert_id partitions), (insert_id (r_currStates r)) by assumption.
  destruct r; reflexivity.
Qed.

Lemma assignPartitionCurrStates_free r index partition node state op r' :
  assignPartitionCurrStates r index partition node state op = (r', None) ->
  currState r' index partition node = Some (mkStateOp state op)
  /\ r_endPlanPIndexes r' = r_endPlanPIndexes r
  /\ r_version r' = r_version r
  /\ (op = "add" ->
      forall so, currState r index partition node = Some so ->
                 so_state so = EmptyString).
Proof.
  unfold assignPartitionCurrStates, currState.
  set (partitions := default ∅ (r_currStates r !! index)).
  set (nodes := default ∅ (partitions !! partition)).
  destruct (String.eqb op "add" && _) eqn:Hc; [discriminate|].
  intros E. injection E as <-. simpl.
  rewrite !lookup_insert_eq. repeat split.
  intros -> so Hso. simpl in Hc.
  assert (Hn : nodes !! node = Some so).
  { subst nodes partitions.
    destruct (r_currStates r !! index) as [ps|]; [|discriminate]. simpl.
    destruct (ps !! partition) as [ns|]; [|discriminate]. exact Hso. }
  rewrite Hn in Hc. apply negb_false_iff in Hc.
  now apply String.eqb_eq.
Qed.

Lemma updatePlanPIndexes_ok r pl indexDef partition node state op rng
      pl' rng' :
  updatePlanPIndexes r pl indexDef partition node state op rng
  = Some (pl', None, rng') ->
  exists p0 uuid1 rng1 uuid2,
    findPlanPIndex r pl partition = Some p0
    /\ NewUUID rng = Some (uuid1, rng1)
    /\ NewUUID rng1 = Some (uuid2, rng')
    /\ (if String.eqb op "add" then pp_Nodes p0 !! node = None
        else is_Some (pp_Nodes p0 !! node))
    /\ pl' = set_pps_UUID uuid2
               (set_pps_PlanPIndexes
                  (<[partition :=
                       set_pp_Nodes
                         (stepNodes indexDef partition node state op
                            (pp_Nodes p0))
                         (set_pp_UUID uuid1 p0)]> (pps_PlanPIndexes pl)) pl).
Proof.
  unfold updatePlanPIndexes, stepNodes.
  destruct (findPlanPIndex r pl partition) as [p0|]; [|discriminate].
  destruct (NewUUID rng) as [[uuid1 rng1]|] eqn:E1; [|discriminate].
  assert (Hn : pp_Nodes (set_pp_UUID uuid1 p0) = pp_Nodes p0) by reflexivity.
  cbv zeta. rewrite !Hn.
  destruct (String.eqb_spec op "add") as [->|Hop].
  - destruct (pp_Nodes p0 !! node) eqn:Hnode; [discriminate|].
    destruct (NewUUID rng1) as [[uuid2 rng2]|] eqn:E2; [|discriminate].
    intros E. injection E as <- <-.
    exists p0, uuid1, rng1, uuid2. auto.
  - destruct (pp_Nodes p0 !! node) eqn:Hnode; [|discriminate].
    destruct (NewUUID rng1) as [[uuid2 rng2]|] eqn:E2; [|discriminate].
    intros E. injection E as <- <-.
    exists p0, uuid1, rng1, uuid2. repeat split; eauto.
Qed.

(** A step on an entry that [findPlanPIndex] finds draws the entry's
    UUID first: a panic of that draw is a panic of the step. *)
Lemma updatePlanPIndexes_panics r pl indexDef partition node state op rng p0 :
  findPlanPIndex r pl partition = Some p0 ->
  NewUUID rng = None ->
  updatePlanPIndexes r pl indexDef partition node state op rng = None.
Proof. intros Hf Hn. unfold updatePlanPIndexes. now rewrite Hf, Hn. Qed.

Lemma updatePlanPIndexes_add_exists r pl indexDef partition node state rng p0
      uuid1 rng1 :
  findPlanPIndex r pl partition = Some p0 ->
  is_Some (pp_Nodes p0 !! node) ->
  NewUUID rng = Some (uuid1, rng1) ->
  exists pl' err,
    updatePlanPIndexes r pl indexDef partition node state "add" rng
    = Some (pl', Some err, rng1).
Proof.
  intros Hf [n Hn] Hu. unfold updatePlanPIndexes. rewrite Hf, Hu. cbv zeta.
  rewrite String.eqb_refl.
  assert (Hn' : pp_Nodes (set_pp_UUID uuid1 p0) !! node = Some n) by exact Hn.
  rewrite Hn'. eauto.
Qed.

Lemma updatePlanPIndexes_missing r pl indexDef partition node state op rng p0
      uuid1 rng1 :
  findPlanPIndex r pl partition = Some p0 ->
  op <> "add"%string ->
  pp_Nodes p0 !! node = None ->
  NewUUID rng = Some (uuid1, rng1) ->
  exists pl' err,
    updatePlanPIndexes r pl indexDef partition node state op rng
    = Some (pl', Some err, rng1).
Proof.
  intros Hf Hop Hn Hu. unfold updatePlanPIndexes. rewrite Hf, Hu. cbv zeta.
  rewrite (proj2 (String.eqb_neq _ _) Hop).
  assert (Hn' : pp_Nodes (set_pp_UUID uuid1 p0) !! node = None) by exact Hn.
  rewrite Hn'. eauto.
Qed.

Lemma findPlanPIndex_rebalancer r r' pl partition :
  r_endPlanPIndexes r' = r_endPlanPIndexes r ->
  findPlanPIndex r' pl partition = findPlanPIndex r pl partition.
Proof. intros E. unfold findPlanPIndex. now rewrite E. Qed.

Lemma updatePlanPIndexes_rebalancer r r' pl indexDef partition node state op rng :
  r_endPlanPIndexes r' = r_endPlanPIndexes r ->
  updatePlanPIndexes r' pl indexDef partition node state op rng
  = updatePlanPIndexes r pl indexDef partition node state op rng.
Proof.
  intros E. unfold updatePlanPIndexes.
  now rewrite (findPlanPIndex_rebalancer r r' pl partition E).
Qed.

(** C9 (amended). The rebalancer validates every assignment step
    against [currStates]: an ["add"] whose (index, partition, node) slot
    holds a non-empty state is refused before anything is read or
    drawn.  An ["add"] of a node that the plan entry's node map already
    contains is refused too, after the draw of the entry's new UUID: the
    step returns the error if [NewUUID] returns, and panics if it
    panics.  In both cases nothing is written.  An applied step writes
    back the plan it read with only the targeted entry replaced - its
    node map changed as the step dictates and its UUID redrawn - and
    the collection's UUID redrawn, under the CAS it read.  When that CAS
    is lost the step returns an error to its caller and leaves the store
    as the other writer made it: the write is attempted once and is not
    retried. *)
Theorem C9_assign_partition_step r cfg others index partition node state op rng :
  (op = "add" ->
   forall so,
     currState r index partition node = Some so ->
     so_state so <> EmptyString ->
     exists err,
       assignPartition r cfg others index partition node state op rng
       = Some (r, cfg, rng, Some err))
  /\ (op = "add" ->
      forall r1 indexDefs indexDef pl cas rng1 p0,
        assignPartitionCurrStates r index partition node state op = (r1, None) ->
        PlannerGetIndexDefs cfg (r_version r1) = Ok indexDefs ->
        ids_IndexDefs indexDefs !! index = Some indexDef ->
        PlannerGetPlanPIndexes cfg (r_version r1) rng
        = Some (Ok (pl, cas), rng1) ->
        findPlanPIndex r1 pl partition = Some p0 ->
        is_Some (pp_Nodes p0 !! node) ->
        (forall uuid1 rng2,
           NewUUID rng1 = Some (uuid1, rng2) ->
           exists err,
             assignPartition r cfg others index partition node state op rng
             = Some (r1, cfg, rng2, Some err))
        /\ (NewUUID rng1 = None ->
            assignPartition r cfg others index partition node state op rng
            = None))
  /\ (forall r' cfg' rng',
        assignPartition r cfg others index partition node state op rng
        = Some (r', cfg', rng', None) ->
        exists indexDefs indexDef pl cas rng1 p0 uuid1 rng2 uuid2,
          PlannerGetIndexDefs cfg (r_version r) = Ok indexDefs
          /\ ids_IndexDefs indexDefs !! index = Some indexDef
          /\ PlannerGetPlanPIndexes cfg (r_version r) rng
             = Some (Ok (pl, cas), rng1)
          /\ findPlanPIndex r pl partition = Some p0
          /\ NewUUID rng1 = Some (uuid1, rng2)
          /\ NewUUID rng2 = Some (uuid2, rng')
          /\ cfg_planCas (others cfg) = cas
          /\ currState r' index partition node = Some (mkStateOp state op)
          /\ cfg' = mkCfg (cfg_indexDefs (others cfg))
                      (Some (set_pps_UUID uuid2
                               (set_pps_PlanPIndexes
                                  (<[partition :=
                                       set_pp_Nodes
                                         (stepNodes indexDef partition node
                                            state op (pp_Nodes p0))
                                         (set_pp_UUID uuid1 p0)]>
                                     (pps_PlanPIndexes pl)) pl)))
                      (cas + 1)%N)
  /\ (forall r1 indexDefs indexDef pl cas rng1 pl' rng2,
        assignPartitionCurrStates r index partition node state op = (r1, None) ->
        PlannerGetIndexDefs cfg (r_version r1) = Ok indexDefs ->
        ids_IndexDefs indexDefs !! index = Some indexDef ->
        PlannerGetPlanPIndexes cfg (r_version r1) rng
        = Some (Ok (pl, cas), rng1) ->
        updatePlanPIndexes r1 pl indexDef partition node state op rng1
        = Some (pl', None, rng2) ->
        cfg_planCas (others cfg) <> cas ->
        exists err,
          assignPartition r cfg others index partition node state op rng
          = Some (r1, others cfg, rng2, Some err)).
Proof.
  split; [|split; [|split]].
  - intros -> so Hso Hne.
    destruct (assignPartitionCurrStates_occupied r index partition node state
                so Hso Hne) as [err E].
    exists err. unfold assignPartition. rewrite E. reflexivity.
  - intros -> r1 indexDefs indexDef pl cas rng1 p0 Hcs Hids Hid Hpl Hf Hn.
    split.
    + intros uuid1 rng2 Hu.
      destruct (updatePlanPIndexes_add_exists r1 pl indexDef partition node
                  state rng1 p0 uuid1 rng2 Hf Hn Hu) as (pl' & err & Hup).
      exists err. unfold assignPartition.
      rewrite Hcs, Hids, Hid, Hpl, Hup. reflexivity.
    + intros Hu. unfold assignPartition. rewrite Hcs, Hids, Hid, Hpl.
      now rewrite (updatePlanPIndexes_panics r1 pl indexDef partition node
                     state "add" rng1 p0 Hf Hu).
  - intros r' cfg' rng'. unfold assignPartition.
    destruct (assignPartitionCurrStates r index partition node state op)
      as [r1 [err|]] eqn:Hcs; [discriminate|].
    destruct (assignPartitionCurrStates_free _ _ _ _ _ _ _ Hcs)
      as (Hslot & Hend & Hver & _).
    rewrite Hver.
    destruct (PlannerGetIndexDefs cfg (r_version r)) as [indexDefs|] eqn:Hids;
      [|discriminate].
    destruct (ids_IndexDefs indexDefs !! index) as [indexDef|] eqn:Hid;
      [|discriminate].
    destruct (PlannerGetPlanPIndexes cfg (r_version r) rng)
      as [[[[pl cas]|] rng1]|] eqn:Hpl; [|discriminate..].
    rewrite (updatePlanPIndexes_rebalancer r r1) by exact Hend.
    destruct (updatePlanPIndexes r pl indexDef partition node state op rng1)
      as [[[pl' [err|]] rng2]|] eqn:Hu; [discriminate| |discriminate].
    unfold CfgSetPlanPIndexes.
    destruct (N.eqb_spec cas (cfg_planCas (others cfg))) as [Hcas|Hcas];
      [|discriminate].
    intros E. injection E as <- <- <-.
    destruct (updatePlanPIndexes_ok _ _ _ _ _ _ _ _ _ _ Hu)
      as (p0 & uuid1 & rng1' & uuid2 & Hf & E1 & E2 & _ & ->).
    exists indexDefs, indexDef, pl, cas, rng1, p0, uuid1, rng1', uuid2.
    rewrite <- Hcas. repeat split; assumption || reflexivity.
  - intros r1 indexDefs indexDef pl cas rng1 pl' rng2 Hcs Hids Hid Hpl Hu Hcas.
    eexists. unfold assignPartition.
    rewrite Hcs, Hids, Hid, Hpl, Hu. unfold CfgSetPlanPIndexes.
    destruct (N.eqb_spec cas (cfg_planCas (others cfg))) as [E|_];
      [congruence|]. reflexivity.
Qed.
End RebalancerProofs.

Lemma C9_assign_partition_witness :
  (exists err,
     @assignPartition sampleRand sampleEnv busyRebalancer sampleCfg
       (fun cfg => cfg) "i" "i_U_8dd93ce8" "N1" "primary" "add" 0
     = Some (busyRebalancer, sampleCfg, 0, Some err))
  /\ (exists r' cfg' rng',
        @assignPartition sampleRand sampleEnv sampleRebalancer sampleCfg
          (fun cfg => cfg) "i" "i_U_8dd93ce8" "N2" "replica" "add" 0
        = Some (r', cfg', rng', None)
        /\ exists pl cas p0 uuid1 uuid2,
             findPlanPIndex sampleRebalancer pl "i_U_8dd93ce8" = Some p0
             /\ cfg_planCas sampleCfg = cas
             /\ cfg' = mkCfg (cfg_indexDefs sampleCfg)
                      (Some (set_pps_UUID uuid2
                               (set_pps_PlanPIndexes
                                  (<["i_U_8dd93ce8" :=
                                       set_pp_Nodes
                                         (@stepNodes sampleEnv
                                            (sampleIndexDef "engine" false 0)
                                            "i_U_8dd93ce8" "N2" "replica" "add"
                                            (pp_Nodes p0))
                                         (set_pp_UUID uuid1 p0)]>
                                     (pps_PlanPIndexes pl)) pl)))
                      (cas + 1)%N).
Proof.
  split.
  - apply (proj1 (@C9_assign_partition_step sampleRand sampleEnv busyRebalancer
                    sampleCfg (fun cfg => cfg) "i" "i_U_8dd93ce8" "N1"
                    "primary" "add" 0) eq_refl (mkStateOp "primary" "add")).
    + vm_compute. reflexivity.
    + discriminate.
  - eexists _, _, _. split; [vm_compute; reflexivity|].
    edestruct (proj1 (proj2 (proj2
                (@C9_assign_partition_step sampleRand sampleEnv
                   sampleRebalancer sampleCfg (fun cfg => cfg) "i"
                   "i_U_8dd93ce8" "N2" "replica" "add" 0))))
      as (ids & d & pl & cas & rng1 & p0 & u1 & rng2 & u2
          & Hids & Hd & Hpl & Hf & _ & _ & Hcas & _ & Hcfg);
      [vm_compute; reflexivity|].
    injection Hids as <-. injection Hd as <-.
    exists pl, cas, p0, u1, u2. split; [exact Hf|]. split; [exact Hcas|].
    exact Hcfg.
Defined.

Lemma C9_lost_cas_counterexample :
  exists r' rng' err,
    @assignPartition sampleRand sampleEnv sampleRebalancer sampleCfg
      concurrentPlanner "i" "i_U_8dd93ce8" "N2" "replica" "add" 0
    = Some (r', concurrentPlanner sampleCfg, rng', Some err)
    /\ cfg_planPIndexes (concurrentPlanner sampleCfg) = Some samplePrevPlan
    /\ pp_Nodes samplePrevEntry !! "N2" = None.
Proof.
  eexists _, _, _. split; [vm_compute; reflexivity|].
  split; vm_compute; reflexivity.
Qed.

(** ** The heap of wait requests *)

Ltac Zify.zify_post_hook ::= Z.div_mod_to_equations.

Section HeapProofs.
Implicit Types h q : list ConsistencyWaitReq.
Implicit Types i j k n c : nat.

Lemma Swap_length h i j : length (Swap h i j) = length h.
Proof.
  unfold Swap. destruct (h !! i), (h !! j); try reflexivity.
  now rewrite !length_insert.
Qed.

Lemma heap_up_S fuel h j :
  heap_up (S fuel) h j
  = if ((j - 1) / 2 =? j) || negb (Less h j ((j - 1) / 2)) then h
    else heap_up fuel (Swap h ((j - 1) / 2) j) ((j - 1) / 2).
Proof. reflexivity. Qed.

Lemma heap_down_S fuel h i n :
  heap_down (S fuel) h i n
  = if n <=? 2 * i + 1 then h
    else if negb (Less h (if (2 * i + 1 + 1 <? n) && Less h (2 * i + 1 + 1) (2 * i + 1)
                          then 2 * i + 1 + 1 else 2 * i + 1) i)
         then h
         else heap_down fuel
                (Swap h i (if (2 * i + 1 + 1 <? n) && Less h (2 * i + 1 + 1) (2 * i + 1)
                           then 2 * i + 1 + 1 else 2 * i + 1))
                (if (2 * i + 1 + 1 <? n) && Less h (2 * i + 1 + 1) (2 * i + 1)
                 then 2 * i + 1 + 1 else 2 * i + 1) n.
Proof. reflexivity. Qed.

Lemma Swap_lookup h i j k :
  i < length h -> j < length h ->
  Swap h i j !! k
  = if decide (k = i) then h !! j
    else if decide (k = j) then h !! i else h !! k.
Proof.
  intros Hi Hj. unfold Swap.
  destruct (lookup_lt_is_Some_2 h i Hi) as [a Ha].
  destruct (lookup_lt_is_Some_2 h j Hj) as [b Hb].
  rewrite Ha, Hb.
  destruct (decide (k = i)) as [->|Hki].
  - rewrite list_lookup_insert_eq by (rewrite length_insert; exact Hi).
    reflexivity.
  - rewrite list_lookup_insert_ne by congruence.
    destruct (decide (k = j)) as [->|Hkj].
    + now rewrite list_lookup_insert_eq by exact Hj.
    + now rewrite list_lookup_insert_ne by congruence.
Qed.

Lemma insert_swap_head (x b : ConsistencyWaitReq) h j :
  h !! j = Some b -> b :: <[j := x]> h ≡ₚ x :: h.
Proof.
  revert j. induction h as [|y h IH]; intros [|j] Hj; simpl in *; try discriminate.
  - injection Hj as ->. apply perm_swap.
  - rewrite (perm_swap y b), (IH j Hj). apply perm_swap.
Qed.

Lemma Swap_perm h i j : Swap h i j ≡ₚ h.
Proof.
  unfold Swap.
  destruct (h !! i) as [a|] eqn:Ha; [|reflexivity].
  destruct (h !! j) as [b|] eqn:Hb; [|reflexivity].
  revert i j Ha Hb. induction h as [|x h IH]; intros i j Ha Hb; [reflexivity|].
  destruct i as [|i], j as [|j]; simpl in *.
  - injection Ha as ->. injection Hb as ->. reflexivity.
  - injection Ha as ->. apply insert_swap_head. exact Hb.
  - injection Hb as ->. apply insert_swap_head. exact Ha.
  - f_equiv. apply IH; assumption.
Qed.

Lemma heap_up_perm fuel h j : heap_up fuel h j ≡ₚ h.
Proof.
  revert h j. induction fuel as [|fuel IH]; intros h j; [reflexivity|].
  rewrite heap_up_S.
  destruct ((_ =? _) || _); [reflexivity|].
  rewrite IH. apply Swap_perm.
Qed.

Lemma heap_down_perm fuel h i n : heap_down fuel h i n ≡ₚ h.
Proof.
  revert h i. induction fuel as [|fuel IH]; intros h i; [reflexivity|].
  rewrite heap_down_S.
  destruct (n <=? _); [reflexivity|].
  destruct (negb _); [reflexivity|].
  rewrite IH. apply Swap_perm.
Qed.

Lemma heap_up_length fuel h j : length (heap_up fuel h j) = length h.
Proof. apply Permutation_length, heap_up_perm. Qed.

Lemma heap_down_length fuel h i n : length (heap_down fuel h i n) = length h.
Proof. apply Permutation_length, heap_down_perm. Qed.


Lemma Less_true h i j a b :
  h !! i = Some a -> h !! j = Some b -> Less h i j = true ->
  (ConsistencySeq a < ConsistencySeq b)%N.
Proof. unfold Less. intros -> ->. apply N.ltb_lt. Qed.

Lemma Less_false h i j a b :
  h !! i = Some a -> h !! j = Some b -> Less h i j = false ->
  (ConsistencySeq b <= ConsistencySeq a)%N.
Proof. unfold Less. intros -> ->. apply N.ltb_ge. Qed.

Lemma heap_up_ordered fuel :
  forall h j, j <= fuel -> j < length h -> upInv h j ->
              heapOrdered (heap_up fuel h j).
Proof.
  induction fuel as [|fuel IH]; intros h j Hfuel Hj [H1 H2].
  - intros c a b Hc Ha Hb. apply (H1 c a b); auto; lia.
  - rewrite heap_up_S.
    destruct (Nat.eqb_spec ((j - 1) / 2) j) as [E|Hne];
      [rewrite orb_true_l|rewrite orb_false_l].
    { intros c a b Hc Ha Hb. apply (H1 c a b); auto; lia. }
    destruct (lookup_lt_is_Some_2 h j Hj) as [vj Hvj].
    assert (Hi : (j - 1) / 2 < length h) by lia.
    destruct (lookup_lt_is_Some_2 h _ Hi) as [vi Hvi].
    destruct (Less h j ((j - 1) / 2)) eqn:HL; cbn [negb].
    2:{ intros c a b Hc Ha Hb.
        destruct (decide (c = j)) as [Ecj|Hcj]; [subst c|]; [|apply (H1 c a b); auto].
        rewrite Hvj in Ha. rewrite Hvi in Hb. injection Ha as <-. injection Hb as <-.
        eapply Less_false; eassumption. }
    pose proof (Less_true _ _ _ _ _ Hvj Hvi HL) as Hlt.
    apply IH; [lia|rewrite Swap_length; lia|].
    split.
    + intros c a b Hc Hci Ha Hb.
      rewrite Swap_lookup in Ha, Hb by assumption.
      destruct (decide (c = (j - 1) / 2)) as [|_]; [contradiction|].
      destruct (decide (c = j)) as [Ecj|Hcj]; [subst c|].
      * destruct (decide ((j - 1) / 2 = (j - 1) / 2)); [|contradiction].
        rewrite Hvi in Ha. rewrite Hvj in Hb.
        injection Ha as <-. injection Hb as <-. lia.
      * destruct (decide ((c - 1) / 2 = (j - 1) / 2)) as [Ep|Hp].
        { rewrite Hvj in Hb. injection Hb as <-.
          assert (ConsistencySeq vi <= ConsistencySeq a)%N; [|lia].
          apply (H1 c a vi); auto. now rewrite Ep. }
        destruct (decide ((c - 1) / 2 = j)) as [Ej|Hpj].
        { rewrite Hvi in Hb. injection Hb as <-.
          apply (H2 c a vi); auto. lia. }
        apply (H1 c a b); auto.
    + intros c a g Hi0 Hc Hp Ha Hg.
      rewrite Swap_lookup in Ha, Hg by assumption.
      destruct (decide (c = (j - 1) / 2)) as [|_]; [lia|].
      destruct (decide (((j - 1) / 2 - 1) / 2 = (j - 1) / 2)) as [|_]; [lia|].
      destruct (decide (((j - 1) / 2 - 1) / 2 = j)) as [|_]; [lia|].
      assert (Hgi : (ConsistencySeq g <= ConsistencySeq vi)%N).
      { apply (H1 ((j - 1) / 2) vi g); auto. }
      destruct (decide (c = j)) as [Ecj|Hcj]; [subst c|].
      * rewrite Hvi in Ha. injection Ha as <-. exact Hgi.
      * assert (ConsistencySeq vi <= ConsistencySeq a)%N; [|lia].
        apply (H1 c a vi); auto. now rewrite Hp.
Qed.

Lemma heap_Push_ordered h x :
  heapOrdered h -> heapOrdered (heap_Push h x).
Proof.
  intros Hh. unfold heap_Push, Push, Len. rewrite length_app. simpl.
  apply heap_up_ordered; [lia|rewrite length_app; simpl; lia|].
  replace (length h + 1 - 1) with (length h) by lia.
  split.
  - intros c a b Hc Hne Ha Hb.
    assert (Hlt : c < length h).
    { apply lookup_lt_Some in Ha. rewrite length_app in Ha. simpl in Ha. lia. }
    rewrite lookup_app_l in Ha by exact Hlt.
    rewrite lookup_app_l in Hb by lia.
    apply (Hh c a b); auto.
  - intros c a g _ Hc Hp Ha _.
    apply lookup_lt_Some in Ha. rewrite length_app in Ha. simpl in Ha. lia.
Qed.

Lemma heap_Push_perm h x : heap_Push h x ≡ₚ x :: h.
Proof.
  unfold heap_Push, Push. rewrite heap_up_perm.
  symmetry. apply Permutation_cons_append.
Qed.

Lemma heap_down_ordered n fuel :
  forall h i, n <= i + fuel -> n <= length h -> downInv h n i ->
              heapOrderedUpTo (heap_down fuel h i n) n.
Proof.
  induction fuel as [|fuel IH]; intros h i Hfuel Hn [H1 H2].
  - intros c a b Hc Hcn Ha Hb. apply (H1 c a b); auto; lia.
  - rewrite heap_down_S.
    destruct (Nat.leb_spec n (2 * i + 1)) as [Hle|Hgt].
    { intros c a b Hc Hcn Ha Hb. apply (H1 c a b); auto; lia. }
    set (j1 := 2 * i + 1) in *. set (j2 := j1 + 1) in *.
    assert (Hi : i < length h) by lia.
    assert (Hj1 : j1 < length h) by lia.
    destruct (lookup_lt_is_Some_2 h i Hi) as [vi Hvi].
    destruct (lookup_lt_is_Some_2 h j1 Hj1) as [v1 Hv1].
    set (j := if (j2 <? n) && Less h j2 j1 then j2 else j1).
    fold j.
    assert (Hjcases :
      (j = j2 /\ j2 < n /\ exists v2, h !! j2 = Some v2
          /\ (ConsistencySeq v2 < ConsistencySeq v1)%N)
      \/ (j = j1 /\ forall v2, j2 < n -> h !! j2 = Some v2 ->
                     (ConsistencySeq v1 <= ConsistencySeq v2)%N)).
    { subst j. destruct (Nat.ltb_spec j2 n) as [Hlt|Hge]; simpl.
      - destruct (lookup_lt_is_Some_2 h j2 ltac:(lia)) as [v2 Hv2].
        destruct (Less h j2 j1) eqn:HL.
        + left. repeat split; auto. exists v2. split; [auto|].
          eapply Less_true; eassumption.
        + right. split; [reflexivity|]. intros v2' _ Hv2'.
          rewrite Hv2 in Hv2'. injection Hv2' as <-.
          eapply Less_false; eassumption.
      - right. split; [reflexivity|]. intros; lia. }
    assert (Hjn : j < n) by (destruct Hjcases as [(-> & ? & _)|(-> & _)]; lia).
    assert (Hjp : (j - 1) / 2 = i)
      by (destruct Hjcases as [(-> & _)|(-> & _)]; subst j2 j1; lia).
    assert (Hji : i < j)
      by (destruct Hjcases as [(-> & _)|(-> & _)]; subst j2 j1; lia).
    destruct (lookup_lt_is_Some_2 h j ltac:(lia)) as [vj Hvj].
    assert (Hmin : forall c a, 0 < c -> c < n -> (c - 1) / 2 = i -> c <> j ->
                     h !! c = Some a ->
                     (ConsistencySeq vj <= ConsistencySeq a)%N).
    { intros c a Hc Hcn Hp Hcj Ha.
      assert (c = j1 \/ c = j2) as [->| ->] by (subst j2 j1; lia).
      - destruct Hjcases as [(Ej & _ & v2 & Hv2 & Hlt)|(Ej & _)];
          [|congruence].
        rewrite Ej, Hv2 in Hvj. injection Hvj as <-.
        rewrite Hv1 in Ha. injection Ha as <-. lia.
      - destruct Hjcases as [(Ej & _)|(Ej & Hle)]; [congruence|].
        rewrite Ej, Hv1 in Hvj. injection Hvj as <-.
        apply Hle; auto. }
    destruct (Less h j i) eqn:HL; cbn [negb].
    2:{ pose proof (Less_false _ _ _ _ _ Hvj Hvi HL) as Hle.
        intros c a b Hc Hcn Ha Hb.
        destruct (decide ((c - 1) / 2 = i)) as [Ep|Hp];
          [|apply (H1 c a b); auto].
        rewrite Ep, Hvi in Hb. injection Hb as <-.
        destruct (decide (c = j)) as [Ecj|Hcj]; [subst c|].
        - rewrite Hvj in Ha. injection Ha as <-. exact Hle.
        - pose proof (Hmin c a Hc Hcn Ep Hcj Ha). lia. }
    pose proof (Less_true _ _ _ _ _ Hvj Hvi HL) as Hlt.
    apply IH; [lia|rewrite Swap_length; lia|].
    split.
    + intros c a b Hc Hcn Hpj Ha Hb.
      rewrite Swap_lookup in Ha, Hb by lia.
      destruct (decide (c = i)) as [Eci|Hci]; [subst c|].
      * destruct (decide ((i - 1) / 2 = i)) as [|_]; [lia|].
        destruct (decide ((i - 1) / 2 = j)) as [|_]; [lia|].
        rewrite Hvj in Ha. injection Ha as <-.
        apply (H2 j vj b); auto; lia.
      * destruct (decide (c = j)) as [Ecj|Hcj]; [subst c|].
        { rewrite Hjp in Hb. destruct (decide (i = i)); [|contradiction].
          rewrite Hvi in Ha. rewrite Hvj in Hb.
          injection Ha as <-. injection Hb as <-. lia. }
        destruct (decide ((c - 1) / 2 = i)) as [Ep|Hp].
        { rewrite Hvj in Hb. injection Hb as <-.
          apply (Hmin c a); auto. }
        destruct (decide ((c - 1) / 2 = j)) as [|_]; [contradiction|].
        apply (H1 c a b); auto.
    + intros c a g Hj0 Hc Hcn Hp Ha Hg.
      rewrite Swap_lookup in Ha, Hg by lia.
      rewrite Hjp in Hg. destruct (decide (i = i)); [|contradiction].
      destruct (decide (c = i)) as [|_]; [lia|].
      destruct (decide (c = j)) as [|_]; [lia|].
      rewrite Hvj in Hg. injection Hg as <-.
      apply (H1 c a vj); auto; [lia|]. now rewrite Hp.
Qed.

Lemma heap_down_lookup_ge n fuel :
  forall h i k, i < n -> n <= length h -> n <= k ->
                heap_down fuel h i n !! k = h !! k.
Proof.
  induction fuel as [|fuel IH]; intros h i k Hi Hn Hk; [reflexivity|].
  rewrite heap_down_S.
  destruct (Nat.leb_spec n (2 * i + 1)) as [Hle|Hgt]; [reflexivity|].
  set (j := if (2 * i + 1 + 1 <? n) && Less h (2 * i + 1 + 1) (2 * i + 1)
            then 2 * i + 1 + 1 else 2 * i + 1).
  assert (Hj : j < n).
  { subst j. destruct (Nat.ltb_spec (2 * i + 1 + 1) n); simpl;
      [destruct (Less _ _ _)|]; lia. }
  destruct (negb _); [reflexivity|].
  rewrite IH by (rewrite ?Swap_length; lia).
  rewrite Swap_lookup by lia.
  destruct (decide (k = i)); [lia|]. destruct (decide (k = j)); [lia|].
  reflexivity.
Qed.

Lemma heapOrdered_root_min h r :
  heapOrdered h -> h !! 0 = Some r ->
  forall k a, h !! k = Some a -> (ConsistencySeq r <= ConsistencySeq a)%N.
Proof.
  intros Hh Hr k. induction k as [k IH] using lt_wf_ind. intros a Ha.
  destruct k as [|k].
  - rewrite Hr in Ha. injection Ha as <-. lia.
  - assert (Hp : (S k - 1) / 2 < length h).
    { apply lookup_lt_Some in Ha. lia. }
    destruct (lookup_lt_is_Some_2 h _ Hp) as [b Hb].
    pose proof (Hh (S k) a b ltac:(lia) Ha Hb).
    pose proof (IH ((S k - 1) / 2) ltac:(lia) b Hb). lia.
Qed.

(** [heap.Pop] on a non-empty min-heap returns its root and leaves a
    min-heap of the other requests. *)
Lemma heap_Pop_spec h r :
  heapOrdered h -> h !! 0 = Some r ->
  exists q, heap_Pop h = (Some r, q) /\ heapOrdered q /\ h ≡ₚ r :: q.
Proof.
  intros Hh Hr. unfold heap_Pop, Pop, Len.
  assert (Hlen : 0 < length h) by (apply lookup_lt_Some in Hr; exact Hr).
  set (n := length h - 1).
  set (h1 := Swap h 0 n).
  set (h2 := heap_down n h1 0 n).
  assert (Hl1 : length h1 = length h) by apply Swap_length.
  assert (Hl2 : length h2 = length h)
    by (unfold h2; rewrite heap_down_length; exact Hl1).
  assert (Hlast : h2 !! n = Some r).
  { destruct (decide (n = 0)) as [E|Hn0].
    - unfold h2. rewrite E. simpl. unfold h1. rewrite E.
      rewrite Swap_lookup by lia. simpl. exact Hr.
    - unfold h2. rewrite heap_down_lookup_ge by lia.
      unfold h1. rewrite Swap_lookup by lia.
      destruct (decide (n = 0)); [contradiction|].
      destruct (decide (n = n)); [|contradiction]. exact Hr. }
  rewrite Hl2. fold n.
  assert (Hsplit : h2 = take n h2 ++ [r]).
  { rewrite <- (take_drop n h2) at 1. f_equal.
    apply list_eq. intros k. rewrite lookup_drop.
    destruct k as [|k]; simpl.
    - rewrite Nat.add_0_r. exact Hlast.
    - apply lookup_ge_None_2. lia. }
  exists (take n h2). split; [|split].
  - f_equal. rewrite Hsplit at 1. apply last_snoc.
  - assert (Hup : heapOrderedUpTo h2 n).
    { apply heap_down_ordered; [lia|lia|]. split.
      - intros c a b Hc Hcn Hp Ha Hb. unfold h1 in Ha, Hb.
        rewrite Swap_lookup in Ha, Hb by lia.
        destruct (decide (c = 0)); [lia|]. destruct (decide (c = n)); [lia|].
        destruct (decide ((c - 1) / 2 = 0)); [contradiction|].
        destruct (decide ((c - 1) / 2 = n)); [lia|].
        apply (Hh c a b); auto.
      - intros; lia. }
    intros c a b Hc Ha Hb.
    assert (Hcn : c < n).
    { apply lookup_lt_Some in Ha. rewrite length_take in Ha. lia. }
    rewrite lookup_take_lt in Ha by lia. rewrite lookup_take_lt in Hb by lia.
    apply (Hup c a b); auto.
  - transitivity h2.
    + symmetry. unfold h2, h1. rewrite heap_down_perm. apply Swap_perm.
    + rewrite Hsplit at 1. symmetry. apply Permutation_cons_append.
Qed.

End HeapProofs.

(** ** The consistency waiter: channels and the release loop *)

Section WaiterProofs.
Implicit Types t : VLite.
Implicit Types q released kept : list ConsistencyWaitReq.

Lemma sameButChans_refl t : sameButChans t t.
Proof. repeat split. Qed.

Lemma sameButChans_trans t1 t2 t3 :
  sameButChans t1 t2 -> sameButChans t2 t3 -> sameButChans t1 t3.
Proof.
  intros (A1 & A2 & A3 & A4 & A5) (B1 & B2 & B3 & B4 & B5).
  repeat split; congruence.
Qed.

Lemma chan_close_pending ch t :
  fault t = None -> chans t !! ch = Some pendingChan ->
  let t' := chan_close ch t in
  fault t' = None /\ sameButChans t t'
  /\ chans t' = <[ch := mkChan [] true]> (chans t).
Proof.
  intros Hf Hch. unfold chan_close. rewrite Hch. simpl.
  repeat split; assumption.
Qed.

Lemma chan_send_pending ch e t :
  fault t = None -> chans t !! ch = Some pendingChan ->
  let t' := chan_send ch e t in
  fault t' = None /\ sameButChans t t'
  /\ chans t' = <[ch := mkChan [e] false]> (chans t).
Proof.
  intros Hf Hch. unfold chan_send. rewrite Hch. simpl.
  repeat split; assumption.
Qed.

Lemma chan_recv_spec ch t :
  let t' := (chan_recv ch t).1 in
  fault t' = fault t /\ sameButChans t t'
  /\ forall ch', chans t !! ch' = Some pendingChan ->
                 chans t' !! ch' = Some pendingChan.
Proof.
  unfold chan_recv. destruct (chans t !! ch) as [c|] eqn:Hch; simpl.
  - destruct (ch_buf c) as [|e rest] eqn:Hb; simpl.
    + repeat split. auto.
    + repeat split. intros ch' Hp.
      destruct (decide (ch' = ch)) as [->|Hne].
      * rewrite Hch in Hp. injection Hp as ->. discriminate Hb.
      * now rewrite list_lookup_insert_ne by congruence.
  - repeat split. auto.
Qed.

(** Closing the done-channels of distinct pending requests closes
    exactly those channels. *)
Lemma releaseAll_spec released :
  forall t,
    fault t = None ->
    NoDup (DoneCh <$> released) ->
    (forall cwr, cwr ∈ released -> chans t !! DoneCh cwr = Some pendingChan) ->
    let t' := releaseAll released t in
    fault t' = None /\ sameButChans t t'
    /\ (forall cwr, cwr ∈ released ->
          chans t' !! DoneCh cwr = Some (mkChan [] true))
    /\ (forall ch, ch ∉ DoneCh <$> released -> chans t' !! ch = chans t !! ch).
Proof.
  induction released as [|c released IH]; intros t Hf Hnd Hp; simpl.
  - split; [exact Hf|]. split; [apply sameButChans_refl|].
    split; [intros cwr Hin; inversion Hin|reflexivity].
  - rewrite fmap_cons in Hnd. apply NoDup_cons in Hnd as [Hnot Hnd].
    destruct (chan_close_pending (DoneCh c) t Hf (Hp c ltac:(left)))
      as (Hf1 & Hs1 & Hc1).
    assert (Hlt : DoneCh c < length (chans t)).
    { eapply lookup_lt_Some. apply (Hp c). left. }
    destruct (IH (chan_close (DoneCh c) t) Hf1 Hnd) as (Hf2 & Hs2 & Hc2 & Ho2).
    { intros cwr Hin. rewrite Hc1.
      rewrite list_lookup_insert_ne.
      - apply Hp. now right.
      - intros E. apply Hnot. rewrite E. apply list_elem_of_fmap. eauto. }
    split; [exact Hf2|]. split; [eapply sameButChans_trans; eassumption|].
    split.
    + intros cwr Hin. apply elem_of_cons in Hin as [->|Hin]; [|auto].
      unfold releaseAll in Ho2. simpl in *. rewrite Ho2 by exact Hnot.
      rewrite Hc1. now apply list_lookup_insert_eq.
    + intros ch Hch. rewrite ?fmap_cons in Hch.
      apply not_elem_of_cons in Hch as [Hne Hch].
      unfold releaseAll in Ho2. simpl in *. rewrite Ho2 by exact Hch.
      rewrite Hc1. now apply list_lookup_insert_ne.
Qed.

Lemma releaseLoop_S fuel smb q t :
  releaseLoop (S fuel) smb q t
  = match q !! 0 with
    | Some root =>
        if (ConsistencySeq root <=? smb)%N then
          match heap_Pop q with
          | (Some cwr, q) => releaseLoop fuel smb q (chan_close (DoneCh cwr) t)
          | (None, q) => releaseLoop fuel smb q t
          end
        else (q, t)
    | None => (q, t)
    end.
Proof. reflexivity. Qed.

Lemma releaseLoop_spec fuel :
  forall smb q t,
    heapOrdered q -> length q <= fuel ->
    exists released q',
      releaseLoop fuel smb q t = (q', releaseAll released t)
      /\ q ≡ₚ released ++ q'
      /\ heapOrdered q'
      /\ (forall cwr, cwr ∈ released -> (ConsistencySeq cwr <= smb)%N)
      /\ (forall cwr, cwr ∈ q' -> (smb < ConsistencySeq cwr)%N).
Proof.
  induction fuel as [|fuel IH]; intros smb q t Hh Hlen.
  - destruct q; [|simpl in Hlen; lia].
    exists [], []. simpl. repeat split; auto; intros cwr Hin; inversion Hin.
  - rewrite releaseLoop_S. destruct (q !! 0) as [root|] eqn:Hroot.
    2:{ destruct q; [|discriminate].
        exists [], []. simpl. repeat split; auto; intros cwr Hin; inversion Hin. }
    destruct (N.leb_spec (ConsistencySeq root) smb) as [Hle|Hgt].
    + destruct (heap_Pop_spec q root Hh Hroot) as (q1 & Hpop & Hh1 & Hperm).
      rewrite Hpop.
      assert (Hlen1 : length q1 <= fuel).
      { apply Permutation_length in Hperm. simpl in Hperm. lia. }
      destruct (IH smb q1 (chan_close (DoneCh root) t) Hh1 Hlen1)
        as (released & q' & E & Hp & Hh' & Hrel & Hkept).
      exists (root :: released), q'. split; [exact E|].
      split; [rewrite Hperm, Hp; reflexivity|].
      split; [exact Hh'|]. split; [|exact Hkept].
      intros cwr Hin. apply elem_of_cons in Hin as [->|Hin]; auto.
    + exists [], q. split; [reflexivity|]. split; [reflexivity|].
      split; [exact Hh|]. split; [intros cwr Hin; inversion Hin|].
      intros cwr Hin. apply list_elem_of_lookup in Hin as [k Hk].
      pose proof (heapOrdered_root_min q root Hh Hroot k cwr Hk). lia.
Qed.


(** ** Soundness of the waiter's state is kept *)

Lemma objs_queue_split (os : list VLitePartition) bdp p :
  os !! bdp = Some p ->
  exists rest,
    os ≫= cwrQueue ≡ₚ cwrQueue p ++ rest
    /\ (forall p', <[bdp := p']> os ≫= cwrQueue ≡ₚ cwrQueue p' ++ rest)
    /\ (forall bdp2 p2 cwr, bdp2 <> bdp -> os !! bdp2 = Some p2 ->
          cwr ∈ cwrQueue p2 -> cwr ∈ rest).
Proof.
  intros Hp.
  exists ((take bdp os ≫= cwrQueue) ++ (drop (S bdp) os ≫= cwrQueue)).
  assert (Hlt : bdp < length os) by (eapply lookup_lt_Some; eassumption).
  split; [|split].
  - rewrite <- (take_drop_middle os bdp p Hp) at 1.
    rewrite bind_app, bind_cons.
    rewrite (Permutation_app_comm (take bdp os ≫= cwrQueue)), <- app_assoc.
    f_equiv. apply Permutation_app_comm.
  - intros p'. rewrite insert_take_drop by exact Hlt.
    rewrite bind_app, bind_cons.
    rewrite (Permutation_app_comm (take bdp os ≫= cwrQueue)), <- app_assoc.
    f_equiv. apply Permutation_app_comm.
  - intros bdp2 p2 cwr Hne Hp2 Hin. apply elem_of_app.
    destruct (Nat.lt_ge_cases bdp2 bdp) as [Hl|Hg].
    + left. apply list_elem_of_bind. exists p2. split; [exact Hin|].
      apply list_elem_of_lookup. exists bdp2.
      now rewrite lookup_take_lt.
    + right. apply list_elem_of_bind. exists p2. split; [exact Hin|].
      apply list_elem_of_lookup. exists (bdp2 - S bdp).
      rewrite lookup_drop. replace (S bdp + (bdp2 - S bdp)) with bdp2 by lia.
      exact Hp2.
Qed.

Lemma queued_lookup t bdp p cwr :
  objs t !! bdp = Some p -> cwr ∈ cwrQueue p -> cwr ∈ objs t ≫= cwrQueue.
Proof.
  intros Hp Hin. apply list_elem_of_bind. exists p. split; [exact Hin|].
  apply list_elem_of_lookup. eauto.
Qed.

Lemma queued_inv t cwr :
  cwr ∈ objs t ≫= cwrQueue ->
  exists bdp p, objs t !! bdp = Some p /\ cwr ∈ cwrQueue p.
Proof.
  intros Hin. apply list_elem_of_bind in Hin as (p & Hin & Hp).
  apply list_elem_of_lookup in Hp as [bdp Hp]. eauto.
Qed.

(** A change of channels that leaves the done-channels of the queued
    requests pending. *)
Lemma sound_chans_only t t' :
  sound t ->
  fault t' = None ->
  sameButChans t t' ->
  (forall ch, ch ∈ DoneCh <$> (objs t ≫= cwrQueue) ->
              chans t !! ch = Some pendingChan ->
              chans t' !! ch = Some pendingChan) ->
  sound t'.
Proof.
  intros [Hf Hs Hh Ho Hc Hp Hi] Hf' (_ & _ & Epart & Eobjs & _) Hch.
  constructor; rewrite ?Eobjs, ?Epart; auto.
  intros bdp p cwr Hbdp Hin. destruct (Ho bdp p cwr Hbdp Hin). split; [auto|].
  apply Hch; [|assumption].
  apply list_elem_of_fmap. exists cwr. split; [reflexivity|].
  apply list_elem_of_bind. exists p. split; [exact Hin|].
  apply list_elem_of_lookup. eauto.
Qed.

(** A change of one partition object: of its queue, some requests are
    [released], the others [kept], and new ones [added]. *)
Lemma sound_replace t t' bdp p p' released added kept :
  sound t ->
  objs t !! bdp = Some p ->
  objs t' = <[bdp := p']> (objs t) ->
  partitions t' = partitions t ->
  fault t' = None ->
  cwrQueue p ≡ₚ released ++ kept ->
  cwrQueue p' ≡ₚ added ++ kept ->
  heapOrdered (cwrQueue p') ->
  (seqMaxBatch p' <= seqMax p')%N ->
  (forall cwr, cwr ∈ kept -> (seqMaxBatch p' < ConsistencySeq cwr)%N) ->
  (forall cwr, cwr ∈ added ->
     (seqMaxBatch p' < ConsistencySeq cwr)%N
     /\ chans t' !! DoneCh cwr = Some pendingChan
     /\ DoneCh cwr ∉ DoneCh <$> (objs t ≫= cwrQueue)) ->
  NoDup (DoneCh <$> added) ->
  (forall ch, chans t !! ch = Some pendingChan -> ch ∉ DoneCh <$> released ->
              chans t' !! ch = Some pendingChan) ->
  sound t'.
Proof.
  intros [Hf Hs Hh Ho Hc Hp Hi] Hbdp Eobjs Epart Hf' Hq Hq' Hheap Hseq Hkept
         Hadded Hnd Hch.
  destruct (objs_queue_split (objs t) bdp p Hbdp) as (rest & Hall & Hall' & Hrest).
  assert (Hlt : bdp < length (objs t)) by (eapply lookup_lt_Some; eassumption).
  assert (Hold : NoDup (DoneCh <$> (released ++ kept ++ rest))).
  { rewrite app_assoc, <- Hq, <- Hall. exact Hc. }
  rewrite !fmap_app in Hold.
  apply NoDup_app in Hold as (Hnd_rel & Hdisj & Hnd_kr).
  assert (Hkr_queued : forall cwr, cwr ∈ kept ++ rest ->
            chans t !! DoneCh cwr = Some pendingChan
            /\ DoneCh cwr ∉ DoneCh <$> released).
  { intros cwr Hin. split.
    - assert (Hq0 : cwr ∈ objs t ≫= cwrQueue).
      { rewrite Hall, Hq, <- app_assoc. apply elem_of_app. now right. }
      apply queued_inv in Hq0 as (b0 & p0 & Hb0 & Hin0).
      now destruct (Ho b0 p0 cwr Hb0 Hin0).
    - intros Hrel. apply (Hdisj _ Hrel). rewrite <- fmap_app.
      apply list_elem_of_fmap. eauto. }
  constructor.
  - exact Hf'.
  - intros b q. rewrite Eobjs. intros Hb.
    destruct (decide (b = bdp)) as [->|Hne].
    + rewrite list_lookup_insert_eq in Hb by exact Hlt. injection Hb as <-.
      exact Hseq.
    + rewrite list_lookup_insert_ne in Hb by congruence. eauto.
  - intros b q. rewrite Eobjs. intros Hb.
    destruct (decide (b = bdp)) as [->|Hne].
    + rewrite list_lookup_insert_eq in Hb by exact Hlt. injection Hb as <-.
      exact Hheap.
    + rewrite list_lookup_insert_ne in Hb by congruence. eauto.
  - intros b q cwr. rewrite Eobjs. intros Hb Hin.
    destruct (decide (b = bdp)) as [->|Hne].
    + rewrite list_lookup_insert_eq in Hb by exact Hlt. injection Hb as <-.
      rewrite Hq' in Hin. apply elem_of_app in Hin as [Hin|Hin].
      * destruct (Hadded cwr Hin) as (? & ? & _). auto.
      * split; [auto|].
        destruct (Hkr_queued cwr) as [Hpend Hnot];
          [apply elem_of_app; now left|]. auto.
    + rewrite list_lookup_insert_ne in Hb by congruence.
      destruct (Ho b q cwr Hb Hin) as [Hlt' Hpend]. split; [exact Hlt'|].
      destruct (Hkr_queued cwr) as [_ Hnot];
        [apply elem_of_app; right; eapply Hrest; eassumption|]. auto.
  - rewrite Eobjs, Hall', Hq', <- app_assoc, !fmap_app.
    apply NoDup_app. split; [exact Hnd|]. split; [|exact Hnd_kr].
    intros ch Hin1 Hin2. rewrite <- fmap_app in Hin2.
    apply list_elem_of_fmap in Hin1 as (c1 & -> & Hc1).
    apply list_elem_of_fmap in Hin2 as (c2 & E & Hc2).
    destruct (Hadded c1 Hc1) as (_ & _ & Hnone).
    apply Hnone. rewrite E. apply list_elem_of_fmap. exists c2. split; [reflexivity|].
    rewrite Hall, Hq, <- app_assoc. apply elem_of_app. now right.
  - intros name b. rewrite Epart, Eobjs, length_insert. apply Hp.
  - intros n1 n2 b. rewrite Epart. apply Hi.
Qed.

Lemma sound_NewVLite fb : sound (NewVLite fb).
Proof.
  constructor; simpl; intros;
    repeat match goal with
           | H : [] !! _ = Some _ |- _ => rewrite lookup_nil in H
           | H : ∅ !! _ = Some _ |- _ => rewrite lookup_empty in H
           end;
    try discriminate; try reflexivity.
  constructor.
Qed.

Lemma getPartitionUnlocked_spec t name :
  sound t ->
  let r := getPartitionUnlocked t name in
  sound r.1
  /\ chans r.1 = chans t /\ fault r.1 = fault t
  /\ store_open r.1 = store_open t /\ file_backed r.1 = file_backed t
  /\ restarts r.1 = restarts t
  /\ objs r.1 ≫= cwrQueue = objs t ≫= cwrQueue
  /\ (forall bdp p, objs t !! bdp = Some p -> objs r.1 !! bdp = Some p)
  /\ (forall n bdp, partitions t !! n = Some bdp ->
                    partitions r.1 !! n = Some bdp)
  /\ (store_open t = false -> exists err, r = (t, Err err))
  /\ (store_open t = true ->
      exists bdp p,
        r.2 = Ok bdp /\ partitions r.1 !! name = Some bdp
        /\ objs r.1 !! bdp = Some p
        /\ (partitions t !! name = None ->
            p = mkVLitePartition name 0 0 0 EmptyString [])).
Proof.
  intros Hs. unfold getPartitionUnlocked.
  destruct (store_open t) eqn:Hopen; simpl.
  2:{ split_and!; auto; [eauto|discriminate]. }
  destruct (partitions t !! name) as [bdp|] eqn:Hn; simpl.
  - split_and!; auto; [discriminate|]. intros _.
    destruct (lookup_lt_is_Some_2 (objs t) bdp) as [p Hp];
      [eapply sound_partitions; eassumption|].
    exists bdp, p. split_and!; auto. discriminate.
  - destruct Hs as [Hf Hsq Hh Ho Hc Hp Hi].
    assert (Hnew : forall (b : nat) (q : VLitePartition),
              (objs t ++ [mkVLitePartition name 0 0 0 EmptyString []]) !! b
                = Some q ->
              objs t !! b = Some q
              \/ q = mkVLitePartition name 0 0 0 EmptyString []).
    { intros b q Hb. apply lookup_app_Some in Hb as [Hb|[_ Hb]]; [now left|].
      right. destruct (b - length (objs t)); simpl in Hb;
        [congruence|rewrite lookup_nil in Hb; discriminate]. }
    split_and!; auto; try discriminate.
    + constructor; simpl; auto.
      * intros b q Hb. destruct (Hnew b q Hb) as [Hb'| ->]; [eauto|]. simpl. lia.
      * intros b q Hb. destruct (Hnew b q Hb) as [Hb'| ->]; [eauto|]. simpl.
        intros c a b' _ Ha. rewrite lookup_nil in Ha. discriminate.
      * intros b q cwr Hb Hin. destruct (Hnew b q Hb) as [Hb'| ->]; [eauto|].
        simpl in Hin. inversion Hin.
      * rewrite bind_app. simpl. rewrite !app_nil_r. exact Hc.
      * intros n b Hb. rewrite length_app. simpl.
        destruct (decide (n = name)) as [->|Hne].
        -- rewrite lookup_insert_eq in Hb. injection Hb as <-. lia.
        -- rewrite lookup_insert_ne in Hb by congruence.
           pose proof (Hp n b Hb). lia.
      * intros n1 n2 b H1 H2.
        destruct (decide (n1 = name)) as [->|Hne1];
          destruct (decide (n2 = name)) as [->|Hne2]; auto.
        -- rewrite lookup_insert_eq in H1. injection H1 as <-.
           rewrite lookup_insert_ne in H2 by congruence.
           pose proof (Hp n2 _ H2). lia.
        -- rewrite lookup_insert_eq in H2. injection H2 as <-.
           rewrite lookup_insert_ne in H1 by congruence.
           pose proof (Hp n1 _ H1). lia.
        -- rewrite lookup_insert_ne in H1, H2 by congruence. eauto.
    + simpl. rewrite bind_app. simpl. now rewrite !app_nil_r.
    + intros b q Hb. simpl. apply lookup_app_l_Some. exact Hb.
    + intros n b Hb. simpl. rewrite lookup_insert_ne; [exact Hb|]. congruence.
    + intros _. eexists _, _. simpl. split; [reflexivity|].
      split; [apply lookup_insert_eq|]. split.
      * rewrite lookup_app_r by lia. rewrite Nat.sub_diag. reflexivity.
      * reflexivity.
Qed.

End WaiterProofs.

(** ** The consistency waiter: what the operations keep *)

Section SoundSteps.
Implicit Types t : VLite.

Lemma sound_queue_NoDup t bdp p :
  sound t -> objs t !! bdp = Some p -> NoDup (DoneCh <$> cwrQueue p).
Proof.
  intros Hs Hp. destruct (objs_queue_split _ _ _ Hp) as (rest & Hall & _).
  pose proof (sound_chans _ Hs) as Hc. rewrite Hall, fmap_app in Hc.
  apply NoDup_app in Hc. tauto.
Qed.

Lemma evolves_same t t' :
  partitions t' = partitions t -> objs t' = objs t -> evolves t t'.
Proof.
  intros Ep Eo. split.
  - intros name bdp. now rewrite Ep.
  - intros bdp p Hp. exists p. rewrite Eo. split_and!; auto; lia.
Qed.

Lemma evolves_refl t : evolves t t.
Proof. now apply evolves_same. Qed.

Lemma evolves_insert t t' bdp p p' :
  objs t !! bdp = Some p ->
  objs t' = <[bdp := p']> (objs t) ->
  partitions t' = partitions t ->
  (seqMax p <= seqMax p')%N ->
  (seqMaxBatch p <= seqMaxBatch p')%N ->
  seqMaxBatch p' = seqMaxBatch p \/ seqMaxBatch p' = seqMax p' ->
  evolves t t'.
Proof.
  intros Hp Eo Ep H1 H2 H3. split.
  - intros name b. now rewrite Ep.
  - intros b q Hb. rewrite Eo.
    assert (Hlt : bdp < length (objs t)) by (eapply lookup_lt_Some; eassumption).
    destruct (decide (b = bdp)) as [->|Hne].
    + exists p'. rewrite list_lookup_insert_eq by exact Hlt.
      assert (q = p) by congruence. subst q. auto.
    + exists q. rewrite list_lookup_insert_ne by congruence.
      split_and!; auto; lia.
Qed.

(** Steps compose when the first leaves [seqMaxBatch] alone, or the
    second leaves both sequence numbers alone. *)
Lemma evolves_trans t1 t2 t3 :
  evolves t1 t2 -> evolves t2 t3 ->
  (forall bdp p1 p2, objs t1 !! bdp = Some p1 -> objs t2 !! bdp = Some p2 ->
     seqMaxBatch p2 = seqMaxBatch p1)
  \/ (forall bdp p2 p3, objs t2 !! bdp = Some p2 -> objs t3 !! bdp = Some p3 ->
        seqMaxBatch p3 = seqMaxBatch p2 /\ seqMax p3 = seqMax p2) ->
  evolves t1 t3.
Proof.
  intros [P12 O12] [P23 O23] Hkeep. split; [auto|].
  intros bdp p1 H1.
  destruct (O12 _ _ H1) as (p2 & H2 & A1 & A2 & A3).
  destruct (O23 _ _ H2) as (p3 & H3 & B1 & B2 & B3).
  exists p3. split_and!; auto; try lia.
  destruct Hkeep as [K|K].
  - rewrite <- (K _ _ _ H1 H2). exact B3.
  - destruct (K _ _ _ H2 H3) as [K1 K2]. rewrite K1, K2. exact A3.
Qed.

Lemma evolves_advances t t' : evolves t t' -> advances t t'.
Proof.
  intros [P O]. split; [exact P|]. intros bdp p Hp.
  destruct (O _ _ Hp) as (p' & ? & ? & ? & _). eauto.
Qed.

Lemma advances_refl t : advances t t.
Proof. apply evolves_advances, evolves_refl. Qed.

Lemma advances_trans t1 t2 t3 :
  advances t1 t2 -> advances t2 t3 -> advances t1 t3.
Proof.
  intros [P12 O12] [P23 O23]. split; [auto|].
  intros bdp p1 H1.
  destruct (O12 _ _ H1) as (p2 & H2 & A1 & A2).
  destruct (O23 _ _ H2) as (p3 & H3 & B1 & B2).
  exists p3. split_and!; auto; lia.
Qed.

(** *** Writes through a partition handle *)

Lemma sound_update_obj t bdp f :
  sound t ->
  (forall p, objs t !! bdp = Some p ->
             cwrQueue (f p) = cwrQueue p
             /\ seqMaxBatch (f p) = seqMaxBatch p
             /\ (seqMax p <= seqMax (f p))%N) ->
  sound (update_obj bdp f t).
Proof.
  intros Hs Hf. unfold update_obj.
  destruct (objs t !! bdp) as [p|] eqn:Hp; [|exact Hs].
  destruct (Hf p eq_refl) as (Eq & Eb & Em).
  apply (sound_replace t _ bdp p (f p) [] [] (cwrQueue p)); simpl; auto.
  - now apply sound_fault.
  - now rewrite Eq.
  - rewrite Eq. eapply sound_heap; eassumption.
  - rewrite Eb. pose proof (sound_seq _ Hs _ _ Hp). lia.
  - intros cwr Hin. rewrite Eb. eapply sound_owed; eassumption.
  - intros cwr Hin. inversion Hin.
  - constructor.
Qed.

Lemma evolves_update_obj t bdp f :
  (forall p, objs t !! bdp = Some p ->
             seqMaxBatch (f p) = seqMaxBatch p
             /\ (seqMax p <= seqMax (f p))%N) ->
  evolves t (update_obj bdp f t).
Proof.
  intros Hf. unfold update_obj.
  destruct (objs t !! bdp) as [p|] eqn:Hp; [|apply evolves_refl].
  destruct (Hf p eq_refl) as [Eb Em].
  apply (evolves_insert t _ bdp p (f p)); auto. rewrite Eb. lia.
Qed.

Lemma update_obj_keeps {A} (g : VLitePartition -> A) t bdp f :
  (forall p, g (f p) = g p) ->
  forall b p1 p2, objs t !! b = Some p1 ->
    objs (update_obj bdp f t) !! b = Some p2 ->
    g p2 = g p1.
Proof.
  intros Hf b p1 p2 H1. unfold update_obj.
  destruct (objs t !! bdp) as [p|] eqn:Hp; [|congruence]. simpl.
  assert (Hlt : bdp < length (objs t)) by (eapply lookup_lt_Some; eassumption).
  destruct (decide (b = bdp)) as [->|Hne].
  - rewrite list_lookup_insert_eq by exact Hlt. intros [= <-].
    rewrite Hf. congruence.
  - rewrite list_lookup_insert_ne by congruence. congruence.
Qed.

Lemma update_obj_frame t bdp f :
  store_open (update_obj bdp f t) = store_open t
  /\ file_backed (update_obj bdp f t) = file_backed t
  /\ partitions (update_obj bdp f t) = partitions t
  /\ chans (update_obj bdp f t) = chans t
  /\ fault (update_obj bdp f t) = fault t.
Proof. unfold update_obj. destruct (objs t !! bdp); split_and!; reflexivity. Qed.

(** *** The batch commit *)

Lemma applyBatchUnlocked_flush_error t bdp flush err :
  (if file_backed t then flush else None) = Some err ->
  applyBatchUnlocked t bdp flush = (t, Some err).
Proof. intros E. unfold applyBatchUnlocked. now rewrite E. Qed.

Lemma applyBatchUnlocked_commit t bdp flush p :
  sound t ->
  objs t !! bdp = Some p ->
  (if file_backed t then flush else None) = None ->
  exists released kept,
    let t' := set_objs (<[bdp := set_cwrQueue kept
                                   (set_seqMaxBatch (seqMax p) p)]> (objs t))
                (releaseAll released t) in
    applyBatchUnlocked t bdp flush = (t', None)
    /\ cwrQueue p ≡ₚ released ++ kept
    /\ heapOrdered kept
    /\ (forall cwr, cwr ∈ released -> (ConsistencySeq cwr <= seqMax p)%N)
    /\ (forall cwr, cwr ∈ kept -> (seqMax p < ConsistencySeq cwr)%N)
    /\ sound t'
    /\ sameButChans t (releaseAll released t)
    /\ (forall cwr, cwr ∈ released ->
          chans t' !! DoneCh cwr = Some (mkChan [] true))
    /\ (forall ch, ch ∉ DoneCh <$> released -> chans t' !! ch = chans t !! ch).
Proof.
  intros Hs Hp Hflush. unfold applyBatchUnlocked. rewrite Hflush, Hp.
  cbn [set_seqMaxBatch cwrQueue seqMaxBatch Len].
  destruct (releaseLoop_spec (length (cwrQueue p)) (seqMax p) (cwrQueue p) t)
    as (released & kept & Eloop & Hperm & Hheap & Hrel & Hkept).
  { eapply sound_heap; eassumption. }
  { reflexivity. }
  unfold Len. rewrite Eloop.
  assert (Hnd : NoDup (DoneCh <$> released)).
  { pose proof (sound_queue_NoDup _ _ _ Hs Hp) as Hq.
    rewrite Hperm, fmap_app in Hq. apply NoDup_app in Hq. tauto. }
  destruct (releaseAll_spec released t) as (Hf' & Hsame & Hclosed & Hother).
  { now apply sound_fault. }
  { exact Hnd. }
  { intros cwr Hin. eapply sound_owed; [eassumption..|].
    rewrite Hperm. apply elem_of_app. now left. }
  destruct Hsame as (S1 & S2 & S3 & S4 & S5).
  exists released, kept. cbn zeta. rewrite S4.
  split_and!; auto; [|repeat split; assumption].
  eapply (sound_replace t _ bdp p _ released [] kept); simpl; eauto.
  - intros cwr Hin. inversion Hin.
  - constructor.
  - intros ch Hch Hnot. rewrite Hother by exact Hnot. exact Hch.
Qed.


(** *** Every operation keeps the state sound *)

Local Abbreviation stepOK t t' :=
  (sound t' /\ evolves t t'
   /\ store_open t' = store_open t /\ file_backed t' = file_backed t).

Lemma stepOK_refl t : sound t -> stepOK t t.
Proof. intros Hs. split_and!; auto. apply evolves_refl. Qed.

Lemma stepOK_trans t1 t2 t3 :
  stepOK t1 t2 -> stepOK t2 t3 ->
  (forall bdp p1 p2, objs t1 !! bdp = Some p1 -> objs t2 !! bdp = Some p2 ->
     seqMaxBatch p2 = seqMaxBatch p1)
  \/ (forall bdp p2 p3, objs t2 !! bdp = Some p2 -> objs t3 !! bdp = Some p3 ->
        seqMaxBatch p3 = seqMaxBatch p2 /\ seqMax p3 = seqMax p2) ->
  stepOK t1 t3.
Proof.
  intros (A1 & A2 & A3 & A4) (B1 & B2 & B3 & B4) K.
  split_and!; [assumption| |congruence..].
  eapply evolves_trans; eassumption.
Qed.

Lemma stepOK_update_obj t bdp f :
  sound t ->
  (forall p, objs t !! bdp = Some p ->
             cwrQueue (f p) = cwrQueue p
             /\ seqMaxBatch (f p) = seqMaxBatch p
             /\ (seqMax p <= seqMax (f p))%N) ->
  stepOK t (update_obj bdp f t).
Proof.
  intros Hs Hf. destruct (update_obj_frame t bdp f) as (F1 & F2 & _).
  split_and!; auto.
  - now apply sound_update_obj.
  - apply evolves_update_obj. intros p Hp. destruct (Hf p Hp) as (_ & ? & ?).
    auto.
Qed.

Lemma applyBatchUnlocked_ok t bdp flush :
  sound t -> stepOK t (applyBatchUnlocked t bdp flush).1.
Proof.
  intros Hs.
  destruct (if file_backed t then flush else None) as [err|] eqn:Hflush.
  { rewrite (applyBatchUnlocked_flush_error _ _ _ _ Hflush).
    now apply stepOK_refl. }
  destruct (objs t !! bdp) as [p|] eqn:Hp.
  - destruct (applyBatchUnlocked_commit _ _ _ _ Hs Hp Hflush)
      as (released & kept & E & _ & _ & _ & _ & Hs' & Hsame & _).
    cbn zeta in E. rewrite E. cbn [fst].
    destruct Hsame as (S1 & S2 & S3 & S4 & S5). split_and!; auto.
    eapply (evolves_insert t _ bdp p); simpl; eauto.
    simpl. exact (sound_seq _ Hs _ _ Hp).
  - unfold applyBatchUnlocked. rewrite Hflush, Hp. now apply stepOK_refl.
Qed.

Lemma updateSeqUnlocked_ok t bdp seq flush :
  sound t -> stepOK t (updateSeqUnlocked t bdp seq flush).1.
Proof.
  intros Hs. unfold updateSeqUnlocked.
  destruct (objs t !! bdp) as [p|] eqn:Hp; [|now apply stepOK_refl].
  assert (H1 : stepOK t (if (seqMax p <? seq)%N
                         then update_obj bdp (set_seqMax seq) t else t)
               /\ forall b p1 p2, objs t !! b = Some p1 ->
                    objs (if (seqMax p <? seq)%N
                          then update_obj bdp (set_seqMax seq) t else t) !! b
                      = Some p2 ->
                    seqMaxBatch p2 = seqMaxBatch p1).
  { destruct (N.ltb_spec (seqMax p) seq) as [Hlt|Hge].
    - split.
      + apply stepOK_update_obj; [exact Hs|]. intros p0 Hp0.
        assert (p0 = p) by congruence. subst p0. simpl. split_and!; auto; lia.
      + apply (update_obj_keeps seqMaxBatch). reflexivity.
    - split; [now apply stepOK_refl|]. congruence. }
  destruct H1 as [H1 K].
  destruct (seq <? seqSnapEnd p)%N; [exact H1|].
  eapply stepOK_trans; [exact H1| |left; exact K].
  apply applyBatchUnlocked_ok. apply H1.
Qed.

Lemma SnapshotStart_ok t bdp snapStart snapEnd flush :
  sound t -> stepOK t (SnapshotStart t bdp snapStart snapEnd flush).1.
Proof.
  intros Hs. unfold SnapshotStart.
  pose proof (applyBatchUnlocked_ok t bdp flush Hs) as H1.
  destruct (applyBatchUnlocked t bdp flush) as [t1 [err|]]; [exact H1|].
  cbn [fst] in *.
  eapply stepOK_trans; [exact H1| |right].
  - apply stepOK_update_obj; [apply H1|]. intros p _. simpl.
    split_and!; auto; lia.
  - intros b p2 p3 H2 H3. split.
    + apply (update_obj_keeps seqMaxBatch t1 bdp (set_seqSnapEnd snapEnd)
               (fun _ => eq_refl) _ _ _ H2 H3).
    + apply (update_obj_keeps seqMax t1 bdp (set_seqSnapEnd snapEnd)
               (fun _ => eq_refl) _ _ _ H2 H3).
Qed.

Lemma OpaqueSet_ok t bdp uuid : sound t -> stepOK t (OpaqueSet t bdp uuid).
Proof.
  intros Hs. apply stepOK_update_obj; [exact Hs|]. intros p _. simpl.
  split_and!; auto; lia.
Qed.

Lemma OpaqueGet_ok t bdp opaque seqBuf :
  sound t -> stepOK t (OpaqueGet t bdp opaque seqBuf).1.
Proof.
  intros Hs. unfold OpaqueGet.
  destruct opaque as [uuid|err]; [|now apply stepOK_refl].
  pose proof (OpaqueSet_ok t bdp uuid Hs) as H1. unfold OpaqueSet in H1.
  pose proof (update_obj_keeps seqMaxBatch t bdp (set_lastUUID uuid)
                (fun _ => eq_refl)) as K.
  destruct (objs (update_obj bdp (set_lastUUID uuid) t) !! bdp) as [p|] eqn:Hp;
    [|exact H1].
  destruct (N.leb_spec (seqMax p) 0) as [Hle|Hgt]; [|exact H1].
  destruct seqBuf as [buf|err]; [|exact H1].
  destruct (length buf <=? 0); [exact H1|].
  destruct (negb (length buf =? 8)); [exact H1|].
  cbn [fst]. eapply stepOK_trans; [exact H1| |left; exact K].
  apply stepOK_update_obj; [apply H1|]. intros p0 Hp0.
  assert (p0 = p) by congruence. subst p0. simpl. split_and!; auto; lia.
Qed.

Lemma select_ok pickCancel cancelReady t w t' r :
  sound t ->
  ConsistencyWaitDone_select pickCancel cancelReady t w = Some (t', r) ->
  stepOK t t'.
Proof.
  intros Hs. unfold ConsistencyWaitDone_select.
  destruct (cancelReady && _).
  { intros [= <- _]. now apply stepOK_refl. }
  destruct (chan_ready (w_doneCh w) t); [|discriminate].
  intros E. injection E as E.
  destruct (chan_recv_spec (w_doneCh w) t) as (Hf & Hsame & Hpend).
  rewrite E in Hf, Hsame, Hpend. cbn [fst] in *.
  pose proof Hsame as (S1 & S2 & S3 & S4 & S5).
  split_and!; auto.
  - eapply sound_chans_only; eauto.
    rewrite Hf. now apply sound_fault.
  - now apply evolves_same.
Qed.


(** *** Entering a consistency wait *)

Lemma chan_close_open ch c t :
  fault t = None -> chans t !! ch = Some c -> ch_closed c = false ->
  let t' := chan_close ch t in
  fault t' = None /\ sameButChans t t'
  /\ chans t' = <[ch := mkChan (ch_buf c) true]> (chans t).
Proof.
  intros Hf Hch Hc. unfold chan_close. rewrite Hch, Hc. simpl.
  repeat split; assumption.
Qed.

Lemma enter_prefix t name :
  sound t -> store_open t = true ->
  exists t2 bdp p,
    getPartitionUnlocked (set_chans (chans t ++ [mkChan [] false]) t) name
      = (t2, Ok bdp)
    /\ partitions t2 !! name = Some bdp
    /\ objs t2 !! bdp = Some p
    /\ (partitions t !! name = None ->
        p = mkVLitePartition name 0 0 0 EmptyString [])
    /\ sound t2
    /\ fault t2 = None
    /\ chans t2 = chans t ++ [pendingChan]
    /\ store_open t2 = true /\ file_backed t2 = file_backed t
    /\ (forall b q, objs t !! b = Some q -> objs t2 !! b = Some q)
    /\ (forall n b, partitions t !! n = Some b -> partitions t2 !! n = Some b)
    /\ length (chans t) ∉ DoneCh <$> (objs t2 ≫= cwrQueue).
Proof.
  intros Hs Hopen.
  set (t1 := set_chans (chans t ++ [mkChan [] false]) t).
  assert (Hs1 : sound t1).
  { apply (sound_chans_only t).
    - exact Hs.
    - exact (sound_fault _ Hs).
    - repeat split.
    - intros ch _ Hch. simpl. now apply lookup_app_l_Some. }
  pose proof (getPartitionUnlocked_spec t1 name Hs1) as H. cbn zeta in H.
  destruct H as (Hs2 & Hc & Hf & Ho & Hfb & _ & Hq & Hobjs & Hparts & _ & Hok).
  destruct (Hok Hopen) as (bdp & p & Er & Hp & Hb & Hnew).
  destruct (getPartitionUnlocked t1 name) as [t2 res]. cbn [fst snd] in *.
  subst res. exists t2, bdp, p. split_and!; auto.
  - rewrite Hf. exact (sound_fault _ Hs).
  - rewrite Ho. exact Hopen.
  - rewrite Hq. intros Hin.
    apply list_elem_of_fmap in Hin as (cwr & E & Hin).
    apply (queued_inv t1) in Hin as (b & q & Hbq & Hin).
    destruct (sound_owed _ Hs _ _ _ Hbq Hin) as [_ Hpend].
    apply lookup_lt_Some in Hpend. lia.
Qed.

Lemma enter_at_plus_eq t name partitionUUID consistencySeq :
  ConsistencyWait_enter t name partitionUUID "at_plus" consistencySeq =
  let doneCh := length (chans t) in
  let cwr := mkConsistencyWaitReq partitionUUID "at_plus" consistencySeq
               doneCh in
  match getPartitionUnlocked (set_chans (chans t ++ [mkChan [] false]) t) name
  with
  | (t, Err err) => (t, WaitReturn (Some (errorString err)))
  | (t, Ok bdp) =>
      match objs t !! bdp with
      | Some p =>
          if negb (String.eqb partitionUUID "") &&
             negb (String.eqb partitionUUID (lastUUID p))
          then
            (chan_close doneCh
               (chan_send doneCh
                  (errorString "vlite: pindex_consistency mismatched partition")
                  t),
             WaitOn bdp doneCh)
          else if (seqMaxBatch p <? consistencySeq)%N then
            (update_obj bdp (set_cwrQueue (heap_Push (cwrQueue p) cwr)) t,
             WaitOn bdp doneCh)
          else (chan_close doneCh t, WaitOn bdp doneCh)
      | None => (t, WaitOn bdp doneCh)
      end
  end.
Proof. reflexivity. Qed.

Lemma enter_at_plus t name partitionUUID consistencySeq :
  sound t -> store_open t = true ->
  let doneCh := length (chans t) in
  let cwr := mkConsistencyWaitReq partitionUUID "at_plus" consistencySeq
               doneCh in
  exists t2 bdp p t',
    getPartitionUnlocked (set_chans (chans t ++ [mkChan [] false]) t) name
      = (t2, Ok bdp)
    /\ objs t2 !! bdp = Some p
    /\ (partitions t !! name = None ->
        p = mkVLitePartition name 0 0 0 EmptyString [])
    /\ (forall b q, objs t !! b = Some q -> objs t2 !! b = Some q)
    /\ (forall n b, partitions t !! n = Some b -> partitions t2 !! n = Some b)
    /\ ConsistencyWait_enter t name partitionUUID "at_plus" consistencySeq
       = (t', WaitOn bdp doneCh)
    /\ sound t'
    /\ store_open t' = true /\ file_backed t' = file_backed t
    /\ partitions t' = partitions t2
    /\ partitions t' !! name = Some bdp
    /\ (partitionUUID <> EmptyString -> partitionUUID <> lastUUID p ->
        objs t' = objs t2
        /\ chans t' !! doneCh
           = Some (mkChan [errorString
                     "vlite: pindex_consistency mismatched partition"] true))
    /\ (partitionUUID = EmptyString \/ partitionUUID = lastUUID p ->
        (consistencySeq <= seqMaxBatch p)%N ->
        objs t' = objs t2 /\ chans t' !! doneCh = Some (mkChan [] true))
    /\ (partitionUUID = EmptyString \/ partitionUUID = lastUUID p ->
        (seqMaxBatch p < consistencySeq)%N ->
        objs t'
          = <[bdp := set_cwrQueue (heap_Push (cwrQueue p) cwr) p]> (objs t2)
        /\ chans t' !! doneCh = Some pendingChan).
Proof.
  intros Hs Hopen doneCh cwr.
  destruct (enter_prefix t name Hs Hopen)
    as (t2 & bdp & p & Eget & Hpart & Hobj & Hnew & Hs2 & Hf2 & Hch2 & Ho2
        & Hfb2 & Hobjs & Hparts & Hfresh).
  assert (Hdone : chans t2 !! doneCh = Some pendingChan).
  { rewrite Hch2. unfold doneCh. rewrite lookup_app_r by lia.
    now rewrite Nat.sub_diag. }
  assert (Hlt : doneCh < length (chans t2)) by (eapply lookup_lt_Some; eauto).
  assert (Hblt : bdp < length (objs t2)) by (eapply lookup_lt_Some; eauto).
  set (mismatch := errorString "vlite: pindex_consistency mismatched partition").
  exists t2, bdp, p,
    (if negb (String.eqb partitionUUID "") &&
        negb (String.eqb partitionUUID (lastUUID p))
     then chan_close doneCh (chan_send doneCh mismatch t2)
     else if (seqMaxBatch p <? consistencySeq)%N
          then update_obj bdp (set_cwrQueue (heap_Push (cwrQueue p) cwr)) t2
          else chan_close doneCh t2).
  do 5 (split; [assumption|]).
  split.
  { rewrite enter_at_plus_eq. cbn zeta. rewrite Eget, Hobj.
    destruct (negb _ && negb _); [reflexivity|].
    destruct (_ <? _)%N; reflexivity. }
  assert (Hclose : let t' := chan_close doneCh t2 in
            sound t' /\ sameButChans t2 t'
            /\ chans t' !! doneCh = Some (mkChan [] true)).
  { destruct (chan_close_pending doneCh t2 Hf2 Hdone) as (Hf3 & Hsame & Hch3).
    cbn zeta in *. split_and!; [|exact Hsame|].
    - apply (sound_chans_only t2); auto.
      intros ch Hin Hpend. rewrite Hch3.
      assert (ch <> doneCh) by (intros ->; contradiction).
      now rewrite list_lookup_insert_ne by congruence.
    - rewrite Hch3. now apply list_lookup_insert_eq. }
  assert (Hpush : let t' := update_obj bdp
                    (set_cwrQueue (heap_Push (cwrQueue p) cwr)) t2 in
            (seqMaxBatch p < consistencySeq)%N ->
            sound t'
            /\ t' = set_objs (<[bdp := set_cwrQueue
                                 (heap_Push (cwrQueue p) cwr) p]> (objs t2)) t2).
  { cbn zeta. intros Hseq. unfold update_obj. rewrite Hobj.
    split; [|reflexivity].
    apply (sound_replace t2 _ bdp p
             (set_cwrQueue (heap_Push (cwrQueue p) cwr) p)
             [] [cwr] (cwrQueue p)); simpl; auto.
    - apply heap_Push_perm.
    - apply heap_Push_ordered. exact (sound_heap _ Hs2 _ _ Hobj).
    - exact (sound_seq _ Hs2 _ _ Hobj).
    - intros c Hc. exact (proj1 (sound_owed _ Hs2 _ _ _ Hobj Hc)).
    - intros c Hc. apply list_elem_of_singleton in Hc. subst c. simpl.
      split_and!; auto.
    - apply NoDup_singleton. }
  assert (Hfail : let t' := chan_close doneCh (chan_send doneCh mismatch t2) in
            sound t' /\ sameButChans t2 t'
            /\ chans t' !! doneCh = Some (mkChan [mismatch] true)).
  { destruct (chan_send_pending doneCh mismatch t2 Hf2 Hdone)
      as (Hf3 & Hsame3 & Hch3).
    cbn zeta in *.
    destruct (chan_close_open doneCh (mkChan [mismatch] false)
                (chan_send doneCh mismatch t2) Hf3) as (Hf4 & Hsame4 & Hch4).
    { rewrite Hch3. now apply list_lookup_insert_eq. }
    { reflexivity. }
    cbn zeta in *.
    pose proof (sameButChans_trans _ _ _ Hsame3 Hsame4) as Hsame.
    split_and!; [|exact Hsame|].
    - apply (sound_chans_only t2); auto.
      intros ch Hin Hpend. rewrite Hch4, Hch3.
      assert (ch <> doneCh) by (intros ->; contradiction).
      now rewrite !list_lookup_insert_ne by congruence.
    - rewrite Hch4. simpl.
      apply list_lookup_insert_eq. rewrite Hch3, length_insert. exact Hlt. }
  cbn zeta in Hclose, Hpush, Hfail.
  destruct Hclose as (C1 & (C2 & C3 & C4 & C5 & C6) & C7).
  destruct Hfail as (F1 & (F2 & F3 & F4 & F5 & F6) & F7).
  destruct (String.eqb_spec partitionUUID "") as [Eu|Nu];
    [|destruct (String.eqb_spec partitionUUID (lastUUID p)) as [Eu|Nl]];
    cbn [negb andb].
  3:{ split_and!; auto; try congruence; intros [?|?]; contradiction. }
  all: destruct (N.ltb_spec (seqMaxBatch p) consistencySeq) as [Hseq|Hseq].
  all: try (destruct (Hpush Hseq) as [P1 P2]; rewrite P2 in *; cbn).
  all: split_and!; auto; try congruence; intros; try lia; try contradiction;
    split; auto.
Qed.


Lemma evolves_kept t t' :
  (forall n b, partitions t !! n = Some b -> partitions t' !! n = Some b) ->
  (forall b q, objs t !! b = Some q -> objs t' !! b = Some q) ->
  evolves t t'.
Proof.
  intros P O. split; [exact P|]. intros b q Hq. exists q.
  split_and!; auto; lia.
Qed.

Lemma enter_ok t name partitionUUID consistencyLevel consistencySeq :
  sound t ->
  stepOK t (ConsistencyWait_enter t name partitionUUID consistencyLevel
              consistencySeq).1.
Proof.
  intros Hs.
  destruct (String.eqb_spec consistencyLevel "") as [->|Hne].
  { now apply stepOK_refl. }
  destruct (String.eqb_spec consistencyLevel "at_plus") as [->|Hne2].
  2:{ unfold ConsistencyWait_enter.
      rewrite (proj2 (String.eqb_neq _ _) Hne), (proj2 (String.eqb_neq _ _) Hne2).
      now apply stepOK_refl. }
  destruct (store_open t) eqn:Hopen.
  - destruct (enter_at_plus t name partitionUUID consistencySeq Hs Hopen)
      as (t2 & bdp & p & t' & Eget & Hobj & _ & Hobjs & Hparts & E & Hs' & Ho'
          & Hfb' & Hp' & _ & Hmis & Hnow & Hlater).
    cbn zeta in *. rewrite E. cbn [fst]. split_and!; auto.
    assert (E2 : evolves t t2) by now apply evolves_kept.
    eapply evolves_trans; [exact E2| |left].
    2:{ intros b p1 p2 H1 H2. apply Hobjs in H1. congruence. }
    assert (Hcase : (partitionUUID <> EmptyString
                     /\ partitionUUID <> lastUUID p)
                    \/ (partitionUUID = EmptyString
                        \/ partitionUUID = lastUUID p)).
    { destruct (String.eqb_spec partitionUUID "");
        destruct (String.eqb_spec partitionUUID (lastUUID p)); auto. }
    destruct Hcase as [[N1 N2]|Hsame].
    { destruct (Hmis N1 N2) as [Eo _]. now apply evolves_same. }
    destruct (N.le_gt_cases consistencySeq (seqMaxBatch p)) as [Hle|Hgt].
    { destruct (Hnow Hsame Hle) as [Eo _]. now apply evolves_same. }
    destruct (Hlater Hsame Hgt) as [Eo _].
    apply (evolves_insert t2 t' bdp p _ Hobj Eo Hp'); simpl; auto; lia.
  - assert (Hs1 : sound (set_chans (chans t ++ [mkChan [] false]) t)).
    { apply (sound_chans_only t).
      - exact Hs.
      - exact (sound_fault _ Hs).
      - repeat split.
      - intros ch _ Hch. simpl. now apply lookup_app_l_Some. }
    destruct (getPartitionUnlocked_spec _ name Hs1)
      as (_ & _ & _ & _ & _ & _ & _ & _ & _ & Hclosed & _).
    destruct (Hclosed Hopen) as [err E].
    rewrite enter_at_plus_eq. cbn zeta. rewrite E. cbn [fst].
    split_and!; auto. now apply evolves_same.
Qed.

Lemma step_ok t op : sound t -> stepOK t (step t op).
Proof.
  intros Hs. destruct op; cbn [step].
  - unfold Dest.
    destruct (getPartitionUnlocked_spec t name Hs)
      as (Hs' & _ & _ & Ho & Hfb & _ & _ & Hobjs & Hparts & _).
    split_and!; auto. now apply evolves_kept.
  - unfold DataUpdate. destruct early; [now apply stepOK_refl|].
    now apply updateSeqUnlocked_ok.
  - now apply updateSeqUnlocked_ok.
  - now apply SnapshotStart_ok.
  - now apply OpaqueGet_ok.
  - now apply OpaqueSet_ok.
  - now apply enter_ok.
  - destruct (ConsistencyWaitDone_select pickCancel cancelReady t w)
      as [[t' r]|] eqn:E; [|now apply stepOK_refl].
    eapply select_ok; eassumption.
Qed.


Lemma run_ok ops : forall t,
  sound t ->
  sound (run t ops) /\ advances t (run t ops)
  /\ store_open (run t ops) = store_open t
  /\ file_backed (run t ops) = file_backed t.
Proof.
  induction ops as [|op ops IH]; intros t Hs.
  - split_and!; auto. apply advances_refl.
  - destruct (step_ok t op Hs) as (Hs1 & He & Ho & Hf).
    destruct (IH (step t op) Hs1) as (Hs2 & Ha & Ho2 & Hf2).
    change (run t (op :: ops)) with (run (step t op) ops).
    split_and!; auto; try congruence.
    eapply advances_trans; [apply evolves_advances; exact He|exact Ha].
Qed.

Lemma run_NewVLite fb ops :
  let t := run (NewVLite fb) ops in
  sound t /\ store_open t = true /\ file_backed t = fb.
Proof.
  destruct (run_ok ops (NewVLite fb) (sound_NewVLite fb)) as (Hs & _ & Ho & Hf).
  cbn zeta. split_and!; auto.
Qed.

End SoundSteps.

(** ** The consistency waiter: the claims *)

Section WaiterClaims.
Implicit Types t : VLite.





(** *** ConsistencyWait *)

Lemma getPartitionUnlocked_set_chans c t name :
  getPartitionUnlocked (set_chans c t) name
  = (set_chans c (getPartitionUnlocked t name).1,
     (getPartitionUnlocked t name).2).
Proof.
  unfold getPartitionUnlocked. cbn [store_open partitions objs set_chans].
  destruct (store_open t); [|reflexivity]. cbn [negb].
  destruct (partitions t !! name); reflexivity.
Qed.

Lemma partitionAt_set_chans c t name :
  partitionAt (set_chans c t) name = partitionAt t name.
Proof.
  unfold partitionAt. rewrite getPartitionUnlocked_set_chans.
  destruct (getPartitionUnlocked t name) as [t' [bdp|err]]; reflexivity.
Qed.

(** The [select] on a done-channel that holds an error. *)
Lemma select_error pickCancel cancelReady t w e closed :
  chans t !! w_doneCh w = Some (mkChan [e] closed) ->
  exists t' err,
    ConsistencyWaitDone_select pickCancel cancelReady t w
      = Some (t', Some err)
    /\ (cancelReady = false -> err = e).
Proof.
  intros Hch. unfold ConsistencyWaitDone_select, chan_ready, chan_recv.
  rewrite Hch. cbn [ch_buf ch_closed length Nat.ltb Nat.leb orb negb].
  destruct cancelReady, pickCancel; cbn [andb orb]; eauto.
  all: eexists _, _; split; [reflexivity|]; auto; discriminate.
Qed.

(** The [select] on a done-channel that was closed, empty. *)
Lemma select_closed pickCancel t w :
  chans t !! w_doneCh w = Some (mkChan [] true) ->
  ConsistencyWaitDone_select pickCancel false t w = Some (t, None).
Proof.
  intros Hch. unfold ConsistencyWaitDone_select, chan_ready, chan_recv.
  rewrite Hch. reflexivity.
Qed.

(** The [select] on a pending done-channel. *)
Lemma select_pending pickCancel cancelReady t w :
  chans t !! w_doneCh w = Some pendingChan ->
  ConsistencyWaitDone_select pickCancel cancelReady t w
  = if cancelReady
    then Some (t, Some (cancelledError w (currSeq t (w_bdp w))))
    else None.
Proof.
  intros Hch. unfold ConsistencyWaitDone_select, chan_ready.
  rewrite Hch. destruct cancelReady; reflexivity.
Qed.

End WaiterClaims.

(** ** Closing a VLite *)

Section CloseProofs.
Implicit Types t : VLite.

Lemma chan_send_close_pending ch e t :
  fault t = None -> chans t !! ch = Some pendingChan ->
  let t' := chan_close ch (chan_send ch e t) in
  fault t' = None /\ sameButChans t t'
  /\ chans t' = <[ch := mkChan [e] true]> (chans t).
Proof.
  intros Hf Hch.
  destruct (chan_send_pending ch e t Hf Hch) as (Hf1 & Hs1 & Hc1).
  assert (Hlt : ch < length (chans t)) by (eapply lookup_lt_Some; eauto).
  destruct (chan_close_open ch (mkChan [e] false) (chan_send ch e t) Hf1)
    as (Hf2 & Hs2 & Hc2).
  { cbn zeta in Hc1. rewrite Hc1. now apply list_lookup_insert_eq. }
  { reflexivity. }
  cbn zeta in *. split; [exact Hf2|].
  split; [eapply sameButChans_trans; eassumption|].
  rewrite Hc2, Hc1. apply list_insert_insert_eq.
Qed.

Lemma drainQueue_spec q :
  forall t,
    fault t = None ->
    NoDup (DoneCh <$> q) ->
    (forall cwr, cwr ∈ q -> chans t !! DoneCh cwr = Some pendingChan) ->
    let t' := drainQueue q t in
    fault t' = None /\ sameButChans t t'
    /\ (forall cwr, cwr ∈ q ->
          chans t' !! DoneCh cwr = Some (mkChan [closeError] true))
    /\ (forall ch, ch ∉ DoneCh <$> q -> chans t' !! ch = chans t !! ch).
Proof.
  induction q as [|c q IH]; intros t Hf Hnd Hp; simpl.
  - split; [exact Hf|]. split; [apply sameButChans_refl|].
    split; [intros cwr Hin; inversion Hin|reflexivity].
  - rewrite fmap_cons in Hnd. apply NoDup_cons in Hnd as [Hnot Hnd].
    destruct (chan_send_close_pending (DoneCh c) closeError t Hf
                (Hp c ltac:(left))) as (Hf1 & Hs1 & Hc1).
    assert (Hlt : DoneCh c < length (chans t)).
    { eapply lookup_lt_Some. apply (Hp c). left. }
    cbn zeta in *.
    destruct (IH (chan_close (DoneCh c) (chan_send (DoneCh c) closeError t))
                Hf1 Hnd) as (Hf2 & Hs2 & Hc2 & Ho2).
    { intros cwr Hin. rewrite Hc1.
      rewrite list_lookup_insert_ne.
      - apply Hp. now right.
      - intros E. apply Hnot. rewrite E. apply list_elem_of_fmap. eauto. }
    split; [exact Hf2|]. split; [eapply sameButChans_trans; eassumption|].
    split.
    + intros cwr Hin. apply elem_of_cons in Hin as [->|Hin]; [|auto].
      unfold drainQueue in Ho2. simpl in *. rewrite Ho2 by exact Hnot.
      rewrite Hc1. now apply list_lookup_insert_eq.
    + intros ch Hch. rewrite ?fmap_cons in Hch.
      apply not_elem_of_cons in Hch as [Hne Hch].
      unfold drainQueue in Ho2. simpl in *. rewrite Ho2 by exact Hch.
      rewrite Hc1. now apply list_lookup_insert_ne.
Qed.

Lemma queues_disjoint (os : list VLitePartition) b1 b2 p1 p2 c1 c2 :
  NoDup (DoneCh <$> (os ≫= cwrQueue)) -> b1 <> b2 ->
  os !! b1 = Some p1 -> os !! b2 = Some p2 ->
  c1 ∈ cwrQueue p1 -> c2 ∈ cwrQueue p2 -> DoneCh c1 <> DoneCh c2.
Proof.
  intros Hnd Hne H1 H2 Hc1 Hc2 E.
  destruct (objs_queue_split os b1 p1 H1) as (rest & Hall & _ & Hrest).
  rewrite Hall, fmap_app in Hnd. apply NoDup_app in Hnd as (_ & Hdisj & _).
  apply (Hdisj (DoneCh c1)).
  - apply list_elem_of_fmap. eauto.
  - rewrite E. apply list_elem_of_fmap. exists c2. split; [reflexivity|].
    eapply Hrest; [|exact H2|exact Hc2]. congruence.
Qed.

Lemma closeDrain_spec order :
  forall t,
    fault t = None -> NoDup order ->
    NoDup (DoneCh <$> (objs t ≫= cwrQueue)) ->
    (forall bdp p cwr, bdp ∈ order -> objs t !! bdp = Some p ->
       cwr ∈ cwrQueue p -> chans t !! DoneCh cwr = Some pendingChan) ->
    let t' := closeDrain order t in
    fault t' = None /\ sameButChans t t'
    /\ (forall bdp p cwr, bdp ∈ order -> objs t !! bdp = Some p ->
          cwr ∈ cwrQueue p ->
          chans t' !! DoneCh cwr = Some (mkChan [closeError] true))
    /\ (forall ch,
          (forall bdp p cwr, bdp ∈ order -> objs t !! bdp = Some p ->
             cwr ∈ cwrQueue p -> DoneCh cwr <> ch) ->
          chans t' !! ch = chans t !! ch).
Proof.
  induction order as [|b order IH]; intros t Hf Hnd Hq Hp.
  - cbn. split; [exact Hf|]. split; [apply sameButChans_refl|].
    split; [|reflexivity]. intros bdp p cwr Hin. inversion Hin.
  - apply NoDup_cons in Hnd as [Hnot Hnd].
    change (closeDrain (b :: order) t)
      with (closeDrain order
              match objs t !! b with
              | Some p => drainQueue (cwrQueue p) t
              | None => t
              end).
    destruct (objs t !! b) as [p|] eqn:Hb.
    + destruct (drainQueue_spec (cwrQueue p) t Hf) as (Hf1 & Hs1 & Hc1 & Ho1).
      { destruct (objs_queue_split _ _ _ Hb) as (rest & Hall & _).
        rewrite Hall, fmap_app in Hq. apply NoDup_app in Hq. tauto. }
      { intros cwr Hin. apply (Hp b p cwr); [left|exact Hb|exact Hin]. }
      cbn zeta in *. set (t1 := drainQueue (cwrQueue p) t) in *.
      pose proof Hs1 as (_ & _ & _ & Eo & _).
      assert (Hfar : forall bdp2 p2 cwr2, bdp2 ∈ order ->
                objs t !! bdp2 = Some p2 -> cwr2 ∈ cwrQueue p2 ->
                DoneCh cwr2 ∉ DoneCh <$> cwrQueue p).
      { intros bdp2 p2 cwr2 Hin2 Hb2 Hc2 Hin.
        apply list_elem_of_fmap in Hin as (c & E & Hc).
        assert (bdp2 <> b) by (intros ->; contradiction).
        exact (queues_disjoint _ _ _ _ _ _ _ Hq H Hb2 Hb Hc2 Hc E). }
      destruct (IH t1 Hf1 Hnd) as (Hf2 & Hs2 & Hc2 & Ho2).
      { now rewrite Eo. }
      { intros bdp2 p2 cwr2 Hin2 Hb2 Hcw. rewrite Eo in Hb2.
        rewrite Ho1 by (eapply Hfar; eassumption).
        apply (Hp bdp2 p2 cwr2); [now right|exact Hb2|exact Hcw]. }
      split; [exact Hf2|]. split; [eapply sameButChans_trans; eassumption|].
      split.
      * intros bdp p0 cwr Hin Hb0 Hcw.
        apply elem_of_cons in Hin as [->|Hin].
        -- assert (p0 = p) by congruence. subst p0.
           rewrite Ho2; [now apply Hc1|].
           intros bdp2 p2 cwr2 Hin2 Hb2 Hc2' E. rewrite Eo in Hb2.
           apply (Hfar bdp2 p2 cwr2 Hin2 Hb2 Hc2'). rewrite E.
           apply list_elem_of_fmap. eauto.
        -- apply (Hc2 bdp p0 cwr Hin); [now rewrite Eo|exact Hcw].
      * intros ch Hch. rewrite Ho2.
        -- apply Ho1. intros Hin.
           apply list_elem_of_fmap in Hin as (c & E & Hc).
           apply (Hch b p c); [left|exact Hb|exact Hc|congruence].
        -- intros bdp2 p2 cwr2 Hin2 Hb2 Hc2'. rewrite Eo in Hb2.
           apply (Hch bdp2 p2 cwr2); [now right|exact Hb2|exact Hc2'].
    + destruct (IH t Hf Hnd Hq) as (Hf2 & Hs2 & Hc2 & Ho2).
      { intros bdp2 p2 cwr2 Hin2. apply Hp. now right. }
      split; [exact Hf2|]. split; [exact Hs2|]. split.
      * intros bdp p0 cwr Hin Hb0 Hcw.
        apply elem_of_cons in Hin as [->|Hin]; [congruence|].
        now apply (Hc2 bdp p0 cwr).
      * intros ch Hch. apply Ho2. intros bdp2 p2 cwr2 Hin2.
        apply Hch. now right.
Qed.

(** The partition objects of a sound VLite, in the order of a range over
    its partitions map: no object comes twice. *)
Lemma range_partitions_NoDup t :
  sound t -> NoDup ((map_to_list (partitions t)).*2).
Proof.
  intros Hs. apply NoDup_fmap_2_strong; [|apply NoDup_map_to_list].
  intros [n1 b1] [n2 b2] H1 H2 E. simpl in E. subst b2.
  apply elem_of_map_to_list in H1, H2.
  now rewrite (sound_inj _ Hs _ _ _ H1 H2).
Qed.


(** C7. A consistency wait entered on a live VLite that is still pending
    (nothing can be received from its done-channel) when its cancel
    channel becomes ready returns an [ErrorConsistencyWait] of status
    ["cancelled"], whose [StartEndSeqs] has for the partition the
    [seqMaxBatch] read when the wait started and the one read at the
    cancellation.  And closing the VLite hands its partitions to a
    goroutine that, whatever the order of its range, sends an error on
    the done-channel of every request still in a queue and closes it, so
    that the waiter of the request returns an error. *)
Theorem C7_cancel_and_close (fb : bool) (ops : list Op) :
  let t := run (NewVLite fb) ops in
  (forall name partitionUUID seq t1 bdp doneCh ops' pickCancel,
     ConsistencyWait_enter t name partitionUUID "at_plus" seq
       = (t1, WaitOn bdp doneCh) ->
     let w := ConsistencyWaitDone_start t1 name bdp doneCh in
     let t2 := run t1 ops' in
     chan_ready doneCh t2 = false ->
     exists p1 p2,
       objs t1 !! bdp = Some p1 /\ objs t2 !! bdp = Some p2
       /\ ConsistencyWaitDone_select pickCancel true t2 w
          = Some (t2,
                  Some (ErrorConsistencyWait
                          "pindex_consistency: ConsistencyWaitDone cancelled"
                          "cancelled"
                          (<[name := [seqMaxBatch p1; seqMaxBatch p2]]> ∅))))
  /\ (exists t1,
        closeUnlocked t = (t1, Some (partitions t))
        /\ store_open t1 = false
        /\ forall order,
             order ≡ₚ (map_to_list (partitions t)).*2 ->
             let t2 := closeDrain order t1 in
             fault t2 = None
             /\ forall name bdp p cwr,
                  partitions t !! name = Some bdp ->
                  objs t !! bdp = Some p -> cwr ∈ cwrQueue p ->
                  chans t2 !! DoneCh cwr = Some (mkChan [closeError] true)
                  /\ forall pickCancel cancelReady w,
                       w_doneCh w = DoneCh cwr ->
                       exists t3 err,
                         ConsistencyWaitDone_select pickCancel cancelReady t2 w
                         = Some (t3, Some err)
                         /\ (cancelReady = false -> err = closeError)).
Proof.
  intros t. destruct (run_NewVLite fb ops) as (Hs & Hopen & Hfb).
  fold t in Hs, Hopen, Hfb. split.
  - intros name partitionUUID seq t1 bdp doneCh ops' pickCancel E w t2 Hpend.
    destruct (enter_at_plus t name partitionUUID seq Hs Hopen)
      as (t0 & bdp' & p & t' & _ & _ & _ & _ & _ & E' & Hs' & _ & _ & _
          & Hn & _).
    cbn zeta in E'. rewrite E in E'. injection E' as <- <- _.
    destruct (lookup_lt_is_Some_2 (objs t1) bdp) as [p1 Hp1].
    { eapply sound_partitions; eassumption. }
    destruct (run_ok ops' t1 Hs') as (_ & [_ Hadv] & _).
    destruct (Hadv _ _ Hp1) as (p2 & Hp2 & _).
    exists p1, p2. split; [exact Hp1|]. split; [exact Hp2|].
    unfold ConsistencyWaitDone_select. cbn [w w_doneCh ConsistencyWaitDone_start].
    rewrite Hpend. cbn [negb andb orb].
    unfold cancelledError. subst w t2.
    cbn [ConsistencyWaitDone_start w_partition w_seqStart w_bdp].
    unfold currSeq. now rewrite Hp1, Hp2.
  - exists (mkVLite false (file_backed t) ∅ (objs t) (chans t) (restarts t)
              (fault t)).
    split; [unfold closeUnlocked; now rewrite Hopen|].
    split; [reflexivity|].
    intros order Hperm.
    destruct (closeDrain_spec order
                (mkVLite false (file_backed t) ∅ (objs t) (chans t)
                   (restarts t) (fault t)))
      as (Hf2 & Hs2 & Hc2 & _).
    { exact (sound_fault _ Hs). }
    { rewrite Hperm. now apply range_partitions_NoDup. }
    { exact (sound_chans _ Hs). }
    { intros bdp p cwr _ Hb Hc. exact (proj2 (sound_owed _ Hs _ _ _ Hb Hc)). }
    cbn zeta in *. split; [exact Hf2|].
    intros name bdp p cwr Hn Hb Hc.
    assert (Hch : chans (closeDrain order
                    (mkVLite false (file_backed t) ∅ (objs t) (chans t)
                       (restarts t) (fault t))) !! DoneCh cwr
                  = Some (mkChan [closeError] true)).
    { apply (Hc2 bdp p cwr); [|exact Hb|exact Hc].
      rewrite Hperm. apply list_elem_of_fmap. exists (name, bdp).
      split; [reflexivity|]. now apply elem_of_map_to_list. }
    split; [exact Hch|].
    intros pickCancel cancelReady w Hw. rewrite <- Hw in Hch.
    exact (select_error pickCancel cancelReady _ w _ _ Hch).
Qed.


(** The sample run: the wait for seq 50 starts when nothing is committed
    and is cancelled after the commit of seq 20; and closing the VLite
    after [sampleOps] sends the error to the reader waiting for seq 7. *)
Lemma C7_cancel_and_close_witness :
  (exists p1 p2,
     objs sampleWaiting !! 0 = Some p1
     /\ objs (run sampleWaiting sampleOpsMore) !! 0 = Some p2
     /\ ConsistencyWaitDone_select true true (run sampleWaiting sampleOpsMore)
          (ConsistencyWaitDone_start sampleWaiting "0" 0 1)
        = Some (run sampleWaiting sampleOpsMore,
                Some (ErrorConsistencyWait
                        "pindex_consistency: ConsistencyWaitDone cancelled"
                        "cancelled"
                        (<["0"%string := [seqMaxBatch p1; seqMaxBatch p2]]> ∅))))
  /\ exists t1,
       closeUnlocked sampleVLite = (t1, Some (partitions sampleVLite))
       /\ fault (closeDrain [0] t1) = None
       /\ chans (closeDrain [0] t1) !! DoneCh sampleCwr
          = Some (mkChan [closeError] true).
Proof.
  split.
  - apply (proj1 (C7_cancel_and_close false sampleOps) "0"%string
             EmptyString 50%N sampleWaiting 0 1 sampleOpsMore true).
    + reflexivity.
    + reflexivity.
  - destruct (proj2 (C7_cancel_and_close false sampleOps))
      as (t1 & E & _ & H).
    exists t1. split; [exact E|].
    destruct (H [0]) as [Hf Hq].
    { reflexivity. }
    split; [exact Hf|].
    apply (Hq "0"%string 0 samplePartition sampleCwr).
    + reflexivity.
    + reflexivity.
    + simpl. left.
Defined.

End CloseProofs.

(** ** The consistency waiter: what happens to a wait *)

Section WaitProofs.
Implicit Types t : VLite.

Lemma chan_close_other ch' ch t :
  ch <> ch' -> chans (chan_close ch' t) !! ch = chans t !! ch.
Proof.
  intros Hne. unfold chan_close.
  destruct (chans t !! ch') as [c|]; [destruct (ch_closed c)|];
    simpl; try reflexivity.
  now rewrite list_lookup_insert_ne by congruence.
Qed.

Lemma chan_send_other ch' e ch t :
  ch <> ch' -> chans (chan_send ch' e t) !! ch = chans t !! ch.
Proof.
  intros Hne. unfold chan_send.
  destruct (chans t !! ch') as [c|];
    [destruct (ch_closed c); [|destruct (1 <=? length (ch_buf c))]|];
    simpl; try reflexivity.
  now rewrite list_lookup_insert_ne by congruence.
Qed.

Lemma chan_recv_other ch' ch t :
  ch <> ch' -> chans (chan_recv ch' t).1 !! ch = chans t !! ch.
Proof.
  intros Hne. unfold chan_recv.
  destruct (chans t !! ch') as [c|]; [destruct (ch_buf c)|];
    simpl; try reflexivity.
  now rewrite list_lookup_insert_ne by congruence.
Qed.

Lemma getPartitionUnlocked_chans t name :
  chans (getPartitionUnlocked t name).1 = chans t.
Proof.
  unfold getPartitionUnlocked. destruct (negb (store_open t)); [reflexivity|].
  destruct (partitions t !! name); reflexivity.
Qed.

Lemma update_obj_chans t bdp f : chans (update_obj bdp f t) = chans t.
Proof. unfold update_obj. destruct (objs t !! bdp); reflexivity. Qed.

Lemma update_obj_lookup t bdp f b p :
  objs t !! b = Some p ->
  exists p', objs (update_obj bdp f t) !! b = Some p' /\ (p' = p \/ p' = f p).
Proof.
  intros Hp. unfold update_obj.
  destruct (objs t !! bdp) as [p0|] eqn:Hp0; [|eauto]. simpl.
  assert (Hlt : bdp < length (objs t)) by (eapply lookup_lt_Some; eassumption).
  destruct (decide (b = bdp)) as [->|Hne].
  - rewrite list_lookup_insert_eq by exact Hlt.
    assert (p0 = p) by congruence. subst p0. eauto.
  - rewrite list_lookup_insert_ne by congruence. eauto.
Qed.

(** What an operation that is no [select] does to the waits: [closed]
    channels stay as they are, and a queued request stays queued unless
    its channel is closed, empty, with its seq committed. *)
Local Abbreviation keepsWaits t t' :=
  ((forall ch c, chans t !! ch = Some c -> ch_closed c = true ->
                 chans t' !! ch = Some c)
   /\ (forall bdp p cwr, objs t !! bdp = Some p -> cwr ∈ cwrQueue p ->
         exists p', objs t' !! bdp = Some p'
           /\ (cwr ∈ cwrQueue p'
               \/ (chans t' !! DoneCh cwr = Some (mkChan [] true)
                   /\ (ConsistencySeq cwr <= seqMaxBatch p')%N)))).

Lemma keepsWaits_refl t : keepsWaits t t.
Proof. split; eauto. Qed.

Lemma keepsWaits_trans t1 t2 t3 :
  keepsWaits t1 t2 -> keepsWaits t2 t3 -> evolves t2 t3 -> keepsWaits t1 t3.
Proof.
  intros [C12 Q12] [C23 Q23] [_ O23]. split; [eauto|].
  intros bdp p cwr Hp Hin.
  destruct (Q12 _ _ _ Hp Hin) as (p2 & Hp2 & [Hin2|[Hc Hle]]).
  - eauto.
  - destruct (O23 _ _ Hp2) as (p3 & Hp3 & _ & Hle3 & _).
    exists p3. split; [exact Hp3|]. right. split; [|lia].
    now apply (C23 _ _ Hc).
Qed.

Lemma keepsWaits_update_obj t bdp f :
  (forall p, cwrQueue (f p) = cwrQueue p) ->
  keepsWaits t (update_obj bdp f t).
Proof.
  intros Hf. split.
  - intros ch c Hc _. now rewrite update_obj_chans.
  - intros b p cwr Hp Hin.
    destruct (update_obj_lookup t bdp f b p Hp) as (p' & Hp' & [->| ->]);
      eexists; (split; [exact Hp'|]); left; [exact Hin|now rewrite Hf].
Qed.

Lemma keepsWaits_applyBatchUnlocked t bdp flush :
  sound t -> keepsWaits t (applyBatchUnlocked t bdp flush).1.
Proof.
  intros Hs.
  destruct (if file_backed t then flush else None) as [err|] eqn:Hflush.
  { rewrite (applyBatchUnlocked_flush_error _ _ _ _ Hflush).
    apply keepsWaits_refl. }
  destruct (objs t !! bdp) as [p|] eqn:Hp.
  2:{ unfold applyBatchUnlocked. rewrite Hflush, Hp. apply keepsWaits_refl. }
  destruct (applyBatchUnlocked_commit _ _ _ _ Hs Hp Hflush)
    as (released & kept & E & Hperm & _ & Hrel & Hkept & Hs' & Hsame
        & Hclosed & Hother).
  cbn zeta in *. rewrite E. cbn [fst].
  assert (Hlt : bdp < length (objs t)) by (eapply lookup_lt_Some; eauto).
  split.
  - intros ch c Hc Hcl. rewrite Hother; [exact Hc|].
    intros Hin. apply list_elem_of_fmap in Hin as (cwr & -> & Hin).
    assert (Hq : cwr ∈ cwrQueue p).
    { rewrite Hperm. apply elem_of_app. now left. }
    destruct (sound_owed _ Hs _ _ _ Hp Hq) as [_ Hpend].
    rewrite Hpend in Hc. injection Hc as <-. discriminate Hcl.
  - intros b q cwr Hq Hin. cbn [objs set_objs].
    destruct (decide (b = bdp)) as [->|Hne].
    + rewrite list_lookup_insert_eq by exact Hlt.
      assert (q = p) by congruence. subst q.
      eexists. split; [reflexivity|]. cbn [cwrQueue set_cwrQueue seqMaxBatch
                                            set_seqMaxBatch].
      rewrite Hperm in Hin. apply elem_of_app in Hin as [Hin|Hin].
      * right. split; [now apply Hclosed|now apply Hrel].
      * now left.
    + rewrite list_lookup_insert_ne by congruence. eauto.
Qed.

Lemma keepsWaits_updateSeqUnlocked t bdp seq flush :
  sound t -> keepsWaits t (updateSeqUnlocked t bdp seq flush).1.
Proof.
  intros Hs. unfold updateSeqUnlocked.
  destruct (objs t !! bdp) as [p|] eqn:Hp; [|apply keepsWaits_refl].
  assert (H1 : sound (if (seqMax p <? seq)%N
                      then update_obj bdp (set_seqMax seq) t else t)
               /\ keepsWaits t (if (seqMax p <? seq)%N
                                then update_obj bdp (set_seqMax seq) t else t)).
  { destruct (N.ltb_spec (seqMax p) seq) as [Hlt|Hge].
    - split; [|now apply keepsWaits_update_obj].
      apply sound_update_obj; [exact Hs|]. intros p0 Hp0.
      assert (p0 = p) by congruence. subst p0. simpl. split_and!; auto; lia.
    - split; [exact Hs|apply keepsWaits_refl]. }
  destruct H1 as [Hs1 K1].
  destruct (seq <? seqSnapEnd p)%N; [exact K1|].
  eapply keepsWaits_trans; [exact K1| |].
  - now apply keepsWaits_applyBatchUnlocked.
  - now apply applyBatchUnlocked_ok.
Qed.

Lemma keepsWaits_SnapshotStart t bdp snapStart snapEnd flush :
  sound t -> keepsWaits t (SnapshotStart t bdp snapStart snapEnd flush).1.
Proof.
  intros Hs. unfold SnapshotStart.
  pose proof (keepsWaits_applyBatchUnlocked t bdp flush Hs) as K1.
  pose proof (applyBatchUnlocked_ok t bdp flush Hs) as (Hs1 & _).
  destruct (applyBatchUnlocked t bdp flush) as [t1 [err|]]; [exact K1|].
  cbn [fst] in *.
  eapply keepsWaits_trans; [exact K1| |].
  - now apply keepsWaits_update_obj.
  - apply stepOK_update_obj; [exact Hs1|]. intros p _. simpl.
    split_and!; auto; lia.
Qed.

Lemma keepsWaits_OpaqueGet t bdp opaque seqBuf :
  sound t -> keepsWaits t (OpaqueGet t bdp opaque seqBuf).1.
Proof.
  intros Hs. unfold OpaqueGet.
  destruct opaque as [uuid|err]; [|apply keepsWaits_refl].
  pose proof (OpaqueSet_ok t bdp uuid Hs) as (Hs1 & _). unfold OpaqueSet in Hs1.
  assert (K1 : keepsWaits t (update_obj bdp (set_lastUUID uuid) t))
    by now apply keepsWaits_update_obj.
  destruct (objs (update_obj bdp (set_lastUUID uuid) t) !! bdp) as [p|] eqn:Hp;
    [|exact K1].
  destruct (N.leb_spec (seqMax p) 0) as [Hle|Hgt]; [|exact K1].
  destruct seqBuf as [buf|err]; [|exact K1].
  destruct (length buf <=? 0); [exact K1|].
  destruct (negb (length buf =? 8)); [exact K1|].
  cbn [fst]. eapply keepsWaits_trans; [exact K1| |].
  - now apply keepsWaits_update_obj.
  - apply stepOK_update_obj; [exact Hs1|]. intros p0 Hp0.
    assert (p0 = p) by congruence. subst p0. simpl. split_and!; auto; lia.
Qed.


Lemma keepsWaits_Dest t name : sound t -> keepsWaits t (Dest t name).1.
Proof.
  intros Hs. unfold Dest.
  destruct (getPartitionUnlocked_spec t name Hs)
    as (_ & Hc & _ & _ & _ & _ & _ & Hobjs & _).
  split.
  - intros ch c Hch _. now rewrite Hc.
  - intros b p cwr Hp Hin. exists p. split; [now apply Hobjs|now left].
Qed.

Lemma enter_chans_frame t name partitionUUID level seq ch :
  ch < length (chans t) ->
  chans (ConsistencyWait_enter t name partitionUUID level seq).1 !! ch
  = chans t !! ch.
Proof.
  intros Hlt.
  destruct (String.eqb_spec level "") as [->|Hne]; [reflexivity|].
  destruct (String.eqb_spec level "at_plus") as [->|Hne2].
  2:{ unfold ConsistencyWait_enter.
      rewrite (proj2 (String.eqb_neq _ _) Hne), (proj2 (String.eqb_neq _ _) Hne2).
      reflexivity. }
  rewrite enter_at_plus_eq. cbn zeta.
  pose proof (getPartitionUnlocked_chans
                (set_chans (chans t ++ [mkChan [] false]) t) name) as Hc.
  destruct (getPartitionUnlocked _ name) as [t2 [bdp|err]]; cbn [fst] in Hc.
  - assert (H2 : chans t2 !! ch = chans t !! ch).
    { rewrite Hc. simpl. now apply lookup_app_l. }
    destruct (objs t2 !! bdp) as [p|]; [|exact H2].
    destruct (negb _ && negb _); cbn [fst].
    + rewrite chan_close_other, chan_send_other by lia. exact H2.
    + destruct (_ <? _)%N; cbn [fst].
      * rewrite update_obj_chans. exact H2.
      * rewrite chan_close_other by lia. exact H2.
  - cbn [fst]. rewrite Hc. simpl. now apply lookup_app_l.
Qed.

Lemma enter_at_plus_objs t name partitionUUID seq :
  sound t -> store_open t = true ->
  exists t2 bdp p,
    (forall b q, objs t !! b = Some q -> objs t2 !! b = Some q)
    /\ objs t2 !! bdp = Some p
    /\ let t' := (ConsistencyWait_enter t name partitionUUID "at_plus" seq).1 in
       objs t' = objs t2
       \/ objs t'
          = <[bdp := set_cwrQueue
                       (heap_Push (cwrQueue p)
                          (mkConsistencyWaitReq partitionUUID "at_plus" seq
                             (length (chans t)))) p]> (objs t2).
Proof.
  intros Hs Hopen.
  destruct (enter_at_plus t name partitionUUID seq Hs Hopen)
    as (t2 & bdp & p & t' & _ & Hobj & _ & Hobjs & _ & E & _ & _ & _ & _ & _
        & Hmis & Hnow & Hlater).
  cbn zeta in *. exists t2, bdp, p. split; [exact Hobjs|].
  split; [exact Hobj|]. rewrite E. cbn [fst].
  assert (Hcase : (partitionUUID <> EmptyString
                   /\ partitionUUID <> lastUUID p)
                  \/ (partitionUUID = EmptyString
                      \/ partitionUUID = lastUUID p)).
  { destruct (String.eqb_spec partitionUUID "");
      destruct (String.eqb_spec partitionUUID (lastUUID p)); auto. }
  destruct Hcase as [[N1 N2]|Hsame].
  { left. apply (Hmis N1 N2). }
  destruct (N.le_gt_cases seq (seqMaxBatch p)) as [Hle|Hgt].
  - left. apply (Hnow Hsame Hle).
  - right. apply (Hlater Hsame Hgt).
Qed.

Lemma keepsWaits_enter t name partitionUUID level seq :
  sound t ->
  keepsWaits t (ConsistencyWait_enter t name partitionUUID level seq).1.
Proof.
  intros Hs. split.
  { intros ch c Hc _. rewrite enter_chans_frame; [exact Hc|].
    eapply lookup_lt_Some; eassumption. }
  intros b q cwr Hq Hin.
  destruct (String.eqb_spec level "") as [->|Hne]; [eauto|].
  destruct (String.eqb_spec level "at_plus") as [->|Hne2].
  2:{ unfold ConsistencyWait_enter.
      rewrite (proj2 (String.eqb_neq _ _) Hne), (proj2 (String.eqb_neq _ _) Hne2).
      eauto. }
  destruct (store_open t) eqn:Hopen.
  - destruct (enter_at_plus_objs t name partitionUUID seq Hs Hopen)
      as (t2 & bdp & p & Hobjs & Hobj & [Eo|Eo]); cbn zeta in Eo; rewrite Eo.
    + exists q. split; [now apply Hobjs|now left].
    + assert (Hlt : bdp < length (objs t2)) by (eapply lookup_lt_Some; eauto).
      apply Hobjs in Hq.
      destruct (decide (b = bdp)) as [->|Hneb].
      * rewrite list_lookup_insert_eq by exact Hlt.
        assert (q = p) by congruence. subst q.
        eexists. split; [reflexivity|]. left. simpl.
        rewrite heap_Push_perm. now right.
      * rewrite list_lookup_insert_ne by congruence. eauto.
  - assert (Hs1 : sound (set_chans (chans t ++ [mkChan [] false]) t)).
    { apply (sound_chans_only t).
      - exact Hs.
      - exact (sound_fault _ Hs).
      - repeat split.
      - intros ch _ Hch. simpl. now apply lookup_app_l_Some. }
    destruct (getPartitionUnlocked_spec _ name Hs1)
      as (_ & _ & _ & _ & _ & _ & _ & _ & _ & Hclosed & _).
    destruct (Hclosed Hopen) as [err E].
    rewrite enter_at_plus_eq. cbn zeta. rewrite E. cbn [fst]. eauto.
Qed.

Lemma select_step_frame pickCancel cancelReady t w ch :
  w_doneCh w <> ch ->
  objs (step t (OpSelect pickCancel cancelReady w)) = objs t
  /\ chans (step t (OpSelect pickCancel cancelReady w)) !! ch = chans t !! ch.
Proof.
  intros Hne. cbn [step]. unfold ConsistencyWaitDone_select.
  destruct (cancelReady && _); [auto|].
  destruct (chan_ready (w_doneCh w) t); [|auto].
  destruct (chan_recv_spec (w_doneCh w) t) as (_ & (_ & _ & _ & Eo & _) & _).
  pose proof (chan_recv_other (w_doneCh w) ch t) as Hc.
  destruct (chan_recv (w_doneCh w) t) as [t' r]. cbn [fst] in *.
  split; [exact Eo|]. apply Hc. congruence.
Qed.

(** The state of a wait is kept by every operation but a [select] on its
    done-channel. *)
Lemma waitInv_step mismatched t op bdp cwr :
  sound t -> selectsOn (DoneCh cwr) op = false ->
  waitInv mismatched t bdp cwr -> waitInv mismatched (step t op) bdp cwr.
Proof.
  intros Hs Hsel (p & Hp & H).
  assert (K : (exists pickCancel cancelReady w,
                 op = OpSelect pickCancel cancelReady w)
              \/ keepsWaits t (step t op)).
  { destruct op; cbn [step]; [right..|left; eauto].
    - now apply keepsWaits_Dest.
    - unfold DataUpdate. destruct early; [apply keepsWaits_refl|].
      now apply keepsWaits_updateSeqUnlocked.
    - now apply keepsWaits_updateSeqUnlocked.
    - now apply keepsWaits_SnapshotStart.
    - now apply keepsWaits_OpaqueGet.
    - now apply keepsWaits_update_obj.
    - now apply keepsWaits_enter. }
  destruct K as [(pickCancel & cancelReady & w & ->)|[KC KQ]].
  - cbn [selectsOn] in Hsel. apply Nat.eqb_neq in Hsel.
    destruct (select_step_frame pickCancel cancelReady t w (DoneCh cwr) Hsel)
      as [Eo Ec].
    exists p. rewrite Eo, Ec. auto.
  - destruct (step_ok t op Hs) as (_ & [_ O] & _).
    destruct (O _ _ Hp) as (p' & Hp' & _ & Hle & _).
    exists p'. split; [exact Hp'|]. destruct mismatched.
    + destruct H as [e He]. exists e. now apply (KC _ _ He).
    + destruct H as [[Hc Hle0]|Hq].
      * left. split; [now apply (KC _ _ Hc)|lia].
      * destruct (KQ _ _ _ Hp Hq) as (p'' & Hp'' & Hcase).
        assert (p'' = p') by congruence. subst p''.
        destruct Hcase as [Hin|Hrel]; [now right|now left].
Qed.

Lemma waitInv_run mismatched bdp cwr ops :
  forall t,
    sound t ->
    forallb (fun op => negb (selectsOn (DoneCh cwr) op)) ops = true ->
    waitInv mismatched t bdp cwr -> waitInv mismatched (run t ops) bdp cwr.
Proof.
  induction ops as [|op ops IH]; intros t Hs Hall Hw; [exact Hw|].
  cbn [forallb] in Hall. apply andb_true_iff in Hall as [Hop Hall].
  apply negb_true_iff in Hop.
  change (run t (op :: ops)) with (run (step t op) ops).
  apply IH; [apply (step_ok t op Hs)|exact Hall|].
  now apply waitInv_step.
Qed.

(** What the waiter of a wait finds at its [select]. *)
Lemma waitInv_select mismatched t bdp cwr w :
  sound t -> waitInv mismatched t bdp cwr ->
  w_doneCh w = DoneCh cwr ->
  exists p,
    objs t !! bdp = Some p
    /\ (forall pickCancel cancelReady t',
          ConsistencyWaitDone_select pickCancel cancelReady t w
          = Some (t', None) ->
          mismatched = false /\ (ConsistencySeq cwr <= seqMaxBatch p)%N)
    /\ (mismatched = false -> (ConsistencySeq cwr <= seqMaxBatch p)%N ->
        forall pickCancel,
          ConsistencyWaitDone_select pickCancel false t w = Some (t, None))
    /\ (mismatched = false -> (seqMaxBatch p < ConsistencySeq cwr)%N ->
        forall pickCancel,
          ConsistencyWaitDone_select pickCancel false t w = None)
    /\ (mismatched = true ->
        forall pickCancel cancelReady,
        exists t' err,
          ConsistencyWaitDone_select pickCancel cancelReady t w
          = Some (t', Some err)).
Proof.
  intros Hs (p & Hp & H) Hw. exists p. split; [exact Hp|].
  destruct mismatched.
  - destruct H as [e He]. rewrite <- Hw in He. split_and!; try discriminate.
    + intros pickCancel cancelReady t' Hsel.
      destruct (select_error pickCancel cancelReady t w e true He)
        as (t'' & err & E & _). congruence.
    + intros _ pickCancel cancelReady.
      destruct (select_error pickCancel cancelReady t w e true He)
        as (t'' & err & E & _). eauto.
  - destruct H as [[Hc Hle]|Hq].
    + rewrite <- Hw in Hc. split_and!; try discriminate; auto.
      * intros _ _ pickCancel. now apply select_closed.
      * intros _ Hgt. lia.
    + destruct (sound_owed _ Hs _ _ _ Hp Hq) as [Hgt Hpend].
      rewrite <- Hw in Hpend. split_and!; try discriminate.
      * intros pickCancel cancelReady t'.
        rewrite (select_pending _ _ _ _ Hpend).
        destruct cancelReady; discriminate.
      * intros _ Hle. lia.
      * intros _ _ pickCancel. now rewrite (select_pending _ _ _ _ Hpend).
Qed.

End WaitProofs.

(** ** ConsistencyWait, from the call to the return *)

Section ConsistencyWaitClaim.
Implicit Types t : VLite.

Lemma mismatched_false (partitionUUID last : string) :
  negb (String.eqb partitionUUID "") && negb (String.eqb partitionUUID last)
  = false
  <-> partitionUUID = EmptyString \/ partitionUUID = last.
Proof.
  destruct (String.eqb_spec partitionUUID "");
    destruct (String.eqb_spec partitionUUID last); cbn; split; auto;
    try discriminate.
  intros [?|?]; contradiction.
Qed.

Lemma enter_waitInv t name partitionUUID seq :
  sound t -> store_open t = true ->
  exists p bdp t',
    partitionAt t name = Some p
    /\ ConsistencyWait_enter t name partitionUUID "at_plus" seq
       = (t', WaitOn bdp (length (chans t)))
    /\ sound t'
    /\ waitInv (negb (String.eqb partitionUUID "")
                && negb (String.eqb partitionUUID (lastUUID p)))
         t' bdp
         (mkConsistencyWaitReq partitionUUID "at_plus" seq (length (chans t))).
Proof.
  intros Hs Hopen.
  destruct (enter_at_plus t name partitionUUID seq Hs Hopen)
    as (t2 & bdp & p & t' & Eget & Hobj & _ & _ & _ & E & Hs' & _ & _ & _
        & Hn & Hmis & Hnow & Hlater).
  cbn zeta in *. exists p, bdp, t'. split_and!; auto.
  { rewrite <- (partitionAt_set_chans (chans t ++ [mkChan [] false])).
    unfold partitionAt. now rewrite Eget. }
  assert (Hblt : bdp < length (objs t2)) by (eapply lookup_lt_Some; eauto).
  unfold waitInv. cbn [DoneCh ConsistencySeq].
  destruct (negb _ && negb _) eqn:Hm.
  - apply andb_true_iff in Hm as [M1 M2].
    apply negb_true_iff in M1, M2. apply String.eqb_neq in M1, M2.
    destruct (Hmis M1 M2) as [Eo Hch].
    exists p. rewrite Eo. eauto.
  - apply mismatched_false in Hm.
    destruct (N.le_gt_cases seq (seqMaxBatch p)) as [Hle|Hgt].
    + destruct (Hnow Hm Hle) as [Eo Hch]. exists p. rewrite Eo. auto.
    + destruct (Hlater Hm Hgt) as [Eo Hch]. eexists. rewrite Eo. split.
      * now apply list_lookup_insert_eq.
      * right. simpl. rewrite heap_Push_perm. left.
Qed.

(** The select on a done-channel that is closed and empty: the runtime
    takes the cancel case only if the cancel channel is ready and it
    picks that case. *)
Lemma select_closed_any pickCancel cancelReady t w :
  chans t !! w_doneCh w = Some (mkChan [] true) ->
  ConsistencyWaitDone_select pickCancel cancelReady t w
  = Some (t, if cancelReady && pickCancel
             then Some (cancelledError w (currSeq t (w_bdp w)))
             else None).
Proof.
  intros Hch. unfold ConsistencyWaitDone_select, chan_ready, chan_recv.
  rewrite Hch. cbn [ch_buf ch_closed length Nat.ltb Nat.leb orb negb].
  destruct cancelReady, pickCancel; reflexivity.
Qed.

Lemma waitInv_select_any t bdp cwr w :
  sound t -> waitInv false t bdp cwr ->
  w_doneCh w = DoneCh cwr ->
  exists p,
    objs t !! bdp = Some p
    /\ ((ConsistencySeq cwr <= seqMaxBatch p)%N ->
        forall pickCancel cancelReady,
          ConsistencyWaitDone_select pickCancel cancelReady t w
          = Some (t, if cancelReady && pickCancel
                     then Some (cancelledError w (currSeq t (w_bdp w)))
                     else None))
    /\ ((seqMaxBatch p < ConsistencySeq cwr)%N ->
        forall pickCancel cancelReady,
          ConsistencyWaitDone_select pickCancel cancelReady t w
          = if cancelReady
            then Some (t, Some (cancelledError w (currSeq t (w_bdp w))))
            else None).
Proof.
  intros Hs (p & Hp & H) Hw. exists p. split; [exact Hp|].
  destruct H as [[Hc Hle]|Hq].
  - rewrite <- Hw in Hc. split.
    + intros _ pickCancel cancelReady. now apply select_closed_any.
    + intros Hgt. lia.
  - destruct (sound_owed _ Hs _ _ _ Hp Hq) as [Hgt Hpend].
    rewrite <- Hw in Hpend. split.
    + intros Hle. lia.
    + intros _ pickCancel cancelReady. now apply select_pending.
Qed.

(** C1 (amended). [ConsistencyWait] on a live VLite.  With level [""] it
    returns nil at once.  A level other than [""] and ["at_plus"] is
    refused with an error.  With ["at_plus"] the call reaches the
    [select] of [ConsistencyWaitDone] on a done-channel of its own, and
    for the partition [p] as it is at the call: when a given
    [partitionUUID] differs from [lastUUID p], the select finds an
    error; when the seq is at most [seqMaxBatch p], the channel is
    closed already and the select returns at once, with nil - unless
    the cancel channel is ready as well and the runtime picks that case,
    in which the call returns the cancelled error; otherwise the request
    has joined the queue of the partition, which is a min-heap on the
    seq, and the select blocks for as long as the cancel channel is not
    ready.  Whatever operations follow before the waiter receives from
    its channel, a select of the waiter that returns nil finds
    [seqMaxBatch] at or above the seq; and, the UUID matching, the
    select behaves as at the call: once [seqMaxBatch] has reached the
    seq it returns nil or, a cancellation being ready and picked, the
    cancelled error, and before that it blocks or is cancelled.  A
    request in the queue has a seq above [seqMaxBatch] and an untouched
    channel; a batch commit closes the channel and removes the request
    if the seq is at most the new [seqMaxBatch], and leaves both as they
    are if not.  On a closed VLite a call with level [""] still returns
    nil, and a call with ["at_plus"] returns the already-closed error of
    [getPartitionUnlocked], whatever the seq. *)
Theorem C1_consistency_wait (fb : bool) (ops : list Op) :
  let t := run (NewVLite fb) ops in
  (forall name partitionUUID seq,
     ConsistencyWait_enter t name partitionUUID "" seq = (t, WaitReturn None))
  /\ (forall name partitionUUID level seq,
        level <> EmptyString -> level <> "at_plus"%string ->
        exists err,
          ConsistencyWait_enter t name partitionUUID level seq
          = (t, WaitReturn (Some err)))
  /\ (forall name partitionUUID seq,
        exists p bdp doneCh t',
          partitionAt t name = Some p
          /\ ConsistencyWait_enter t name partitionUUID "at_plus" seq
             = (t', WaitOn bdp doneCh)
          /\ partitions t' !! name = Some bdp
          /\ let w := ConsistencyWaitDone_start t' name bdp doneCh in
             let cwr := mkConsistencyWaitReq partitionUUID "at_plus" seq
                          doneCh in
             (partitionUUID <> EmptyString -> partitionUUID <> lastUUID p ->
              forall pickCancel cancelReady,
              exists t'' err,
                ConsistencyWaitDone_select pickCancel cancelReady t' w
                = Some (t'', Some err))
             /\ (partitionUUID = EmptyString \/ partitionUUID = lastUUID p ->
                 (seq <= seqMaxBatch p)%N ->
                 forall pickCancel cancelReady,
                   ConsistencyWaitDone_select pickCancel cancelReady t' w
                   = Some (t', if cancelReady && pickCancel
                               then Some (cancelledError w (currSeq t' bdp))
                               else None))
             /\ (partitionUUID = EmptyString \/ partitionUUID = lastUUID p ->
                 (seqMaxBatch p < seq)%N ->
                 exists p',
                   objs t' !! bdp = Some p'
                   /\ cwrQueue p' ≡ₚ (cwr :: cwrQueue p)
                   /\ heapOrdered (cwrQueue p')
                   /\ seqMaxBatch p' = seqMaxBatch p
                   /\ chans t' !! doneCh = Some pendingChan
                   /\ forall pickCancel cancelReady,
                        ConsistencyWaitDone_select pickCancel cancelReady t' w
                        = if cancelReady
                          then Some (t', Some (cancelledError w
                                                 (currSeq t' bdp)))
                          else None)
             /\ (forall ops',
                   forallb (fun op => negb (selectsOn doneCh op)) ops' = true ->
                   let t2 := run t' ops' in
                   exists p2,
                     objs t2 !! bdp = Some p2
                     /\ (forall pickCancel cancelReady t3,
                           ConsistencyWaitDone_select pickCancel cancelReady
                             t2 w = Some (t3, None) ->
                           (seq <= seqMaxBatch p2)%N)
                     /\ (partitionUUID = EmptyString
                         \/ partitionUUID = lastUUID p ->
                         (seq <= seqMaxBatch p2)%N ->
                         forall pickCancel cancelReady,
                           ConsistencyWaitDone_select pickCancel cancelReady
                             t2 w
                           = Some (t2, if cancelReady && pickCancel
                                       then Some (cancelledError w
                                                    (currSeq t2 bdp))
                                       else None))
                     /\ (partitionUUID = EmptyString
                         \/ partitionUUID = lastUUID p ->
                         (seqMaxBatch p2 < seq)%N ->
                         forall pickCancel cancelReady,
                           ConsistencyWaitDone_select pickCancel cancelReady
                             t2 w
                           = if cancelReady
                             then Some (t2, Some (cancelledError w
                                                    (currSeq t2 bdp)))
                             else None)))
  /\ (forall bdp p cwr flush,
        objs t !! bdp = Some p -> cwr ∈ cwrQueue p ->
        ((seqMaxBatch p < ConsistencySeq cwr)%N
         /\ chans t !! DoneCh cwr = Some pendingChan)
        /\ ((if file_backed t then flush else None) = None ->
            let t' := (applyBatchUnlocked t bdp flush).1 in
            exists p',
              objs t' !! bdp = Some p'
              /\ seqMaxBatch p' = seqMax p
              /\ ((ConsistencySeq cwr <= seqMaxBatch p')%N ->
                  (cwr ∉ cwrQueue p')
                  /\ chans t' !! DoneCh cwr = Some (mkChan [] true))
              /\ ((seqMaxBatch p' < ConsistencySeq cwr)%N ->
                  cwr ∈ cwrQueue p'
                  /\ chans t' !! DoneCh cwr = Some pendingChan)))
  /\ (forall t0 name partitionUUID seq,
        store_open t0 = false ->
        ConsistencyWait_enter t0 name partitionUUID "" seq
        = (t0, WaitReturn None)
        /\ ConsistencyWait_enter t0 name partitionUUID "at_plus" seq
           = (set_chans (chans t0 ++ [mkChan [] false]) t0,
              WaitReturn (Some (errorString "vlite: already closed")))).
Proof.
  intros t. destruct (run_NewVLite fb ops) as (Hs & Hopen & Hfb).
  fold t in Hs, Hopen, Hfb. split_and!.
  - reflexivity.
  - intros name partitionUUID level seq N1 N2. unfold ConsistencyWait_enter.
    rewrite (proj2 (String.eqb_neq _ _) N1), (proj2 (String.eqb_neq _ _) N2).
    cbn [negb]. eauto.
  - intros name partitionUUID seq.
    destruct (enter_at_plus t name partitionUUID seq Hs Hopen)
      as (t2 & bdp & p & t' & Eget & Hobj & _ & _ & _ & E & Hs' & _ & _ & _
          & Hn & Hmis & Hnow & Hlater).
    cbn zeta in *. exists p, bdp, (length (chans t)), t'. split_and!; auto.
    + rewrite <- (partitionAt_set_chans (chans t ++ [mkChan [] false])).
      unfold partitionAt. now rewrite Eget.
    + intros N1 N2 pickCancel cancelReady.
      destruct (Hmis N1 N2) as [_ Hch].
      destruct (select_error pickCancel cancelReady t'
                  (ConsistencyWaitDone_start t' name bdp (length (chans t)))
                  _ _ Hch) as (t'' & err & Hsel & _).
      eauto.
    + intros Hsame Hle pickCancel cancelReady.
      destruct (Hnow Hsame Hle) as [_ Hch].
      now apply select_closed_any.
    + intros Hsame Hgt. destruct (Hlater Hsame Hgt) as [Eo Hch].
      assert (Hblt : bdp < length (objs t2)) by (eapply lookup_lt_Some; eauto).
      eexists. split_and!.
      * rewrite Eo. now apply list_lookup_insert_eq.
      * apply heap_Push_perm.
      * apply heap_Push_ordered.
        eapply (sound_heap t2); [|exact Hobj].
        destruct (enter_prefix t name Hs Hopen)
          as (t2' & bdp' & p' & Eget' & _ & _ & _ & Hs2 & _).
        congruence.
      * reflexivity.
      * exact Hch.
      * intros pickCancel cancelReady. now apply select_pending.
    + intros ops' Hall.
      destruct (enter_waitInv t name partitionUUID seq Hs Hopen)
        as (p0 & bdp0 & t0 & Hat & E0 & _ & Hinv).
      assert (Hat' : partitionAt t name = Some p).
      { rewrite <- (partitionAt_set_chans (chans t ++ [mkChan [] false])).
        unfold partitionAt. now rewrite Eget. }
      rewrite E in E0. injection E0 as <- <-.
      assert (p0 = p) by congruence. subst p0.
      pose proof (waitInv_run _ bdp
                    (mkConsistencyWaitReq partitionUUID "at_plus" seq
                       (length (chans t)))
                    ops' t' Hs' Hall Hinv) as Hinv2.
      destruct (run_ok ops' t' Hs') as (Hs2 & _).
      destruct (waitInv_select _ (run t' ops') bdp _
                  (ConsistencyWaitDone_start t' name bdp (length (chans t)))
                  Hs2 Hinv2 eq_refl)
        as (p2 & Hp2 & Hnil & _).
      cbn [ConsistencySeq] in *.
      exists p2. split_and!.
      * exact Hp2.
      * intros pickCancel cancelReady t3 Hsel.
        exact (proj2 (Hnil pickCancel cancelReady t3 Hsel)).
      * intros Hsame Hle.
        apply mismatched_false in Hsame. rewrite Hsame in Hinv2.
        destruct (waitInv_select_any (run t' ops') bdp _
                    (ConsistencyWaitDone_start t' name bdp (length (chans t)))
                    Hs2 Hinv2 eq_refl) as (p2' & Hp2' & Hdone & _).
        assert (p2' = p2) by congruence. subst p2'.
        exact (Hdone Hle).
      * intros Hsame Hgt.
        apply mismatched_false in Hsame. rewrite Hsame in Hinv2.
        destruct (waitInv_select_any (run t' ops') bdp _
                    (ConsistencyWaitDone_start t' name bdp (length (chans t)))
                    Hs2 Hinv2 eq_refl) as (p2' & Hp2' & _ & Hblock).
        assert (p2' = p2) by congruence. subst p2'.
        exact (Hblock Hgt).
  - intros bdp p cwr flush Hp Hin.
    split; [exact (sound_owed _ Hs _ _ _ Hp Hin)|]. intros Hflush.
    destruct (applyBatchUnlocked_commit t bdp flush p Hs Hp Hflush)
      as (released & kept & E & Hperm & _ & Hrel & Hkept & Hs' & Hsame
          & Hclosed & _).
    cbn zeta in *. rewrite E. cbn [fst].
    assert (Hlt : bdp < length (objs t)) by (eapply lookup_lt_Some; eauto).
    eexists. split_and!.
    + cbn [objs set_objs]. now apply list_lookup_insert_eq.
    + reflexivity.
    + cbn [seqMaxBatch set_cwrQueue set_seqMaxBatch cwrQueue]. intros Hle.
      split.
      * intros Hk. apply Hkept in Hk. lia.
      * apply Hclosed. rewrite Hperm in Hin.
        apply elem_of_app in Hin as [Hin|Hin]; [exact Hin|].
        apply Hkept in Hin. lia.
    + cbn [seqMaxBatch set_cwrQueue set_seqMaxBatch cwrQueue]. intros Hgt.
      assert (Hk : cwr ∈ kept).
      { rewrite Hperm in Hin.
        apply elem_of_app in Hin as [Hin|Hin]; [|exact Hin].
        apply Hrel in Hin. lia. }
      split; [exact Hk|].
      refine (proj2 (sound_owed _ Hs' bdp
                       (set_cwrQueue kept (set_seqMaxBatch (seqMax p) p))
                       cwr _ Hk)).
      cbn [objs set_objs]. now apply list_lookup_insert_eq.
  - intros t0 name partitionUUID seq Hclosed. split; [reflexivity|].
    rewrite enter_at_plus_eq. unfold getPartitionUnlocked.
    cbn [store_open set_chans]. rewrite Hclosed. reflexivity.
Qed.

(** The sample run: the request for seq 7 is in the queue, its channel
    untouched, while the partition has committed nothing; a batch commit
    then brings [seqMaxBatch] to 9 and closes the channel. *)
Lemma C1_consistency_wait_witness :
  objs sampleVLite !! 0 = Some samplePartition
  /\ sampleCwr ∈ cwrQueue samplePartition
  /\ ((seqMaxBatch samplePartition < ConsistencySeq sampleCwr)%N
      /\ chans sampleVLite !! DoneCh sampleCwr = Some pendingChan)
  /\ exists p',
       objs (applyBatchUnlocked sampleVLite 0 None).1 !! 0 = Some p'
       /\ seqMaxBatch p' = seqMax samplePartition
       /\ ((ConsistencySeq sampleCwr <= seqMaxBatch p')%N ->
           (sampleCwr ∉ cwrQueue p')
           /\ chans (applyBatchUnlocked sampleVLite 0 None).1
                !! DoneCh sampleCwr = Some (mkChan [] true))
       /\ ((seqMaxBatch p' < ConsistencySeq sampleCwr)%N ->
           sampleCwr ∈ cwrQueue p'
           /\ chans (applyBatchUnlocked sampleVLite 0 None).1
                !! DoneCh sampleCwr = Some pendingChan).
Proof.
  assert (H1 : objs sampleVLite !! 0 = Some samplePartition) by reflexivity.
  assert (H2 : sampleCwr ∈ cwrQueue samplePartition) by (simpl; left).
  destruct (proj1 (proj2 (proj2 (proj2 (C1_consistency_wait false sampleOps))))
              0 samplePartition sampleCwr None H1 H2) as [H3 H4].
  split; [exact H1|]. split; [exact H2|]. split; [exact H3|].
  apply H4. reflexivity.
Defined.

(** A call for a seq that the partition has committed, with a cancel
    channel that is ready: the done-channel is closed at once, the
    runtime picks the cancel case, and the call returns the cancelled
    error.  And a call on a closed VLite: it returns an error, whatever
    the seq. *)
Lemma C1_ready_cancel_counterexample :
  (exists p t' bdp doneCh err,
     partitionAt (run (NewVLite false) [OpDest "0"]) "0" = Some p
     /\ (0 <= seqMaxBatch p)%N
     /\ ConsistencyWait_enter (run (NewVLite false) [OpDest "0"]) "0" ""
          "at_plus" 0 = (t', WaitOn bdp doneCh)
     /\ ConsistencyWaitDone_select true true t'
          (ConsistencyWaitDone_start t' "0" bdp doneCh)
        = Some (t', Some err))
  /\ (exists t' err,
        store_open (closeUnlocked (run (NewVLite false) [OpDest "0"])).1
        = false
        /\ ConsistencyWait_enter
             (closeUnlocked (run (NewVLite false) [OpDest "0"])).1 "0" ""
             "at_plus" 0
           = (t', WaitReturn (Some err))).
Proof.
  split.
  - eexists _, _, _, _, _. split; [vm_compute; reflexivity|].
    split; [vm_compute; discriminate|].
    split; vm_compute; reflexivity.
  - eexists _, _. split; vm_compute; reflexivity.
Qed.

End ConsistencyWaitClaim.

(** * Part III: further properties of the code *)

(** ** The VLite: invariants, handles, closing *)

Section VLiteExtras.
Implicit Types t : VLite.

(** X1. Invariants of a live VLite.  Whatever operations have run, no
    channel operation has panicked or blocked for good (no done-channel
    was closed twice or sent on after its close); the store is open;
    every name of the partitions map leads to an object, and no two
    names to the same one; and for every partition object [seqMaxBatch]
    is at most [seqMax], the queue is a min-heap on the seq, and no two
    queued requests of the VLite share a done-channel. *)
Theorem X1_vlite_invariants (fb : bool) (ops : list Op) :
  let t := run (NewVLite fb) ops in
  fault t = None
  /\ store_open t = true
  /\ file_backed t = fb
  /\ (forall name, is_Some (partitions t !! name) ->
        exists bdp p, partitions t !! name = Some bdp
                      /\ objs t !! bdp = Some p)
  /\ (forall name1 name2 bdp,
        partitions t !! name1 = Some bdp ->
        partitions t !! name2 = Some bdp -> name1 = name2)
  /\ (forall bdp p, objs t !! bdp = Some p ->
        (seqMaxBatch p <= seqMax p)%N /\ heapOrdered (cwrQueue p))
  /\ NoDup (DoneCh <$> (objs t ≫= cwrQueue)).
Proof.
  intros t. destruct (run_NewVLite fb ops) as (Hs & Hopen & Hfb).
  fold t in Hs, Hopen, Hfb. split_and!; auto.
  - exact (sound_fault _ Hs).
  - intros name [bdp Hn].
    destruct (lookup_lt_is_Some_2 (objs t) bdp) as [p Hp];
      [exact (sound_partitions _ Hs _ _ Hn)|]. eauto.
  - exact (sound_inj _ Hs).
  - intros bdp p Hp. split;
      [exact (sound_seq _ Hs _ _ Hp)|exact (sound_heap _ Hs _ _ Hp)].
  - exact (sound_chans _ Hs).
Qed.

(** X2. [Dest] hands out one partition object per name.  On a live
    VLite it succeeds; asked again for the same name it returns the same
    object and changes nothing; for another name it returns another
    object; a name seen for the first time gets a fresh object with all
    sequence numbers 0, an empty UUID and an empty queue, and the
    objects of the other names stay as they are. *)
Theorem X2_dest_once_per_name (fb : bool) (ops : list Op) (name : string) :
  let t := run (NewVLite fb) ops in
  let t1 := (Dest t name).1 in
  exists bdp p,
    Dest t name = (t1, Ok bdp)
    /\ objs t1 !! bdp = Some p
    /\ Dest t1 name = (t1, Ok bdp)
    /\ (forall name' bdp', name' <> name ->
          (Dest t1 name').2 = Ok bdp' -> bdp' <> bdp)
    /\ (partitions t !! name = None ->
        p = mkVLitePartition name 0 0 0 EmptyString []
        /\ bdp = length (objs t))
    /\ (forall b q, objs t !! b = Some q -> objs t1 !! b = Some q).
Proof.
  intros t t1. destruct (run_NewVLite fb ops) as (Hs & Hopen & _).
  fold t in Hs, Hopen.
  destruct (getPartitionUnlocked_spec t name Hs)
    as (Hs1 & _ & _ & Ho1 & _ & _ & _ & Hobjs & _ & _ & Hok).
  destruct (Hok Hopen) as (bdp & p & Er & Hn & Hp & Hnew).
  fold (Dest t name) in *. fold t1 in Hs1, Ho1, Er, Hn, Hp, Hobjs.
  exists bdp, p. split_and!.
  - unfold t1. destruct (Dest t name) as [t' r]. simpl in *. now subst r.
  - exact Hp.
  - unfold Dest, getPartitionUnlocked. rewrite Ho1, Hopen. cbn [negb].
    now rewrite Hn.
  - intros name' bdp' Hne E Heq. subst bdp'.
    destruct (getPartitionUnlocked_spec t1 name' Hs1)
      as (Hs2 & _ & _ & _ & _ & _ & _ & _ & Hparts & _ & Hok2).
    rewrite Ho1 in Hok2. destruct (Hok2 Hopen) as (b2 & p2 & Er2 & Hn2 & _).
    fold (Dest t1 name') in *. rewrite E in Er2. injection Er2 as <-.
    apply Hparts in Hn.
    exact (Hne (sound_inj _ Hs2 _ _ _ Hn2 Hn)).
  - intros Hnone. split; [now apply Hnew|].
    unfold t1, Dest, getPartitionUnlocked in Hn. rewrite Hopen, Hnone in Hn.
    cbn in Hn. rewrite lookup_insert_eq in Hn. now injection Hn as <-.
  - exact Hobjs.
Qed.

(** X3. Closing.  [closeUnlocked] on an open VLite closes the store and
    replaces the partitions map by an empty one, keeping the partition
    objects reachable from the handles given out; on a closed VLite it
    does nothing.  After it, [Dest] and an ["at_plus"] [ConsistencyWait]
    return an error for every partition, and neither brings a partition
    back.  [Rollback] asks for a restart each time it is called, on a
    closed VLite too. *)
Theorem X3_close (t : VLite) :
  let t1 := (closeUnlocked t).1 in
  store_open t1 = false
  /\ objs t1 = objs t /\ chans t1 = chans t
  /\ (store_open t = true -> partitions t1 = ∅)
  /\ closeUnlocked t1 = (t1, None)
  /\ (forall name, exists err, Dest t1 name = (t1, Err err))
  /\ (forall name partitionUUID seq,
        exists t2 err,
          ConsistencyWait_enter t1 name partitionUUID "at_plus" seq
          = (t2, WaitReturn (Some err))
          /\ partitions t2 = partitions t1 /\ objs t2 = objs t1
          /\ store_open t2 = false)
  /\ restarts (Rollback t).1 = S (restarts t)
  /\ restarts (Rollback (Rollback t).1).1 = S (S (restarts t))
  /\ store_open (Rollback t).1 = false.
Proof.
  intros t1.
  assert (Hclosed : store_open t1 = false).
  { unfold t1, closeUnlocked. destruct (store_open t) eqn:E; simpl; auto. }
  assert (Hdest : forall name, exists err, Dest t1 name = (t1, Err err)).
  { intros name. unfold Dest, getPartitionUnlocked. rewrite Hclosed.
    cbn [negb]. eauto. }
  split_and!.
  - exact Hclosed.
  - unfold t1, closeUnlocked. destruct (store_open t); reflexivity.
  - unfold t1, closeUnlocked. destruct (store_open t); reflexivity.
  - intros Hopen. unfold t1, closeUnlocked. rewrite Hopen. reflexivity.
  - unfold closeUnlocked at 1. rewrite Hclosed. reflexivity.
  - exact Hdest.
  - intros name partitionUUID seq. rewrite enter_at_plus_eq. cbn zeta.
    unfold getPartitionUnlocked. cbn [store_open set_chans].
    rewrite Hclosed. cbn [negb]. eexists _, _. split; [reflexivity|].
    split_and!; auto.
  - unfold Rollback, closeUnlocked. destruct (store_open t); reflexivity.
  - unfold Rollback, closeUnlocked.
    destruct (store_open t) eqn:E; cbn; rewrite ?E; reflexivity.
  - unfold Rollback, closeUnlocked. destruct (store_open t) eqn:E; simpl; auto.
Qed.

(** X4. The wait queue as a heap.  On a min-heap, [heap.Push] gives a
    min-heap holding the old requests and the new one; and [heap.Pop] on
    a non-empty min-heap returns a request whose seq is the least of the
    queue and leaves a min-heap of the others. *)
Theorem X4_heap_push_pop (h : list ConsistencyWaitReq)
    (x : ConsistencyWaitReq) :
  heapOrdered h ->
  heapOrdered (heap_Push h x)
  /\ heap_Push h x ≡ₚ (x :: h)
  /\ (h <> [] ->
      exists r q,
        heap_Pop h = (Some r, q)
        /\ heapOrdered q
        /\ h ≡ₚ (r :: q)
        /\ forall a, a ∈ h -> (ConsistencySeq r <= ConsistencySeq a)%N).
Proof.
  intros Hh. split; [now apply heap_Push_ordered|].
  split; [apply heap_Push_perm|].
  intros Hne. destruct h as [|r0 h']; [congruence|].
  destruct (heap_Pop_spec (r0 :: h') r0 Hh eq_refl) as (q & E & Hq & Hperm).
  exists r0, q. split_and!; auto.
  intros a Ha. apply list_elem_of_lookup in Ha as [k Hk].
  exact (heapOrdered_root_min _ _ Hh eq_refl k a Hk).
Qed.


Lemma heapOrdered_singleton (c : ConsistencyWaitReq) : heapOrdered [c].
Proof.
  intros k a b Hk Ha. destruct k as [|k]; [lia|].
  simpl in Ha. rewrite lookup_nil in Ha. discriminate.
Defined.

Lemma X4_heap_push_pop_witness :
  heapOrdered [sampleCwr]
  /\ heapOrdered (heap_Push [sampleCwr]
                    (mkConsistencyWaitReq "" "at_plus" 3%N 1))
  /\ exists r q,
       heap_Pop [sampleCwr] = (Some r, q)
       /\ forall a, a ∈ [sampleCwr] ->
                    (ConsistencySeq r <= ConsistencySeq a)%N.
Proof.
  pose proof (X4_heap_push_pop [sampleCwr]
                (mkConsistencyWaitReq "" "at_plus" 3%N 1)
                (heapOrdered_singleton sampleCwr)) as (H1 & _ & H3).
  split; [apply heapOrdered_singleton|]. split; [exact H1|].
  destruct (H3 ltac:(discriminate)) as (r & q & E & _ & _ & Hmin).
  eauto.
Defined.

End VLiteExtras.

(** ** The planner: what is skipped, what the placement may change *)

Section PlannerExtras.
Context `{HR : GoRand} `{HE : PlannerEnv}.

Local Arguments CalcPlan_step : simpl never.

(** X5. An index definition that is not plan-frozen and whose data
    source fails to list its partitions is skipped: the split step
    returns the error without touching the plan under construction, the
    iteration of [CalcPlan] for the definition leaves the plan as it
    was, and [CalcPlan] gives the result it gives without the
    definition. *)
Theorem X5_datasource_error_skipped defs1 d defs2 nodes prev version server
    rng err :
  PlanFrozen (id_PlanParams d) = false ->
  sourcePartitionsOf d server = Err err ->
  (forall out rng0, exists msg,
     SplitIndexDefIntoPlanPIndexes d server out rng0 = Some (Err msg))
  /\ (forall layout acc, CalcPlan_step prev server layout acc d = acc)
  /\ CalcPlan (Some (defs1 ++ d :: defs2)) nodes prev version server rng
     = CalcPlan (Some (defs1 ++ defs2)) nodes prev version server rng.
Proof.
  intros Hfr Hds.
  assert (Hsplit : forall out rng0, exists msg,
            SplitIndexDefIntoPlanPIndexes d server out rng0 = Some (Err msg)).
  { intros out rng0. unfold SplitIndexDefIntoPlanPIndexes.
    unfold sourcePartitionsOf in Hds. rewrite Hds. eauto. }
  assert (Hstep : forall layout acc, CalcPlan_step prev server layout acc d = acc).
  { intros layout [[pl r]|]; [|reflexivity].
    unfold CalcPlan_step. rewrite Hfr.
    destruct (instantiatable (id_Type d)); [|reflexivity]. cbn [negb].
    destruct (Hsplit pl r) as [msg ->]. reflexivity. }
  split; [exact Hsplit|]. split; [exact Hstep|].
  now apply CalcPlan_skip.
Qed.

(** X6. A plan-frozen index definition for which there is nothing to
    copy - there is no previous plan, or the previous plan has no entry
    with the definition's name and UUID - contributes nothing: the
    iteration of [CalcPlan] for it leaves the plan under construction as
    it was, whatever the type and the data source of the definition. *)
Theorem X6_frozen_nothing_to_copy defs1 d defs2 nodes prev version server rng :
  PlanFrozen (id_PlanParams d) = true ->
  (prev = None
   \/ exists pv, prev = Some pv
        /\ forall k q, pps_PlanPIndexes pv !! k = Some q ->
                       ~ sameIndex d (k, q)) ->
  (forall layout acc, CalcPlan_step prev server layout acc d = acc)
  /\ CalcPlan (Some (defs1 ++ d :: defs2)) nodes prev version server rng
     = CalcPlan (Some (defs1 ++ defs2)) nodes prev version server rng.
Proof.
  intros Hfr Hprev.
  assert (Hstep : forall layout acc, CalcPlan_step prev server layout acc d = acc).
  { intros layout [[pl r]|]; [|reflexivity].
    unfold CalcPlan_step. rewrite Hfr.
    destruct Hprev as [->|(pv & -> & Hno)]; [reflexivity|].
    assert (E : filter (sameIndex d) (pps_PlanPIndexes pv) = ∅).
    { apply map_empty. intros k. apply map_lookup_filter_None. right.
      intros q Hq. now apply Hno. }
    rewrite E, (left_id_L ∅ (∪)). destruct pl; reflexivity. }
  split; [exact Hstep|]. now apply CalcPlan_skip.
Qed.

(** X7. The placement step changes node maps only.  When
    [BlancePlanPIndexes] returns, the plan entries of the index are the
    ones it was given, under the same keys, each with every field but
    [Nodes] as before; an entry for which the placement library returned
    no partition keeps its node map too. *)
Theorem X7_blance_changes_nodes_only d forIndex prev layout forIndex'
    warnings :
  BlancePlanPIndexes d forIndex prev layout = Some (forIndex', warnings) ->
  dom forIndex' = dom forIndex
  /\ (forall k q', forIndex' !! k = Some q' ->
        exists q, forIndex !! k = Some q
                  /\ set_pp_Nodes (pp_Nodes q) q' = q)
  /\ (forall k q,
        forIndex !! k = Some q ->
        (PlanNextMap (blancePrevMap forIndex prev)
           (nodeUUIDsAll layout) (nodeUUIDsToRemove layout)
           (nodeUUIDsToAdd layout) (BlancePartitionModel d).1
           (BlancePartitionModel d).2 ∅ ∅ (nodeWeights layout)
           (nodeHierarchy layout)
           (HierarchyRules (id_PlanParams d))).1 !! k = None ->
        forIndex' !! k = Some q).
Proof.
  intros Hb. pose proof (BlancePlanPIndexes_entries _ _ _ _ _ _ Hb) as He.
  split_and!.
  - apply set_eq. intros k. rewrite !elem_of_dom, He.
    destruct (forIndex !! k); simpl; split; intros [? ?]; eauto; discriminate.
  - intros k q' Hk. rewrite He in Hk.
    destruct (forIndex !! k) as [q|]; [|discriminate]. simpl in Hk.
    injection Hk as <-. exists q. split; [reflexivity|].
    destruct (_ !! k); destruct q; reflexivity.
  - intros k q Hk Hnone. specialize (He k). rewrite Hk, Hnone in He. exact He.
Qed.


Lemma foldl_insert_lookup {V} (f : string -> V) (l : list string) :
  forall (m : gmap string V) n,
    foldl (fun m u => <[u := f u]> m) m l !! n
    = if decide (n ∈ l) then Some (f n) else m !! n.
Proof.
  induction l as [|x l IH] using rev_ind; intros m n.
  - simpl. destruct (decide (n ∈ [])) as [Hin|_]; [inversion Hin|reflexivity].
  - rewrite foldl_app. simpl.
    destruct (decide (x = n)) as [->|Hne].
    + rewrite lookup_insert_eq.
      destruct (decide (n ∈ l ++ [n])) as [_|Hn]; [reflexivity|].
      exfalso. apply Hn, elem_of_app. right. constructor.
    + rewrite lookup_insert_ne by exact Hne. rewrite IH.
      destruct (decide (n ∈ l)) as [Hin|Hnin];
        destruct (decide (n ∈ l ++ [x])) as [Hin'|Hnin']; try reflexivity.
      * exfalso. apply Hnin', elem_of_app. now left.
      * exfalso. apply elem_of_app in Hin' as [?|Hx]; [contradiction|].
        apply list_elem_of_singleton in Hx. congruence.
Qed.

Lemma foldl_insert_indexed_lookup {V} (g : nat -> string -> V)
    (l : list string) :
  forall (m : gmap string V),
    NoDup l ->
    (forall i n, l !! i = Some n ->
       foldl (fun m (ir : nat * string) => <[ir.2 := g ir.1 ir.2]> m) m
             (imap (fun i u => (i, u)) l) !! n = Some (g i n))
    /\ (forall n, n ∉ l ->
          foldl (fun m (ir : nat * string) => <[ir.2 := g ir.1 ir.2]> m) m
                (imap (fun i u => (i, u)) l) !! n = m !! n).
Proof.
  induction l as [|x l IH] using rev_ind; intros m Hnd.
  - split; [intros i n Hi; rewrite lookup_nil in Hi; discriminate|].
    reflexivity.
  - apply NoDup_app in Hnd as (Hnd & Hdisj & _).
    destruct (IH m Hnd) as [IH1 IH2].
    rewrite imap_app, foldl_app. simpl. rewrite Nat.add_0_r.
    split.
    + intros i n Hi. apply lookup_app_Some in Hi as [Hi|[Hlen Hi]].
      * assert (Hne : x <> n).
        { intros ->. apply (Hdisj n); [|constructor].
          apply list_elem_of_lookup. eauto. }
        rewrite lookup_insert_ne by exact Hne. now apply IH1.
      * destruct (i - length l) as [|k] eqn:Hk;
          [|simpl in Hi; rewrite lookup_nil in Hi; discriminate].
        simpl in Hi. injection Hi as ->.
        assert (i = length l) by lia. subst i.
        apply lookup_insert_eq.
    + intros n Hn. apply not_elem_of_app in Hn as [Hn1 Hn2].
      rewrite lookup_insert_ne.
      * now apply IH2.
      * intros ->. apply Hn2. constructor.
Qed.

(** X8. The node map written from a placement.  When the placement
    library lists no node twice for a partition, the node map that
    [BlancePlanPIndexes] writes holds exactly the listed nodes: every
    ["primary"] node at priority 0 and the [i]-th ["replica"] node at
    priority [i+1]; each may be read and written unless the index
    definition's per-node plan parameters say otherwise. *)
Theorem X8_next_nodes_priorities d planPIndexName blancePartition :
  let primaries :=
    default [] (bp_NodesByState blancePartition !! "primary") in
  let replicas :=
    default [] (bp_NodesByState blancePartition !! "replica") in
  let nodes := nextNodes d planPIndexName blancePartition in
  NoDup (primaries ++ replicas) ->
  (forall n, n ∈ primaries ->
     exists e, nodes !! n = Some e /\ Priority e = 0%Z)
  /\ (forall i n, replicas !! i = Some n ->
        exists e, nodes !! n = Some e /\ Priority e = (Z.of_nat i + 1)%Z)
  /\ (forall n, is_Some (nodes !! n) -> n ∈ primaries \/ n ∈ replicas)
  /\ (forall n e, nodes !! n = Some e ->
        CanRead e = match GetNodePlanParam (NodePlanParams (id_PlanParams d))
                            n (id_Name d) planPIndexName with
                    | Some (canRead, _) => canRead
                    | None => true
                    end
        /\ CanWrite e = match GetNodePlanParam
                                (NodePlanParams (id_PlanParams d))
                                n (id_Name d) planPIndexName with
                        | Some (_, canWrite) => canWrite
                        | None => true
                        end).
Proof.
  intros primaries replicas nodes Hnd.
  apply NoDup_app in Hnd as (Hndp & Hdisj & Hndr).
  assert (Hprio : forall n z, Priority (nodeEntry d planPIndexName n z) = z).
  { intros n z. unfold nodeEntry.
    destruct (GetNodePlanParam _ _ _ _) as [[? ?]|]; reflexivity. }
  set (m0 := foldl (fun m nodeUUID =>
                <[nodeUUID := nodeEntry d planPIndexName nodeUUID 0]> m)
              (∅ : gmap string PlanPIndexNode) primaries).
  destruct (foldl_insert_indexed_lookup
              (fun i n => nodeEntry d planPIndexName n (Z.of_nat i + 1))
              replicas m0 Hndr) as [Hr1 Hr2].
  assert (Hm0 : forall n, m0 !! n
            = if decide (n ∈ primaries)
              then Some (nodeEntry d planPIndexName n 0) else None).
  { intros n. unfold m0.
    rewrite (foldl_insert_lookup (fun u => nodeEntry d planPIndexName u 0)).
    destruct (decide (n ∈ primaries)); [reflexivity|apply lookup_empty]. }
  assert (Hcases : forall n e, nodes !! n = Some e ->
            exists z, e = nodeEntry d planPIndexName n z
                      /\ (n ∈ primaries \/ n ∈ replicas)).
  { intros n e He. unfold nodes, nextNodes in He.
    fold primaries replicas m0 in He.
    destruct (decide (n ∈ replicas)) as [Hin|Hnin].
    - apply list_elem_of_lookup in Hin as [i Hi].
      rewrite (Hr1 i n Hi) in He. injection He as <-.
      exists (Z.of_nat i + 1)%Z. split; [reflexivity|].
      right. apply list_elem_of_lookup. eauto.
    - rewrite (Hr2 n Hnin), Hm0 in He.
      destruct (decide (n ∈ primaries)); [|discriminate].
      injection He as <-. exists 0%Z. auto. }
  split_and!.
  - intros n Hn. unfold nodes, nextNodes. fold primaries replicas m0.
    assert (Hnr : n ∉ replicas) by (intros Hr; exact (Hdisj n Hn Hr)).
    rewrite (Hr2 n Hnr), Hm0.
    destruct (decide (n ∈ primaries)); [|contradiction]. eauto.
  - intros i n Hi. unfold nodes, nextNodes. fold primaries replicas m0.
    rewrite (Hr1 i n Hi). eauto.
  - intros n [e He]. destruct (Hcases n e He) as (z & _ & H). exact H.
  - intros n e He. destruct (Hcases n e He) as (z & -> & _).
    unfold nodeEntry.
    destruct (GetNodePlanParam _ _ _ _) as [[? ?]|]; auto.
Qed.

End PlannerExtras.

Lemma X5_datasource_error_witness :
  @sourcePartitionsOf sampleEnv sampleIndexDefLost "srv" = Err "unknown source"
  /\ @CalcPlan sampleRand sampleEnv
       (Some ([sampleIndexDefJ 4] ++ sampleIndexDefLost :: []))
       (Some sampleNodes) (Some samplePrevPlan) "1.0" "srv" 0
     = @CalcPlan sampleRand sampleEnv
         (Some ([sampleIndexDefJ 4] ++ []))
         (Some sampleNodes) (Some samplePrevPlan) "1.0" "srv" 0.
Proof.
  split; [reflexivity|].
  apply (@X5_datasource_error_skipped sampleRand sampleEnv [sampleIndexDefJ 4]
           sampleIndexDefLost [] (Some sampleNodes) (Some samplePrevPlan)
           "1.0" "srv" 0 "unknown source"); reflexivity.
Defined.

Lemma sampleFrozenJ_no_entry :
  forall k q, pps_PlanPIndexes samplePrevPlan !! k = Some q ->
              ~ sameIndex sampleFrozenJ (k, q).
Proof.
  intros k q Hq [Hn _]. simpl in Hq, Hn.
  destruct (decide (k = "i_U_8dd93ce8"%string)) as [->|Hne].
  - rewrite lookup_insert_eq in Hq. injection Hq as <-. discriminate Hn.
  - rewrite lookup_insert_ne in Hq by congruence.
    rewrite lookup_empty in Hq. discriminate.
Defined.

Lemma X6_frozen_nothing_witness :
  @CalcPlan sampleRand sampleEnv
    (Some ([sampleIndexDef "engine" false 4] ++ sampleFrozenJ :: []))
    (Some sampleNodes) (Some samplePrevPlan) "1.0" "srv" 0
  = @CalcPlan sampleRand sampleEnv
      (Some ([sampleIndexDef "engine" false 4] ++ []))
      (Some sampleNodes) (Some samplePrevPlan) "1.0" "srv" 0.
Proof.
  apply (@X6_frozen_nothing_to_copy sampleRand sampleEnv
           [sampleIndexDef "engine" false 4] sampleFrozenJ []
           (Some sampleNodes) (Some samplePrevPlan) "1.0" "srv" 0);
    [reflexivity|].
  right. exists samplePrevPlan. split; [reflexivity|].
  exact sampleFrozenJ_no_entry.
Defined.

Lemma X7_blance_witness :
  exists forIndex' warnings,
    @BlancePlanPIndexes sampleEnv (sampleIndexDef "engine" false 0)
      (<["i_U_8dd93ce8" := samplePrevEntry]> ∅) (Some samplePrevPlan)
      (mkNodesLayout ["N1"] [] [] ∅ ∅) = Some (forIndex', warnings)
    /\ dom forIndex'
       = dom (<["i_U_8dd93ce8" := samplePrevEntry]>
                (∅ : gmap string PlanPIndex)).
Proof.
  destruct (@BlancePlanPIndexes sampleEnv (sampleIndexDef "engine" false 0)
              (<["i_U_8dd93ce8" := samplePrevEntry]> ∅) (Some samplePrevPlan)
              (mkNodesLayout ["N1"] [] [] ∅ ∅)) as [[fi w]|] eqn:E.
  - exists fi, w. split; [reflexivity|].
    exact (proj1 (@X7_blance_changes_nodes_only sampleEnv _ _ _ _ _ _ E)).
  - exfalso. vm_compute in E. discriminate E.
Defined.

Lemma X8_next_nodes_witness :
  (exists e, @nextNodes sampleEnv (sampleIndexDef "engine" false 0)
               "i_U_8dd93ce8" samplePlacement !! "N1" = Some e
             /\ Priority e = 0%Z)
  /\ (exists e, @nextNodes sampleEnv (sampleIndexDef "engine" false 0)
                  "i_U_8dd93ce8" samplePlacement !! "N3" = Some e
                /\ Priority e = 2%Z).
Proof.
  destruct (@X8_next_nodes_priorities sampleEnv
              (sampleIndexDef "engine" false 0) "i_U_8dd93ce8" samplePlacement)
    as (H1 & H2 & _).
  - apply (bool_decide_unpack _). vm_compute. exact I.
  - split.
    + apply H1. vm_compute. left.
    + apply (H2 1 "N3"%string). reflexivity.
Defined.

(** ** The rebalancer: the table of states and the refused steps *)

Section RebalancerExtras.
Context `{HR : GoRand} `{HE : PlannerEnv}.

Lemma currState_insert r index partition (nodes : gmap string stateOp)
    i p n :
  let partitions := default ∅ (r_currStates r !! index) in
  currState
    (set_r_currStates
       (<[index := <[partition := nodes]> partitions]> (r_currStates r)) r)
    i p n
  = if decide (i = index /\ p = partition) then nodes !! n
    else currState r i p n.
Proof.
  intros partitions. unfold currState. cbn [r_currStates set_r_currStates].
  destruct (decide (i = index)) as [->|Hi].
  - rewrite lookup_insert_eq.
    destruct (decide (p = partition)) as [->|Hp].
    + rewrite lookup_insert_eq.
      destruct (decide (index = index /\ partition = partition)) as [_|N];
        [reflexivity|exfalso; apply N; auto].
    + rewrite lookup_insert_ne by congruence.
      destruct (decide (index = index /\ p = partition)) as [[_ E]|_];
        [congruence|].
      subst partitions. destruct (r_currStates r !! index); simpl;
        [reflexivity|now rewrite lookup_empty].
  - rewrite lookup_insert_ne by congruence.
    destruct (decide (i = index /\ p = partition)) as [[E _]|_];
      [congruence|reflexivity].
Qed.

Lemma currState_nodes r index partition node :
  default ∅ (default ∅ (r_currStates r !! index) !! partition) !! node
  = currState r index partition node.
Proof.
  unfold currState. destruct (r_currStates r !! index) as [ps|]; simpl;
    [|now rewrite lookup_empty].
  destruct (ps !! partition); simpl; [reflexivity|apply lookup_empty].
Qed.

(** X9. The table [currStates].  [assignPartitionCurrStates] refuses a
    step exactly when it is an ["add"] on a slot that holds a non-empty
    state; a step of any other kind is accepted whatever the slot
    holds.  An accepted step leaves its state and op in the slot, a
    refused one leaves the slot as it was, and in both cases every other
    slot of the table reads as before. *)
Theorem X9_currStates_step r index partition node state op :
  let res := assignPartitionCurrStates r index partition node state op in
  (is_Some res.2 <->
   op = "add"%string
   /\ exists so, currState r index partition node = Some so
                 /\ so_state so <> EmptyString)
  /\ (res.2 = None ->
      currState res.1 index partition node = Some (mkStateOp state op))
  /\ (is_Some res.2 ->
      currState res.1 index partition node
      = currState r index partition node)
  /\ (forall i p n,
        ~ (i = index /\ p = partition /\ n = node) ->
        currState res.1 i p n = currState r i p n)
  /\ r_endPlanPIndexes res.1 = r_endPlanPIndexes r
  /\ r_version res.1 = r_version r.
Proof.
  intros res. subst res. unfold assignPartitionCurrStates.
  set (partitions := default ∅ (r_currStates r !! index)).
  set (nodes := default ∅ (partitions !! partition)).
  assert (Hnodes : forall n, nodes !! n = currState r index partition n).
  { intros n. apply currState_nodes. }
  assert (Hocc : match nodes !! node with
                 | Some stateOp => negb (String.eqb (so_state stateOp) "")
                 | None => false
                 end = true
                 <-> exists so, currState r index partition node = Some so
                                /\ so_state so <> EmptyString).
  { rewrite Hnodes. destruct (currState r index partition node) as [so|].
    - destruct (String.eqb_spec (so_state so) "") as [E|N]; simpl; split.
      + discriminate.
      + intros (so' & [= <-] & N). contradiction.
      + eauto.
      + reflexivity.
    - split; [discriminate|]. intros (so & ? & _). discriminate. }
  subst partitions.
  destruct (String.eqb_spec op "add") as [->|Hop]; cbn [andb].
  - destruct (match nodes !! node with Some _ => _ | None => _ end) eqn:Ho;
      cbn [fst snd].
    + split_and!; try reflexivity.
      * split; [intros _; split; [reflexivity|now apply Hocc]|eauto].
      * discriminate.
      * intros _. rewrite currState_insert.
        destruct (decide _) as [_|N]; [apply Hnodes|exfalso; apply N; auto].
      * intros i p n Hne. rewrite currState_insert.
        destruct (decide _) as [[-> ->]|_]; [apply Hnodes|reflexivity].
    + split_and!; try reflexivity.
      * split; [intros [? ?]; discriminate|].
        intros [_ Hso]. apply Hocc in Hso. discriminate.
      * intros _. rewrite currState_insert.
        destruct (decide _) as [_|N]; [apply lookup_insert_eq|].
        exfalso; apply N; auto.
      * intros [? ?]. discriminate.
      * intros i p n Hne. rewrite currState_insert.
        destruct (decide _) as [[-> ->]|_]; [|reflexivity].
        rewrite lookup_insert_ne; [apply Hnodes|].
        intros ->. apply Hne. auto.
  - cbn [fst snd]. split_and!; try reflexivity.
    + split; [intros [? ?]; discriminate|]. intros [E _]. contradiction.
    + intros _. rewrite currState_insert.
      destruct (decide _) as [_|N]; [apply lookup_insert_eq|].
      exfalso; apply N; auto.
    + intros [? ?]. discriminate.
    + intros i p n Hne. rewrite currState_insert.
      destruct (decide _) as [[-> ->]|_]; [|reflexivity].
      rewrite lookup_insert_ne; [apply Hnodes|].
      intros ->. apply Hne. auto.
Qed.


(** X10. A failed step leaves its mark.  When a step passes the check
    against [currStates] and then fails - the index is not defined, the
    plan cannot be read, the plan entry is missing, the change is
    refused, or the CAS is lost - the rebalancer has already recorded
    the step's state and op in the slot, and the configuration store
    holds nothing of the step.  With a non-empty state, every later
    ["add"] for the same index, partition and node is then refused by
    the check against [currStates], whatever the store holds. *)
Theorem X10_failed_step_blocks_add r cfg others index partition node state op
    rng r0 r1 cfg1 rng1 err :
  assignPartitionCurrStates r index partition node state op = (r0, None) ->
  assignPartition r cfg others index partition node state op rng
  = Some (r1, cfg1, rng1, Some err) ->
  r1 = r0
  /\ currState r1 index partition node = Some (mkStateOp state op)
  /\ (cfg1 = cfg \/ cfg1 = others cfg)
  /\ (state <> EmptyString ->
      forall cfg2 others2 state2 rng2,
      exists err2,
        assignPartition r1 cfg2 others2 index partition node state2 "add" rng2
        = Some (r1, cfg2, rng2, Some err2)).
Proof.
  intros Hcs Hstep.
  destruct (assignPartitionCurrStates_free _ _ _ _ _ _ _ Hcs) as (Hslot & _).
  assert (E : r1 = r0 /\ (cfg1 = cfg \/ cfg1 = others cfg)).
  { unfold assignPartition in Hstep. rewrite Hcs in Hstep.
    destruct (PlannerGetIndexDefs cfg (r_version r0)) as [ids|e];
      [|injection Hstep as <- <- _ _; auto].
    destruct (ids_IndexDefs ids !! index) as [d|];
      [|injection Hstep as <- <- _ _; auto].
    destruct (PlannerGetPlanPIndexes cfg (r_version r0) rng)
      as [[[[pl cas]|e] rng']|];
      [|injection Hstep as <- <- _ _; auto|discriminate].
    destruct (updatePlanPIndexes r0 pl d partition node state op rng')
      as [[[pl' [e|]] rng'']|];
      [injection Hstep as <- <- _ _; auto| |discriminate].
    unfold CfgSetPlanPIndexes in Hstep.
    destruct (cas =? cfg_planCas (others cfg))%N;
      [discriminate|injection Hstep as <- <- _ _; auto]. }
  destruct E as [-> Hcfg]. split_and!; auto.
  intros Hne cfg2 others2 state2 rng2.
  destruct (assignPartitionCurrStates_occupied r0 index partition node state2
              (mkStateOp state op) Hslot Hne) as [err2 E2].
  exists err2. unfold assignPartition. rewrite E2. reflexivity.
Qed.

(** X11. Steps refused against the plan.  A step that passed the check
    against [currStates] is refused, and nothing is written to the
    configuration store, when the index has no definition, when neither
    the plan just read nor the rebalancer's end plan has an entry for
    the partition, and when the step is not an ["add"] (a ["del"], a
    promotion or a demotion) and the entry's node map does not hold the
    node.  In the last case the entry's new UUID is drawn before the
    node is looked up: the step returns the error if [NewUUID] returns,
    and panics if it panics. *)
Theorem X11_steps_refused r cfg others index partition node state op rng r1 :
  assignPartitionCurrStates r index partition node state op = (r1, None) ->
  (forall indexDefs,
     PlannerGetIndexDefs cfg (r_version r1) = Ok indexDefs ->
     ids_IndexDefs indexDefs !! index = None ->
     exists err,
       assignPartition r cfg others index partition node state op rng
       = Some (r1, cfg, rng, Some err))
  /\ (forall indexDefs indexDef pl cas rng1,
        PlannerGetIndexDefs cfg (r_version r1) = Ok indexDefs ->
        ids_IndexDefs indexDefs !! index = Some indexDef ->
        PlannerGetPlanPIndexes cfg (r_version r1) rng
        = Some (Ok (pl, cas), rng1) ->
        (findPlanPIndex r1 pl partition = None ->
         exists err,
           assignPartition r cfg others index partition node state op rng
           = Some (r1, cfg, rng1, Some err))
        /\ (op <> "add"%string ->
            forall p0,
              findPlanPIndex r1 pl partition = Some p0 ->
              pp_Nodes p0 !! node = None ->
              (forall uuid1 rng2,
                 NewUUID rng1 = Some (uuid1, rng2) ->
                 exists err,
                   assignPartition r cfg others index partition node state op
                     rng
                   = Some (r1, cfg, rng2, Some err))
              /\ (NewUUID rng1 = None ->
                  assignPartition r cfg others index partition node state op
                    rng
                  = None))).
Proof.
  intros Hcs. split.
  - intros ids Hids Hnone. unfold assignPartition.
    rewrite Hcs, Hids, Hnone. eauto.
  - intros ids d pl cas rng1 Hids Hd Hpl. split.
    + intros Hf. unfold assignPartition. rewrite Hcs, Hids, Hd, Hpl.
      unfold updatePlanPIndexes. rewrite Hf. eauto.
    + intros Hop p0 Hf Hn. split.
      * intros uuid1 rng2 Hu.
        destruct (updatePlanPIndexes_missing r1 pl d partition node state op
                    rng1 p0 uuid1 rng2 Hf Hop Hn Hu) as (pl' & err & Hup).
        exists err. unfold assignPartition.
        rewrite Hcs, Hids, Hd, Hpl, Hup. reflexivity.
      * intros Hu. unfold assignPartition. rewrite Hcs, Hids, Hd, Hpl.
        now rewrite (updatePlanPIndexes_panics r1 pl d partition node state
                       op rng1 p0 Hf Hu).
Qed.

End RebalancerExtras.

Lemma X10_failed_step_witness :
  exists r1 cfg1 rng1 err,
    @assignPartition sampleRand sampleEnv sampleRebalancer sampleCfg
      concurrentPlanner "i" "i_U_8dd93ce8" "N2" "replica" "add" 0
    = Some (r1, cfg1, rng1, Some err)
    /\ currState r1 "i" "i_U_8dd93ce8" "N2" = Some (mkStateOp "replica" "add")
    /\ exists err2,
         @assignPartition sampleRand sampleEnv r1 sampleCfg (fun cfg => cfg)
           "i" "i_U_8dd93ce8" "N2" "replica" "add" 7
         = Some (r1, sampleCfg, 7, Some err2).
Proof.
  destruct (@assignPartition sampleRand sampleEnv sampleRebalancer sampleCfg
              concurrentPlanner "i" "i_U_8dd93ce8" "N2" "replica" "add" 0)
    as [[[[r1 cfg1] rng1] [err|]]|] eqn:E;
    [|exfalso; vm_compute in E; discriminate E..].
  destruct (assignPartitionCurrStates sampleRebalancer "i" "i_U_8dd93ce8" "N2"
              "replica" "add") as [r0 [e|]] eqn:E0;
    [exfalso; vm_compute in E0; discriminate E0|].
  destruct (@X10_failed_step_blocks_add sampleRand sampleEnv _ _ _ _ _ _ _ _ _
              _ _ _ _ _ E0 E) as (_ & Hslot & _ & Hretry).
  exists r1, cfg1, rng1, err. split; [reflexivity|]. split; [exact Hslot|].
  apply Hretry. discriminate.
Defined.

Lemma X11_steps_refused_witness :
  exists r1 err,
    assignPartitionCurrStates sampleRebalancer "i" "i_U_8dd93ce8" "N2"
      "replica" "del" = (r1, None)
    /\ exists rng',
         @assignPartition sampleRand sampleEnv sampleRebalancer sampleCfg
           (fun cfg => cfg) "i" "i_U_8dd93ce8" "N2" "replica" "del" 0
         = Some (r1, sampleCfg, rng', Some err).
Proof.
  destruct (assignPartitionCurrStates sampleRebalancer "i" "i_U_8dd93ce8" "N2"
              "replica" "del") as [r1 [e|]] eqn:E0;
    [exfalso; vm_compute in E0; discriminate E0|].
  destruct (proj2 (@X11_steps_refused sampleRand sampleEnv sampleRebalancer
                     sampleCfg (fun cfg => cfg) "i" "i_U_8dd93ce8" "N2"
                     "replica" "del" 0 r1 E0)
              (mkIndexDefs "d0" (<["i" := sampleIndexDef "engine" false 0]> ∅) "1.0")
              (sampleIndexDef "engine" false 0) samplePrevPlan 5%N 0)
    as [_ H].
  - vm_compute in E0. injection E0 as <-. vm_compute. reflexivity.
  - vm_compute. reflexivity.
  - vm_compute in E0. injection E0 as <-. vm_compute. reflexivity.
  - destruct (H ltac:(discriminate) samplePrevEntry) as [Hret _].
    + vm_compute in E0. injection E0 as <-. vm_compute. reflexivity.
    + vm_compute. reflexivity.
    + destruct (sampleRand_fits 0) as [[uuid1 rng2] Hu].
      destruct (Hret uuid1 rng2 Hu) as [err E].
      exists r1, err. split; [reflexivity|]. eauto.
Defined.

(** ** misc.go: string sets and versions *)

Section MiscExtras.

Lemma mapIndexBool_StringsToMap (l : list string) (s : string) :
  mapIndexBool (StringsToMap (Some l)) s = bool_decide (s ∈ l).
Proof.
  unfold mapIndexBool, StringsToMap.
  rewrite (foldl_insert_lookup (fun _ => true)).
  destruct (decide (s ∈ l)) as [Hin|Hnin].
  - now rewrite bool_decide_eq_true_2.
  - rewrite lookup_empty. now rewrite bool_decide_eq_false_2.
Qed.

Lemma mapIndexBool_StringsToMap_opt (l : option (list string)) (s : string) :
  mapIndexBool (StringsToMap l) s = bool_decide (s ∈ default [] l).
Proof.
  destruct l as [l|]; [apply mapIndexBool_StringsToMap|].
  cbn [StringsToMap mapIndexBool default]. symmetry.
  apply bool_decide_eq_false_2. intros H. inversion H.
Qed.

(** X12. [StringsRemoveStrings(stringArr, removeArr)] is [stringArr]
    without the strings that occur in [removeArr]: the others are kept,
    each as often as it occurs and in the order of [stringArr].  A nil
    slice counts as an empty one on either side. *)
Theorem X12_strings_remove (stringArr removeArr : option (list string)) :
  StringsRemoveStrings stringArr removeArr
  = filter (fun s => s ∉ default [] removeArr) (default [] stringArr).
Proof.
  unfold StringsRemoveStrings.
  assert (H : forall l acc,
            foldl (fun rv s =>
                     if negb (mapIndexBool (StringsToMap removeArr) s)
                     then rv ++ [s] else rv) acc l
            = acc ++ filter (fun s => s ∉ default [] removeArr) l).
  { induction l as [|x l IH]; intros acc; simpl.
    - now rewrite app_nil_r.
    - rewrite IH, mapIndexBool_StringsToMap_opt, filter_cons.
      destruct (decide (x ∉ default [] removeArr)) as [Hn|Hy].
      + rewrite bool_decide_eq_false_2 by exact Hn. simpl.
        now rewrite <- app_assoc.
      + rewrite bool_decide_eq_true_2; [reflexivity|].
        destruct (decide (x ∈ default [] removeArr)); [assumption|].
        contradiction. }
  apply (H _ []).
Qed.

(** The loop of [StringsIntersectStrings]: [rMap] holds the strings of
    [rv], which are distinct. *)
Lemma StringsIntersectStrings_loop (b : option (list string)) (l : list string) :
  forall (rMap : gmap string bool) (rv : list string),
    NoDup rv ->
    (forall s, mapIndexBool (Some rMap) s = bool_decide (s ∈ rv)) ->
    let st := foldl (fun (st : gmap string bool * list string) s =>
                       if mapIndexBool (StringsToMap b) s
                          && negb (mapIndexBool (Some st.1) s)
                       then (<[s := true]> st.1, st.2 ++ [s])
                       else st) (rMap, rv) l in
    NoDup st.2
    /\ (forall s, s ∈ st.2 <-> s ∈ rv \/ (s ∈ l /\ s ∈ default [] b))
    /\ exists l', st.2 = rv ++ l' /\ l' `sublist_of` l
                  /\ (NoDup l -> (forall s, s ∈ l -> s ∉ rv) ->
                      l' = filter (fun s => s ∈ default [] b) l).
Proof.
  induction l as [|x l IH]; intros rMap rv Hnd Hmap; cbn [foldl].
  - cbn zeta. split; [exact Hnd|]. split.
    + intros s. split; [auto|]. intros [?|[H _]]; [assumption|inversion H].
    + exists []. rewrite app_nil_r. auto.
  - rewrite mapIndexBool_StringsToMap_opt, Hmap. cbn [fst snd].
    destruct (decide (x ∈ default [] b)) as [Hb|Hb];
      [rewrite (bool_decide_eq_true_2 _ Hb)
      |rewrite (bool_decide_eq_false_2 _ Hb)]; cbn [andb].
    + destruct (decide (x ∈ rv)) as [Hr|Hr];
        [rewrite (bool_decide_eq_true_2 _ Hr)
        |rewrite (bool_decide_eq_false_2 _ Hr)]; cbn [negb].
      * destruct (IH rMap rv Hnd Hmap) as (N & M & l' & E & S & F).
        cbn zeta in *. split; [exact N|]. split.
        -- intros s. rewrite M. split; intros [?|[Hl ?]]; auto.
           ++ right. split; [now right|assumption].
           ++ apply elem_of_cons in Hl as [->|Hl]; auto.
        -- exists l'. split; [exact E|]. split; [now constructor|].
           intros Hndl Hfresh. exfalso. apply (Hfresh x); [left|exact Hr].
      * destruct (IH (<[x := true]> rMap) (rv ++ [x])) as (N & M & l' & E & S & F).
        { apply NoDup_app. split; [exact Hnd|]. split; [|apply NoDup_singleton].
          intros y Hy Hx. apply list_elem_of_singleton in Hx. congruence. }
        { intros s. cbn [mapIndexBool].
          destruct (decide (s = x)) as [->|Hne].
          - rewrite lookup_insert_eq. symmetry. apply bool_decide_eq_true_2.
            apply elem_of_app. right. constructor.
          - rewrite lookup_insert_ne by congruence.
            specialize (Hmap s). cbn [mapIndexBool] in Hmap. rewrite Hmap.
            apply bool_decide_ext. rewrite elem_of_app, list_elem_of_singleton.
            split; [auto|]. intros [?|?]; [assumption|contradiction]. }
        cbn zeta in *. split; [exact N|]. split.
        -- intros s. rewrite M, elem_of_app, list_elem_of_singleton.
           split.
           ++ intros [[?| ->]|[Hl ?]]; auto.
              ** right. split; [left|assumption].
              ** right. split; [now right|assumption].
           ++ intros [?|[Hl ?]]; auto.
              apply elem_of_cons in Hl as [->|Hl]; auto.
        -- exists (x :: l'). split; [rewrite E, <- app_assoc; reflexivity|].
           split; [now constructor|].
           intros Hndl Hfresh. apply NoDup_cons in Hndl as [Hxl Hndl].
           rewrite filter_cons. destruct (decide (x ∈ default [] b));
             [|contradiction].
           f_equal. apply F; [exact Hndl|].
           intros s Hs Hin. apply elem_of_app in Hin as [Hin|Hin].
           ++ apply (Hfresh s); [now right|exact Hin].
           ++ apply list_elem_of_singleton in Hin. congruence.
    + destruct (IH rMap rv Hnd Hmap) as (N & M & l' & E & S & F).
      cbn zeta in *. split; [exact N|]. split.
      * intros s. rewrite M. split; intros [?|[Hl ?]]; auto.
        -- right. split; [now right|assumption].
        -- apply elem_of_cons in Hl as [->|Hl]; [contradiction|auto].
      * exists l'. split; [exact E|]. split; [now constructor|].
        intros Hndl Hfresh. apply NoDup_cons in Hndl as [Hxl Hndl].
        rewrite filter_cons. destruct (decide (x ∈ default [] b));
          [contradiction|].
        apply F; [exact Hndl|]. intros s Hs. apply Hfresh. now right.
Qed.

(** X13. [StringsIntersectStrings(a, b)] holds every string that occurs
    in both [a] and [b], once and only those, in the order in which they
    occur in [a]; when [a] has no duplicates it is [a] without the
    strings that [b] lacks.  In particular
    [StringsIntersectStrings(a, a)] holds the strings of [a] without
    duplicates. *)
Theorem X13_strings_intersect (a b : option (list string)) :
  let rv := StringsIntersectStrings a b in
  NoDup rv
  /\ (forall s, s ∈ rv <-> s ∈ default [] a /\ s ∈ default [] b)
  /\ rv `sublist_of` default [] a
  /\ (NoDup (default [] a) ->
      rv = filter (fun s => s ∈ default [] b) (default [] a))
  /\ (forall s, s ∈ StringsIntersectStrings a a <-> s ∈ default [] a).
Proof.
  assert (H : forall b0 : option (list string),
            let rv := StringsIntersectStrings a b0 in
            NoDup rv
            /\ (forall s, s ∈ rv <-> s ∈ default [] a /\ s ∈ default [] b0)
            /\ rv `sublist_of` default [] a
            /\ (NoDup (default [] a) ->
                rv = filter (fun s => s ∈ default [] b0) (default [] a))).
  { intros b0. unfold StringsIntersectStrings.
    destruct (StringsIntersectStrings_loop b0 (default [] a) ∅ [])
      as (N & M & l' & E & S & F).
    { constructor. }
    { intros s. cbn. rewrite lookup_empty. symmetry.
      apply bool_decide_eq_false_2. intros Hin. inversion Hin. }
    cbv zeta in *. split; [exact N|]. split.
    - intros s. rewrite M. split; [|auto].
      intros [Hin|?]; [inversion Hin|assumption].
    - change ([] ++ l') with l' in E. rewrite E. split; [exact S|].
      intros Hnd. apply F; [exact Hnd|]. intros s _ Hin. inversion Hin. }
  intros rv. destruct (H b) as (N & M & S & F).
  split_and!; auto.
  intros s. destruct (H a) as (_ & M' & _). rewrite M'. tauto.
Qed.

Lemma versionGTE_parts_refl (xa : list string) :
  versionGTE_parts xa xa = true <-> Forall (fun p => is_Some (Atoi p)) xa.
Proof.
  induction xa as [|x l IH]; cbn [versionGTE_parts].
  - split; [constructor|reflexivity].
  - rewrite Forall_cons. destruct (Atoi x) as [xv|] eqn:E.
    + rewrite Z.ltb_irrefl. rewrite IH. split; [eauto|tauto].
    + split; [discriminate|]. intros [[v Hv] _]. discriminate.
Qed.

Lemma versionGTE_parts_trans (xa ya za : list string) :
  versionGTE_parts xa ya = true -> versionGTE_parts ya za = true ->
  versionGTE_parts xa za = true.
Proof.
  revert ya za. induction xa as [|x xa IH]; intros ya za.
  - destruct ya; [|discriminate]. auto.
  - destruct ya as [|y ya].
    + intros _. destruct za; [reflexivity|discriminate].
    + destruct za as [|z za]; [reflexivity|].
      cbn [versionGTE_parts].
      destruct (Atoi x) as [xv|]; [|discriminate].
      destruct (Atoi y) as [yv|]; [|discriminate].
      destruct (Atoi z) as [zv|]; [|discriminate].
      destruct (Z.ltb_spec yv xv), (Z.ltb_spec xv yv), (Z.ltb_spec zv yv),
        (Z.ltb_spec yv zv), (Z.ltb_spec zv xv), (Z.ltb_spec xv zv);
        try discriminate; try reflexivity; try lia.
      apply IH.
Qed.

Lemma versionGTE_parts_total (xa ya : list string) :
  Forall (fun p => is_Some (Atoi p)) xa ->
  Forall (fun p => is_Some (Atoi p)) ya ->
  versionGTE_parts xa ya = true \/ versionGTE_parts ya xa = true.
Proof.
  intros Hx. revert ya. induction Hx as [|x xa [xv Ex] Hx IH]; intros ya Hy.
  - right. now destruct ya.
  - destruct Hy as [|y ya [yv Ey] Hy]; [now left|].
    cbn [versionGTE_parts]. rewrite Ex, Ey.
    destruct (Z.ltb_spec yv xv), (Z.ltb_spec xv yv); auto; try lia.
Qed.

Lemma versionGTE_parts_antisym (xa ya : list string) :
  versionGTE_parts xa ya = true -> versionGTE_parts ya xa = true ->
  Forall2 (fun p q => is_Some (Atoi p) /\ Atoi p = Atoi q) xa ya.
Proof.
  revert ya. induction xa as [|x xa IH]; intros ya.
  - destruct ya; [constructor|discriminate].
  - destruct ya as [|y ya]; [discriminate|].
    cbn [versionGTE_parts].
    destruct (Atoi x) as [xv|] eqn:Ex; [|discriminate].
    destruct (Atoi y) as [yv|] eqn:Ey; [|discriminate].
    destruct (Z.ltb_spec yv xv), (Z.ltb_spec xv yv);
      try discriminate; try lia.
    intros H1 H2. constructor; [|auto].
    split; [eauto|]. rewrite Ex, Ey. f_equal. lia.
Qed.

(** X14. [VersionGTE] orders versions part by part.  [VersionGTE(x, x)]
    holds exactly when every dot-separated part of [x] is a number for
    [strconv.Atoi], so a version with a part that is not a number is not
    even at least itself.  [VersionGTE] is transitive; of two versions
    with numeric parts one is at least the other; and two versions each
    at least the other have the same number of parts, with equal values
    part by part. *)
Theorem X14_version_order (x y z : string) :
  (VersionGTE x x = true <-> numericVersion x)
  /\ (VersionGTE x y = true -> VersionGTE y z = true -> VersionGTE x z = true)
  /\ (numericVersion x -> numericVersion y ->
      VersionGTE x y = true \/ VersionGTE y x = true)
  /\ (VersionGTE x y = true -> VersionGTE y x = true ->
      Forall2 (fun p q => is_Some (Atoi p) /\ Atoi p = Atoi q)
              (splitOn "." x EmptyString) (splitOn "." y EmptyString)).
Proof.
  unfold VersionGTE, numericVersion. split_and!.
  - apply versionGTE_parts_refl.
  - apply versionGTE_parts_trans.
  - apply versionGTE_parts_total.
  - apply versionGTE_parts_antisym.
Qed.

Lemma X14_version_order_witness :
  VersionGTE "5.1.0" "5.0.0" = true /\ VersionGTE "5.0.0" "4.9" = true
  /\ VersionGTE "5.1.0" "4.9" = true /\ VersionGTE "1.x" "1.x" = false.
Proof.
  split; [reflexivity|]. split; [reflexivity|]. split; [|reflexivity].
  apply (proj1 (proj2 (X14_version_order "5.1.0" "5.0.0" "4.9")));
    reflexivity.
Defined.

End MiscExtras.

(** ** pindex.go: what [ParsePIndexPath] accepts *)

Lemma substring_shift (a b : string) (k m : nat) :
  substring (String.length a + k) m (a +:+ b) = substring k m b.
Proof.
  induction a as [|c a IH]; [reflexivity|].
  rewrite append_cons. simpl. exact IH.
Qed.

Lemma str_from_shift (a b : string) (k : nat) :
  str_from (String.length a + k) (a +:+ b) = str_from k b.
Proof.
  unfold str_from. rewrite length_append, substring_shift. f_equal. lia.
Qed.

Lemma substring_split (n : nat) (s : string) :
  n <= String.length s -> s = substring 0 n s +:+ str_from n s.
Proof.
  unfold str_from. revert s. induction n as [|n IH]; intros s Hn.
  - rewrite Nat.sub_0_r, substring_all. now destruct s.
  - destruct s as [|c s]; [simpl in Hn; lia|].
    simpl in Hn. simpl. rewrite append_cons. f_equal. apply IH. lia.
Qed.

Lemma HasPrefix_inv (s pre : string) :
  HasPrefix s pre = true -> s = pre +:+ str_from (String.length pre) s.
Proof.
  unfold HasPrefix. intros Hp. apply andb_true_iff in Hp as [Hl He].
  apply Nat.leb_le in Hl. apply String.eqb_eq in He.
  rewrite <- He at 1. now apply substring_split.
Qed.

Lemma HasSuffix_inv (s suf : string) :
  HasSuffix s suf = true ->
  String.length suf <= String.length s
  /\ str_from (String.length s - String.length suf) s = suf.
Proof.
  unfold HasSuffix. intros Hp. apply andb_true_iff in Hp as [Hl He].
  apply Nat.leb_le in Hl. apply String.eqb_eq in He. auto.
Qed.

Lemma get_In (s : string) (n : nat) (c : ascii) :
  String.get n s = Some c -> In c (list_ascii_of_string s).
Proof.
  revert n. induction s as [|x s IH]; intros n; [discriminate|].
  destruct n as [|n]; simpl.
  - intros [= ->]. now left.
  - intros Hg. right. eauto.
Qed.

Lemma get_str_from (s : string) (n k : nat) :
  n <= String.length s -> String.get k (str_from n s) = String.get (n + k) s.
Proof.
  unfold str_from. revert s. induction n as [|n IH]; intros s Hn.
  - now rewrite Nat.sub_0_r, substring_all.
  - destruct s as [|c s]; [simpl in Hn; lia|].
    simpl in Hn. simpl. apply IH. lia.
Qed.

Section PIndexPathExtras.
Context `{GoOS}.

(** X15. What [ParsePIndexPath] accepts.  When it answers [ok = true]
    with a name, the path is exactly the one [PIndexPath] builds for the
    data directory and that name, so a path parses to at most one name
    and only paths built this way parse.  The slice expressions of the
    function can go out of range only when the prefix and the
    [".pindex"] suffix overlap in the path, which needs the path
    separator to be a character of [".pindex"]: with any other
    separator the function never panics. *)
Theorem X15_parse_pindex_path (dataDir path : string) :
  (forall name, ParsePIndexPath dataDir path = Some (name, true) ->
                path = PIndexPath dataDir name)
  /\ (ParsePIndexPath dataDir path = None ->
      In PathSeparator (list_ascii_of_string pindexPathSuffix))
  /\ (~ In PathSeparator (list_ascii_of_string pindexPathSuffix) ->
      exists name ok, ParsePIndexPath dataDir path = Some (name, ok)
                      /\ (ok = false -> name = EmptyString)).
Proof.
  assert (Hcases :
    (exists name, ParsePIndexPath dataDir path = Some (name, true)
                  /\ path = PIndexPath dataDir name)
    \/ ParsePIndexPath dataDir path = Some (EmptyString, false)
    \/ (ParsePIndexPath dataDir path = None
        /\ In PathSeparator (list_ascii_of_string pindexPathSuffix))).
  { unfold ParsePIndexPath.
    destruct (HasSuffix path pindexPathSuffix) eqn:Hs; cbn [negb]; [|now auto].
    destruct (HasPrefix path (dataDir +:+ sepString)) eqn:Hp; cbn [negb];
      [|now auto].
    apply HasPrefix_inv in Hp. apply HasSuffix_inv in Hs as [Hl Hs].
    set (pre := dataDir +:+ sepString) in *.
    set (r := str_from (String.length pre) path) in *.
    assert (Hlen : String.length path = String.length pre + String.length r).
    { rewrite Hp at 1. apply length_append. }
    destruct (Nat.ltb_spec (String.length r) (String.length pindexPathSuffix))
      as [Hlt|Hge].
    - right. right. split; [reflexivity|].
      apply (get_In _ (String.length dataDir
                       - (String.length path - String.length pindexPathSuffix))).
      set (k := String.length dataDir
                - (String.length path - String.length pindexPathSuffix)).
      rewrite <- Hs. rewrite get_str_from by lia. subst k.
      assert (Hpre : String.length pre = String.length dataDir + 1).
      { unfold pre. rewrite length_append. reflexivity. }
      replace (String.length path - String.length pindexPathSuffix
               + (String.length dataDir
                  - (String.length path - String.length pindexPathSuffix)))
        with (String.length dataDir) by lia.
      rewrite Hp. unfold pre. rewrite append_assoc.
      rewrite <- (append_correct2 dataDir _ 0). reflexivity.
    - left. eexists. split; [reflexivity|].
      unfold PIndexPath. fold pre.
      rewrite Hp at 1. rewrite <- !append_assoc. fold pre.
      rewrite append_assoc. f_equal.
      rewrite <- Hs at 2. rewrite Hp at 2.
      replace (String.length path - String.length pindexPathSuffix)
        with (String.length pre
              + (String.length r - String.length pindexPathSuffix)) by lia.
      rewrite str_from_shift. apply substring_split. lia. }
  split_and!.
  - intros name E.
    destruct Hcases as [(n & E' & Hn)|[E'|[E' _]]]; rewrite E in E';
      [|discriminate..].
    injection E' as <-. exact Hn.
  - intros E. destruct Hcases as [(n & E' & _)|[E'|[_ Hin]]];
      [rewrite E in E'; discriminate..|exact Hin].
  - intros Hsep. destruct Hcases as [(n & E' & _)|[E'|[_ Hin]]].
    + exists n, true. split; [exact E'|discriminate].
    + exists EmptyString, false. auto.
    + contradiction.
Qed.

End PIndexPathExtras.

Lemma X15_parse_pindex_path_witness :
  "/data/i_U_8dd93ce8.pindex" = @PIndexPath unixOS "/data" "i_U_8dd93ce8"
  /\ exists name ok,
       @ParsePIndexPath unixOS "/data.pinde" "/data.pinde/" = Some (name, ok)
       /\ (ok = false -> name = EmptyString).
Proof.
  split.
  - apply (proj1 (@X15_parse_pindex_path unixOS "/data"
                    "/data/i_U_8dd93ce8.pindex")).
    reflexivity.
  - apply (proj2 (proj2 (@X15_parse_pindex_path unixOS "/data.pinde"
                           "/data.pinde/"))).
    cbn. intros Hin. repeat (destruct Hin as [Hin|Hin]; [discriminate|]).
    exact Hin.
Defined.

(** ** planner.go: the nodes layout *)

Lemma String_compare_trans (a b c : string) :
  String.compare a b <> Gt -> String.compare b c <> Gt ->
  String.compare a c <> Gt.
Proof.
  revert b c. induction a as [|x a IH]; intros [|y b] [|z c]; simpl;
    try congruence.
  unfold Ascii.compare.
  destruct (N.compare_spec (N_of_ascii x) (N_of_ascii y)) as [Exy|Lxy|Gxy],
    (N.compare_spec (N_of_ascii y) (N_of_ascii z)) as [Eyz|Lyz|Gyz],
    (N.compare_spec (N_of_ascii x) (N_of_ascii z)) as [Exz|Lxz|Gxz];
    try congruence; try lia.
  apply IH.
Qed.

#[local] Instance strLe_trans : Transitive strLe.
Proof.
  intros a b c. unfold strLe, String.leb. intros Hab Hbc.
  pose proof (String_compare_trans a b c) as Ht.
  destruct (String.compare a b), (String.compare b c), (String.compare a c);
    try reflexivity; try discriminate; exfalso; apply Ht; congruence.
Qed.

#[local] Instance strLe_total : Total strLe.
Proof. intros a b. apply String.leb_total. Qed.

#[local] Instance strLe_antisym : AntiSymm (=) strLe.
Proof. intros a b. apply String.leb_antisym. Qed.

Lemma sort_Strings_elem (l : list string) (s : string) :
  s ∈ sort_Strings l <-> s ∈ l.
Proof. unfold sort_Strings. now rewrite merge_sort_Permutation. Qed.

Lemma sort_Strings_sorted (l : list string) :
  StronglySorted strLe (sort_Strings l).
Proof. apply StronglySorted_merge_sort; apply _. Qed.

Lemma sort_Strings_NoDup (l : list string) : NoDup l -> NoDup (sort_Strings l).
Proof. unfold sort_Strings. now rewrite merge_sort_Permutation. Qed.

(** Two duplicate-free sorted lists of the same strings are equal. *)
Lemma sort_Strings_unique (l1 l2 : list string) :
  NoDup l1 -> NoDup l2 -> (forall s, s ∈ l1 <-> s ∈ l2) ->
  sort_Strings l1 = sort_Strings l2.
Proof.
  intros N1 N2 E. apply (StronglySorted_unique strLe).
  - apply sort_Strings_sorted.
  - apply sort_Strings_sorted.
  - unfold sort_Strings. rewrite !merge_sort_Permutation.
    now apply NoDup_Permutation.
Qed.

Lemma dedupe_spec (l : list string) :
  NoDup (StringsIntersectStrings (Some l) (Some l))
  /\ forall s, s ∈ StringsIntersectStrings (Some l) (Some l) <-> s ∈ l.
Proof.
  unfold StringsIntersectStrings.
  destruct (StringsIntersectStrings_loop (Some l) l ∅ [])
    as (N & M & _).
  { constructor. }
  { intros s. cbn [mapIndexBool]. rewrite lookup_empty. symmetry.
    apply bool_decide_eq_false_2. intros Hin. inversion Hin. }
  cbv zeta in N, M. cbn [default]. split; [exact N|].
  intros s. rewrite M. cbn [default]. split.
  - intros [Hin|[? _]]; [inversion Hin|assumption].
  - auto.
Qed.

Lemma remove_spec (a r : list string) :
  (NoDup a -> NoDup (StringsRemoveStrings (Some a) (Some r)))
  /\ forall s, s ∈ StringsRemoveStrings (Some a) (Some r) <-> s ∈ a /\ s ∉ r.
Proof.
  unfold StringsRemoveStrings.
  assert (H : forall l acc,
            foldl (fun rv s =>
                     if negb (mapIndexBool (StringsToMap (Some r)) s)
                     then rv ++ [s] else rv) acc l
            = acc ++ filter (fun s => s ∉ r) l).
  { induction l as [|x l IH]; intros acc; cbn [foldl].
    - now rewrite app_nil_r.
    - rewrite IH, mapIndexBool_StringsToMap, filter_cons.
      destruct (decide (x ∉ r)) as [Hn|Hy].
      + rewrite bool_decide_eq_false_2 by exact Hn. cbn [negb].
        now rewrite <- app_assoc.
      + rewrite bool_decide_eq_true_2; [reflexivity|].
        destruct (decide (x ∈ r)); [assumption|contradiction]. }
  cbn [default]. rewrite H. cbn [app]. split.
  - apply NoDup_filter.
  - intros s. rewrite list_elem_of_filter. tauto.
Qed.

Lemma nodeDefStep_cases us w h nd :
  Layout.nodeDefStep (us, w, h) nd
  = if decide (canHostPIndexes nd)
    then (us ++ [nd_UUID nd],
          if (0 <? nd_Weight nd)%Z then <[nd_UUID nd := nd_Weight nd]> w
          else w,
          (foldl Layout.ancestorStep (h, nd_UUID nd)
                 (splitOn "/" (nd_Container nd) EmptyString)).1)
    else (us, w, h).
Proof.
  unfold Layout.nodeDefStep, canHostPIndexes, decide, canHostPIndexes_dec.
  destruct (nd_Tags nd) as [tags|]; [|reflexivity].
  rewrite mapIndexBool_StringsToMap. cbn [StringsToMap orb].
  unfold bool_decide. destruct (decide_rel elem_of "pindex" tags); reflexivity.
Qed.

Lemma nodeDefs_fold_uuids nds : forall us w h u,
  u ∈ (foldl Layout.nodeDefStep (us, w, h) nds).1.1
  <-> u ∈ us \/ hosting nds u.
Proof.
  unfold hosting.
  induction nds as [|nd nds IH]; intros us w h u; cbn [foldl].
  - cbn [fst]. split; [auto|]. intros [?|(x & Hx & _)]; [assumption|].
    inversion Hx.
  - rewrite nodeDefStep_cases. destruct (decide (canHostPIndexes nd)) as [Hc|Hc].
    + rewrite IH, elem_of_app, list_elem_of_singleton. split.
      * intros [[?| ->]|(x & Hx & Hh & Hu)]; auto.
        -- right. exists nd. split; [left|auto].
        -- right. exists x. split; [now right|auto].
      * intros [?|(x & Hx & Hh & Hu)]; auto.
        apply elem_of_cons in Hx as [->|Hx]; [auto|].
        right. exists x. auto.
    + rewrite IH. split.
      * intros [?|(x & Hx & Hh & Hu)]; auto.
        right. exists x. split; [now right|auto].
      * intros [?|(x & Hx & Hh & Hu)]; auto.
        apply elem_of_cons in Hx as [->|Hx]; [contradiction|].
        right. exists x. auto.
Qed.

Section LayoutExtras.

Variable rangeOf : forall V : Type, gmap string V -> list (string * V).
Hypothesis rangeOf_entries : forall V (m : gmap string V),
  rangeOf V m ≡ₚ map_to_list m.

Lemma prevNodeUUIDs_spec prev u :
  u ∈ Layout.prevNodeUUIDs rangeOf prev <-> inPlan prev u.
Proof.
  unfold Layout.prevNodeUUIDs, inPlan. destruct prev as [prev|].
  - rewrite list_elem_of_bind. split.
    + intros ([k pp] & Hu & Hk). rewrite rangeOf_entries in Hk.
      apply elem_of_map_to_list in Hk.
      apply list_elem_of_fmap in Hu as ([u' n] & -> & Hn).
      rewrite rangeOf_entries in Hn. apply elem_of_map_to_list in Hn.
      exists prev, k, pp. cbn in *. eauto.
    + intros (prev' & k & pp & [= <-] & Hk & [n Hn]).
      exists (k, pp). split.
      * apply list_elem_of_fmap. exists (u, n). split; [reflexivity|].
        rewrite rangeOf_entries. now apply elem_of_map_to_list.
      * rewrite rangeOf_entries. now apply elem_of_map_to_list.
  - split; [intros Hin; inversion Hin|].
    intros (? & ? & ? & [=] & _).
Qed.

Lemma CalcNodesLayout_lists nodeDefs prev :
  let layout := Layout.CalcNodesLayout rangeOf nodeDefs prev in
  (NoDup (nodeUUIDsAll layout)
   /\ forall u, u ∈ nodeUUIDsAll layout
                <-> hosting nodeDefs u \/ inPlan prev u)
  /\ (NoDup (nodeUUIDsToAdd layout)
      /\ forall u, u ∈ nodeUUIDsToAdd layout
                   <-> hosting nodeDefs u /\ ~ inPlan prev u)
  /\ (NoDup (nodeUUIDsToRemove layout)
      /\ forall u, u ∈ nodeUUIDsToRemove layout
                   <-> inPlan prev u /\ ~ hosting nodeDefs u).
Proof.
  unfold Layout.CalcNodesLayout.
  pose proof (nodeDefs_fold_uuids nodeDefs [] ∅ ∅) as Hus.
  destruct (foldl Layout.nodeDefStep ([], ∅, ∅) nodeDefs) as [[us w] h].
  cbn [fst] in Hus. cbn [nodeUUIDsAll nodeUUIDsToAdd nodeUUIDsToRemove].
  assert (Hus' : forall u, u ∈ us <-> hosting nodeDefs u).
  { intros u. rewrite Hus. split; [|auto].
    intros [Hin|?]; [inversion Hin|assumption]. }
  set (prev0 := Layout.prevNodeUUIDs rangeOf prev).
  destruct (dedupe_spec prev0) as [Np Mp].
  set (prev1 := StringsIntersectStrings (Some prev0) (Some prev0)) in *.
  destruct (dedupe_spec (us ++ prev1)) as [Na Ma].
  set (all := StringsIntersectStrings (Some (us ++ prev1))
                (Some (us ++ prev1))) in *.
  destruct (remove_spec all prev1) as [Nadd Madd].
  destruct (remove_spec all us) as [Nrem Mrem].
  assert (Hprev : forall u, u ∈ prev1 <-> inPlan prev u).
  { intros u. rewrite Mp. apply prevNodeUUIDs_spec. }
  assert (Hall : forall u, u ∈ all <-> hosting nodeDefs u \/ inPlan prev u).
  { intros u. now rewrite Ma, elem_of_app, Hus', Hprev. }
  split_and!.
  - now apply sort_Strings_NoDup.
  - intros u. now rewrite sort_Strings_elem.
  - apply sort_Strings_NoDup. auto.
  - intros u. rewrite sort_Strings_elem, Madd, Hall, Hprev. tauto.
  - apply sort_Strings_NoDup. auto.
  - intros u. rewrite sort_Strings_elem, Mrem, Hall, Hus'. tauto.
Qed.

End LayoutExtras.

(** X16. The node lists of [CalcNodesLayout].  [nodeUUIDsAll] holds the
    nodes whose definition can support pindexes (no tag list at all, or
    a tag list with ["pindex"]; an empty tag list does not qualify) and
    the nodes that the previous plan names; [nodeUUIDsToAdd] holds the
    first kind that the previous plan does not name, and
    [nodeUUIDsToRemove] the nodes of the previous plan that are not of
    the first kind.  Each list is in increasing order and without
    duplicates, and none of them depends on the orders in which the maps
    are ranged over. *)
Theorem X16_nodes_layout_lists
    (rangeOf : forall V : Type, gmap string V -> list (string * V))
    (nodeDefs : list NodeDef) (prev : option PlanPIndexes) :
  (forall V (m : gmap string V), rangeOf V m ≡ₚ map_to_list m) ->
  let layout := Layout.CalcNodesLayout rangeOf nodeDefs prev in
  (forall u, u ∈ nodeUUIDsAll layout <-> hosting nodeDefs u \/ inPlan prev u)
  /\ (forall u, u ∈ nodeUUIDsToAdd layout
                <-> hosting nodeDefs u /\ ~ inPlan prev u)
  /\ (forall u, u ∈ nodeUUIDsToRemove layout
                <-> inPlan prev u /\ ~ hosting nodeDefs u)
  /\ Forall (fun l => StronglySorted strLe l /\ NoDup l)
            [nodeUUIDsAll layout; nodeUUIDsToAdd layout;
             nodeUUIDsToRemove layout]
  /\ (forall rangeOf' nodeDefs',
        (forall V (m : gmap string V), rangeOf' V m ≡ₚ map_to_list m) ->
        nodeDefs' ≡ₚ nodeDefs ->
        let layout' := Layout.CalcNodesLayout rangeOf' nodeDefs' prev in
        nodeUUIDsAll layout' = nodeUUIDsAll layout
        /\ nodeUUIDsToAdd layout' = nodeUUIDsToAdd layout
        /\ nodeUUIDsToRemove layout' = nodeUUIDsToRemove layout).
Proof.
  intros Hrange layout.
  destruct (CalcNodesLayout_lists rangeOf Hrange nodeDefs prev)
    as ((Na & Ma) & (Nadd & Madd) & (Nrem & Mrem)).
  fold layout in Na, Ma, Nadd, Madd, Nrem, Mrem.
  split; [exact Ma|]. split; [exact Madd|]. split; [exact Mrem|].
  assert (Hsorted : forall r nds,
            let l := Layout.CalcNodesLayout r nds prev in
            StronglySorted strLe (nodeUUIDsAll l)
            /\ StronglySorted strLe (nodeUUIDsToAdd l)
            /\ StronglySorted strLe (nodeUUIDsToRemove l)).
  { intros r nds. unfold Layout.CalcNodesLayout.
    destruct (foldl Layout.nodeDefStep ([], ∅, ∅) nds) as [[us w] h].
    cbn [nodeUUIDsAll nodeUUIDsToAdd nodeUUIDsToRemove].
    split_and!; apply sort_Strings_sorted. }
  destruct (Hsorted rangeOf nodeDefs) as (Sa & Sadd & Srem).
  fold layout in Sa, Sadd, Srem.
  split.
  - do 3 (constructor; [split; assumption|]). constructor.
  - intros rangeOf' nodeDefs' Hrange' Hperm layout'.
    destruct (CalcNodesLayout_lists rangeOf' Hrange' nodeDefs' prev)
      as ((Na' & Ma') & (Nadd' & Madd') & (Nrem' & Mrem')).
    destruct (Hsorted rangeOf' nodeDefs') as (Sa' & Sadd' & Srem').
    fold layout' in Na', Ma', Nadd', Madd', Nrem', Mrem', Sa', Sadd', Srem'.
    assert (Hh : forall u, hosting nodeDefs' u <-> hosting nodeDefs u).
    { intros u. unfold hosting. now setoid_rewrite Hperm. }
    split_and!; apply (StronglySorted_unique strLe);
      try assumption; apply NoDup_Permutation; auto; intros u.
    + now rewrite Ma, Ma', Hh.
    + now rewrite Madd, Madd', Hh.
    + now rewrite Mrem, Mrem', Hh.
Qed.

Lemma ancestors_fold (l : list string) : forall h child c a,
  (foldl Layout.ancestorStep (h, child) l).1 !! c = Some a ->
  h !! c = Some a
  \/ (c <> EmptyString /\ a <> EmptyString
      /\ exists l1 l2, child :: l = l1 ++ c :: a :: l2).
Proof.
  induction l as [|x l IH]; intros h child c a; cbn [foldl].
  - cbn [fst]. auto.
  - cbn [Layout.ancestorStep]. intros Hr. apply IH in Hr.
    destruct Hr as [Hr|(Hc & Ha & l1 & l2 & E)].
    + destruct (String.eqb_spec child EmptyString) as [E1|N1];
        cbn [negb andb] in Hr; [now left|].
      destruct (String.eqb_spec x EmptyString) as [E2|N2];
        cbn [negb andb] in Hr; [now left|].
      destruct (decide (c = child)) as [->|Hne].
      * rewrite lookup_insert_eq in Hr. injection Hr as <-.
        right. split; [assumption|]. split; [assumption|].
        now exists [], l.
      * rewrite lookup_insert_ne in Hr by congruence. now left.
    + right. split; [assumption|]. split; [assumption|].
      exists (child :: l1), l2. now rewrite E.
Qed.

Lemma nodeDefs_fold_weights nds : forall us w h u x,
  (foldl Layout.nodeDefStep (us, w, h) nds).1.2 !! u = Some x ->
  w !! u = Some x
  \/ ((0 < x)%Z
      /\ exists nd, nd ∈ nds /\ canHostPIndexes nd /\ nd_UUID nd = u
                    /\ nd_Weight nd = x).
Proof.
  induction nds as [|nd nds IH]; intros us w h u x; cbn [foldl].
  - cbn [fst snd]. auto.
  - rewrite nodeDefStep_cases.
    destruct (decide (canHostPIndexes nd)) as [Hc|Hc]; intros Hr;
      apply IH in Hr; destruct Hr as [Hr|(Hx & n & Hn & Hrest)].
    + destruct (Z.ltb_spec 0 (nd_Weight nd)) as [Hw|Hw]; [|now left].
      destruct (decide (u = nd_UUID nd)) as [->|Hne].
      * rewrite lookup_insert_eq in Hr. injection Hr as <-.
        right. split; [assumption|]. exists nd. split; [left|auto].
      * rewrite lookup_insert_ne in Hr by congruence. now left.
    + right. split; [assumption|]. exists n. split; [now right|auto].
    + now left.
    + right. split; [assumption|]. exists n. split; [now right|auto].
Qed.

Lemma nodeDefs_fold_weights_keep nds : forall us w h u,
  u ∉ nd_UUID <$> nds ->
  (foldl Layout.nodeDefStep (us, w, h) nds).1.2 !! u = w !! u.
Proof.
  induction nds as [|nd nds IH]; intros us w h u Hu; cbn [foldl].
  - reflexivity.
  - rewrite fmap_cons, not_elem_of_cons in Hu. destruct Hu as [Hne Hu].
    rewrite nodeDefStep_cases.
    destruct (decide (canHostPIndexes nd)) as [Hc|Hc]; rewrite IH by exact Hu;
      [|reflexivity].
    destruct (0 <? nd_Weight nd)%Z; [|reflexivity].
    now rewrite lookup_insert_ne by congruence.
Qed.

Lemma nodeDefs_fold_weights_set nds : forall us w h nd,
  NoDup (nd_UUID <$> nds) -> nd ∈ nds -> canHostPIndexes nd ->
  (foldl Layout.nodeDefStep (us, w, h) nds).1.2 !! nd_UUID nd
  = if (0 <? nd_Weight nd)%Z then Some (nd_Weight nd) else w !! nd_UUID nd.
Proof.
  induction nds as [|n nds IH]; intros us w h nd Hnd Hin Hc; cbn [foldl].
  - inversion Hin.
  - rewrite fmap_cons in Hnd. apply NoDup_cons in Hnd as [Hfresh Hnd].
    rewrite nodeDefStep_cases. apply elem_of_cons in Hin as [<-|Hin].
    + destruct (decide (canHostPIndexes nd)); [|contradiction].
      rewrite nodeDefs_fold_weights_keep by exact Hfresh.
      destruct (0 <? nd_Weight nd)%Z; [|reflexivity].
      now rewrite lookup_insert_eq.
    + assert (Hne : nd_UUID n <> nd_UUID nd).
      { intros E. apply Hfresh. rewrite E. apply list_elem_of_fmap. eauto. }
      destruct (decide (canHostPIndexes n)); rewrite IH by assumption;
        [|reflexivity].
      destruct (0 <? nd_Weight nd)%Z; [reflexivity|].
      destruct (0 <? nd_Weight n)%Z; [|reflexivity].
      now rewrite lookup_insert_ne by congruence.
Qed.

Lemma nodeDefs_fold_hierarchy nds : forall us w h c a,
  (foldl Layout.nodeDefStep (us, w, h) nds).2 !! c = Some a ->
  h !! c = Some a
  \/ (c <> EmptyString /\ a <> EmptyString
      /\ exists nd l1 l2,
           nd ∈ nds /\ canHostPIndexes nd
           /\ nd_UUID nd :: splitOn "/" (nd_Container nd) EmptyString
              = l1 ++ c :: a :: l2).
Proof.
  induction nds as [|nd nds IH]; intros us w h c a; cbn [foldl].
  - cbn [snd]. auto.
  - rewrite nodeDefStep_cases.
    destruct (decide (canHostPIndexes nd)) as [Hc|Hc]; intros Hr;
      apply IH in Hr;
      destruct Hr as [Hr|(Hx & Ha & n & l1 & l2 & Hn & Hrest)].
    + apply ancestors_fold in Hr as [Hr|(Hx & Ha & l1 & l2 & E)];
        [now left|].
      right. split; [assumption|]. split; [assumption|].
      exists nd, l1, l2. split; [left|auto].
    + right. split; [assumption|]. split; [assumption|].
      exists n, l1, l2. split; [now right|auto].
    + now left.
    + right. split; [assumption|]. split; [assumption|].
      exists n, l1, l2. split; [now right|auto].
Qed.

(** X17. The weights and the hierarchy of [CalcNodesLayout].  A weight
    is recorded only for a node whose definition can support pindexes
    and has a positive weight, and it is the weight of such a
    definition; when no two definitions share a UUID, every such node
    has its weight recorded and the others have none.  Every hierarchy
    entry links two non-empty names that follow each other in the chain
    made of a node's UUID and the ["/"]-separated parts of its
    container, for a definition that can support pindexes; so a node
    with an empty UUID or an empty container part is never linked. *)
Theorem X17_nodes_layout_weights
    (rangeOf : forall V : Type, gmap string V -> list (string * V))
    (nodeDefs : list NodeDef) (prev : option PlanPIndexes) :
  let layout := Layout.CalcNodesLayout rangeOf nodeDefs prev in
  (forall u w, nodeWeights layout !! u = Some w ->
     (0 < w)%Z
     /\ exists nd, nd ∈ nodeDefs /\ canHostPIndexes nd /\ nd_UUID nd = u
                   /\ nd_Weight nd = w)
  /\ (NoDup (nd_UUID <$> nodeDefs) ->
      forall nd, nd ∈ nodeDefs -> canHostPIndexes nd ->
        nodeWeights layout !! nd_UUID nd
        = if (0 <? nd_Weight nd)%Z then Some (nd_Weight nd) else None)
  /\ (forall c a, nodeHierarchy layout !! c = Some a ->
        c <> EmptyString /\ a <> EmptyString
        /\ exists nd l1 l2,
             nd ∈ nodeDefs /\ canHostPIndexes nd
             /\ nd_UUID nd :: splitOn "/" (nd_Container nd) EmptyString
                = l1 ++ c :: a :: l2).
Proof.
  unfold Layout.CalcNodesLayout.
  pose proof (nodeDefs_fold_weights nodeDefs [] ∅ ∅) as Hw.
  pose proof (nodeDefs_fold_weights_set nodeDefs [] ∅ ∅) as Hs.
  pose proof (nodeDefs_fold_hierarchy nodeDefs [] ∅ ∅) as Hh.
  destruct (foldl Layout.nodeDefStep ([], ∅, ∅) nodeDefs) as [[us w] h].
  cbn [fst snd] in Hw, Hs, Hh. cbn [nodeWeights nodeHierarchy].
  split_and!.
  - intros u x Hx. apply Hw in Hx as [Hx|Hx]; [|exact Hx].
    rewrite lookup_empty in Hx. discriminate.
  - intros Hnd nd Hin Hc. rewrite (Hs nd Hnd Hin Hc).
    now rewrite lookup_empty.
  - intros c a Hx. apply Hh in Hx as [Hx|Hx]; [|exact Hx].
    rewrite lookup_empty in Hx. discriminate.
Qed.

Lemma X16_nodes_layout_witness :
  let layout :=
    Layout.CalcNodesLayout (fun V m => map_to_list m)
      sampleLayoutNodes sampleLayoutPrev in
  nodeUUIDsAll layout = ["n0"; "n1"; "n2"]
  /\ nodeUUIDsToAdd layout = ["n2"]
  /\ nodeUUIDsToRemove layout = ["n0"]
  /\ ("n2" ∈ nodeUUIDsToAdd layout
      <-> hosting sampleLayoutNodes "n2" /\ ~ inPlan sampleLayoutPrev "n2").
Proof.
  split; [vm_compute; reflexivity|].
  split; [vm_compute; reflexivity|].
  split; [vm_compute; reflexivity|].
  apply (proj1 (proj2 (X16_nodes_layout_lists (fun V m => map_to_list m)
                         sampleLayoutNodes sampleLayoutPrev
                         (fun V m => reflexivity _)))).
Defined.

Lemma X17_nodes_layout_witness :
  let layout :=
    Layout.CalcNodesLayout (fun V m => map_to_list m)
      sampleLayoutNodes sampleLayoutPrev in
  nodeWeights layout !! "n2" = Some 3%Z
  /\ nodeWeights layout !! "n1" = None
  /\ nodeWeights layout !! "n3" = None
  /\ nodeHierarchy layout !! "n2" = Some "dc1"
  /\ nodeHierarchy layout !! "dc1" = Some "rack2".
Proof.
  split.
  - refine (proj1 (proj2 (X17_nodes_layout_weights (fun V m => map_to_list m)
                            sampleLayoutNodes sampleLayoutPrev))
              _ (mkNodeDef "n2" None "dc1/rack2" 3) _ _).
    + apply (bool_decide_unpack (NoDup (nd_UUID <$> sampleLayoutNodes))).
      vm_compute. exact I.
    + left.
    + exact I.
  - repeat split; vm_compute; reflexivity.
Defined.

(** ** pindex_impl_vlite.go: snapshots and batches *)

Section SnapshotExtras.

(** What [updateSeqUnlocked] does to its partition before it decides
    about the batch. *)
Lemma raise_seqMax t bdp p seq :
  sound t -> objs t !! bdp = Some p ->
  let t1 := if (seqMax p <? seq)%N
            then update_obj bdp (set_seqMax seq) t else t in
  sound t1 /\ chans t1 = chans t /\ file_backed t1 = file_backed t
  /\ objs t1 !! bdp = Some (set_seqMax (N.max (seqMax p) seq) p).
Proof.
  intros Hs Hp. cbn zeta.
  assert (Hlt : bdp < length (objs t)) by (eapply lookup_lt_Some; eassumption).
  destruct (N.ltb_spec (seqMax p) seq) as [Hl|Hg].
  - split_and!.
    + apply sound_update_obj; [exact Hs|]. intros p0 Hp0.
      assert (p0 = p) by congruence. subst p0. simpl. split_and!; auto; lia.
    + apply update_obj_chans.
    + apply update_obj_frame.
    + unfold update_obj. rewrite Hp. cbn [objs set_objs].
      rewrite list_lookup_insert_eq by exact Hlt.
      now rewrite N.max_r by lia.
  - split_and!; auto. rewrite Hp, N.max_l by lia. now destruct p.
Qed.

Lemma commit_outcome t bdp p flush :
  sound t -> objs t !! bdp = Some p ->
  (if file_backed t then flush else None) = None ->
  let r := applyBatchUnlocked t bdp flush in
  r.2 = None
  /\ exists p',
       objs r.1 !! bdp = Some p'
       /\ seqMax p' = seqMax p /\ seqMaxBatch p' = seqMax p
       /\ seqSnapEnd p' = seqSnapEnd p
       /\ (forall cwr, cwr ∈ cwrQueue p'
                       <-> cwr ∈ cwrQueue p
                           /\ (seqMax p < ConsistencySeq cwr)%N)
       /\ (forall cwr, cwr ∈ cwrQueue p ->
             (ConsistencySeq cwr <= seqMax p)%N ->
             chans r.1 !! DoneCh cwr = Some (mkChan [] true)).
Proof.
  intros Hs Hp Hflush.
  destruct (applyBatchUnlocked_commit t bdp flush p Hs Hp Hflush)
    as (released & kept & E & Hperm & _ & Hrel & Hkept & _ & Hsame & Hclosed & _).
  cbn zeta in *. rewrite E. cbn [fst snd]. split; [reflexivity|].
  destruct Hsame as (_ & _ & _ & Hobjs & _).
  assert (Hlt : bdp < length (objs t)) by (eapply lookup_lt_Some; eassumption).
  eexists. split.
  { cbn [objs set_objs]. now rewrite list_lookup_insert_eq by exact Hlt. }
  cbn [seqMax seqMaxBatch seqSnapEnd cwrQueue set_cwrQueue set_seqMaxBatch].
  split_and!; auto.
  - intros cwr. rewrite Hperm, elem_of_app. split.
    + intros Hin. auto.
    + intros [[Hin|Hin] Hgt]; [|exact Hin].
      apply Hrel in Hin. lia.
  - intros cwr Hin Hle. apply Hclosed.
    rewrite Hperm in Hin. apply elem_of_app in Hin as [Hin|Hin]; [exact Hin|].
    apply Hkept in Hin. lia.
Qed.

(** X18. Snapshots and batches.  On a live VLite, [DataUpdate] (when it
    reaches the store) and [DataDelete] at [seq] raise the partition's
    [seqMax] to [seq] when it was lower.  While [seq] is below
    [seqSnapEnd] that is all they do: [seqMaxBatch], the queue of
    waiting requests and every channel stay as they are, the store is
    not flushed and the call returns nil.  From [seqSnapEnd] on they
    commit the batch: when the flush of a file-backed VLite fails the
    error is returned and nothing else has changed; otherwise
    [seqMaxBatch] becomes [seqMax], the requests at or below it leave
    the queue with their done-channels closed and the others stay
    queued.  [SnapshotStart] commits the batch first and records
    [snapEnd] only when that succeeds; when the flush fails it returns
    the error and leaves the VLite as it was. *)
Theorem X18_snapshot_batching (fb : bool) (ops : list Op) (bdp : nat)
    (p : VLitePartition) (seq snapStart snapEnd : N) (flush : option error) :
  let t := run (NewVLite fb) ops in
  objs t !! bdp = Some p ->
  let r := DataDelete t bdp seq flush in
  let s := SnapshotStart t bdp snapStart snapEnd flush in
  DataUpdate t bdp seq None flush = r
  /\ (exists p',
        objs r.1 !! bdp = Some p'
        /\ seqMax p' = N.max (seqMax p) seq
        /\ seqSnapEnd p' = seqSnapEnd p
        /\ if (seq <? seqSnapEnd p)%N then
             r.2 = None /\ seqMaxBatch p' = seqMaxBatch p
             /\ cwrQueue p' = cwrQueue p /\ chans r.1 = chans t
           else
             match (if fb then flush else None) with
             | Some err =>
                 r.2 = Some err /\ seqMaxBatch p' = seqMaxBatch p
                 /\ cwrQueue p' = cwrQueue p /\ chans r.1 = chans t
             | None =>
                 r.2 = None /\ seqMaxBatch p' = seqMax p'
                 /\ (forall cwr, cwr ∈ cwrQueue p'
                                 <-> cwr ∈ cwrQueue p
                                     /\ (seqMax p' < ConsistencySeq cwr)%N)
                 /\ (forall cwr, cwr ∈ cwrQueue p ->
                       (ConsistencySeq cwr <= seqMax p')%N ->
                       chans r.1 !! DoneCh cwr = Some (mkChan [] true))
             end)
  /\ match (if fb then flush else None) with
     | Some err => s = (t, Some err)
     | None =>
         s.2 = None
         /\ exists p',
              objs s.1 !! bdp = Some p'
              /\ seqSnapEnd p' = snapEnd
              /\ seqMax p' = seqMax p /\ seqMaxBatch p' = seqMax p
              /\ (forall cwr, cwr ∈ cwrQueue p'
                              <-> cwr ∈ cwrQueue p
                                  /\ (seqMax p < ConsistencySeq cwr)%N)
     end.
Proof.
  intros t Hp r s. destruct (run_NewVLite fb ops) as (Hs & _ & Hfb).
  fold t in Hs, Hfb. split; [reflexivity|]. split.
  - subst r. unfold DataDelete, updateSeqUnlocked. rewrite Hp.
    destruct (raise_seqMax t bdp p seq Hs Hp) as (Hs1 & Hc1 & Hf1 & Hp1).
    cbn zeta in Hs1, Hc1, Hf1, Hp1.
    set (t1 := if (seqMax p <? seq)%N
               then update_obj bdp (set_seqMax seq) t else t) in *.
    destruct (seq <? seqSnapEnd p)%N.
    { eexists. split; [exact Hp1|].
      cbn [seqMax seqSnapEnd seqMaxBatch cwrQueue set_seqMax].
      split_and!; auto. }
    rewrite <- Hfb, <- Hf1.
    destruct (if file_backed t1 then flush else None) as [err|] eqn:Hflush.
    + rewrite (applyBatchUnlocked_flush_error _ _ _ _ Hflush).
      eexists. split; [exact Hp1|].
      cbn [fst snd seqMax seqSnapEnd seqMaxBatch cwrQueue set_seqMax].
      split_and!; auto.
    + destruct (commit_outcome t1 bdp _ flush Hs1 Hp1 Hflush)
        as (Herr & p' & Hp' & Hmax & Hbatch & Hsnap & Hq & Hch).
      cbn zeta in Herr, Hp', Hch.
      cbn [seqMax seqSnapEnd cwrQueue set_seqMax] in Hmax, Hbatch, Hsnap, Hq, Hch.
      exists p'. split; [exact Hp'|]. rewrite Hmax.
      split_and!; auto.
  - subst s. unfold SnapshotStart. rewrite <- Hfb.
    destruct (if file_backed t then flush else None) as [err|] eqn:Hflush.
    + now rewrite (applyBatchUnlocked_flush_error _ _ _ _ Hflush).
    + destruct (commit_outcome t bdp p flush Hs Hp Hflush)
        as (Herr & p' & Hp' & Hmax & Hbatch & Hsnap & Hq & _).
      cbn zeta in Herr, Hp'.
      destruct (applyBatchUnlocked t bdp flush) as [t1 e].
      cbn [fst snd] in Herr, Hp'. subst e. cbn [fst snd].
      split; [reflexivity|].
      assert (Hlt : bdp < length (objs t1))
        by (eapply lookup_lt_Some; eassumption).
      exists (set_seqSnapEnd snapEnd p'). split.
      { unfold update_obj. rewrite Hp'. cbn [objs set_objs].
        now rewrite list_lookup_insert_eq by exact Hlt. }
      cbn [seqSnapEnd seqMax seqMaxBatch cwrQueue set_seqSnapEnd].
      split_and!; auto.
Qed.

End SnapshotExtras.

Lemma X18_snapshot_batching_witness :
  (exists p', objs (DataDelete sampleVLite 0 12%N None).1 !! 0 = Some p'
              /\ seqMax p' = 12%N /\ seqMaxBatch p' = 0%N
              /\ cwrQueue p' = [sampleCwr])
  /\ (exists p', objs (DataDelete sampleVLite 0 20%N None).1 !! 0 = Some p'
                 /\ seqMax p' = 20%N /\ seqMaxBatch p' = 20%N
                 /\ cwrQueue p' = []).
Proof.
  split.
  - destruct (proj1 (proj2 (X18_snapshot_batching false sampleOps 0
                              samplePartition 12%N 0%N 0%N None eq_refl)))
      as (p' & Hp' & Hmax & _ & Hrest).
    exists p'. cbn in Hrest. destruct Hrest as (_ & Hb & Hq & _).
    split; [exact Hp'|]. auto.
  - exists (mkVLitePartition "0" 20%N 20%N 20%N EmptyString []).
    repeat split; reflexivity.
Defined.

(** ** planner.go: the version gate of the planner's reads *)

Section VersionGate.
Context `{HR : GoRand}.

(** X19. The version gate.  [PlannerGetIndexDefs] returns the stored
    index definitions unchanged, and only when the caller's version is
    at least their [ImplVersion] for [VersionGTE]; a caller at a
    version that is at least a version that could read them can read
    them too.  Definitions written at the caller's own version are
    readable exactly when every part of that version is a number: a
    version such as ["4.0.0-beta"] cannot read what it wrote.  The same
    gate guards a stored plan in [PlannerGetPlanPIndexes], which hands
    out the plan with its CAS and draws no UUID. *)
Theorem X19_planner_version_gate (cfg : Cfg) (version version' : string)
    (rng : nat) :
  (forall defs,
     PlannerGetIndexDefs cfg version = Ok defs ->
     cfg_indexDefs cfg = Some defs
     /\ VersionGTE version (ids_ImplVersion defs) = true
     /\ (VersionGTE version' version = true ->
         PlannerGetIndexDefs cfg version' = Ok defs))
  /\ (forall defs,
        cfg_indexDefs cfg = Some defs -> ids_ImplVersion defs = version ->
        (PlannerGetIndexDefs cfg version = Ok defs <-> numericVersion version))
  /\ (forall prev,
        cfg_planPIndexes cfg = Some prev ->
        (VersionGTE version (pps_ImplVersion prev) = true ->
         PlannerGetPlanPIndexes cfg version rng
         = Some (Ok (prev, cfg_planCas cfg), rng))
        /\ (VersionGTE version (pps_ImplVersion prev) = false ->
            exists msg,
              PlannerGetPlanPIndexes cfg version rng = Some (Err msg, rng))
        /\ (pps_ImplVersion prev = version ->
            (PlannerGetPlanPIndexes cfg version rng
             = Some (Ok (prev, cfg_planCas cfg), rng)
             <-> numericVersion version))).
Proof.
  split_and!.
  - intros defs. unfold PlannerGetIndexDefs, CfgGetIndexDefs.
    destruct (cfg_indexDefs cfg) as [d|]; [|discriminate].
    destruct (VersionGTE version (ids_ImplVersion d)) eqn:E; cbn [negb];
      [|discriminate].
    intros [= <-]. split_and!; auto. intros E'.
    unfold VersionGTE in *.
    now rewrite (versionGTE_parts_trans _ _ _ E' E).
  - intros defs Hd <-. unfold PlannerGetIndexDefs, CfgGetIndexDefs.
    rewrite Hd. unfold numericVersion. rewrite <- versionGTE_parts_refl.
    fold (VersionGTE (ids_ImplVersion defs) (ids_ImplVersion defs)).
    destruct (VersionGTE (ids_ImplVersion defs) (ids_ImplVersion defs));
      cbn [negb]; split; auto; discriminate.
  - intros prev Hp. unfold PlannerGetPlanPIndexes, CfgGetPlanPIndexes.
    rewrite Hp. split_and!.
    + intros E. now rewrite E.
    + intros E. rewrite E. cbn [negb]. eauto.
    + intros <-. unfold numericVersion. rewrite <- versionGTE_parts_refl.
      fold (VersionGTE (pps_ImplVersion prev) (pps_ImplVersion prev)).
      destruct (VersionGTE (pps_ImplVersion prev) (pps_ImplVersion prev));
        cbn [negb]; split; auto; discriminate.
Qed.

End VersionGate.

Lemma X19_planner_version_gate_witness :
  PlannerGetIndexDefs
    (mkCfg (Some (mkIndexDefs "u" ∅ "4.0.0")) None 0%N) "4.1"
  = Ok (mkIndexDefs "u" ∅ "4.0.0")
  /\ exists msg,
       PlannerGetIndexDefs
         (mkCfg (Some (mkIndexDefs "u" ∅ "4.0.0-beta")) None 0%N) "4.0.0-beta"
       = Err msg.
Proof.
  split.
  - apply (proj1 (@X19_planner_version_gate sampleRand
                    (mkCfg (Some (mkIndexDefs "u" ∅ "4.0.0")) None 0%N)
                    "4.0.0" "4.1" 0) (mkIndexDefs "u" ∅ "4.0.0")); reflexivity.
  - eexists. reflexivity.
Defined.

(** ** pindex_impl_vlite.go: what a query scans *)

Lemma String_ltb_leb (a b : string) :
  String.ltb a b = true <-> String.leb b a = false.
Proof.
  unfold String.ltb, String.leb. rewrite (String.compare_antisym b a).
  destruct (String.compare a b); simpl; split; congruence.
Qed.

Section QueryExtras.

Variable p : VLiteQueryParams.
Variable bounds : string * string.

Local Abbreviation collect := (fun (c : list Item) (i : Item) => (c ++ [i], true)).

(** What the visits from number [n] on select of the items offered. *)
Local Abbreviation windowFrom n l :=
  (drop (N.to_nat (qp_Skip p) - n)
        (if (qp_Limit p =? 0)%N then l
         else take (N.to_nat (qp_Skip p) + N.to_nat (qp_Limit p) - n) l)).

Lemma visit_window (items : list Item) : forall (n : nat) (c : list Item),
  StronglySorted (fun a b => strLe (item_Key a) (item_Key b)) items ->
  (qp_Skip p + qp_Limit p < 2 ^ 64)%N ->
  (N.of_nat (n + length items) < 2 ^ 64)%N ->
  qp_Limit p = 0%N \/ n < N.to_nat (qp_Skip p) + N.to_nat (qp_Limit p) ->
  (visitItems (queryVisitor collect p bounds.2) (N.of_nat n, c)
     (filter (fun item => strLe bounds.1 (item_Key item)) items)).2
  = c ++ windowFrom n (filter (fun i => inRange bounds (item_Key i)) items).
Proof.
  induction items as [|i items IH]; intros n c Hsorted Hsum Hlen Hinv.
  - cbn [filter list_filter visitItems snd].
    destruct (qp_Limit p =? 0)%N; now rewrite ?take_nil, drop_nil, app_nil_r.
  - apply StronglySorted_inv in Hsorted as [Hsorted Hall].
    cbn [length] in Hlen.
    rewrite !filter_cons.
    destruct (decide (strLe bounds.1 (item_Key i))) as [Hge|Hlt].
    2:{ destruct (decide (inRange bounds (item_Key i))) as [[? _]|_];
          [contradiction|].
        apply IH; auto. lia. }
    cbn [visitItems]. unfold queryVisitor at 1.
    destruct ((String.length bounds.2 <=? 0)
              || String.ltb (item_Key i) bounds.2) eqn:Hok; cbn [negb].
    + assert (Hin : inRange bounds (item_Key i)).
      { split; [exact Hge|]. apply orb_true_iff in Hok as [Hz|Hl]; [|now right].
        left. apply Nat.leb_le in Hz. destruct bounds.2; [reflexivity|].
        simpl in Hz. lia. }
      destruct (decide (inRange bounds (item_Key i))); [|contradiction].
      assert (Hv : uint64 (N.of_nat n + 1) = N.of_nat (S n)).
      { unfold uint64. rewrite N.mod_small by lia. lia. }
      assert (Hs : uint64 (qp_Skip p + qp_Limit p) = (qp_Skip p + qp_Limit p)%N).
      { unfold uint64. now rewrite N.mod_small. }
      rewrite Hv, Hs.
      destruct (N.ltb_spec (qp_Skip p) (N.of_nat (S n))) as [Hsk|Hsk];
        cbn [negb].
      * destruct (N.leb_spec (qp_Limit p) 0) as [Hl0|Hl0]; cbn [orb].
        -- rewrite IH; auto; [|lia|left; lia].
           replace (qp_Limit p =? 0)%N with true by (symmetry; apply N.eqb_eq; lia).
           replace (N.to_nat (qp_Skip p) - n) with 0 by lia.
           replace (N.to_nat (qp_Skip p) - S n) with 0 by lia.
           cbn [drop]. now rewrite <- app_assoc.
        -- replace (qp_Limit p =? 0)%N with false
             by (symmetry; apply N.eqb_neq; lia).
           replace (N.to_nat (qp_Skip p) - n) with 0 by lia. cbn [drop].
           destruct Hinv as [Hinv|Hinv]; [lia|].
           destruct (N.ltb_spec (N.of_nat (S n)) (qp_Skip p + qp_Limit p))
             as [Hmore|Hdone].
           ++ rewrite IH; auto; [|lia|right; lia].
              replace (qp_Limit p =? 0)%N with false
                by (symmetry; apply N.eqb_neq; lia).
              replace (N.to_nat (qp_Skip p) - S n) with 0 by lia. cbn [drop].
              replace (N.to_nat (qp_Skip p) + N.to_nat (qp_Limit p) - n)
                with (S (N.to_nat (qp_Skip p) + N.to_nat (qp_Limit p) - S n))
                by lia.
              cbn [take]. now rewrite <- app_assoc.
           ++ cbn [snd].
              replace (N.to_nat (qp_Skip p) + N.to_nat (qp_Limit p) - n)
                with 1 by lia.
              cbn [take]. now rewrite take_0.
      * assert (Hcont : (qp_Limit p <=? 0)%N
                        || (N.of_nat (S n) <? qp_Skip p + qp_Limit p)%N = true).
        { destruct (N.leb_spec (qp_Limit p) 0) as [Hl0|Hl0]; [reflexivity|].
          cbn [orb]. apply N.ltb_lt. lia. }
        rewrite Hcont. rewrite IH; auto; [|lia|].
        2:{ destruct (N.eq_dec (qp_Limit p) 0%N); [now left|right; lia]. }
        f_equal.
        replace (N.to_nat (qp_Skip p) - n)
          with (S (N.to_nat (qp_Skip p) - S n)) by lia.
        destruct (qp_Limit p =? 0)%N eqn:Hl; [reflexivity|].
        apply N.eqb_neq in Hl.
        replace (N.to_nat (qp_Skip p) + N.to_nat (qp_Limit p) - n)
          with (S (N.to_nat (qp_Skip p) + N.to_nat (qp_Limit p) - S n))
          by lia.
        reflexivity.
    + cbn [snd]. apply orb_false_iff in Hok as [Hz Hnl].
      assert (Hnone : forall j, j ∈ i :: items ->
                                ~ inRange bounds (item_Key j)).
      { intros j Hj [_ [He|Hl]].
        - rewrite He in Hz. discriminate.
        - assert (Hij : strLe (item_Key i) (item_Key j)).
          { apply elem_of_cons in Hj as [->|Hj].
            - unfold strLe, String.leb.
              destruct (String.compare (item_Key i) (item_Key i)) eqn:E;
                try reflexivity.
              pose proof (String.compare_antisym (item_Key i) (item_Key i))
                as A.
              rewrite E in A. discriminate.
            - rewrite Forall_forall in Hall. now apply Hall. }
          apply String_ltb_leb in Hl.
          assert (Hei : strLe bounds.2 (item_Key i)).
          { unfold strLe. destruct (String.leb bounds.2 (item_Key i)) eqn:E;
              [reflexivity|]. apply String_ltb_leb in E. congruence. }
          assert (Hej : strLe bounds.2 (item_Key j))
            by (eapply strLe_trans; eassumption).
          unfold strLe in Hej. congruence. }
      destruct (decide (inRange bounds (item_Key i))) as [Hin|_].
      { exfalso. apply (Hnone i); [left|exact Hin]. }
      assert (Hnil : filter (fun i => inRange bounds (item_Key i)) items = []).
      { clear -Hnone. induction items as [|j l IHl]; [reflexivity|].
        rewrite filter_cons.
        destruct (decide (inRange bounds (item_Key j))) as [Hin|_].
        - exfalso. apply (Hnone j); [right; left|exact Hin].
        - apply IHl. intros k Hk. apply Hnone.
          apply elem_of_cons in Hk as [->|Hk]; [left|right; now right]. }
      rewrite Hnil.
      destruct (qp_Limit p =? 0)%N; now rewrite ?take_nil, drop_nil, app_nil_r.
Qed.

End QueryExtras.

(** X20. What [QueryMainColl] hands to its callback.  For a callback
    that takes every item (as the one of [Query] does), over a main
    collection in ascending key order, the callback receives the items
    whose key is at least the lower bound and, when the upper bound is
    not empty, below it, without the first [Skip] of them and cut to
    [Limit] items when [Limit] is not 0, in ascending key order.
    ([Skip + Limit] and the number of items are below 2^64.) *)
Theorem X20_query_window (path : string) (p : VLiteQueryParams)
    (items : list Item) :
  StronglySorted (fun a b => strLe (item_Key a) (item_Key b)) items ->
  (qp_Skip p + qp_Limit p < 2 ^ 64)%N ->
  (N.of_nat (length items) < 2 ^ 64)%N ->
  QueryMainColl (fun c i => (c ++ [i], true)) path p items []
  = window p (filter (fun i => inRange (queryRange path p) (item_Key i))
                     items).
Proof.
  intros Hsorted Hsum Hlen. unfold QueryMainColl, VisitItemsAscend.
  pose proof (visit_window p (queryRange path p) items 0 [] Hsorted Hsum Hlen)
    as H.
  destruct (queryRange path p) as [s e] eqn:Eb. cbn [fst snd] in H.
  change (N.of_nat 0) with 0%N in H. rewrite H.
  2:{ destruct (N.eq_dec (qp_Limit p) 0%N); [now left|right; lia]. }
  cbn [app]. unfold window. rewrite !Nat.sub_0_r.
  destruct (qp_Limit p =? 0)%N; [reflexivity|].
  now rewrite take_drop_commute.
Qed.

Lemma sampleItems_sorted :
  StronglySorted (fun a b => strLe (item_Key a) (item_Key b)) sampleItems.
Proof.
  repeat (constructor; [|repeat (constructor; [reflexivity|]); constructor]).
  constructor.
Defined.

Lemma X20_query_window_witness :
  QueryMainColl (fun c i => (c ++ [i], true)) EmptyString
    (mkVLiteQueryParams 2 1 "b" EmptyString EmptyString) sampleItems []
  = [mkItem "ba" "3"; mkItem "bb" "4"].
Proof.
  rewrite (X20_query_window EmptyString
             (mkVLiteQueryParams 2 1 "b" EmptyString EmptyString) sampleItems
             sampleItems_sorted); [reflexivity| |]; vm_compute; reflexivity.
Defined.

(** *** The bounds of a query by [Q] *)

Lemma Ascii_compare_Eq (a c : ascii) : Ascii.compare a c = Eq <-> a = c.
Proof.
  split; [apply Ascii.compare_eq_iff|]. intros ->.
  unfold Ascii.compare. apply N.compare_refl.
Qed.

Lemma Ascii_compare_ff (c : ascii) :
  Ascii.compare c (Ascii true true true true true true true true) <> Gt.
Proof.
  unfold Ascii.compare. intros Hgt. apply N.compare_gt_iff in Hgt.
  pose proof (N_ascii_bounded c) as Hb. cbn in Hgt. lia.
Qed.

Lemma String_compare_nil_r (k : string) : String.compare k EmptyString <> Lt.
Proof. destruct k; discriminate. Qed.

Lemma HasPrefix_xff (r : string) :
  HasPrefix r xff = false
  <-> match r with
      | EmptyString => True
      | String c _ => c <> Ascii true true true true true true true true
      end.
Proof.
  destruct r as [|c r]; [split; auto|].
  unfold HasPrefix, xff. cbn [String.length Nat.leb andb substring].
  replace (substring 0 0 r) with EmptyString by (now destruct r).
  rewrite String.eqb_neq. split; intros Hne; congruence.
Qed.

Lemma prefix_range (s : string) : forall k,
  (String.leb s k = true /\ String.ltb k (s +:+ xff) = true)
  <-> exists r, k = s +:+ r /\ HasPrefix r xff = false.
Proof.
  induction s as [|a s IH]; intros k.
  - rewrite append_nil_l. split.
    + intros [_ Hlt]. exists k. split; [reflexivity|].
      apply HasPrefix_xff. destruct k as [|c k]; [exact I|].
      intros ->. unfold String.ltb, xff in Hlt. cbn [String.compare] in Hlt.
      rewrite (proj2 (Ascii_compare_Eq _ _) eq_refl) in Hlt.
      pose proof (String_compare_nil_r k).
      destruct (String.compare k EmptyString); congruence.
    + intros (r & -> & Hr). rewrite append_nil_l. apply HasPrefix_xff in Hr.
      split; [now destruct r|].
      destruct r as [|c r]; [reflexivity|].
      unfold String.ltb, xff. cbn [String.compare].
      pose proof (Ascii_compare_ff c) as Hff.
      destruct (Ascii.compare c _) eqn:E; try reflexivity; [|congruence].
      apply Ascii_compare_Eq in E. contradiction.
  - rewrite append_cons. destruct k as [|c k].
    + split; [intros [H _]; discriminate|].
      intros (r & E & _). rewrite append_cons in E. discriminate.
    + unfold String.leb, String.ltb. cbn [String.compare].
      rewrite (Ascii.compare_antisym c a).
      destruct (Ascii.compare a c) eqn:E; cbn [CompOpp].
      * apply Ascii_compare_Eq in E. subst c.
        fold (String.leb s k). fold (String.ltb k (s +:+ xff)).
        rewrite IH. split; intros (r & Er & Hr); exists r; split; auto.
        -- rewrite append_cons. now f_equal.
        -- rewrite append_cons in Er. now injection Er.
      * split; [intros [_ H]; discriminate|].
        intros (r & Er & _). rewrite append_cons in Er. injection Er as <- _.
        rewrite (proj2 (Ascii_compare_Eq _ _) eq_refl) in E. discriminate.
      * split; [intros [H _]; discriminate|].
        intros (r & Er & _). rewrite append_cons in Er. injection Er as <- _.
        rewrite (proj2 (Ascii_compare_Eq _ _) eq_refl) in E. discriminate.
Qed.

Lemma append_xff_not_nil (s : string) : s +:+ xff <> EmptyString.
Proof. destruct s; [discriminate|]. rewrite append_cons. discriminate. Qed.

Lemma freeOfFF_cons (c : ascii) (s : string) :
  freeOfFF (String c s)
  <-> c <> Ascii true true true true true true true true /\ freeOfFF s.
Proof.
  unfold freeOfFF. cbn [list_ascii_of_string In]. split.
  - intros Hn. split; [intros ->; apply Hn; now left|].
    intros Hin. apply Hn. now right.
  - intros [Hc Hs] [E|Hin]; [congruence|contradiction].
Qed.

Lemma split_at_xff (a : string) : forall b x y,
  freeOfFF a -> freeOfFF b ->
  a +:+ xff +:+ x = b +:+ xff +:+ y -> a = b /\ x = y.
Proof.
  induction a as [|c a IH]; intros [|d b] x y Ha Hb E.
  - rewrite !append_nil_l in E. split; [reflexivity|].
    unfold xff in E. rewrite !append_cons, !append_nil_l in E.
    now injection E.
  - apply freeOfFF_cons in Hb as [Hd _]. rewrite append_nil_l in E.
    unfold xff in E at 1. rewrite !append_cons in E. injection E as E _.
    congruence.
  - apply freeOfFF_cons in Ha as [Hc _]. rewrite append_nil_l in E.
    unfold xff in E at 2. rewrite !append_cons in E. injection E as E _.
    congruence.
  - apply freeOfFF_cons in Ha as [_ Ha]. apply freeOfFF_cons in Hb as [_ Hb].
    rewrite !append_cons in E. injection E as -> E.
    destruct (IH b x y Ha Hb E) as [-> ->]. auto.
Qed.

(** X21. A query by [Q] is a prefix scan.  With a non-empty [Q], the
    keys within the bounds of [QueryMainColl] are the keys that start
    with [Q] - with [Q] and the byte [0xff] for a VLite with a path -
    and do not go on with the byte [0xff].  For a VLite with a path,
    whose [DataUpdate] stores a document under its secondary value, the
    byte [0xff] and the document key, and for a [Q] and a secondary
    value without the byte [0xff], the entry of a document is within
    the bounds exactly when its secondary value is [Q] and its key does
    not start with [0xff]. *)
Theorem X21_query_prefix (path : string) (p : VLiteQueryParams)
    (key : string) :
  qp_Q p <> EmptyString ->
  let base := if String.eqb path EmptyString then qp_Q p
              else qp_Q p +:+ xff in
  (inRange (queryRange path p) key
   <-> exists r, key = base +:+ r /\ HasPrefix r xff = false)
  /\ (path <> EmptyString -> freeOfFF (qp_Q p) ->
      forall secVal docKey,
        freeOfFF secVal ->
        (inRange (queryRange path p) (storeKeyOf secVal docKey)
         <-> secVal = qp_Q p /\ HasPrefix docKey xff = false)).
Proof.
  intros HQ base.
  assert (Hrange : forall k,
            inRange (queryRange path p) k
            <-> exists r, k = base +:+ r /\ HasPrefix r xff = false).
  { intros k. rewrite <- prefix_range. unfold inRange, queryRange, base, strLe.
    rewrite (proj2 (String.eqb_neq _ _) HQ). cbn [negb].
    destruct (String.eqb path EmptyString); cbn [negb fst snd].
    - split; [intros [H1 [H2|H2]]; [|auto]|intros [H1 H2]; auto].
      exfalso. exact (append_xff_not_nil _ H2).
    - rewrite <- append_assoc.
      split; [intros [H1 [H2|H2]]; [|auto]|intros [H1 H2]; auto].
      exfalso. exact (append_xff_not_nil _ H2). }
  split; [apply Hrange|].
  intros Hpath HfQ secVal docKey Hsec. rewrite Hrange. unfold base, storeKeyOf.
  rewrite (proj2 (String.eqb_neq _ _) Hpath). split.
  - intros (r & E & Hr). rewrite append_assoc in E.
    destruct (split_at_xff _ _ _ _ Hsec HfQ E) as [-> ->]. auto.
  - intros [-> Hd]. exists docKey. now rewrite append_assoc.
Qed.

Lemma X21_query_prefix_witness :
  inRange (queryRange EmptyString
             (mkVLiteQueryParams 0 0 "b" EmptyString EmptyString)) "ba"
  /\ inRange (queryRange "/city"
                (mkVLiteQueryParams 0 0 "Oslo" EmptyString EmptyString))
             (storeKeyOf "Oslo" "doc1").
Proof.
  split.
  - apply (proj1 (X21_query_prefix EmptyString
                    (mkVLiteQueryParams 0 0 "b" EmptyString EmptyString) "ba"
                    ltac:(discriminate))).
    exists "a". split; reflexivity.
  - apply (proj2 (X21_query_prefix "/city"
                    (mkVLiteQueryParams 0 0 "Oslo" EmptyString EmptyString)
                    EmptyString ltac:(discriminate))).
    + discriminate.
    + cbn. intros Hin. repeat (destruct Hin as [Hin|Hin]; [discriminate|]).
      exact Hin.
    + cbn. intros Hin. repeat (destruct Hin as [Hin|Hin]; [discriminate|]).
      exact Hin.
    + split; reflexivity.
Defined.

(** ** pindex_impl_vlite.go: the store calls of a mutation *)

Local Ltac call_cases H :=
  repeat first
    [ apply elem_of_app in H as [H|H]
    | apply elem_of_cons in H as [H|H]
    | apply elem_of_nil in H; destruct H ];
  try discriminate H.

(** X22. The store calls of [DataUpdate] and [DataDelete].  Without a
    path, an update sets the document under its key and a delete
    deletes that key.  With a path, the entry of the main collection
    that [backColl.Get] finds for the document is deleted only when
    that [Get] returns an error together with a non-empty value: when
    the [Get] succeeds, a delete makes no other call and an update only
    sets the back entry and the new main entry, whose key is the
    secondary value, the byte [0xff] and the document key and whose
    value is empty, so the previous entry of the document stays in the
    main collection.  An update of a document without a secondary value
    makes no store call, returns nil and leaves the VLite as it was:
    its seq is not recorded. *)
Theorem X22_store_calls (path key val secVal : string) (r : StoreReplies)
    (t : VLite) (bdp : nat) (seq : N) (flush : option error) :
  (path = EmptyString ->
   (DataUpdate_store path key val (Some secVal) r).1 = [MainSet key val]
   /\ DataDelete_store path key r = [MainDelete key])
  /\ (path <> EmptyString ->
      let upd := DataUpdate_store path key val (Some secVal) r in
      let del := DataDelete_store path key r in
      (forall k, MainDelete k ∈ upd.1 ++ del ->
         (backGet r).2 <> None /\ k = (backGet r).1 /\ k <> EmptyString)
      /\ (forall k v, MainSet k v ∈ upd.1 ->
            k = storeKeyOf secVal key /\ v = EmptyString)
      /\ ((backGet r).2 = None ->
          del = [BackGet key]
          /\ exists calls,
               upd.1 = [BackGet key; BackSet key (storeKeyOf secVal key)]
                       ++ calls
               /\ (backSet r = None ->
                   calls = [MainSet (storeKeyOf secVal key) EmptyString]
                   /\ upd.2 = (fun e => Some e) <$> mainSet r))
      /\ DataUpdate_store path key val None r = ([], Some None)
      /\ DataUpdate t bdp seq (DataUpdate_store path key val None r).2 flush
         = (t, None)).
Proof.
  split.
  - intros ->. unfold DataUpdate_store, DataDelete_store. cbn [String.eqb negb].
    split; [|reflexivity]. now destruct (mainSet r).
  - intros Hpath. cbn zeta. unfold DataUpdate_store, DataDelete_store.
    rewrite (proj2 (String.eqb_neq _ _) Hpath). cbn [negb].
    destruct (backGet r) as [backKey err]. cbn [fst snd].
    assert (Hlen : (0 <? String.length backKey) = true ->
                   backKey <> EmptyString).
    { intros Hl ->. discriminate. }
    split_and!.
    + intros k Hk.
      destruct (bool_decide (err <> None) && (0 <? String.length backKey))
        eqn:Hdel.
      * apply andb_true_iff in Hdel as [He Hl].
        apply bool_decide_eq_true_1 in He.
        assert (k = backKey).
        { destruct (mainDelete r), (backSet r), (mainSet r); cbn in Hk;
            call_cases Hk; now injection Hk. }
        subst k. auto.
      * exfalso. destruct (backSet r), (mainSet r); cbn in Hk; call_cases Hk.
    + intros k v Hk.
      destruct (bool_decide (err <> None) && (0 <? String.length backKey));
        destruct (mainDelete r), (backSet r), (mainSet r); cbn in Hk;
        call_cases Hk; injection Hk as -> ->; auto.
    + intros ->. rewrite bool_decide_eq_false_2 by auto. cbn [andb].
      split; [reflexivity|].
      destruct (backSet r) eqn:Hb.
      * exists []. split; [reflexivity|]. discriminate.
      * exists [MainSet (storeKeyOf secVal key) EmptyString].
        split; [now destruct (mainSet r)|].
        intros _. split; [reflexivity|]. now destruct (mainSet r).
    + reflexivity.
    + reflexivity.
Qed.

Lemma X22_store_calls_witness :
  DataDelete_store "/city" "doc1"
    (mkStoreReplies ("Oslo", None) None None None)
  = [BackGet "doc1"].
Proof.
  apply (proj2 (X22_store_calls "/city" "doc1" "{}" "Oslo"
                  (mkStoreReplies ("Oslo", None) None None None)
                  sampleVLite 0 0%N None)).
  - discriminate.
  - reflexivity.
Defined.

(** ** pindex_impl_vlite.go: the gatherer's count *)

Local Abbreviation sumOk counts :=
  (foldr (fun (r : result N) acc =>
            match r with Ok t => (t + acc)%N | Err _ => acc end) 0%N counts).

Lemma gathererCount_fold (counts : list (result N)) : forall a e,
  (a < 2 ^ 64)%N ->
  let r := foldl gathererCountStep (a, e) counts in
  r.1 = uint64 (a + sumOk counts)
  /\ (r.2 = None <-> e = None /\ forall msg, Err msg ∉ counts)
  /\ (forall x, r.2 = Some x ->
        e = Some x \/ exists msg, x = errorString msg /\ Err msg ∈ counts).
Proof.
  induction counts as [|c counts IH]; intros a e Ha; cbn [foldl foldr].
  - cbn [fst snd]. unfold uint64. rewrite N.add_0_r, N.mod_small by exact Ha.
    split_and!; auto.
    + split; [intros ->; split; [reflexivity|]|tauto].
      intros msg Hin. inversion Hin.
  - destruct c as [t|msg]; cbn [gathererCountStep fst snd].
    + assert (Hlt : (uint64 (a + t) < 2 ^ 64)%N)
        by (unfold uint64; apply N.mod_lt; discriminate).
      destruct (IH (uint64 (a + t)) e Hlt) as (H1 & H2 & H3).
      cbn zeta in *. split_and!.
      * rewrite H1. unfold uint64.
        rewrite N.Div0.add_mod_idemp_l. f_equal. lia.
      * rewrite H2. split; intros [He Hn]; split; auto; intros m Hin.
        -- apply elem_of_cons in Hin as [Hin|Hin]; [discriminate|].
           exact (Hn m Hin).
        -- apply (Hn m). now right.
      * intros x Hx. apply H3 in Hx as [Hx|(m & -> & Hin)]; [now left|].
        right. exists m. split; [reflexivity|now right].
    + destruct (IH a (Some (errorString msg)) Ha) as (H1 & H2 & H3).
      cbn zeta in *. split_and!.
      * exact H1.
      * rewrite H2. split; [intros [? _]; discriminate|].
        intros [_ Hn]. exfalso. apply (Hn msg). left.
      * intros x Hx. apply H3 in Hx as [Hx|(m & -> & Hin)].
        -- injection Hx as <-. right. exists msg. split; [reflexivity|left].
        -- right. exists m. split; [reflexivity|now right].
Qed.

Lemma sumOk_Permutation (l l' : list (result N)) :
  l ≡ₚ l' -> sumOk l = sumOk l'.
Proof.
  induction 1 as [|x l l' _ IH|x y l|l l' l'' _ IH1 _ IH2]; cbn [foldr].
  - reflexivity.
  - now rewrite IH.
  - destruct x, y; lia.
  - congruence.
Qed.

(** X23. The gatherer's count.  [VLiteGatherer.Count] returns the sum
    of the counts that succeeded, as a [uint64], together with an error
    exactly when some count failed - the error of one of the failed
    counts - so a total that misses the failed parts comes back with
    the error.  The total, and whether there is an error, do not
    depend on the order in which the goroutines finish. *)
Theorem X23_gatherer_count (counts : list (result N)) :
  let r := VLiteGatherer_Count counts in
  r.1 = uint64 (sumOk counts)
  /\ (r.2 = None <-> forall msg, Err msg ∉ counts)
  /\ (forall x, r.2 = Some x ->
        exists msg, x = errorString msg /\ Err msg ∈ counts)
  /\ (forall counts', counts' ≡ₚ counts ->
        let r' := VLiteGatherer_Count counts' in
        r'.1 = r.1 /\ (r'.2 = None <-> r.2 = None)).
Proof.
  assert (H0 : (0 < 2 ^ 64)%N) by reflexivity.
  destruct (gathererCount_fold counts 0%N None H0) as (H1 & H2 & H3).
  cbn zeta in *. unfold VLiteGatherer_Count. split_and!.
  - exact H1.
  - rewrite H2. tauto.
  - intros x Hx. apply H3 in Hx as [Hx|Hx]; [discriminate|exact Hx].
  - intros counts' Hperm.
    destruct (gathererCount_fold counts' 0%N None H0) as (H1' & H2' & _).
    cbn zeta in *. split.
    + now rewrite H1, H1', (sumOk_Permutation _ _ Hperm).
    + rewrite H2, H2'. split; intros [_ Hn]; (split; [reflexivity|]);
        intros msg Hin; apply (Hn msg).
      * now rewrite Hperm.
      * now rewrite <- Hperm.
Qed.

Lemma X23_gatherer_count_witness :
  (VLiteGatherer_Count [Ok 4%N; Ok 3%N; Err "down"]).1
  = (VLiteGatherer_Count [Ok 3%N; Err "down"; Ok 4%N]).1.
Proof.
  apply (proj2 (proj2 (proj2
           (X23_gatherer_count [Ok 3%N; Err "down"; Ok 4%N])))
           [Ok 4%N; Ok 3%N; Err "down"]).
  apply (Permutation_cons_append [Ok 3%N; Err "down"] (Ok 4%N)).
Defined.

(** ** pindex_consistency.go: the calls of ConsistencyWaitPartitions *)

Lemma splitOn_sep (sep : ascii) (a : string) : forall b cur,
  ~ In sep (list_ascii_of_string a) ->
  splitOn sep (a +:+ String sep b) cur
  = (cur +:+ a) :: splitOn sep b EmptyString.
Proof.
  induction a as [|c a IH]; intros b cur Hn.
  - rewrite append_nil_l. cbn [splitOn]. rewrite Ascii.eqb_refl.
    f_equal. clear. induction cur as [|x cur IH]; [reflexivity|].
    rewrite append_cons. now rewrite <- IH.
  - rewrite append_cons. cbn [splitOn].
    cbn [list_ascii_of_string In] in Hn.
    destruct (Ascii.eqb_spec c sep) as [->|Hne]; [tauto|].
    rewrite IH by tauto. f_equal.
    rewrite append_assoc. now rewrite append_cons, append_nil_l.
Qed.

Lemma splitOn_no_sep (sep : ascii) (a : string) : forall cur,
  ~ In sep (list_ascii_of_string a) ->
  splitOn sep a cur = [cur +:+ a].
Proof.
  induction a as [|c a IH]; intros cur Hn; cbn [splitOn].
  - f_equal. clear. induction cur as [|x cur IH]; [reflexivity|].
    rewrite append_cons. now rewrite <- IH.
  - cbn [list_ascii_of_string In] in Hn.
    destruct (Ascii.eqb_spec c sep) as [->|Hne]; [tauto|].
    rewrite IH by tauto. f_equal.
    rewrite append_assoc. now rewrite append_cons, append_nil_l.
Qed.

Section WaitPartitionsExtras.

(** A waiter that records its calls; [fails] tells which of them
    return an error. *)
Variable fails : string * string * N -> option error.

Local Abbreviation logWait :=
  (fun (st : list (string * string * N)) (partition partitionUUID : string)
       (consistencyLevel : string) (consistencySeq : N) =>
     (st ++ [(partition, partitionUUID, consistencySeq)],
      fails (partition, partitionUUID, consistencySeq))).

Lemma waitPartitionStep_call partitions level st entry :
  waitPartitionStep logWait partitions level st entry
  = match waitCallOf partitions entry with
    | Some call => (st ++ [call], fails call)
    | None => (st, None)
    end.
Proof.
  destruct entry as [k seq]. unfold waitPartitionStep, waitCallOf.
  cbn [fst snd]. destruct (0 <? seq)%N; cbn [andb]; [|reflexivity].
  set (arr := splitOn "/" k EmptyString).
  destruct (partitions !! nth 0 arr EmptyString) as [b|] eqn:Hp.
  - rewrite bool_decide_eq_true_2 by eauto.
    destruct (Nat.ltb_spec 1 (length arr)) as [Hl|Hl]; [reflexivity|].
    now rewrite (nth_overflow arr EmptyString Hl).
  - rewrite bool_decide_eq_false_2; [reflexivity|].
    intros [? ?]. discriminate.
Qed.

Lemma ConsistencyWaitPartitions_calls partitions level vector : forall st,
  let calls := omap (waitCallOf partitions) vector in
  let r := ConsistencyWaitPartitions logWait st partitions level vector in
  (r.2 = None ->
   r.1 = st ++ calls /\ forall call, call ∈ calls -> fails call = None)
  /\ (forall err, r.2 = Some err ->
        exists done call rest,
          calls = done ++ call :: rest
          /\ (forall c, c ∈ done -> fails c = None)
          /\ fails call = Some err
          /\ r.1 = st ++ done ++ [call]).
Proof.
  induction vector as [|entry vector IH]; intros st;
    cbn [ConsistencyWaitPartitions omap list_omap].
  - cbn [fst snd]. split.
    + intros _. rewrite app_nil_r. split; [reflexivity|].
      intros call Hin. inversion Hin.
    + discriminate.
  - rewrite waitPartitionStep_call.
    destruct (waitCallOf partitions entry) as [call|].
    + destruct (fails call) as [e|] eqn:Hf.
      * cbn [fst snd]. split; [discriminate|].
        intros err [= <-]. exists [], call, (omap (waitCallOf partitions) vector).
        split_and!; auto. intros c Hin. inversion Hin.
      * destruct (IH (st ++ [call])) as [H1 H2]. cbn zeta in *. split.
        -- intros Hn. destruct (H1 Hn) as [E Hall]. rewrite E, <- app_assoc.
           split; [reflexivity|]. intros c Hin.
           apply elem_of_cons in Hin as [->|Hin]; auto.
        -- intros err He.
           destruct (H2 err He) as (done & c & rest & E & Hd & Hc & Er).
           exists (call :: done), c, rest. rewrite E, Er, <- !app_assoc.
           split_and!; auto. intros x Hin.
           apply elem_of_cons in Hin as [->|Hin]; auto.
    + apply IH.
Qed.

(** X24. The calls of [ConsistencyWaitPartitions].  The entries of the
    consistency vector are taken in the order of the range; an entry
    with seq 0, or whose partition - the text of its key before the
    first ["/"] - is not among the partitions, leads to no call; any
    other entry leads to one call of [ConsistencyWait], with that
    partition, with the text between the first and the second ["/"] as
    the partition UUID (empty when the key has no ["/"]) and with the
    entry's seq.  When the result is nil every call was made and
    returned nil; otherwise the result is the error of the first call
    that failed, and no call was made after it. *)
Theorem X24_wait_partitions (partitions : gmap string bool)
    (level : string) (consistencyVector : list (string * N)) :
  let calls := omap (waitCallOf partitions) consistencyVector in
  let r := ConsistencyWaitPartitions logWait [] partitions level
             consistencyVector in
  (r.2 = None ->
   r.1 = calls /\ forall call, call ∈ calls -> fails call = None)
  /\ (forall err, r.2 = Some err ->
        exists done call rest,
          calls = done ++ call :: rest
          /\ (forall c, c ∈ done -> fails c = None)
          /\ fails call = Some err
          /\ r.1 = done ++ [call])
  /\ (forall partition partitionUUID more seq,
        ~ In "/"%char (list_ascii_of_string partition) ->
        ~ In "/"%char (list_ascii_of_string partitionUUID) ->
        let asked uuid :=
          if (0 <? seq)%N && bool_decide (is_Some (partitions !! partition))
          then Some (partition, uuid, seq) else None in
        waitCallOf partitions (partition, seq) = asked EmptyString
        /\ waitCallOf partitions
             (partition +:+ "/" +:+ partitionUUID, seq)
           = asked partitionUUID
        /\ waitCallOf partitions
             (partition +:+ "/" +:+ partitionUUID +:+ "/" +:+ more, seq)
           = asked partitionUUID).
Proof.
  destruct (ConsistencyWaitPartitions_calls partitions level
              consistencyVector []) as [H1 H2].
  cbn zeta in *. split_and!.
  - exact H1.
  - exact H2.
  - intros partition partitionUUID more seq Hp Hu.
    unfold waitCallOf. cbn [fst snd]. split_and!.
    + rewrite (splitOn_no_sep "/" partition EmptyString Hp).
      rewrite append_nil_l. reflexivity.
    + change ("/" +:+ partitionUUID) with (String "/" partitionUUID).
      rewrite (splitOn_sep "/" partition _ EmptyString Hp).
      rewrite (splitOn_no_sep "/" partitionUUID EmptyString Hu).
      rewrite !append_nil_l. reflexivity.
    + change ("/" +:+ partitionUUID +:+ "/" +:+ more)
        with (String "/" (partitionUUID +:+ String "/" more)).
      rewrite (splitOn_sep "/" partition _ EmptyString Hp).
      rewrite (splitOn_sep "/" partitionUUID _ EmptyString Hu).
      rewrite !append_nil_l. reflexivity.
Qed.

End WaitPartitionsExtras.

Lemma X24_wait_partitions_witness :
  waitCallOf {[ "0" := true; "1" := true ]} ("1/u1/x", 9%N)
  = Some ("1", "u1", 9%N).
Proof.
  pose proof (proj2 (proj2 (X24_wait_partitions (fun _ => None)
                              {[ "0" := true; "1" := true ]} "at_plus" []))
                "1" "u1" "x" 9%N) as H.
  cbn zeta in H. destruct H as (_ & _ & H).
  - cbn. intros [E|[]]. discriminate.
  - cbn. intros [E|[E|[]]]; discriminate.
  - exact H.
Defined.

(** ** pindex_impl_vlite.go: the stored seqMax *)

Lemma BigEndian_roundtrip (v : N) :
  (v < 2 ^ 64)%N -> BigEndian_Uint64 (BigEndian_PutUint64 v) = v.
Proof.
  intros Hv. unfold BigEndian_Uint64, BigEndian_PutUint64. cbn [fold_left].
  change (2 ^ 64)%N with 18446744073709551616%N in Hv.
  change (2 ^ 56)%N with 72057594037927936%N.
  change (2 ^ 48)%N with 281474976710656%N.
  change (2 ^ 40)%N with 1099511627776%N.
  change (2 ^ 32)%N with 4294967296%N.
  change (2 ^ 24)%N with 16777216%N.
  change (2 ^ 16)%N with 65536%N.
  change (2 ^ 8)%N with 256%N.
  lia.
Qed.

Lemma update_obj_at t bdp f p :
  objs t !! bdp = Some p -> objs (update_obj bdp f t) !! bdp = Some (f p).
Proof.
  intros Hp. unfold update_obj. rewrite Hp. cbn [objs set_objs].
  apply list_lookup_insert_eq. eapply lookup_lt_Some. eassumption.
Qed.

(** X26. The stored [seqMax] comes back.  The eight bytes that
    [updateSeqUnlocked] stores for a [seqMax] decode to it.  [OpaqueGet]
    on a partition whose [seqMax] is 0 that finds these bytes in the seq
    collection sets [seqMax] to the stored value and returns it; on a
    partition whose [seqMax] is above 0 it returns that [seqMax] and
    does not look at the stored bytes.  With no stored bytes it returns
    0, and with a buffer of another length than 8 it returns an error.
    In every case it records the partition UUID of the opaque value and
    leaves [seqMaxBatch] and the wait queue as they are. *)
Theorem X26_seqMax_restored (t : VLite) (bdp : nat) (p : VLitePartition)
    (uuid : string) (v : N) (buf : list N) :
  objs t !! bdp = Some p ->
  (v < 2 ^ 64)%N ->
  BigEndian_Uint64 (BigEndian_PutUint64 v) = v
  /\ (let r := OpaqueGet t bdp (Ok uuid) (Ok (BigEndian_PutUint64 v)) in
      r.2 = Ok (if (seqMax p =? 0)%N then v else seqMax p)
      /\ objs r.1 !! bdp
         = Some (set_seqMax (if (seqMax p =? 0)%N then v else seqMax p)
                   (set_lastUUID uuid p)))
  /\ (let r := OpaqueGet t bdp (Ok uuid) (Ok buf) in
      exists p',
        objs r.1 !! bdp = Some p'
        /\ lastUUID p' = uuid
        /\ seqMaxBatch p' = seqMaxBatch p /\ cwrQueue p' = cwrQueue p
        /\ chans r.1 = chans t
        /\ ((0 < seqMax p)%N -> r.2 = Ok (seqMax p) /\ seqMax p' = seqMax p)
        /\ (seqMax p = 0%N -> buf = [] -> r.2 = Ok 0%N /\ seqMax p' = 0%N)
        /\ (seqMax p = 0%N -> length buf <> 0 -> length buf <> 8 ->
            (exists msg, r.2 = Err msg) /\ seqMax p' = 0%N)).
Proof.
  intros Hp Hv. split; [now apply BigEndian_roundtrip|].
  pose proof (update_obj_at t bdp (set_lastUUID uuid) p Hp) as H1.
  split.
  - cbn zeta. unfold OpaqueGet. rewrite H1. cbn [seqMax set_lastUUID].
    destruct (N.leb_spec (seqMax p) 0) as [Hz|Hpos].
    + replace (seqMax p =? 0)%N with true by (symmetry; apply N.eqb_eq; lia).
      cbn [length Nat.leb Nat.eqb negb fst snd].
      rewrite (BigEndian_roundtrip v Hv). split; [reflexivity|].
      now apply update_obj_at.
    + replace (seqMax p =? 0)%N with false by (symmetry; apply N.eqb_neq; lia).
      cbn [fst snd]. split; [reflexivity|]. rewrite H1. now destruct p.
  - cbn zeta. unfold OpaqueGet. rewrite H1. cbn [seqMax set_lastUUID].
    assert (Hempty : forall b : list N, length b <> 0 -> b <> [])
      by (intros b Hb ->; now apply Hb).
    destruct (N.leb_spec (seqMax p) 0) as [Hz|Hpos].
    + destruct (Nat.leb_spec (length buf) 0) as [Hl0|Hl0].
      * eexists. split; [exact H1|]. cbn [fst snd].
        rewrite update_obj_chans.
        cbn [lastUUID seqMaxBatch cwrQueue seqMax set_lastUUID].
        split_and!; auto; intros; try lia.
      * assert (Hne : buf <> []) by (apply Hempty; lia).
        destruct (Nat.eqb_spec (length buf) 8) as [Hl8|Hl8]; cbn [negb fst snd].
        -- eexists. split; [apply update_obj_at; exact H1|].
           rewrite !update_obj_chans.
           cbn [lastUUID seqMaxBatch cwrQueue seqMax set_lastUUID set_seqMax].
           split_and!; auto; intros; try lia; try contradiction.
        -- eexists. split; [exact H1|]. rewrite update_obj_chans.
           cbn [lastUUID seqMaxBatch cwrQueue seqMax set_lastUUID].
           split_and!; auto; intros; try lia; try contradiction.
           split; [eauto|assumption].
    + eexists. split; [exact H1|]. cbn [fst snd]. rewrite update_obj_chans.
      cbn [lastUUID seqMaxBatch cwrQueue seqMax set_lastUUID].
      split_and!; auto; intros; lia.
Qed.

Lemma X26_seqMax_restored_witness :
  (OpaqueGet (run (NewVLite true) [OpDest "0"]) 0 (Ok "uuid-1")
     (Ok (BigEndian_PutUint64 1000%N))).2 = Ok 1000%N.
Proof.
  apply (proj1 (proj2 (X26_seqMax_restored (run (NewVLite true) [OpDest "0"]) 0
                         (mkVLitePartition "0" 0 0 0 EmptyString [])
                         "uuid-1" 1000%N [] eq_refl eq_refl))).
Defined.

(** ** misc.go: what alias resolution returns *)

Section AliasExtras.
Context `{HA : AliasEnv}.

(** A handle that [bleveIndexAlias] gave for a defined index of a bleve
    type. *)
Local Abbreviation bleveHandle indexDefs h :=
  (exists targetName targetUUID targetDef,
      indexDefs !! targetName = Some targetDef
      /\ String.eqb (id_Type targetDef) "alias" = false
      /\ HasPrefix (id_Type targetDef) "bleve" = true
      /\ (targetUUID = EmptyString \/ targetUUID = id_UUID targetDef)
      /\ bleveIndexAlias targetName targetUUID = Ok h).

Lemma uuid_check (u v : string) :
  negb (String.eqb u EmptyString) && negb (String.eqb u v) = false ->
  u = EmptyString \/ u = v.
Proof.
  destruct (String.eqb_spec u EmptyString); [now left|].
  destruct (String.eqb_spec u v); [now right|discriminate].
Qed.

Lemma fillAlias_filled (fuel : nat) :
  forall indexDefs aliasName aliasUUID num alias num' alias',
    fillAlias fuel indexDefs aliasName aliasUUID num alias
    = AliasFilled num' alias' ->
    (exists aliasDef,
        indexDefs !! aliasName = Some aliasDef
        /\ id_Type aliasDef = "alias"
        /\ (aliasUUID = EmptyString \/ aliasUUID = id_UUID aliasDef))
    /\ exists added,
         alias' = alias ++ added
         /\ num' = (num + Z.of_nat (length added))%Z
         /\ (num' <= Z.max num (maxAliasTargets + 1))%Z
         /\ Forall (fun h => bleveHandle indexDefs h) added.
Proof.
  induction fuel as [|fuel IH];
    intros indexDefs aliasName aliasUUID num alias num' alias' H;
    [discriminate|].
  cbn [fillAlias] in H.
  destruct (indexDefs !! aliasName) as [d|] eqn:Hd; [|discriminate].
  destruct (String.eqb_spec (id_Type d) "alias") as [Ht|Ht];
    cbn [negb] in H; [|discriminate].
  destruct (negb (String.eqb aliasUUID EmptyString)
            && negb (String.eqb aliasUUID (id_UUID d))) eqn:Hu;
    [discriminate|].
  apply uuid_check in Hu.
  split; [eauto|].
  destruct (unmarshalAliasParams (id_Params d)) as [targets|]; [|discriminate].
  clear Hd Ht Hu. revert num alias H.
  induction targets as [|[tn ts] rest IHt]; intros num alias H.
  - injection H as <- <-. exists []. rewrite app_nil_r. cbn [length].
    split_and!; auto; lia.
  - destruct (Z.ltb_spec maxAliasTargets num) as [Hmax|Hmax]; [discriminate|].
    destruct (indexDefs !! tn) as [td|] eqn:Htd; [|discriminate].
    destruct (negb (String.eqb (IndexUUID ts) EmptyString)
              && negb (String.eqb (IndexUUID ts) (id_UUID td))) eqn:Hts;
      [discriminate|].
    apply uuid_check in Hts.
    destruct (String.eqb (id_Type td) "alias") eqn:Halias.
    + destruct (fillAlias fuel indexDefs tn (IndexUUID ts) num alias)
        as [num1 alias1| |] eqn:Hrec; try discriminate.
      destruct (IH _ _ _ _ _ _ _ Hrec) as (_ & add1 & -> & -> & Hb1 & Hf1).
      destruct (IHt _ _ H) as (add2 & -> & -> & Hb2 & Hf2).
      exists (add1 ++ add2). rewrite length_app, <- app_assoc.
      split_and!; auto; [lia|lia|]. apply Forall_app. auto.
    + destruct (HasPrefix (id_Type td) "bleve") eqn:Hbleve; [|discriminate].
      destruct (bleveIndexAlias tn (IndexUUID ts)) as [h|err] eqn:Hh;
        [|discriminate].
      destruct (IHt _ _ H) as (add2 & -> & -> & Hb2 & Hf2).
      exists (h :: add2). rewrite <- app_assoc. cbn [length app].
      split_and!; auto; [lia|lia|]. constructor; [|exact Hf2].
      exists tn, (IndexUUID ts), td. auto.
Qed.

Lemma fillAlias_more_fuel (fuel : nat) :
  forall indexDefs aliasName aliasUUID num alias r,
    fillAlias fuel indexDefs aliasName aliasUUID num alias = r ->
    r <> AliasUnfinished ->
    fillAlias (S fuel) indexDefs aliasName aliasUUID num alias = r.
Proof.
  induction fuel as [|fuel IH];
    intros indexDefs aliasName aliasUUID num alias r H Hr;
    [cbn [fillAlias] in H; congruence|].
  cbn [fillAlias] in H.
  remember (S fuel) as fuel1 eqn:Efuel in |- *. cbn [fillAlias]. subst fuel1.
  destruct (indexDefs !! aliasName) as [d|]; [|exact H].
  destruct (negb (String.eqb (id_Type d) "alias")); [exact H|].
  destruct (negb (String.eqb aliasUUID EmptyString)
            && negb (String.eqb aliasUUID (id_UUID d))); [exact H|].
  destruct (unmarshalAliasParams (id_Params d)) as [targets|]; [|exact H].
  revert num alias H.
  induction targets as [|[tn ts] rest IHt]; intros num alias H; [exact H|].
  destruct (maxAliasTargets <? num)%Z; [exact H|].
  destruct (indexDefs !! tn) as [td|]; [|exact H].
  destruct (negb (String.eqb (IndexUUID ts) EmptyString)
            && negb (String.eqb (IndexUUID ts) (id_UUID td))); [exact H|].
  destruct (String.eqb (id_Type td) "alias").
  - destruct (fillAlias fuel indexDefs tn (IndexUUID ts) num alias)
      as [num1 alias1|msg|] eqn:Hrec.
    + rewrite (IH _ _ _ _ _ _ Hrec) by discriminate. apply IHt. exact H.
    + rewrite (IH _ _ _ _ _ _ Hrec) by discriminate. exact H.
    + congruence.
  - destruct (HasPrefix (id_Type td) "bleve"); [|exact H].
    destruct (bleveIndexAlias tn (IndexUUID ts)); [|exact H].
    apply IHt. exact H.
Qed.

(** X27. What alias resolution returns.  When
    [bleveIndexAliasForUserIndexAlias] returns an alias, the name it was
    asked for is defined with type ["alias"] and with the asked UUID if
    one was given; every handle of the alias was given by
    [bleveIndexAlias] for a defined index of a bleve type, whose UUID
    matches the target's when that names one; the counter [num] equals
    the number of handles, and there are at most [maxAliasTargets + 1]
    of them, since the limit is tested before a target is taken.  A
    call that returns - with an alias or with an error - returns the
    same at any greater depth of nested calls. *)
Theorem X27_alias_result (fuel : nat)
    (cfgIndexDefs : result (gmap string IndexDef))
    (indexName indexUUID : string) (r : AliasOutcome) :
  bleveIndexAliasForUserIndexAlias fuel cfgIndexDefs indexName indexUUID = r ->
  r <> AliasUnfinished ->
  (forall more,
     bleveIndexAliasForUserIndexAlias (fuel + more) cfgIndexDefs indexName
       indexUUID = r)
  /\ (forall num alias,
        r = AliasFilled num alias ->
        num = Z.of_nat (length alias)
        /\ (num <= maxAliasTargets + 1)%Z
        /\ exists indexDefs aliasDef,
             cfgIndexDefs = Ok indexDefs
             /\ indexDefs !! indexName = Some aliasDef
             /\ id_Type aliasDef = "alias"
             /\ (indexUUID = EmptyString \/ indexUUID = id_UUID aliasDef)
             /\ Forall (fun h => bleveHandle indexDefs h) alias).
Proof.
  intros H Hr. split.
  - intros more. induction more as [|more IHm].
    + now rewrite Nat.add_0_r.
    + rewrite Nat.add_succ_r. unfold bleveIndexAliasForUserIndexAlias in *.
      destruct cfgIndexDefs as [indexDefs|err]; [|exact H].
      now apply fillAlias_more_fuel.
  - intros num alias ->. unfold bleveIndexAliasForUserIndexAlias in H.
    destruct cfgIndexDefs as [indexDefs|err]; [|discriminate].
    destruct (fillAlias_filled _ _ _ _ _ _ _ _ H)
      as ((d & Hd & Ht & Hu) & added & Ha & Hn & Hb & Hf).
    cbn [app] in Ha. subst added. split; [lia|]. split.
    + unfold maxAliasTargets in *. lia.
    + exists indexDefs, d. auto.
Qed.

End AliasExtras.

Lemma X27_alias_result_witness :
  @bleveIndexAliasForUserIndexAlias cycleAliasEnv (2 + 5) (Ok sampleAliasDefs)
    "top" "t1" = AliasFilled 1 ["A"].
Proof.
  apply (proj1 (@X27_alias_result cycleAliasEnv 2 (Ok sampleAliasDefs)
                  "top" "t1" (AliasFilled 1 ["A"]) eq_refl
                  ltac:(discriminate)) 5).
Defined.

(** ** planner.go: what CalcPlan returns *)

Section CalcPlanExtras.
Context `{HR : GoRand} `{HE : PlannerEnv}.

(** A definition that [CalcPlan] plans afresh. *)
Local Abbreviation planned server d :=
  (PlanFrozen (id_PlanParams d) = false
   /\ instantiatable (id_Type d) = true
   /\ exists arr, sourcePartitionsOf d server = Ok arr).

Lemma CalcPlan_step_warnings prev server layout defs0 pl rng d pl' rng' :
  ((forall name w, pps_Warnings pl !! name = Some w ->
      exists d0, d0 ∈ defs0 /\ id_Name d0 = name /\ planned server d0)
   /\ (forall d0, d0 ∈ defs0 -> planned server d0 ->
         is_Some (pps_Warnings pl !! id_Name d0))) ->
  CalcPlan_step prev server layout (Some (pl, rng)) d = Some (pl', rng') ->
  (forall name w, pps_Warnings pl' !! name = Some w ->
     exists d0, d0 ∈ defs0 ++ [d] /\ id_Name d0 = name /\ planned server d0)
  /\ (forall d0, d0 ∈ defs0 ++ [d] -> planned server d0 ->
        is_Some (pps_Warnings pl' !! id_Name d0))
  /\ pps_UUID pl' = pps_UUID pl /\ pps_ImplVersion pl' = pps_ImplVersion pl.
Proof.
  intros (HP & HQ) E.
  assert (Hold : forall name w, pps_Warnings pl !! name = Some w ->
                 exists d0, d0 ∈ defs0 ++ [d] /\ id_Name d0 = name
                            /\ planned server d0).
  { intros name w H. destruct (HP name w H) as (d0 & Hin & Hrest).
    exists d0. split; [apply elem_of_app; now left|exact Hrest]. }
  destruct (CalcPlan_step_cases prev server layout pl rng d)
    as [(Hfz & Er)|[(Hfz & Hno & Er)
                   |(Hfz & Hinst & arr & Harr
                     & [[_ Er]|(st & Hsplit & Er)])]];
    cbn zeta in Er; rewrite Er in E.
  - injection E as <- <-. cbn [pps_Warnings set_pps_PlanPIndexes pps_UUID
                                 pps_ImplVersion].
    split_and!; auto. intros d0 Hin Hpl.
    apply elem_of_app in Hin as [Hin|Hin]; [now apply HQ|].
    apply list_elem_of_singleton in Hin. subst d0.
    destruct Hpl as (Hnf & _). congruence.
  - injection E as <- <-. split_and!; auto. intros d0 Hin Hpl.
    apply elem_of_app in Hin as [Hin|Hin]; [now apply HQ|].
    apply list_elem_of_singleton in Hin. subst d0.
    destruct Hpl as (_ & Hi & arr & Harr).
    destruct Hno as [Hno|[err Herr]]; congruence.
  - discriminate.
  - destruct (BlancePlanPIndexes d (planPIndexesForIndex st) prev layout)
      as [[forIndex warnings]|]; [|discriminate].
    injection E as <- <-.
    destruct (proj2 (Split_state d server pl rng arr Harr) _ Hsplit)
      as (st' & Est & _ & _ & _ & _ & Hu & Hv & Hwarn).
    injection Est as <-.
    cbn [pps_Warnings set_pps_PlanPIndexes set_pps_Warnings pps_UUID
           pps_ImplVersion].
    rewrite Hwarn. split_and!; auto.
    + intros name w Hw. destruct (decide (name = id_Name d)) as [->|Hne].
      * exists d. split; [apply elem_of_app; right; left|]. eauto.
      * rewrite lookup_insert_ne in Hw by congruence. eauto.
    + intros d0 Hin Hpl.
      destruct (decide (id_Name d0 = id_Name d)) as [->|Hne].
      * rewrite lookup_insert_eq. eauto.
      * rewrite lookup_insert_ne by congruence.
        apply elem_of_app in Hin as [Hin|Hin]; [now apply HQ|].
        apply list_elem_of_singleton in Hin. congruence.
Qed.

(** X25. What [CalcPlan] returns.  Without index definitions or node
    definitions it returns nil and draws no UUID.  Otherwise, when the
    placement library returns no partition that it was not given,
    [CalcPlan] returns on every source whose draws fit [NewUUID]; and
    whenever it returns, it returns a plan that carries the UUID drawn
    first and the version it was given, and that holds a warnings entry,
    possibly empty, under the name of every definition that is planned
    afresh - not frozen, of a type that can be instantiated and with a
    data source that lists its partitions - and under no other name. *)
Theorem X25_calc_plan_result (defs : list IndexDef) (nodes : list NodeDef)
    (prev : option PlanPIndexes) (version server : string) (rng : nat) :
  PlanNextMap_keeps_partitions ->
  CalcPlan None (Some nodes) prev version server rng = Some (None, rng)
  /\ CalcPlan (Some defs) None prev version server rng = Some (None, rng)
  /\ (uuidsFit ->
      exists plan rng',
        CalcPlan (Some defs) (Some nodes) prev version server rng
        = Some (Some plan, rng'))
  /\ (forall res,
        CalcPlan (Some defs) (Some nodes) prev version server rng = Some res ->
        exists plan rng' uuid,
          res = (Some plan, rng')
          /\ NewUUID rng = Some (uuid, S (S rng))
          /\ pps_UUID plan = uuid
          /\ pps_ImplVersion plan = version
          /\ (forall name,
                is_Some (pps_Warnings plan !! name)
                <-> exists d, d ∈ defs /\ id_Name d = name /\ planned server d)).
Proof.
  intros Hk. split; [reflexivity|]. split; [reflexivity|].
  split; [now apply CalcPlan_returns|].
  intros res Hres.
  destruct (CalcPlan_inv _ _ _ _ _ _ _ Hres)
    as (uuid & plan & rng' & -> & Hdraw & Ef).
  exists plan, rng', uuid.
  split; [reflexivity|]. split; [exact Hdraw|].
  set (pl0 := mkPlanPIndexes uuid ∅ version ∅) in Ef.
  assert (H : (forall name w, pps_Warnings plan !! name = Some w ->
                 exists d, d ∈ [] ++ defs /\ id_Name d = name
                           /\ planned server d)
              /\ (forall d, d ∈ [] ++ defs -> planned server d ->
                    is_Some (pps_Warnings plan !! id_Name d))
              /\ pps_UUID plan = pps_UUID pl0
              /\ pps_ImplVersion plan = pps_ImplVersion pl0).
  { refine (CalcPlan_fold_inv
              (fun ds pl =>
                 (forall name w, pps_Warnings pl !! name = Some w ->
                    exists d, d ∈ ds /\ id_Name d = name /\ planned server d)
                 /\ (forall d, d ∈ ds -> planned server d ->
                       is_Some (pps_Warnings pl !! id_Name d))
                 /\ pps_UUID pl = pps_UUID pl0
                 /\ pps_ImplVersion pl = pps_ImplVersion pl0)
              prev server _ _ defs [] pl0 _ plan rng' _ Ef).
    - intros defs0 pl r d pl' r' (P1 & P2 & P3 & P4) Hstep.
      destruct (CalcPlan_step_warnings prev server _ defs0 pl r d pl' r'
                  (conj P1 P2) Hstep)
        as (Q1 & Q2 & Q3 & Q4).
      split_and!; auto; congruence.
    - split_and!; auto.
      + intros name w Hw. cbn in Hw. rewrite lookup_empty in Hw. discriminate.
      + intros d Hin. inversion Hin. }
  cbn [app] in H. destruct H as (H1 & H2 & H3 & H4).
  split_and!; auto. intros name. split.
  - intros [w Hw]. eauto.
  - intros (d & Hin & <- & Hpl). auto.
Qed.

End CalcPlanExtras.

Lemma X25_calc_plan_result_witness :
  exists plan rng',
    @CalcPlan sampleRand sampleEnv (Some [sampleIndexDefJ 4])
      (Some sampleNodes) (Some samplePrevPlan) "1.0" "srv" 0
    = Some (Some plan, rng')
    /\ pps_ImplVersion plan = "1.0".
Proof.
  destruct (@X25_calc_plan_result sampleRand sampleEnv [sampleIndexDefJ 4]
              sampleNodes (Some samplePrevPlan) "1.0" "srv" 0
              sampleEnv_keeps_partitions)
    as (_ & _ & Hret & Hres).
  destruct (Hret sampleRand_fits) as (plan & rng' & E).
  exists plan, rng'. split; [exact E|].
  destruct (Hres _ E) as (plan2 & rng2 & uuid & E2 & _ & _ & Hv & _).
  injection E2 as <- <-. exact Hv.
Defined.

(** ** pindex_impl_vlite.go: what Query writes *)

Lemma append_nil_r (s : string) : s +:+ EmptyString = s.
Proof.
  induction s as [|c s IH]; [reflexivity|]. rewrite append_cons. now rewrite IH.
Qed.

(** A callback that takes every item sees the items that a recording
    callback records. *)
Lemma visitItems_always {C : Type} (cb : C -> Item -> C * bool)
    (f : C -> Item -> C) (p : VLiteQueryParams) (e : string) (c0 : C)
    (items : list Item) :
  (forall c i, cb c i = (f c i, true)) ->
  forall (n : N) (c : C) (l : list Item),
    c = foldl f c0 l ->
    (visitItems (queryVisitor cb p e) (n, c) items).2
    = foldl f c0
        (visitItems (queryVisitor (fun c i => (c ++ [i], true)) p e) (n, l)
           items).2.
Proof.
  intros Hcb.
  induction items as [|i items IH]; intros n c l Hc; cbn [visitItems].
  - exact Hc.
  - unfold queryVisitor at 1 3. rewrite Hcb.
    destruct (negb ((String.length e <=? 0) || String.ltb (item_Key i) e));
      [exact Hc|].
    destruct (qp_Skip p <? uint64 (n + 1))%N; cbn [negb].
    + destruct ((qp_Limit p <=? 0)%N
                || (uint64 (n + 1) <? uint64 (qp_Skip p + qp_Limit p))%N).
      * apply IH. rewrite foldl_app. cbn [foldl]. now rewrite Hc.
      * cbn [snd]. rewrite foldl_app. cbn [foldl]. now rewrite Hc.
    + destruct ((qp_Limit p <=? 0)%N
                || (uint64 (n + 1) <? uint64 (qp_Skip p + qp_Limit p))%N).
      * now apply IH.
      * exact Hc.
Qed.

Lemma QueryMainColl_always {C : Type} (cb : C -> Item -> C * bool)
    (f : C -> Item -> C) (path : string) (p : VLiteQueryParams)
    (items : list Item) (c : C) :
  (forall c i, cb c i = (f c i, true)) ->
  StronglySorted (fun a b => strLe (item_Key a) (item_Key b)) items ->
  (qp_Skip p + qp_Limit p < 2 ^ 64)%N ->
  (N.of_nat (length items) < 2 ^ 64)%N ->
  QueryMainColl cb path p items c
  = foldl f c
      (window p (filter (fun i => inRange (queryRange path p) (item_Key i))
                        items)).
Proof.
  intros Hcb Hsorted Hsum Hlen. unfold QueryMainColl, VisitItemsAscend.
  pose proof (visit_window p (queryRange path p) items 0 [] Hsorted Hsum Hlen)
    as H.
  destruct (queryRange path p) as [s e] eqn:Eb. cbn [fst snd] in H.
  change (N.of_nat 0) with 0%N in H.
  rewrite (visitItems_always cb f p e c _ Hcb 0%N c [] eq_refl).
  rewrite H.
  2:{ destruct (N.eq_dec (qp_Limit p) 0%N); [now left|right; lia]. }
  cbn [app]. unfold window. rewrite !Nat.sub_0_r.
  destruct (qp_Limit p =? 0)%N; [reflexivity|].
  now rewrite take_drop_commute.
Qed.

Section QueryOutput.

Variable marshal : string -> string.
Variable jsonCloseBrace : string.

Local Abbreviation entry := (queryEntry marshal jsonCloseBrace).
Local Abbreviation sep := (String (ascii_of_nat 10) ",").

Lemma concat_cons2 (s x y : string) (l : list string) :
  String.concat s (x :: y :: l) = x +:+ s +:+ String.concat s (y :: l).
Proof. reflexivity. Qed.

Lemma Query_cb_step (first : bool) (w : string) (i : Item) :
  (Query_cb marshal jsonCloseBrace (first, w) i).1
  = (false, w +:+ (if first then EmptyString else sep) +:+ entry i).
Proof.
  cbn [Query_cb fst]. unfold queryEntry, entryKeyPrefixSep. f_equal.
  destruct first; rewrite ?append_nil_l, !append_assoc; reflexivity.
Qed.

Lemma Query_cb_rest (l : list Item) : forall i w,
  foldl (fun c i => (Query_cb marshal jsonCloseBrace c i).1) (false, w)
        (i :: l)
  = (false, w +:+ sep +:+ String.concat sep (map entry (i :: l))).
Proof.
  induction l as [|j l IH]; intros i w.
  - cbn [foldl]. now rewrite Query_cb_step.
  - change (foldl (fun c i => (Query_cb marshal jsonCloseBrace c i).1)
              (false, w) (i :: j :: l))
      with (foldl (fun c i => (Query_cb marshal jsonCloseBrace c i).1)
              ((Query_cb marshal jsonCloseBrace (false, w) i).1) (j :: l)).
    rewrite Query_cb_step, IH.
    change (map entry (i :: j :: l)) with (entry i :: entry j :: map entry l).
    rewrite concat_cons2. change (entry j :: map entry l)
      with (map entry (j :: l)).
    now rewrite !append_assoc.
Qed.

Lemma Query_cb_all (l : list Item) (w : string) :
  (foldl (fun c i => (Query_cb marshal jsonCloseBrace c i).1) (true, w) l).2
  = w +:+ String.concat sep (map entry l).
Proof.
  destruct l as [|i l].
  - cbn [foldl map String.concat snd]. now rewrite append_nil_r.
  - change (foldl (fun c i => (Query_cb marshal jsonCloseBrace c i).1)
              (true, w) (i :: l))
      with (foldl (fun c i => (Query_cb marshal jsonCloseBrace c i).1)
              ((Query_cb marshal jsonCloseBrace (true, w) i).1) l).
    rewrite Query_cb_step, append_nil_l.
    destruct l as [|j l]; [reflexivity|].
    rewrite Query_cb_rest. cbn [snd].
    change (map entry (i :: j :: l)) with (entry i :: entry j :: map entry l).
    rewrite concat_cons2. now rewrite !append_assoc.
Qed.

(** X28. What [Query] writes.  When the request does not parse, or the
    consistency wait fails, [Query] returns the error and writes
    nothing.  Otherwise, over a main collection in ascending key order,
    it writes the opening of the results, the entries of the items that
    the bounds, [Skip] and [Limit] select, in ascending key order and
    separated by a newline and a comma, and the closing; the entry of
    an item is the key prefix, the marshalled key, the value prefix, the
    marshalled value and the closing brace.  ([Skip + Limit] and the
    number of items are below 2^64.) *)
Theorem X28_query_output (path : string) (p : VLiteQueryParams)
    (items : list Item) (w : string) :
  StronglySorted (fun a b => strLe (item_Key a) (item_Key b)) items ->
  (qp_Skip p + qp_Limit p < 2 ^ 64)%N ->
  (N.of_nat (length items) < 2 ^ 64)%N ->
  Query marshal jsonCloseBrace path (Ok p) None items w
  = ((w +:+ "{" +:+ dquote +:+ "results" +:+ dquote +:+ ":[") +:+
     String.concat sep
       (map entry
          (window p (filter (fun i => inRange (queryRange path p) (item_Key i))
                            items))) +:+
     "]}", None)
  /\ (forall err, Query marshal jsonCloseBrace path (Ok p) (Some err) items w
                  = (w, Some err))
  /\ (forall msg, exists err,
        Query marshal jsonCloseBrace path (Err msg) None items w
        = (w, Some err)).
Proof.
  intros Hsorted Hsum Hlen. split; [|split; [reflexivity|eexists; reflexivity]].
  unfold Query.
  rewrite (QueryMainColl_always (Query_cb marshal jsonCloseBrace)
             (fun c i => (Query_cb marshal jsonCloseBrace c i).1)
             path p items _) by (auto; intros [? ?] ?; reflexivity).
  pose proof (Query_cb_all
                (window p (filter (fun i => inRange (queryRange path p)
                                                    (item_Key i)) items))
                (w +:+ "{" +:+ dquote +:+ "results" +:+ dquote +:+ ":["))
    as Hall.
  destruct (foldl _ _ _) as [first w1]. cbn [snd] in Hall. subst w1.
  now rewrite !append_assoc.
Qed.

End QueryOutput.

Lemma X28_query_output_witness :
  (Query (fun s => dquote +:+ s +:+ dquote) "}" EmptyString
     (Ok (mkVLiteQueryParams 2 1 "b" EmptyString EmptyString)) None
     sampleItems EmptyString).2 = None.
Proof.
  rewrite (proj1 (X28_query_output (fun s => dquote +:+ s +:+ dquote) "}"
                    EmptyString
                    (mkVLiteQueryParams 2 1 "b" EmptyString EmptyString)
                    sampleItems EmptyString sampleItems_sorted
                    eq_refl eq_refl)).
  reflexivity.
Defined.
